(** * LZ4 block decompression (lib/lz4/lz4_decompress.c)

    A shallow embedding of [LZ4_decompress_generic] and of its two
    instantiations [LZ4_decompress_safe] and [LZ4_decompress_fast].

    Memory is one flat byte-addressed store; pointers are addresses in [Z].
    Every store to memory is recorded in a ghost write log, and every match
    copy that is started is recorded in a ghost match log, so that properties
    about where the decoder writes can be stated on the final state.  Neither
    log is ever read by the decoder.

    The decoder is given twice.  The definitions at the top level take the
    sum of a pointer and a length as the exact integer: they are the decoder
    as long as no such sum leaves the address space, and the properties of
    its stages are proved on them.  The module [M64] has the same functions
    with every pointer reduced modulo 2^64, as a 64-bit machine computes
    them; what bounds the stores or the result of a whole run is stated on
    it.  In safe mode, with buffers clear of the ends of the address space,
    the two are the same function ([M64_generic_eq]).

    The [goto] labels of the C function become functions named after them:
    [safe_literal_copy], [copy_match] (for [_copy_match]), [safe_match_copy]
    and [output_error] (for [_output_error]). *)

From Stdlib Require Import ZArith List Bool Lia.
From Stdlib.Strings Require Import Byte.
Import ListNotations.
Local Open Scope Z_scope.

(** ** Constants and directives of lz4defs.h *)

(** lz4defs.h is not part of the sources at hand.  What the decoder takes
    from it is modelled from the specification, each definition saying so:
    the constants (section 6), the overlap tables (section 9), the
    directives (section 4.1) and, further down, the copy and read helpers. *)

(** Modelled from the spec: [KB], the factor of "64 KiB" (section 4.1). *)
Definition KB : Z := 1024.
(** Modelled from the spec: [ML_BITS = 4] (section 6). *)
Definition ML_BITS : Z := 4.
(** Modelled from the spec: [ML_MASK = 0x0F] (section 6). *)
Definition ML_MASK : Z := 15.
(** Modelled from the spec: [RUN_MASK = 0x0F] (section 6). *)
Definition RUN_MASK : Z := 15.
(** Modelled from the spec: [MINMATCH = 4] (section 6). *)
Definition MINMATCH : Z := 4.
(** Modelled from the spec: [WILDCOPYLENGTH = 8] (section 6). *)
Definition WILDCOPYLENGTH : Z := 8.
(** Modelled from the spec: [LASTLITERALS = 5] (section 6). *)
Definition LASTLITERALS : Z := 5.
(** Modelled from the spec: [MFLIMIT = 12] (section 6). *)
Definition MFLIMIT : Z := 12.
(** Modelled from the spec: [MATCH_SAFEGUARD_DISTANCE = 12] (section 6). *)
Definition MATCH_SAFEGUARD_DISTANCE : Z := 12.

(** lz4_decompress.c, line 67. *)
Definition FASTLOOP_SAFE_DISTANCE : Z := 64.

(** Modelled from the spec: the table [inc32table] of lz4defs.h, given in
    the design notes as inc32 = [0,1,2,1,4,4,4,4]. *)
Definition inc32table (offset : Z) : Z :=
  nth (Z.to_nat offset) [0; 1; 2; 1; 4; 4; 4; 4] 0.
(** Modelled from the spec: the table [dec64table] of lz4defs.h, given in
    the design notes as dec64 = [0,0,0,-1,0,1,2,3]. *)
Definition dec64table (offset : Z) : Z :=
  nth (Z.to_nat offset) [0; 0; 0; -1; 0; 1; 2; 3] 0.

(** Modelled from the spec: [endCondition_directive] of lz4defs.h, the
    directive [end_on] of section 4.1. *)
Inductive endCondition_directive := endOnOutputSize | endOnInputSize.
(** Modelled from the spec: [earlyEnd_directive] of lz4defs.h, the directive
    [partial] of section 4.1. *)
Inductive earlyEnd_directive := decode_full_block | partial_decode.
(** Modelled from the spec: [dict_directive] of lz4defs.h, the directive
    [dict] of section 4.1, with the external dictionary that the comments of
    [LZ4_decompress_generic] mention and no entry point uses. *)
Inductive dict_directive := noDict | withPrefix64k | usingExtDict.

(** The C code tests [endOnInput] and [partialDecoding] as truth values,
    [endOnOutputSize] and [decode_full_block] being 0. *)
Definition end_on_input (d : endCondition_directive) : bool :=
  match d with endOnInputSize => true | endOnOutputSize => false end.
Definition is_partial (d : earlyEnd_directive) : bool :=
  match d with partial_decode => true | decode_full_block => false end.
Definition is_withPrefix64k (d : dict_directive) : bool :=
  match d with withPrefix64k => true | _ => false end.

(** ** Machine integers *)

(** [uptrval] and [size_t] are taken 64 bits wide, as on x86_64 and
    aarch64; [int] and [unsigned] are 32 bits wide. *)
Definition uptrval (x : Z) : Z := x mod 2 ^ 64.
Definition size_t (x : Z) : Z := x mod 2 ^ 64.
Definition to_int (x : Z) : Z := (x + 2 ^ 31) mod 2 ^ 32 - 2 ^ 31.
Definition u32 (x : Z) : Z := x mod 2 ^ 32.

(** The test [(uptrval)p + length < (uptrval)p] of the overflow detections. *)
Definition ptr_overflow (p length : Z) : bool :=
  uptrval (uptrval p + length) <? uptrval p.

(** ** Memory *)

Definition u8 (b : byte) : Z := Z.of_N (Byte.to_N b).

Record heap := mkHeap {
  cell : Z -> byte;      (* the contents of memory *)
  wlog : list Z          (* ghost: every address stored to, latest first *)
}.

Definition store (h : heap) (a : Z) (b : byte) : heap :=
  mkHeap (fun x => if x =? a then b else cell h x) (a :: wlog h).

Fixpoint store_bytes (h : heap) (d : Z) (bs : list byte) : heap :=
  match bs with
  | [] => h
  | b :: bs' => store_bytes (store h d b) (d + 1) bs'
  end.

Definition load_bytes (h : heap) (s : Z) (n : nat) : list byte :=
  map (fun i => cell h (s + Z.of_nat i)) (seq 0 n).

(** [memcpy] and [LZ4_memmove]: the source bytes are read, then written.  C
    leaves [memcpy] undefined on overlapping regions; the model gives it the
    result of [memmove] there. *)
Definition memcpy (h : heap) (d s n : Z) : heap :=
  store_bytes h d (load_bytes h s (Z.to_nat n)).
Definition LZ4_memmove := memcpy.

(** Modelled from the spec: [LZ4_copy8] of lz4defs.h, an 8-byte memcpy. *)
Definition LZ4_copy8 (h : heap) (d s : Z) : heap := memcpy h d s 8.

(** Modelled from the spec: [LZ4_readLE16] of lz4defs.h; offsets are
    little-endian 16-bit values (section 6). *)
Definition LZ4_readLE16 (h : heap) (a : Z) : Z :=
  Z.lor (u8 (cell h a)) (Z.shiftl (u8 (cell h (a + 1))) 8).

(** [while (d < e) *d++ = *s++;] the byte loops of the match copies.  The
    count bounds the number of iterations and is never exhausted when it is
    [e - d]. *)
Fixpoint byte_loop (k : nat) (h : heap) (d s e : Z) : heap :=
  match k with
  | O => h
  | S k' => if d <? e then byte_loop k' (store h d (cell h s)) (d + 1) (s + 1) e
            else h
  end.
Definition copy_bytes_until (h : heap) (d s e : Z) : heap :=
  byte_loop (Z.to_nat (e - d)) h d s e.

(** Modelled from the spec: [LZ4_wildCopy8] of lz4defs.h, the 8-byte sibling
    of [LZ4_wildCopy32] below: it copies 8 bytes at a time until the
    destination reaches [e], so it writes at least 8 bytes and may overwrite
    up to 7 bytes beyond [e]. *)
Fixpoint wildCopy8_loop (k : nat) (h : heap) (d s e : Z) : heap :=
  let h' := memcpy h d s 8 in
  match k with
  | O => h'
  | S k' => if d + 8 <? e then wildCopy8_loop k' h' (d + 8) (s + 8) e else h'
  end.
Definition LZ4_wildCopy8 (h : heap) (d s e : Z) : heap :=
  wildCopy8_loop (Z.to_nat (e - d)) h d s e.

(** lz4_decompress.c, [LZ4_wildCopy32]: two 16-byte copies per round. *)
Fixpoint wildCopy32_loop (k : nat) (h : heap) (d s e : Z) : heap :=
  let h1 := memcpy h d s 16 in
  let h2 := memcpy h1 (d + 16) (s + 16) 16 in
  match k with
  | O => h2
  | S k' => if d + 32 <? e then wildCopy32_loop k' h2 (d + 32) (s + 32) e else h2
  end.
Definition LZ4_wildCopy32 (h : heap) (d s e : Z) : heap :=
  wildCopy32_loop (Z.to_nat (e - d)) h d s e.

(** lz4_decompress.c, [LZ4_memcpy_using_offset_base]. *)
Definition LZ4_memcpy_using_offset_base (h : heap) (dstPtr srcPtr dstEnd offset : Z)
  : heap :=
  if offset <? 8 then
    let h := store h dstPtr (cell h srcPtr) in
    let h := store h (dstPtr + 1) (cell h (srcPtr + 1)) in
    let h := store h (dstPtr + 2) (cell h (srcPtr + 2)) in
    let h := store h (dstPtr + 3) (cell h (srcPtr + 3)) in
    let srcPtr := srcPtr + inc32table offset in
    let h := memcpy h (dstPtr + 4) srcPtr 4 in
    let srcPtr := srcPtr - dec64table offset in
    LZ4_wildCopy8 h (dstPtr + 8) srcPtr dstEnd
  else
    let h := memcpy h dstPtr srcPtr 8 in
    LZ4_wildCopy8 h (dstPtr + 8) (srcPtr + 8) dstEnd.

(** The [copy_loop] of [LZ4_memcpy_using_offset]: the 8-byte pattern [v] is
    written once, then again while [dstPtr < dstEnd]. *)
Fixpoint pattern_loop (k : nat) (h : heap) (d : Z) (v : list byte) (e : Z) : heap :=
  let h' := store_bytes h d v in
  match k with
  | O => h'
  | S k' => if d + 8 <? e then pattern_loop k' h' (d + 8) v e else h'
  end.

(** lz4_decompress.c, [LZ4_memcpy_using_offset].  The local array [v] is a
    list of 8 bytes. *)
Definition LZ4_memcpy_using_offset (h : heap) (dstPtr srcPtr dstEnd offset : Z)
  : heap :=
  if offset =? 1 then
    pattern_loop (Z.to_nat (dstEnd - dstPtr)) h dstPtr
                 (repeat (cell h srcPtr) 8) dstEnd
  else if offset =? 2 then
    let v2 := load_bytes h srcPtr 2 in
    let v4 := v2 ++ v2 in
    pattern_loop (Z.to_nat (dstEnd - dstPtr)) h dstPtr (v4 ++ v4) dstEnd
  else if offset =? 4 then
    let v4 := load_bytes h srcPtr 4 in
    pattern_loop (Z.to_nat (dstEnd - dstPtr)) h dstPtr (v4 ++ v4) dstEnd
  else
    LZ4_memcpy_using_offset_base h dstPtr srcPtr dstEnd offset.

(** ** Variable-length fields *)

(** Modelled from the spec: [variable_length_error] of lz4defs.h.  The
    decoder names [ok] and [initial_error]; a failure inside the loop is
    signalled distinctly, as [loop_error]. *)
Inductive variable_length_error := loop_error | initial_error | ok.

(** Modelled from the spec: [read_variable_length] of lz4defs.h (section
    4.3): read one byte at a time, add each to the running sum, stop at the
    first byte that is not 0xFF; with [initial_check] fail at once when the
    cursor is already at the limit, with [loop_check] fail when the cursor
    reaches the limit after a read.  Section 4.3 also asks that an overflow
    of the running sum be signalled; the reader of the LZ4 sources this
    decoder is taken from signals none: its sum is an [unsigned], 32 bits
    wide, which wraps, and that is what is modelled here.  The result is
    the sum, the new cursor and the error code; [None] when the fuel does
    not cover the run of 0xFF bytes. *)
Fixpoint read_variable_length_loop (fuel : nat) (h : heap) (ip lencheck : Z)
  (loop_check : bool) (length : Z) : option (Z * Z * variable_length_error) :=
  match fuel with
  | O => None
  | S fuel' =>
      let s := u8 (cell h ip) in
      let ip := ip + 1 in
      let length := u32 (length + s) in
      if loop_check && (ip >=? lencheck) then Some (length, ip, loop_error)
      else if s =? 255 then
        read_variable_length_loop fuel' h ip lencheck loop_check length
      else Some (length, ip, ok)
  end.

(** Modelled from the spec: [read_variable_length] itself, the initial
    check and then the loop. *)
Definition read_variable_length (fuel : nat) (h : heap) (ip lencheck : Z)
  (loop_check initial_check : bool) : option (Z * Z * variable_length_error) :=
  if initial_check && (ip >=? lencheck) then Some (0, ip, initial_error)
  else read_variable_length_loop fuel h ip lencheck loop_check 0.

Definition is_ok (e : variable_length_error) : bool :=
  match e with ok => true | _ => false end.
Definition is_initial_error (e : variable_length_error) : bool :=
  match e with initial_error => true | _ => false end.

(** ** The decoder *)

(** The arguments of [LZ4_decompress_generic].  [src], [dst], [lowPrefix]
    and [dictStart] are addresses. *)
Record params := mkParams {
  src : Z;
  dst : Z;
  srcSize : Z;
  outputSize : Z;
  endOnInput : endCondition_directive;
  partialDecoding : earlyEnd_directive;
  dict : dict_directive;
  lowPrefix : Z;
  dictStart : Z;
  dictSize : Z
}.

(** A match copy that was started: where, with which offset, how long. *)
Record match_event := mkMatch { m_op : Z; m_offset : Z; m_length : Z }.

(** The variables of the decoder that live across the stages of the loop
    body: the two cursors, memory, and the ghost log of match copies. *)
Record state := mkState {
  ip : Z;
  op : Z;
  hp : heap;
  mlog : list match_event
}.

(** How one pass through the body of the main loop ends. *)
Inductive flow :=
| Continue (s : state)       (* next sequence *)
| Break (s : state)          (* [break]: end of decoding *)
| OutputError (s : state)    (* [goto _output_error] *)
| Starved.                   (* the fuel ran out inside a variable length *)

(** How one pass through the body of the fast loop ends: in the fast loop
    again, or inside the body of the main loop, which it entered through
    [safe_literal_copy] or [safe_match_copy]. *)
Inductive fast_flow :=
| Fast (s : state)
| Safe (f : flow).

(** What the function returns, with the variables at that point. *)
Inductive outcome :=
| Returned (ret : Z) (s : state)
| OutOfFuel.

Section Generic.

(** [LZ4_FAST_DEC_LOOP], set by the target architecture. *)
Variable LZ4_FAST_DEC_LOOP : bool.
Variable p : params.

Definition iend : Z := src p + srcSize p.
Definition oend : Z := dst p + outputSize p.

Definition endIn : bool := end_on_input (endOnInput p).
Definition partial : bool := is_partial (partialDecoding p).

Definition safeDecode : bool := endIn.
Definition checkOffset : bool := safeDecode && (dictSize p <? 64 * KB).

Definition shortiend : Z := iend - (if endIn then 14 else 8) - 2.
Definition shortoend : Z := oend - (if endIn then 14 else 8) - 18.

Definition set_ip (s : state) (v : Z) : state := mkState v (op s) (hp s) (mlog s).
Definition set_op (s : state) (v : Z) : state := mkState (ip s) v (hp s) (mlog s).
Definition set_hp (s : state) (h : heap) : state := mkState (ip s) (op s) h (mlog s).
Definition log_match (s : state) (offset length : Z) : state :=
  mkState (ip s) (op s) (hp s) (mkMatch (op s) offset length :: mlog s).

(** Lines 586-597: the first 8 bytes of a match; the result is the memory
    and the source pointer for the bytes that follow. *)
Definition copy_match_head (h : heap) (op match_ offset : Z) : heap * Z :=
  if offset <? 8 then
    let h := store h op (cell h match_) in
    let h := store h (op + 1) (cell h (match_ + 1)) in
    let h := store h (op + 2) (cell h (match_ + 2)) in
    let h := store h (op + 3) (cell h (match_ + 3)) in
    let match_ := match_ + inc32table offset in
    let h := memcpy h (op + 4) match_ 4 in
    (h, match_ - dec64table offset)
  else
    (LZ4_copy8 h op match_, match_ + 8).

(** Label [safe_match_copy], lines 559-625: copy the match within the block. *)
Definition safe_match_copy (s : state) (length offset match_ : Z) : flow :=
  let s := log_match s offset length in
  let cpy := op s + length in
  if partial && (cpy >? oend - MATCH_SAFEGUARD_DISTANCE) then
    let mlen := Z.min length (size_t (oend - op s)) in
    let matchEnd := match_ + mlen in
    let copyEnd := op s + mlen in
    let h := if matchEnd >? op s
             then copy_bytes_until (hp s) (op s) match_ copyEnd
             else memcpy (hp s) (op s) match_ mlen in
    let s := set_op (set_hp s h) copyEnd in
    if op s =? oend then Break s else Continue s
  else
    let '(h, match_) := copy_match_head (hp s) (op s) match_ offset in
    let s := set_op (set_hp s h) (op s + 8) in
    if cpy >? oend - MATCH_SAFEGUARD_DISTANCE then
      let oCopyLimit := oend - (WILDCOPYLENGTH - 1) in
      if cpy >? oend - LASTLITERALS then OutputError s
      else
        let '(h, match_, op1) :=
          if op s <? oCopyLimit
          then (LZ4_wildCopy8 (hp s) (op s) match_ oCopyLimit,
                match_ + (oCopyLimit - op s), oCopyLimit)
          else (hp s, match_, op s) in
        let h := copy_bytes_until h op1 match_ cpy in
        Continue (set_op (set_hp s h) cpy)
    else
      let h := LZ4_copy8 (hp s) (op s) match_ in
      let h := if length >? 16
               then LZ4_wildCopy8 h (op s + 8) (match_ + 8) cpy else h in
      Continue (set_op (set_hp s h) cpy).

(** Lines 536-553: the match length, once the offset has been accepted. *)
Definition copy_match_length (fuel : nat) (s : state) (length offset match_ : Z)
  : flow :=
  if length =? ML_MASK then
    match read_variable_length fuel (hp s) (ip s) (iend - LASTLITERALS + 1)
                               endIn false with
    | None => Starved
    | Some (n, ip', error) =>
        let s := set_ip s ip' in
        let length := length + n in
        if negb (is_ok error) then OutputError s
        else if safeDecode && ptr_overflow (op s) length then OutputError s
        else safe_match_copy s (length + MINMATCH) offset match_
    end
  else safe_match_copy s (length + MINMATCH) offset match_.

(** The test of lines 531-534. *)
Definition offset_out_of_range (match_ : Z) : bool :=
  checkOffset && (match_ + dictSize p <? lowPrefix p).

(** Label [_copy_match], lines 530-625. *)
Definition copy_match (fuel : nat) (s : state) (length offset match_ : Z) : flow :=
  if offset_out_of_range match_ then OutputError s
  else copy_match_length fuel s length offset match_.

(** Lines 522-528: get the offset and the match length seed. *)
Definition get_offset (fuel : nat) (s : state) (token : Z) : flow :=
  let offset := LZ4_readLE16 (hp s) (ip s) in
  let s := set_ip s (ip s + 2) in
  let match_ := op s - offset in
  let length := Z.land token ML_MASK in
  copy_match fuel s length offset match_.

(** The test of lines 457-460. *)
Definition near_end (s : state) (length cpy : Z) : bool :=
  (endIn && ((cpy >? oend - MFLIMIT)
             || (ip s + length >? iend - (2 + 1 + LASTLITERALS))))
  || (negb endIn && (cpy >? oend - WILDCOPYLENGTH)).

(** Label [safe_literal_copy], lines 453-528, and on to the match. *)
Definition safe_literal_copy (fuel : nat) (s : state) (token length cpy : Z) : flow :=
  if near_end s length cpy then
    let '(cpy, length) :=
      if partial && (cpy >? oend) then (oend, size_t (oend - op s))
      else (cpy, length) in
    if (if partial
        then endIn && (ip s + length >? iend)
        else (negb endIn && negb (cpy =? oend))
             || (endIn && (negb (ip s + length =? iend) || (cpy >? oend))))
    then OutputError s
    else
      let h := LZ4_memmove (hp s) (op s) (ip s) length in
      let s := mkState (ip s + length) (op s + length) h (mlog s) in
      if negb partial || (cpy =? oend) || (ip s >=? iend - 2) then Break s
      else get_offset fuel s token
  else
    let h := LZ4_wildCopy8 (hp s) (op s) (ip s) cpy in
    let s := mkState (ip s + length) cpy h (mlog s) in
    get_offset fuel s token.

(** Lines 426-448: decode the literal length; [k] is what follows. *)
Definition decode_literal_length (fuel : nat) (s : state) (length : Z)
  (k : state -> Z -> flow) : flow :=
  match read_variable_length fuel (hp s) (ip s) (iend - RUN_MASK) endIn endIn with
  | None => Starved
  | Some (n, ip', error) =>
      let s := set_ip s ip' in
      let length := length + n in
      if is_initial_error error then OutputError s
      else if safeDecode && ptr_overflow (op s) length then OutputError s
      else if safeDecode && ptr_overflow (ip s) length then OutputError s
      else k s length
  end.

(** The test of lines 381-387; [ip] is the cursor after the token. *)
Definition shortcut_cond (s : state) (length : Z) : bool :=
  (if endIn then negb (length =? RUN_MASK) else length <=? 8)
  && ((if endIn then ip s <? shortiend else true) && (op s <=? shortoend)).

(** Lines 388-423: the two-stage shortcut. *)
Definition shortcut (fuel : nat) (s : state) (token length : Z) : flow :=
  let h := memcpy (hp s) (op s) (ip s) (if endIn then 16 else 8) in
  let s := mkState (ip s + length) (op s + length) h (mlog s) in
  let length := Z.land token ML_MASK in
  let offset := LZ4_readLE16 (hp s) (ip s) in
  let s := set_ip s (ip s + 2) in
  let match_ := op s - offset in
  if negb (length =? ML_MASK) && (offset >=? 8)
     && (is_withPrefix64k (dict p) || (match_ >=? lowPrefix p)) then
    let s := log_match s offset (length + MINMATCH) in
    let h := memcpy (hp s) (op s + 0) (match_ + 0) 8 in
    let h := memcpy h (op s + 8) (match_ + 8) 8 in
    let h := memcpy h (op s + 16) (match_ + 16) 2 in
    Continue (set_op (set_hp s h) (op s + (length + MINMATCH)))
  else copy_match fuel s length offset match_.

(** Lines 359-625: one pass through the body of the main loop. *)
Definition safe_iter (fuel : nat) (s : state) : flow :=
  let token := u8 (cell (hp s) (ip s)) in
  let s := set_ip s (ip s + 1) in
  let length := Z.shiftr token ML_BITS in
  if shortcut_cond s length then shortcut fuel s token length
  else if length =? RUN_MASK then
    decode_literal_length fuel s length
      (fun s length => safe_literal_copy fuel s token length (op s + length))
  else safe_literal_copy fuel s token length (op s + length).

(** Lines 344-354: the match copy of the fast loop. *)
Definition fast_copy_match (s : state) (length offset match_ : Z) : fast_flow :=
  let s := log_match s offset length in
  let cpy := op s + length in
  let h := if offset <? 16
           then LZ4_memcpy_using_offset (hp s) (op s) match_ cpy offset
           else LZ4_wildCopy32 (hp s) (op s) match_ cpy in
  Fast (set_op (set_hp s h) cpy).

(** Lines 298-354: the offset and the match of the fast loop. *)
Definition fast_match (fuel : nat) (s : state) (token : Z) : fast_flow :=
  let offset := LZ4_readLE16 (hp s) (ip s) in
  let s := set_ip s (ip s + 2) in
  let match_ := op s - offset in
  let length := Z.land token ML_MASK in
  if offset_out_of_range match_ then Safe (OutputError s)
  else if length =? ML_MASK then
    match read_variable_length fuel (hp s) (ip s) (iend - LASTLITERALS + 1)
                               endIn false with
    | None => Safe Starved
    | Some (n, ip', error) =>
        let s := set_ip s ip' in
        let length := length + n in
        if negb (is_ok error) then Safe (OutputError s)
        else if safeDecode && ptr_overflow (op s) length then Safe (OutputError s)
        else
          let length := length + MINMATCH in
          if op s + length >=? oend - FASTLOOP_SAFE_DISTANCE
          then Safe (safe_match_copy s length offset match_)
          else fast_copy_match s length offset match_
    end
  else
    let length := length + MINMATCH in
    if op s + length >=? oend - FASTLOOP_SAFE_DISTANCE
    then Safe (safe_match_copy s length offset match_)
    else if (match_ >=? lowPrefix p) && (offset >=? 8) then
      let s := log_match s offset length in
      let h := memcpy (hp s) (op s) match_ 8 in
      let h := memcpy h (op s + 8) (match_ + 8) 8 in
      let h := memcpy h (op s + 16) (match_ + 16) 2 in
      Fast (set_op (set_hp s h) (op s + length))
    else fast_copy_match s length offset match_.

(** Lines 218-355: one pass through the body of the fast loop. *)
Definition fast_iter (fuel : nat) (s : state) : fast_flow :=
  let token := u8 (cell (hp s) (ip s)) in
  let s := set_ip s (ip s + 1) in
  let length := Z.shiftr token ML_BITS in
  if length =? RUN_MASK then
    match read_variable_length fuel (hp s) (ip s) (iend - RUN_MASK) endIn endIn with
    | None => Safe Starved
    | Some (n, ip', error) =>
        let s := set_ip s ip' in
        let length := length + n in
        if is_initial_error error then Safe (OutputError s)
        else if safeDecode && ptr_overflow (op s) length then Safe (OutputError s)
        else if safeDecode && ptr_overflow (ip s) length then Safe (OutputError s)
        else
          let cpy := op s + length in
          if endIn then
            if (cpy >? oend - 32) || (ip s + length >? iend - 32)
            then Safe (safe_literal_copy fuel s token length cpy)
            else
              let h := LZ4_wildCopy32 (hp s) (op s) (ip s) cpy in
              fast_match fuel (mkState (ip s + length) cpy h (mlog s)) token
          else
            if cpy >? oend - 8
            then Safe (safe_literal_copy fuel s token length cpy)
            else
              let h := LZ4_wildCopy8 (hp s) (op s) (ip s) cpy in
              fast_match fuel (mkState (ip s + length) cpy h (mlog s)) token
    end
  else
    let cpy := op s + length in
    if endIn then
      if ip s >? iend - (16 + 1)
      then Safe (safe_literal_copy fuel s token length cpy)
      else
        let h := memcpy (hp s) (op s) (ip s) 16 in
        fast_match fuel (mkState (ip s + length) cpy h (mlog s)) token
    else
      let h := memcpy (hp s) (op s) (ip s) 8 in
      let h := if length >? 8 then memcpy h (op s + 8) (ip s + 8) 8 else h in
      fast_match fuel (mkState (ip s + length) cpy h (mlog s)) token.

(** Lines 627-634: end of decoding. *)
Definition end_of_decoding (s : state) : outcome :=
  if endIn then Returned (to_int (op s - dst p)) s
  else Returned (to_int (ip s - src p)) s.

(** Label [_output_error], lines 636-638. *)
Definition output_error (s : state) : outcome :=
  Returned (to_int (- (ip s - src p)) - 1) s.

(** What follows a pass through the body of the main loop; [k] is the loop. *)
Definition after_body (k : state -> outcome) (f : flow) : outcome :=
  match f with
  | Continue s => k s
  | Break s => end_of_decoding s
  | OutputError s => output_error s
  | Starved => OutOfFuel
  end.

(** The main loop, lines 359-625; [n] bounds the number of sequences. *)
Fixpoint safe_loop (fuel n : nat) (s : state) : outcome :=
  match n with
  | O => OutOfFuel
  | S n' => after_body (safe_loop fuel n') (safe_iter fuel s)
  end.

(** The fast loop, lines 218-355, which ends in the main loop. *)
Fixpoint fast_loop (fuel n : nat) (s : state) : outcome :=
  match n with
  | O => OutOfFuel
  | S n' =>
      match fast_iter fuel s with
      | Fast s' => fast_loop fuel n' s'
      | Safe f => after_body (safe_loop fuel n') f
      end
  end.

(** lz4_decompress.c, [LZ4_decompress_generic].  [m] is memory at the call;
    [fuel] bounds the number of sequences decoded and the length of each
    run of 0xFF bytes. *)
Definition LZ4_decompress_generic (fuel : nat) (m : Z -> byte) : outcome :=
  let s := mkState (src p) (dst p) (mkHeap m []) [] in
  if endIn && (outputSize p =? 0) then
    Returned (if (srcSize p =? 1) && (u8 (m (ip s)) =? 0) then 0 else -1) s
  else if negb endIn && (outputSize p =? 0) then
    Returned (if u8 (m (ip s)) =? 0 then 1 else -1) s
  else if endIn && (srcSize p =? 0) then Returned (-1) s
  else if LZ4_FAST_DEC_LOOP then
    if oend - op s <? FASTLOOP_SAFE_DISTANCE then safe_loop fuel fuel s
    else fast_loop fuel fuel s
  else safe_loop fuel fuel s.

End Generic.

(** The arguments [LZ4_decompress_safe] gives to the generic decoder. *)
Definition safe_params (source dest compressedSize maxDecompressedSize : Z)
  : params :=
  mkParams source dest compressedSize maxDecompressedSize
           endOnInputSize decode_full_block noDict dest 0 0.

(** lz4_decompress.c, [LZ4_decompress_safe]. *)
Definition LZ4_decompress_safe (fdl : bool) (fuel : nat) (m : Z -> byte)
  (source dest compressedSize maxDecompressedSize : Z) : outcome :=
  LZ4_decompress_generic fdl
    (safe_params source dest compressedSize maxDecompressedSize) fuel m.

(** The arguments [LZ4_decompress_fast] gives to the generic decoder. *)
Definition fast_params (source dest originalSize : Z) : params :=
  mkParams source dest 0 originalSize
           endOnOutputSize decode_full_block withPrefix64k
           (dest - 64 * KB) 0 0.

(** lz4_decompress.c, [LZ4_decompress_fast]. *)
Definition LZ4_decompress_fast (fdl : bool) (fuel : nat) (m : Z -> byte)
  (source dest originalSize : Z) : outcome :=
  LZ4_decompress_generic fdl (fast_params source dest originalSize) fuel m.

(** Modelled from the spec: the arguments of the entry point
    [decompress_safe_partial] of section 4.6, which the sources at hand do
    not define: the directives [endOnInputSize], [partial_decode] and
    [noDict], with [lowPrefix] at the start of the output. *)
Definition partial_params (source dest compressedSize dstCapacity : Z) : params :=
  mkParams source dest compressedSize dstCapacity
           endOnInputSize partial_decode noDict dest 0 0.

(** ** The decoder on a 64-bit machine

    The definitions above take the sum of a pointer and a length as the
    exact integer.  That is what the C code computes as long as the sum
    stays below 2^64, which its overflow tests are there to ensure; they do
    so for the literal lengths of safe mode, and neither for the
    [MINMATCH] bytes that are added to a match length after its test nor
    for anything in fast mode, which has no test.  The module [M64] gives
    the decoder as a machine with 64-bit pointers runs it: the same
    functions, under the same names, with every pointer the code computes
    reduced modulo 2^64, inside the copy helpers as well.  A [size_t] never
    wraps: it is a nibble, plus a 32-bit sum, plus [MINMATCH].  The heap,
    the states, the flows, the directives, the overflow test and the two
    ways of returning are shared with the definitions above.

    The claims that bound what the decoder stores, or what it returns, are
    stated on [M64], under hypotheses that keep the buffers away from the
    top of the address space; the two models are proved to run alike
    there. *)

(** A difference of pointers, [ptrdiff_t]: signed, 64 bits wide. *)
Definition to_ptrdiff (x : Z) : Z := (x + 2 ^ 63) mod 2 ^ 64 - 2 ^ 63.

Module M64.

Fixpoint store_bytes (h : heap) (d : Z) (bs : list byte) : heap :=
  match bs with
  | [] => h
  | b :: bs' => store_bytes (store h d b) (uptrval (d + 1)) bs'
  end.

Definition load_bytes (h : heap) (s : Z) (n : nat) : list byte :=
  map (fun i => cell h (uptrval (s + Z.of_nat i))) (seq 0 n).

(** [memcpy] and [LZ4_memmove]: the source bytes are read, then written. *)
Definition memcpy (h : heap) (d s n : Z) : heap :=
  store_bytes h d (load_bytes h s (Z.to_nat n)).
Definition LZ4_memmove := memcpy.

(** Modelled from the spec: [LZ4_copy8] of lz4defs.h, an 8-byte memcpy. *)
Definition LZ4_copy8 (h : heap) (d s : Z) : heap := memcpy h d s 8.

(** Modelled from the spec: [LZ4_readLE16] of lz4defs.h; offsets are
    little-endian 16-bit values (section 6). *)
Definition LZ4_readLE16 (h : heap) (a : Z) : Z :=
  Z.lor (u8 (cell h a)) (Z.shiftl (u8 (cell h (uptrval (a + 1)))) 8).

(** [while (d < e) *d++ = *s++;] *)
Fixpoint byte_loop (k : nat) (h : heap) (d s e : Z) : heap :=
  match k with
  | O => h
  | S k' => if d <? e
            then byte_loop k' (store h d (cell h s))
                           (uptrval (d + 1)) (uptrval (s + 1)) e
            else h
  end.
Definition copy_bytes_until (h : heap) (d s e : Z) : heap :=
  byte_loop (Z.to_nat (e - d)) h d s e.

(** Modelled from the spec: [LZ4_wildCopy8] of lz4defs.h.  The count is
    [e - d] at 64 bits: it covers every run of the loop that ends, also one
    whose destination has passed the top of the address space. *)
Fixpoint wildCopy8_loop (k : nat) (h : heap) (d s e : Z) : heap :=
  let h' := memcpy h d s 8 in
  match k with
  | O => h'
  | S k' => if uptrval (d + 8) <? e
            then wildCopy8_loop k' h' (uptrval (d + 8)) (uptrval (s + 8)) e
            else h'
  end.
Definition LZ4_wildCopy8 (h : heap) (d s e : Z) : heap :=
  wildCopy8_loop (Z.to_nat (uptrval (e - d))) h d s e.

(** lz4_decompress.c, [LZ4_wildCopy32]. *)
Fixpoint wildCopy32_loop (k : nat) (h : heap) (d s e : Z) : heap :=
  let h1 := memcpy h d s 16 in
  let h2 := memcpy h1 (uptrval (d + 16)) (uptrval (s + 16)) 16 in
  match k with
  | O => h2
  | S k' => if uptrval (d + 32) <? e
            then wildCopy32_loop k' h2 (uptrval (d + 32)) (uptrval (s + 32)) e
            else h2
  end.
Definition LZ4_wildCopy32 (h : heap) (d s e : Z) : heap :=
  wildCopy32_loop (Z.to_nat (uptrval (e - d))) h d s e.

(** lz4_decompress.c, [LZ4_memcpy_using_offset_base]. *)
Definition LZ4_memcpy_using_offset_base (h : heap) (dstPtr srcPtr dstEnd offset : Z)
  : heap :=
  if offset <? 8 then
    let h := store h dstPtr (cell h srcPtr) in
    let h := store h (uptrval (dstPtr + 1)) (cell h (uptrval (srcPtr + 1))) in
    let h := store h (uptrval (dstPtr + 2)) (cell h (uptrval (srcPtr + 2))) in
    let h := store h (uptrval (dstPtr + 3)) (cell h (uptrval (srcPtr + 3))) in
    let srcPtr := uptrval (srcPtr + inc32table offset) in
    let h := memcpy h (uptrval (dstPtr + 4)) srcPtr 4 in
    let srcPtr := uptrval (srcPtr - dec64table offset) in
    LZ4_wildCopy8 h (uptrval (dstPtr + 8)) srcPtr dstEnd
  else
    let h := memcpy h dstPtr srcPtr 8 in
    LZ4_wildCopy8 h (uptrval (dstPtr + 8)) (uptrval (srcPtr + 8)) dstEnd.

(** The [copy_loop] of [LZ4_memcpy_using_offset]. *)
Fixpoint pattern_loop (k : nat) (h : heap) (d : Z) (v : list byte) (e : Z) : heap :=
  let h' := store_bytes h d v in
  match k with
  | O => h'
  | S k' => if uptrval (d + 8) <? e
            then pattern_loop k' h' (uptrval (d + 8)) v e
            else h'
  end.

(** lz4_decompress.c, [LZ4_memcpy_using_offset]. *)
Definition LZ4_memcpy_using_offset (h : heap) (dstPtr srcPtr dstEnd offset : Z)
  : heap :=
  if offset =? 1 then
    pattern_loop (Z.to_nat (uptrval (dstEnd - dstPtr))) h dstPtr
                 (repeat (cell h srcPtr) 8) dstEnd
  else if offset =? 2 then
    let v2 := load_bytes h srcPtr 2 in
    let v4 := v2 ++ v2 in
    pattern_loop (Z.to_nat (uptrval (dstEnd - dstPtr))) h dstPtr (v4 ++ v4) dstEnd
  else if offset =? 4 then
    let v4 := load_bytes h srcPtr 4 in
    pattern_loop (Z.to_nat (uptrval (dstEnd - dstPtr))) h dstPtr (v4 ++ v4) dstEnd
  else
    LZ4_memcpy_using_offset_base h dstPtr srcPtr dstEnd offset.

(** Modelled from the spec: [read_variable_length] of lz4defs.h, as above,
    the cursor being a pointer. *)
Fixpoint read_variable_length_loop (fuel : nat) (h : heap) (ip lencheck : Z)
  (loop_check : bool) (length : Z) : option (Z * Z * variable_length_error) :=
  match fuel with
  | O => None
  | S fuel' =>
      let s := u8 (cell h ip) in
      let ip := uptrval (ip + 1) in
      let length := u32 (length + s) in
      if loop_check && (ip >=? lencheck) then Some (length, ip, loop_error)
      else if s =? 255 then
        read_variable_length_loop fuel' h ip lencheck loop_check length
      else Some (length, ip, ok)
  end.

(** Modelled from the spec: [read_variable_length] itself, the initial
    check and then the loop. *)
Definition read_variable_length (fuel : nat) (h : heap) (ip lencheck : Z)
  (loop_check initial_check : bool) : option (Z * Z * variable_length_error) :=
  if initial_check && (ip >=? lencheck) then Some (0, ip, initial_error)
  else read_variable_length_loop fuel h ip lencheck loop_check 0.

Section Generic.

Variable LZ4_FAST_DEC_LOOP : bool.
Variable p : params.

Definition iend : Z := uptrval (src p + srcSize p).
Definition oend : Z := uptrval (dst p + outputSize p).

Definition shortiend : Z := uptrval (uptrval (iend - (if endIn p then 14 else 8)) - 2).
Definition shortoend : Z := uptrval (uptrval (oend - (if endIn p then 14 else 8)) - 18).

(** Lines 586-597. *)
Definition copy_match_head (h : heap) (op match_ offset : Z) : heap * Z :=
  if offset <? 8 then
    let h := store h op (cell h match_) in
    let h := store h (uptrval (op + 1)) (cell h (uptrval (match_ + 1))) in
    let h := store h (uptrval (op + 2)) (cell h (uptrval (match_ + 2))) in
    let h := store h (uptrval (op + 3)) (cell h (uptrval (match_ + 3))) in
    let match_ := uptrval (match_ + inc32table offset) in
    let h := memcpy h (uptrval (op + 4)) match_ 4 in
    (h, uptrval (match_ - dec64table offset))
  else
    (LZ4_copy8 h op match_, uptrval (match_ + 8)).

(** Label [safe_match_copy], lines 559-625. *)
Definition safe_match_copy (s : state) (length offset match_ : Z) : flow :=
  let s := log_match s offset length in
  let cpy := uptrval (op s + length) in
  if partial p && (cpy >? uptrval (oend - MATCH_SAFEGUARD_DISTANCE)) then
    let mlen := Z.min length (size_t (oend - op s)) in
    let matchEnd := uptrval (match_ + mlen) in
    let copyEnd := uptrval (op s + mlen) in
    let h := if matchEnd >? op s
             then copy_bytes_until (hp s) (op s) match_ copyEnd
             else memcpy (hp s) (op s) match_ mlen in
    let s := set_op (set_hp s h) copyEnd in
    if op s =? oend then Break s else Continue s
  else
    let '(h, match_) := copy_match_head (hp s) (op s) match_ offset in
    let s := set_op (set_hp s h) (uptrval (op s + 8)) in
    if cpy >? uptrval (oend - MATCH_SAFEGUARD_DISTANCE) then
      let oCopyLimit := uptrval (oend - (WILDCOPYLENGTH - 1)) in
      if cpy >? uptrval (oend - LASTLITERALS) then OutputError s
      else
        let '(h, match_, op1) :=
          if op s <? oCopyLimit
          then (LZ4_wildCopy8 (hp s) (op s) match_ oCopyLimit,
                uptrval (match_ + (oCopyLimit - op s)), oCopyLimit)
          else (hp s, match_, op s) in
        let h := copy_bytes_until h op1 match_ cpy in
        Continue (set_op (set_hp s h) cpy)
    else
      let h := LZ4_copy8 (hp s) (op s) match_ in
      let h := if length >? 16
               then LZ4_wildCopy8 h (uptrval (op s + 8)) (uptrval (match_ + 8)) cpy
               else h in
      Continue (set_op (set_hp s h) cpy).

(** Lines 536-553. *)
Definition copy_match_length (fuel : nat) (s : state) (length offset match_ : Z)
  : flow :=
  if length =? ML_MASK then
    match read_variable_length fuel (hp s) (ip s)
                               (uptrval (uptrval (iend - LASTLITERALS) + 1))
                               (endIn p) false with
    | None => Starved
    | Some (n, ip', error) =>
        let s := set_ip s ip' in
        let length := length + n in
        if negb (is_ok error) then OutputError s
        else if safeDecode p && ptr_overflow (op s) length then OutputError s
        else safe_match_copy s (length + MINMATCH) offset match_
    end
  else safe_match_copy s (length + MINMATCH) offset match_.

(** The test of lines 531-534. *)
Definition offset_out_of_range (match_ : Z) : bool :=
  checkOffset p && (uptrval (match_ + dictSize p) <? lowPrefix p).

(** Label [_copy_match], lines 530-625. *)
Definition copy_match (fuel : nat) (s : state) (length offset match_ : Z) : flow :=
  if offset_out_of_range match_ then OutputError s
  else copy_match_length fuel s length offset match_.

(** Lines 522-528. *)
Definition get_offset (fuel : nat) (s : state) (token : Z) : flow :=
  let offset := LZ4_readLE16 (hp s) (ip s) in
  let s := set_ip s (uptrval (ip s + 2)) in
  let match_ := uptrval (op s - offset) in
  let length := Z.land token ML_MASK in
  copy_match fuel s length offset match_.

(** The test of lines 457-460. *)
Definition near_end (s : state) (length cpy : Z) : bool :=
  (endIn p && ((cpy >? uptrval (oend - MFLIMIT))
               || (uptrval (ip s + length)
                   >? uptrval (iend - (2 + 1 + LASTLITERALS)))))
  || (negb (endIn p) && (cpy >? uptrval (oend - WILDCOPYLENGTH))).

(** Label [safe_literal_copy], lines 453-528, and on to the match. *)
Definition safe_literal_copy (fuel : nat) (s : state) (token length cpy : Z) : flow :=
  if near_end s length cpy then
    let '(cpy, length) :=
      if partial p && (cpy >? oend) then (oend, size_t (oend - op s))
      else (cpy, length) in
    if (if partial p
        then endIn p && (uptrval (ip s + length) >? iend)
        else (negb (endIn p) && negb (cpy =? oend))
             || (endIn p && (negb (uptrval (ip s + length) =? iend)
                             || (cpy >? oend))))
    then OutputError s
    else
      let h := LZ4_memmove (hp s) (op s) (ip s) length in
      let s := mkState (uptrval (ip s + length)) (uptrval (op s + length))
                       h (mlog s) in
      if negb (partial p) || (cpy =? oend) || (ip s >=? uptrval (iend - 2))
      then Break s
      else get_offset fuel s token
  else
    let h := LZ4_wildCopy8 (hp s) (op s) (ip s) cpy in
    let s := mkState (uptrval (ip s + length)) cpy h (mlog s) in
    get_offset fuel s token.

(** Lines 426-448: decode the literal length; [k] is what follows. *)
Definition decode_literal_length (fuel : nat) (s : state) (length : Z)
  (k : state -> Z -> flow) : flow :=
  match read_variable_length fuel (hp s) (ip s) (uptrval (iend - RUN_MASK))
                             (endIn p) (endIn p) with
  | None => Starved
  | Some (n, ip', error) =>
      let s := set_ip s ip' in
      let length := length + n in
      if is_initial_error error then OutputError s
      else if safeDecode p && ptr_overflow (op s) length then OutputError s
      else if safeDecode p && ptr_overflow (ip s) length then OutputError s
      else k s length
  end.

(** The test of lines 381-387; [ip] is the cursor after the token. *)
Definition shortcut_cond (s : state) (length : Z) : bool :=
  (if endIn p then negb (length =? RUN_MASK) else length <=? 8)
  && ((if endIn p then ip s <? shortiend else true) && (op s <=? shortoend)).

(** Lines 388-423: the two-stage shortcut. *)
Definition shortcut (fuel : nat) (s : state) (token length : Z) : flow :=
  let h := memcpy (hp s) (op s) (ip s) (if endIn p then 16 else 8) in
  let s := mkState (uptrval (ip s + length)) (uptrval (op s + length))
                   h (mlog s) in
  let length := Z.land token ML_MASK in
  let offset := LZ4_readLE16 (hp s) (ip s) in
  let s := set_ip s (uptrval (ip s + 2)) in
  let match_ := uptrval (op s - offset) in
  if negb (length =? ML_MASK) && (offset >=? 8)
     && (is_withPrefix64k (dict p) || (match_ >=? lowPrefix p)) then
    let s := log_match s offset (length + MINMATCH) in
    let h := memcpy (hp s) (uptrval (op s + 0)) (uptrval (match_ + 0)) 8 in
    let h := memcpy h (uptrval (op s + 8)) (uptrval (match_ + 8)) 8 in
    let h := memcpy h (uptrval (op s + 16)) (uptrval (match_ + 16)) 2 in
    Continue (set_op (set_hp s h) (uptrval (op s + (length + MINMATCH))))
  else copy_match fuel s length offset match_.

(** Lines 359-625: one pass through the body of the main loop. *)
Definition safe_iter (fuel : nat) (s : state) : flow :=
  let token := u8 (cell (hp s) (ip s)) in
  let s := set_ip s (uptrval (ip s + 1)) in
  let length := Z.shiftr token ML_BITS in
  if shortcut_cond s length then shortcut fuel s token length
  else if length =? RUN_MASK then
    decode_literal_length fuel s length
      (fun s length =>
         safe_literal_copy fuel s token length (uptrval (op s + length)))
  else safe_literal_copy fuel s token length (uptrval (op s + length)).

(** Lines 344-354: the match copy of the fast loop. *)
Definition fast_copy_match (s : state) (length offset match_ : Z) : fast_flow :=
  let s := log_match s offset length in
  let cpy := uptrval (op s + length) in
  let h := if offset <? 16
           then LZ4_memcpy_using_offset (hp s) (op s) match_ cpy offset
           else LZ4_wildCopy32 (hp s) (op s) match_ cpy in
  Fast (set_op (set_hp s h) cpy).

(** Lines 298-354: the offset and the match of the fast loop. *)
Definition fast_match (fuel : nat) (s : state) (token : Z) : fast_flow :=
  let offset := LZ4_readLE16 (hp s) (ip s) in
  let s := set_ip s (uptrval (ip s + 2)) in
  let match_ := uptrval (op s - offset) in
  let length := Z.land token ML_MASK in
  if offset_out_of_range match_ then Safe (OutputError s)
  else if length =? ML_MASK then
    match read_variable_length fuel (hp s) (ip s)
                               (uptrval (uptrval (iend - LASTLITERALS) + 1))
                               (endIn p) false with
    | None => Safe Starved
    | Some (n, ip', error) =>
        let s := set_ip s ip' in
        let length := length + n in
        if negb (is_ok error) then Safe (OutputError s)
        else if safeDecode p && ptr_overflow (op s) length then Safe (OutputError s)
        else
          let length := length + MINMATCH in
          if uptrval (op s + length) >=? uptrval (oend - FASTLOOP_SAFE_DISTANCE)
          then Safe (safe_match_copy s length offset match_)
          else fast_copy_match s length offset match_
    end
  else
    let length := length + MINMATCH in
    if uptrval (op s + length) >=? uptrval (oend - FASTLOOP_SAFE_DISTANCE)
    then Safe (safe_match_copy s length offset match_)
    else if (match_ >=? lowPrefix p) && (offset >=? 8) then
      let s := log_match s offset length in
      let h := memcpy (hp s) (op s) match_ 8 in
      let h := memcpy h (uptrval (op s + 8)) (uptrval (match_ + 8)) 8 in
      let h := memcpy h (uptrval (op s + 16)) (uptrval (match_ + 16)) 2 in
      Fast (set_op (set_hp s h) (uptrval (op s + length)))
    else fast_copy_match s length offset match_.

(** Lines 218-355: one pass through the body of the fast loop. *)
Definition fast_iter (fuel : nat) (s : state) : fast_flow :=
  let token := u8 (cell (hp s) (ip s)) in
  let s := set_ip s (uptrval (ip s + 1)) in
  let length := Z.shiftr token ML_BITS in
  if length =? RUN_MASK then
    match read_variable_length fuel (hp s) (ip s) (uptrval (iend - RUN_MASK))
                               (endIn p) (endIn p) with
    | None => Safe Starved
    | Some (n, ip', error) =>
        let s := set_ip s ip' in
        let length := length + n in
        if is_initial_error error then Safe (OutputError s)
        else if safeDecode p && ptr_overflow (op s) length then Safe (OutputError s)
        else if safeDecode p && ptr_overflow (ip s) length then Safe (OutputError s)
        else
          let cpy := uptrval (op s + length) in
          if endIn p then
            if (cpy >? uptrval (oend - 32))
               || (uptrval (ip s + length) >? uptrval (iend - 32))
            then Safe (safe_literal_copy fuel s token length cpy)
            else
              let h := LZ4_wildCopy32 (hp s) (op s) (ip s) cpy in
              fast_match fuel (mkState (uptrval (ip s + length)) cpy h (mlog s))
                         token
          else
            if cpy >? uptrval (oend - 8)
            then Safe (safe_literal_copy fuel s token length cpy)
            else
              let h := LZ4_wildCopy8 (hp s) (op s) (ip s) cpy in
              fast_match fuel (mkState (uptrval (ip s + length)) cpy h (mlog s))
                         token
    end
  else
    let cpy := uptrval (op s + length) in
    if endIn p then
      if ip s >? uptrval (iend - (16 + 1))
      then Safe (safe_literal_copy fuel s token length cpy)
      else
        let h := memcpy (hp s) (op s) (ip s) 16 in
        fast_match fuel (mkState (uptrval (ip s + length)) cpy h (mlog s)) token
    else
      let h := memcpy (hp s) (op s) (ip s) 8 in
      let h := if length >? 8
               then memcpy h (uptrval (op s + 8)) (uptrval (ip s + 8)) 8
               else h in
      fast_match fuel (mkState (uptrval (ip s + length)) cpy h (mlog s)) token.

(** The main loop, lines 359-625; [n] bounds the number of sequences. *)
Fixpoint safe_loop (fuel n : nat) (s : state) : outcome :=
  match n with
  | O => OutOfFuel
  | S n' => after_body p (safe_loop fuel n') (safe_iter fuel s)
  end.

(** The fast loop, lines 218-355, which ends in the main loop. *)
Fixpoint fast_loop (fuel n : nat) (s : state) : outcome :=
  match n with
  | O => OutOfFuel
  | S n' =>
      match fast_iter fuel s with
      | Fast s' => fast_loop fuel n' s'
      | Safe f => after_body p (safe_loop fuel n') f
      end
  end.

(** lz4_decompress.c, [LZ4_decompress_generic]. *)
Definition LZ4_decompress_generic (fuel : nat) (m : Z -> byte) : outcome :=
  let s := mkState (src p) (dst p) (mkHeap m []) [] in
  if endIn p && (outputSize p =? 0) then
    Returned (if (srcSize p =? 1) && (u8 (m (ip s)) =? 0) then 0 else -1) s
  else if negb (endIn p) && (outputSize p =? 0) then
    Returned (if u8 (m (ip s)) =? 0 then 1 else -1) s
  else if endIn p && (srcSize p =? 0) then Returned (-1) s
  else if LZ4_FAST_DEC_LOOP then
    if to_ptrdiff (oend - op s) <? FASTLOOP_SAFE_DISTANCE then safe_loop fuel fuel s
    else fast_loop fuel fuel s
  else safe_loop fuel fuel s.

End Generic.

(** lz4_decompress.c, [LZ4_decompress_safe]. *)
Definition LZ4_decompress_safe (fdl : bool) (fuel : nat) (m : Z -> byte)
  (source dest compressedSize maxDecompressedSize : Z) : outcome :=
  LZ4_decompress_generic fdl
    (safe_params source dest compressedSize maxDecompressedSize) fuel m.

(** lz4_decompress.c, [LZ4_decompress_fast]; [dest - 64 KB] is a pointer. *)
Definition LZ4_decompress_fast (fdl : bool) (fuel : nat) (m : Z -> byte)
  (source dest originalSize : Z) : outcome :=
  LZ4_decompress_generic fdl
    (mkParams source dest 0 originalSize
              endOnOutputSize decode_full_block withPrefix64k
              (uptrval (dest - 64 * KB)) 0 0) fuel m.

End M64.

(** ** Test memories *)

(** A byte from its value, and a memory that holds the bytes [l] from
    address [base] on and zero elsewhere. *)
Definition byte_of (z : Z) : byte :=
  match Byte.of_N (Z.to_N z) with Some b => b | None => x00 end.

Definition mem_of (base : Z) (l : list Z) : Z -> byte :=
  fun a => if a <? base then x00 else byte_of (nth (Z.to_nat (a - base)) l 0).

(** The bytes of memory from [d] on, as numbers. *)
Definition bytes_at (h : heap) (d : Z) (n : nat) : list Z :=
  map u8 (load_bytes h d n).

(** The block of the counterexample of C5: one literal, a match with offset
    0 and length 4, then five literals. *)
Definition zero_offset_block : list Z := [16; 97; 0; 0; 80; 1; 2; 3; 4; 5].

(** The block of scenario S4: one literal "a", a match with offset 1 and
    length 16, then five literals. *)
Definition rle_block : list Z := [28; 97; 1; 0; 80; 1; 2; 3; 4; 5].

(** A block that decodes to 107 bytes: one literal "a", a match with
    offset 1 whose length is spelled 15 + 82, that is 101 bytes with
    [MINMATCH], then five literals. *)
Definition long_match_block : list Z := [31; 97; 1; 0; 82; 80; 1; 2; 3; 4; 5].

(** A memory that holds at [base] a token with the literal length 15,
    then [k] bytes 0xFF, and zero elsewhere: a literal length spelled with
    [k] bytes 0xFF and one byte 0x00. *)
Definition long_length_memory (base k : Z) : Z -> byte :=
  fun a => if a =? base then xf0
           else if (base <? a) && (a <=? base + k) then xff else x00.

(** ** Reading an outcome *)

Definition ret_of (o : outcome) : option Z :=
  match o with Returned r _ => Some r | OutOfFuel => None end.
Definition final_of (o : outcome) : option state :=
  match o with Returned _ s => Some s | OutOfFuel => None end.

(** The state in which [LZ4_decompress_generic] starts. *)
Definition start (p : params) (m : Z -> byte) : state :=
  mkState (src p) (dst p) (mkHeap m []) [].

(** Every way [safe_match_copy] ends has logged the match it was given. *)
Definition logs_match (s : state) (offset length : Z) (f : flow) : Prop :=
  match f with
  | Continue s' | Break s' | OutputError s' =>
      mlog s' = mkMatch (op s) offset length :: mlog s
  | Starved => False
  end.

(** ** Bytes, nibbles and machine integers *)

Lemma u8_range (b : byte) : 0 <= u8 b < 256.
Proof.
  unfold u8. pose proof (Byte.to_N_bounded b) as Hb.
  split; [apply N2Z.is_nonneg | lia].
Qed.

Lemma literal_seed_range (t : Z) : 0 <= t < 256 -> 0 <= Z.shiftr t ML_BITS <= 15.
Proof.
  intros Ht. unfold ML_BITS. rewrite Z.shiftr_div_pow2 by lia.
  change (2 ^ 4) with 16. split.
  - apply Z.div_pos; lia.
  - apply Z.lt_succ_r. apply Z.div_lt_upper_bound; lia.
Qed.

Lemma match_seed_range (t : Z) : 0 <= t -> 0 <= Z.land t ML_MASK <= 15.
Proof.
  intros Ht. unfold ML_MASK.
  assert (E : Z.land t 15 = t mod 16)
    by (change 15 with (Z.ones 4); rewrite Z.land_ones by lia; reflexivity).
  rewrite E. pose proof (Z.mod_pos_bound t 16). lia.
Qed.

Lemma LZ4_readLE16_nonneg (h : heap) (a : Z) : 0 <= LZ4_readLE16 h a.
Proof.
  unfold LZ4_readLE16. apply Z.lor_nonneg. split.
  - apply u8_range.
  - apply Z.shiftl_nonneg. apply u8_range.
Qed.

Lemma LZ4_readLE16_range (h : heap) (a : Z) : 0 <= LZ4_readLE16 h a <= 65535.
Proof.
  split; [apply LZ4_readLE16_nonneg|]. unfold LZ4_readLE16.
  pose proof (u8_range (cell h a)) as H0.
  pose proof (u8_range (cell h (a + 1))) as H1.
  set (b0 := u8 (cell h a)) in *. set (b1 := u8 (cell h (a + 1))) in *.
  pose proof (Z.add_lor_land b0 (Z.shiftl b1 8)) as Hadd.
  assert (Hland : 0 <= Z.land b0 (Z.shiftl b1 8)).
  { apply Z.land_nonneg. left. lia. }
  rewrite Z.shiftl_mul_pow2 in * by lia. change (2 ^ 8) with 256 in *. lia.
Qed.

Lemma to_int_id (x : Z) : - 2 ^ 31 <= x < 2 ^ 31 -> to_int x = x.
Proof.
  intros Hx. unfold to_int. rewrite Z.mod_small; lia.
Qed.

(** ** Where the copy primitives write *)

Section WriteBounds.

Variables lo hi : Z.

(** Every address in the write log lies in [lo, hi). *)
Definition wsafe (h : heap) : Prop := Forall (fun a => lo <= a < hi) (wlog h).

Lemma wsafe_store h a b : wsafe h -> lo <= a < hi -> wsafe (store h a b).
Proof. intros Hh Ha. unfold wsafe, store; simpl. constructor; assumption. Qed.

Lemma wsafe_store_bytes bs : forall h d,
  wsafe h -> lo <= d -> d + Z.of_nat (length bs) <= hi ->
  wsafe (store_bytes h d bs).
Proof.
  induction bs as [|b bs IH]; intros h d Hh Hlo Hhi; simpl in *; [assumption|].
  apply IH; [apply wsafe_store; [assumption | lia] | lia | lia].
Qed.

Lemma load_bytes_length h s n : length (load_bytes h s n) = n.
Proof. unfold load_bytes. rewrite length_map, length_seq. reflexivity. Qed.

Lemma wsafe_memcpy h d s n :
  wsafe h -> n <= 0 \/ (lo <= d /\ d + n <= hi) -> wsafe (memcpy h d s n).
Proof.
  intros Hh Hn. unfold memcpy. destruct (Z.leb_spec n 0) as [Hle|Hgt].
  - replace (Z.to_nat n) with O by lia. exact Hh.
  - apply wsafe_store_bytes; [assumption | lia |].
    rewrite load_bytes_length. lia.
Qed.

Lemma wsafe_byte_loop k : forall h d s e,
  wsafe h -> lo <= d -> e <= hi -> wsafe (byte_loop k h d s e).
Proof.
  induction k as [|k IH]; intros h d s e Hh Hlo Hhi; simpl; [assumption|].
  destruct (Z.ltb_spec d e); [|assumption].
  apply IH; [apply wsafe_store; [assumption | lia] | lia | lia].
Qed.

Lemma wsafe_copy_bytes_until h d s e :
  wsafe h -> lo <= d -> e <= hi -> wsafe (copy_bytes_until h d s e).
Proof. apply wsafe_byte_loop. Qed.

Lemma wsafe_wildCopy8_loop k : forall h d s e,
  wsafe h -> lo <= d -> d + 8 <= hi -> e + 7 <= hi ->
  wsafe (wildCopy8_loop k h d s e).
Proof.
  induction k as [|k IH]; intros h d s e Hh Hlo Hd He; simpl.
  - apply wsafe_memcpy; [assumption | lia].
  - destruct (Z.ltb_spec (d + 8) e).
    + apply IH; [apply wsafe_memcpy; [assumption | lia] | lia | lia | lia].
    + apply wsafe_memcpy; [assumption | lia].
Qed.

Lemma wsafe_wildCopy8 h d s e :
  wsafe h -> lo <= d -> d + 8 <= hi -> e + 7 <= hi ->
  wsafe (LZ4_wildCopy8 h d s e).
Proof. apply wsafe_wildCopy8_loop. Qed.

Lemma wsafe_wildCopy32_loop k : forall h d s e,
  wsafe h -> lo <= d -> d + 32 <= hi -> e + 31 <= hi ->
  wsafe (wildCopy32_loop k h d s e).
Proof.
  induction k as [|k IH]; intros h d s e Hh Hlo Hd He; simpl.
  - repeat (apply wsafe_memcpy; [| lia]). assumption.
  - destruct (Z.ltb_spec (d + 32) e).
    + apply IH; [repeat (apply wsafe_memcpy; [| lia]); assumption | lia | lia | lia].
    + repeat (apply wsafe_memcpy; [| lia]). assumption.
Qed.

Lemma wsafe_wildCopy32 h d s e :
  wsafe h -> lo <= d -> d + 32 <= hi -> e + 31 <= hi ->
  wsafe (LZ4_wildCopy32 h d s e).
Proof. apply wsafe_wildCopy32_loop. Qed.

Lemma wsafe_pattern_loop k : forall h d v e,
  length v = 8%nat ->
  wsafe h -> lo <= d -> d + 8 <= hi -> e + 7 <= hi ->
  wsafe (pattern_loop k h d v e).
Proof.
  induction k as [|k IH]; intros h d v e Hv Hh Hlo Hd He; simpl.
  - apply wsafe_store_bytes; [assumption | lia | rewrite Hv; simpl; lia].
  - destruct (Z.ltb_spec (d + 8) e).
    + apply IH; try lia; try assumption.
      apply wsafe_store_bytes; [assumption | lia | rewrite Hv; simpl; lia].
    + apply wsafe_store_bytes; [assumption | lia | rewrite Hv; simpl; lia].
Qed.

Lemma wsafe_memcpy_using_offset_base h d s e offset :
  wsafe h -> lo <= d -> d + 16 <= hi -> e + 7 <= hi ->
  wsafe (LZ4_memcpy_using_offset_base h d s e offset).
Proof.
  intros Hh Hlo Hd He. unfold LZ4_memcpy_using_offset_base.
  destruct (offset <? 8).
  - apply wsafe_wildCopy8; try lia.
    apply wsafe_memcpy; [| lia].
    repeat (apply wsafe_store; [| lia]). assumption.
  - apply wsafe_wildCopy8; try lia.
    apply wsafe_memcpy; [assumption | lia].
Qed.

Lemma wsafe_memcpy_using_offset h d s e offset :
  wsafe h -> lo <= d -> d + 16 <= hi -> e + 7 <= hi ->
  wsafe (LZ4_memcpy_using_offset h d s e offset).
Proof.
  intros Hh Hlo Hd He. unfold LZ4_memcpy_using_offset.
  destruct (offset =? 1); [|destruct (offset =? 2); [|destruct (offset =? 4)]].
  - apply wsafe_pattern_loop; try lia; try assumption. apply repeat_length.
  - apply wsafe_pattern_loop; try lia; try assumption.
    rewrite !length_app, !load_bytes_length. reflexivity.
  - apply wsafe_pattern_loop; try lia; try assumption.
    rewrite !length_app, !load_bytes_length. reflexivity.
  - apply wsafe_memcpy_using_offset_base; assumption.
Qed.

End WriteBounds.

(** ** Variable-length fields: what the reader returns *)

Lemma u32_range (x : Z) : 0 <= u32 x < 2 ^ 32.
Proof. unfold u32. apply Z.mod_pos_bound. lia. Qed.

Lemma u32_le (x : Z) : 0 <= x -> u32 x <= x.
Proof. intros Hx. unfold u32. apply Z.mod_le; lia. Qed.

Lemma u32_small (x : Z) : 0 <= x < 2 ^ 32 -> u32 x = x.
Proof. intros Hx. unfold u32. apply Z.mod_small. exact Hx. Qed.

Lemma read_variable_length_loop_spec (fuel : nat) : forall h ip lencheck lc len,
  match read_variable_length_loop fuel h ip lencheck lc len with
  | None => lc = true -> Z.of_nat fuel < 1 \/ Z.of_nat fuel < lencheck - ip
  | Some (n, ip', e) =>
      0 <= n /\ ip < ip' /\ e <> initial_error /\
      (lc = true -> ip' <= Z.max (ip + 1) lencheck /\ (e = ok -> ip' < lencheck))
  end.
Proof.
  induction fuel as [|fuel IH]; intros h ip lencheck lc len.
  - simpl. intros _. left. lia.
  - cbn [read_variable_length_loop].
    pose proof (u32_range (len + u8 (cell h ip))) as Hb.
    destruct (lc && (ip + 1 >=? lencheck)) eqn:Hc.
    + apply andb_true_iff in Hc. destruct Hc as [Hlc Hge].
      rewrite Z.geb_leb in Hge. apply Z.leb_le in Hge.
      split; [lia|]. split; [lia|]. split; [discriminate|].
      intros _. split; [lia | discriminate].
    + assert (Hlt : lc = true -> ip + 1 < lencheck).
      { intros Ht. rewrite Ht in Hc. simpl in Hc.
        rewrite Z.geb_leb in Hc. apply Z.leb_gt in Hc. exact Hc. }
      destruct (u8 (cell h ip) =? 255) eqn:Hff.
      * specialize (IH h (ip + 1) lencheck lc (u32 (len + u8 (cell h ip)))).
        destruct (read_variable_length_loop fuel h (ip + 1) lencheck lc
                    (u32 (len + u8 (cell h ip)))) as [[[n ip'] e]|].
        -- destruct IH as (Hn & Hip & He & Hlc).
           split; [lia|]. split; [lia|]. split; [exact He|].
           intros Ht. destruct (Hlc Ht) as [Hmax Hok]. specialize (Hlt Ht).
           split; [lia | exact Hok].
        -- intros Ht. specialize (IH Ht). specialize (Hlt Ht). lia.
      * split; [lia|]. split; [lia|]. split; [discriminate|].
        intros Ht. specialize (Hlt Ht). split; [lia | intros _; lia].
Qed.

(** The sum fits 32 bits, and each byte read adds at most 255 to it. *)
Lemma read_variable_length_loop_bound (fuel : nat) : forall h ip lencheck lc len,
  0 <= len ->
  match read_variable_length_loop fuel h ip lencheck lc len with
  | None => True
  | Some (n, ip', e) => n < 2 ^ 32 /\ n <= len + 255 * (ip' - ip)
  end.
Proof.
  induction fuel as [|fuel IH]; intros h ip lencheck lc len Hlen.
  - exact I.
  - cbn [read_variable_length_loop].
    pose proof (u8_range (cell h ip)) as Hs.
    pose proof (u32_range (len + u8 (cell h ip))) as Hb.
    pose proof (u32_le (len + u8 (cell h ip)) ltac:(lia)) as Hle.
    destruct (lc && (ip + 1 >=? lencheck)); [lia|].
    destruct (u8 (cell h ip) =? 255); [|lia].
    specialize (IH h (ip + 1) lencheck lc (u32 (len + u8 (cell h ip)))
                  ltac:(lia)).
    destruct (read_variable_length_loop fuel h (ip + 1) lencheck lc
                (u32 (len + u8 (cell h ip)))) as [[[n ip'] e]|]; [lia | exact I].
Qed.

Lemma read_variable_length_spec fuel h ip lencheck lc ic :
  match read_variable_length fuel h ip lencheck lc ic with
  | None => lc = true -> Z.of_nat fuel < 1 \/ Z.of_nat fuel < lencheck - ip
  | Some (n, ip', e) =>
      0 <= n /\ ip <= ip' /\
      (e = initial_error -> ip' = ip /\ lencheck <= ip) /\
      (e <> initial_error ->
       ip < ip' /\ (ic = true -> ip < lencheck) /\
       (lc = true -> ip' <= Z.max (ip + 1) lencheck /\ (e = ok -> ip' < lencheck)))
  end.
Proof.
  unfold read_variable_length.
  destruct (ic && (ip >=? lencheck)) eqn:Hc.
  - apply andb_true_iff in Hc. destruct Hc as [_ Hge].
    rewrite Z.geb_leb in Hge. apply Z.leb_le in Hge.
    split; [lia|]. split; [lia|]. split; [intros _; lia|].
    intros Hne. contradiction.
  - pose proof (read_variable_length_loop_spec fuel h ip lencheck lc 0) as Hl.
    destruct (read_variable_length_loop fuel h ip lencheck lc 0)
      as [[[n ip'] e]|]; [|exact Hl].
    destruct Hl as (Hn & Hip & He & Hlc).
    split; [lia|]. split; [lia|]. split; [intros Hi; contradiction|].
    intros _. split; [lia|]. split; [|exact Hlc].
    intros Ht. rewrite Ht in Hc. simpl in Hc.
    rewrite Z.geb_leb in Hc. apply Z.leb_gt in Hc. exact Hc.
Qed.

Lemma read_variable_length_bound fuel h ip lencheck lc ic :
  match read_variable_length fuel h ip lencheck lc ic with
  | None => True
  | Some (n, ip', e) => n < 2 ^ 32 /\ n <= 255 * (ip' - ip)
  end.
Proof.
  unfold read_variable_length.
  destruct (ic && (ip >=? lencheck)); [lia|].
  pose proof (read_variable_length_loop_bound fuel h ip lencheck lc 0
                ltac:(lia)) as Hl.
  destruct (read_variable_length_loop fuel h ip lencheck lc 0)
    as [[[n ip'] e]|]; [lia | exact I].
Qed.

(** ** Tactics *)

(** Boolean tests in hypotheses become the comparisons they decide. *)
Ltac b2p :=
  repeat match goal with
  | H : andb _ _ = true |- _ => apply andb_true_iff in H; destruct H
  | H : orb _ _ = false |- _ => apply orb_false_iff in H; destruct H
  | H : negb _ = true |- _ => apply negb_true_iff in H
  | H : negb _ = false |- _ => apply negb_false_iff in H
  | H : (_ <? _) = true |- _ => apply Z.ltb_lt in H
  | H : (_ <? _) = false |- _ => apply Z.ltb_ge in H
  | H : (_ <=? _) = true |- _ => apply Z.leb_le in H
  | H : (_ <=? _) = false |- _ => apply Z.leb_gt in H
  | H : (_ >? _) = _ |- _ => rewrite Z.gtb_ltb in H
  | H : (_ >=? _) = _ |- _ => rewrite Z.geb_leb in H
  | H : (_ =? _) = true |- _ => apply Z.eqb_eq in H
  | H : (_ =? _) = false |- _ => apply Z.eqb_neq in H
  | H : andb _ _ = false |- _ => apply andb_false_iff in H; destruct H
  | H : orb _ _ = true |- _ => apply orb_true_iff in H; destruct H
  | H : true = false |- _ => discriminate H
  | H : false = true |- _ => discriminate H
  end.

(** The constants become numbers, for [lia]. *)
Ltac consts :=
  unfold MATCH_SAFEGUARD_DISTANCE, WILDCOPYLENGTH, LASTLITERALS, MFLIMIT,
    MINMATCH, FASTLOOP_SAFE_DISTANCE, ML_MASK, RUN_MASK, KB in *.

Ltac conj := repeat match goal with |- _ /\ _ => split end.

(** A store stays in range when its destination does. *)
Ltac wsafe_tac :=
  repeat first
    [ assumption
    | apply wsafe_store
    | apply wsafe_memcpy
    | apply wsafe_copy_bytes_until
    | apply wsafe_wildCopy8
    | apply wsafe_wildCopy32
    | apply wsafe_memcpy_using_offset ];
  try lia.

(** One case for each way through the tests of the goal. *)
Ltac ifs :=
  repeat match goal with
  | |- context [if ?c then _ else _] => destruct c eqn:?
  end.

Ltac st_simpl :=
  unfold set_op, set_hp, set_ip, log_match in *; cbn [ip op hp mlog] in *.

(** ** Safe mode: the invariants of the two loops

    With [endOnInput] set, every pass through either loop keeps the input
    cursor inside the input, the output cursor inside the output, and every
    store inside the output; and each pass moves the input cursor forward,
    which bounds the number of passes by the input size. *)

Section SafeMode.

Variable fdl : bool.
Variable p : params.
Variable fuel : nat.

Hypothesis Hin : endIn p = true.
Hypothesis Hsrc : 0 <= srcSize p.
Hypothesis Hout : 0 <= outputSize p < 2 ^ 64.

(** Every store so far went to the output. *)
Definition W (h : heap) : Prop := wsafe (dst p) (oend p) h.

(** The invariant at the head of a loop: there is a token to read. *)
Definition head_inv (s : state) : Prop :=
  W (hp s) /\ src p <= ip s < iend p /\ dst p <= op s <= oend p.

(** What holds at a [break]; in full mode the input is used up. *)
Definition exit_ok (s : state) : Prop :=
  W (hp s) /\ src p <= ip s <= iend p /\ dst p <= op s <= oend p /\
  (partial p = false -> ip s = iend p).

(** What holds at [_output_error]. *)
Definition exit_err (s : state) : Prop :=
  W (hp s) /\ src p <= ip s <= iend p.

(** What holds after a pass that started with the input cursor at [ip0];
    the fuel runs out in a variable length only when it is below the input
    size. *)
Definition flow_post (ip0 : Z) (f : flow) : Prop :=
  match f with
  | Continue s => head_inv s /\ ip0 < ip s
  | Break s => exit_ok s
  | OutputError s => exit_err s
  | Starved => Z.of_nat fuel < srcSize p
  end.

Lemma iend_eq : iend p = src p + srcSize p.
Proof. reflexivity. Qed.

Lemma oend_eq : oend p = dst p + outputSize p.
Proof. reflexivity. Qed.

Lemma W_copy_match_head h o m offset :
  W h -> dst p <= o -> o + 8 <= oend p ->
  W (fst (copy_match_head h o m offset)).
Proof.
  intros Hh Hlo Hhi. unfold copy_match_head, LZ4_copy8.
  destruct (offset <? 8); simpl.
  - apply wsafe_memcpy; [| lia].
    repeat (apply wsafe_store; [| lia]). exact Hh.
  - apply wsafe_memcpy; [exact Hh | lia].
Qed.

Lemma size_t_small x : 0 <= x < 2 ^ 64 -> size_t x = x.
Proof. intros Hx. unfold size_t. apply Z.mod_small. exact Hx. Qed.

Ltac leaf0 :=
  cbn [flow_post]; unfold head_inv, exit_ok, exit_err, W in *;
  cbn [ip op hp mlog] in *; conj; intros; try lia; try congruence; wsafe_tac.
Ltac leaf := solve [leaf0].

Lemma safe_match_copy_post s length offset match_ ip0 :
  W (hp s) -> src p <= ip s < iend p -> ip0 < ip s ->
  dst p <= op s <= oend p -> (partial p = false -> op s <= oend p - 12) ->
  4 <= length ->
  flow_post ip0 (safe_match_copy p s length offset match_).
Proof.
  intros HW Hip Hip0 Hop Hop12 Hlen.
  unfold safe_match_copy. st_simpl.
  assert (Hsz : size_t (oend p - op s) = oend p - op s).
  { apply size_t_small. pose proof oend_eq. lia. }
  rewrite Hsz.
  pose proof (W_copy_match_head (hp s) (op s) match_ offset HW) as Hhead.
  destruct (copy_match_head (hp s) (op s) match_ offset) as [h1 m1].
  simpl in Hhead. consts.
  destruct (partial p) eqn:Hp; [clear Hop12 | specialize (Hop12 eq_refl)];
    cbn [andb]; ifs; b2p; st_simpl; leaf0;
    intros; try congruence; try lia;
    try (apply Hhead; lia).
Qed.

Lemma copy_match_length_post s length offset match_ ip0 :
  W (hp s) -> src p <= ip s < iend p -> ip0 < ip s ->
  dst p <= op s <= oend p -> (partial p = false -> op s <= oend p - 12) ->
  0 <= length ->
  flow_post ip0 (copy_match_length p fuel s length offset match_).
Proof.
  intros HW Hip Hip0 Hop Hop12 Hlen.
  unfold copy_match_length. rewrite Hin.
  destruct (length =? ML_MASK) eqn:Hml.
  - pose proof (read_variable_length_spec fuel (hp s) (ip s)
                  (iend p - LASTLITERALS + 1) true false) as Hr.
    destruct (read_variable_length fuel (hp s) (ip s)
                (iend p - LASTLITERALS + 1) true false) as [[[n ip'] e]|].
    + destruct Hr as (Hn & Hle & Hinit & Hne). consts.
      destruct e; cbn [is_ok negb]; st_simpl.
      * destruct Hne as (Hlt & _ & Hlc); [discriminate|].
        destruct (Hlc eq_refl) as [Hmax _]. leaf.
      * destruct (Hinit eq_refl). leaf.
      * destruct Hne as (Hlt & _ & Hlc); [discriminate|].
        destruct (Hlc eq_refl) as [_ Hok]. specialize (Hok eq_refl).
        destruct (safeDecode p && ptr_overflow (op s) (length + n)).
        -- leaf.
        -- apply safe_match_copy_post; cbn [ip op hp mlog]; try assumption; lia.
    + cbn [flow_post]. specialize (Hr eq_refl). pose proof iend_eq. consts. lia.
  - apply safe_match_copy_post; try assumption. consts. lia.
Qed.

Lemma copy_match_post s length offset match_ ip0 :
  W (hp s) -> src p <= ip s < iend p -> ip0 < ip s ->
  dst p <= op s <= oend p -> (partial p = false -> op s <= oend p - 12) ->
  0 <= length ->
  flow_post ip0 (copy_match p fuel s length offset match_).
Proof.
  intros HW Hip Hip0 Hop Hop12 Hlen. unfold copy_match.
  destruct (offset_out_of_range p match_).
  - leaf.
  - apply copy_match_length_post; assumption.
Qed.

Lemma get_offset_post s token ip0 :
  W (hp s) -> src p <= ip s -> ip s + 2 < iend p -> ip0 <= ip s ->
  dst p <= op s <= oend p -> (partial p = false -> op s <= oend p - 12) ->
  0 <= token ->
  flow_post ip0 (get_offset p fuel s token).
Proof.
  intros HW Hip Hip2 Hip0 Hop Hop12 Htok. unfold get_offset.
  apply copy_match_post; st_simpl; try assumption; try lia.
  apply match_seed_range. exact Htok.
Qed.

Lemma safe_literal_copy_post s token length cpy ip0 :
  W (hp s) -> src p <= ip s <= iend p -> ip0 <= ip s ->
  dst p <= op s <= oend p -> 0 <= length -> cpy = op s + length ->
  0 <= token ->
  flow_post ip0 (safe_literal_copy p fuel s token length cpy).
Proof.
  intros HW Hip Hip0 Hop Hlen Hcpy Htok. subst cpy.
  unfold safe_literal_copy, near_end, LZ4_memmove. rewrite Hin. cbn [andb negb orb].
  rewrite orb_false_r.
  assert (Hsz : size_t (oend p - op s) = oend p - op s).
  { apply size_t_small. pose proof oend_eq. lia. }
  rewrite Hsz. consts.
  destruct ((op s + length >? oend p - 12) || (ip s + length >? iend p - (2 + 1 + 5)))
    eqn:Hnear.
  - destruct (partial p) eqn:Hp; cbn [andb negb orb].
    + destruct (op s + length >? oend p) eqn:Hclamp; cbn [ip op hp mlog].
      * rewrite Z.eqb_refl. cbn [orb]. ifs; b2p; leaf.
      * ifs; b2p; try solve [leaf];
          apply get_offset_post; cbn [ip op hp mlog]; try lia;
            try congruence; wsafe_tac.
    + cbn [ip op hp mlog]. ifs; b2p; leaf.
  - b2p. apply get_offset_post; cbn [ip op hp mlog]; try lia; wsafe_tac.
Qed.

Lemma shortcut_post s token length ip0 :
  W (hp s) -> src p <= ip s -> ip s < shortiend p -> ip0 <= ip s ->
  dst p <= op s <= shortoend p -> 0 <= length <= 14 -> 0 <= token ->
  flow_post ip0 (shortcut p fuel s token length).
Proof.
  intros HW Hip Hsi Hip0 Hop Hlen Htok.
  unfold shortiend, shortoend in *. rewrite Hin in *.
  unfold shortcut. rewrite Hin. cbn [ip op hp mlog]. st_simpl.
  pose proof (match_seed_range token Htok) as Hml. consts.
  set (h1 := memcpy (hp s) (op s) (ip s) 16).
  assert (HW1 : W h1) by (subst h1; wsafe_tac).
  destruct (negb (Z.land token 15 =? 15) && (LZ4_readLE16 h1 (ip s + length) >=? 8)
            && (is_withPrefix64k (dict p)
                || (op s + length - LZ4_readLE16 h1 (ip s + length) >=? lowPrefix p)))
    eqn:Hc.
  - apply andb_true_iff in Hc. destruct Hc as [Hc _].
    apply andb_true_iff in Hc. destruct Hc as [Hc _]. b2p. leaf.
  - clear Hc. apply copy_match_post; cbn [ip op hp mlog]; try lia; try assumption.
Qed.

Lemma safe_iter_post s :
  head_inv s -> flow_post (ip s) (safe_iter p fuel s).
Proof.
  intros (HW & Hip & Hop). unfold safe_iter.
  pose proof (u8_range (cell (hp s) (ip s))) as Htok.
  pose proof (literal_seed_range _ Htok) as Hll.
  set (token := u8 (cell (hp s) (ip s))) in *.
  set (length := Z.shiftr token ML_BITS) in *.
  destruct (shortcut_cond p (set_ip s (ip s + 1)) length) eqn:Hsc.
  - unfold shortcut_cond in Hsc. rewrite Hin in Hsc. st_simpl. consts. b2p.
    apply shortcut_post; cbn [ip op hp mlog]; try assumption; try lia.
  - clear Hsc. st_simpl. destruct (length =? RUN_MASK) eqn:Hrm.
    + unfold decode_literal_length. rewrite Hin. cbn [ip op hp mlog].
      pose proof (read_variable_length_spec fuel (hp s) (ip s + 1)
                    (iend p - RUN_MASK) true true) as Hr.
      destruct (read_variable_length fuel (hp s) (ip s + 1)
                  (iend p - RUN_MASK) true true) as [[[n ip'] e]|].
      * destruct Hr as (Hn & Hle & Hinit & Hne). consts. st_simpl.
        destruct (is_initial_error e) eqn:He.
        -- destruct e; try discriminate. destruct (Hinit eq_refl). leaf.
        -- assert (Hne' : e <> initial_error) by (intros ->; discriminate).
           destruct (Hne Hne') as (Hlt & Hic & Hlc).
           specialize (Hic eq_refl). destruct (Hlc eq_refl) as [Hmax _].
           ifs; try solve [leaf].
           apply safe_literal_copy_post; cbn [ip op hp mlog];
             try assumption; try lia.
      * cbn [flow_post]. specialize (Hr eq_refl). pose proof iend_eq.
        consts. lia.
    + apply safe_literal_copy_post; cbn [ip op hp mlog];
        try assumption; try lia.
Qed.

Definition fast_post (ip0 : Z) (f : fast_flow) : Prop :=
  match f with
  | Fast s => head_inv s /\ op s <= oend p - 64 /\ ip0 < ip s
  | Safe f => flow_post ip0 f
  end.

Lemma fast_copy_match_post s length offset match_ ip0 :
  W (hp s) -> src p <= ip s < iend p -> ip0 < ip s ->
  dst p <= op s -> 4 <= length -> op s + length < oend p - 64 ->
  fast_post ip0 (fast_copy_match s length offset match_).
Proof.
  intros HW Hip Hip0 Hop Hlen Hcpy. unfold fast_copy_match. st_simpl.
  cbn [fast_post]. unfold head_inv. cbn [ip op hp mlog].
  conj; try lia. destruct (offset <? 16); wsafe_tac.
Qed.

Lemma fast_match_post s token ip0 :
  W (hp s) -> src p <= ip s -> ip s + 2 < iend p -> ip0 <= ip s ->
  dst p <= op s <= oend p - 32 -> 0 <= token ->
  fast_post ip0 (fast_match p fuel s token).
Proof.
  intros HW Hip Hip2 Hip0 Hop Htok. unfold fast_match. rewrite Hin. st_simpl.
  pose proof (match_seed_range token Htok) as Hml.
  set (offset := LZ4_readLE16 (hp s) (ip s)).
  set (match_ := op s - offset).
  destruct (offset_out_of_range p match_); [cbn [fast_post]; leaf|].
  destruct (Z.land token ML_MASK =? ML_MASK) eqn:Hm.
  - pose proof (read_variable_length_spec fuel (hp s) (ip s + 2)
                  (iend p - LASTLITERALS + 1) true false) as Hr.
    destruct (read_variable_length fuel (hp s) (ip s + 2)
                (iend p - LASTLITERALS + 1) true false) as [[[n ip'] e]|].
    + destruct Hr as (Hn & Hle & Hinit & Hne). consts.
      destruct e; cbn [is_ok negb].
      * destruct Hne as (Hlt & _ & Hlc); [discriminate|].
        destruct (Hlc eq_refl) as [Hmax _]. cbn [fast_post]. leaf.
      * destruct (Hinit eq_refl). cbn [fast_post]. leaf.
      * destruct Hne as (Hlt & _ & Hlc); [discriminate|].
        destruct (Hlc eq_refl) as [_ Hok]. specialize (Hok eq_refl).
        destruct (safeDecode p && ptr_overflow (op s) (Z.land token 15 + n));
          [cbn [fast_post]; leaf|].
        destruct (op s + (Z.land token 15 + n + 4) >=? oend p - 64) eqn:Hfar.
        -- cbn [fast_post]. apply safe_match_copy_post; cbn [ip op hp mlog];
             try assumption; try lia.
        -- b2p. apply fast_copy_match_post; cbn [ip op hp mlog];
             try assumption; try lia.
    + cbn [fast_post flow_post]. specialize (Hr eq_refl). pose proof iend_eq.
      consts. lia.
  - consts.
    destruct (op s + (Z.land token 15 + 4) >=? oend p - 64) eqn:Hfar.
    + cbn [fast_post]. apply safe_match_copy_post; cbn [ip op hp mlog];
        try assumption; try lia.
    + b2p. destruct ((match_ >=? lowPrefix p) && (offset >=? 8)).
      * cbn [fast_post]. unfold head_inv. cbn [ip op hp mlog].
        conj; try lia. wsafe_tac.
      * apply fast_copy_match_post; cbn [ip op hp mlog]; try assumption; try lia.
Qed.

Lemma fast_iter_post s :
  head_inv s -> op s <= oend p - 64 ->
  fast_post (ip s) (fast_iter p fuel s).
Proof.
  intros (HW & Hip & Hop) Hop64. unfold fast_iter.
  pose proof (u8_range (cell (hp s) (ip s))) as Htok.
  pose proof (literal_seed_range _ Htok) as Hll.
  set (token := u8 (cell (hp s) (ip s))) in *.
  set (length := Z.shiftr token ML_BITS) in *.
  rewrite Hin. st_simpl.
  destruct (length =? RUN_MASK) eqn:Hrm.
  - pose proof (read_variable_length_spec fuel (hp s) (ip s + 1)
                  (iend p - RUN_MASK) true true) as Hr.
    destruct (read_variable_length fuel (hp s) (ip s + 1)
                (iend p - RUN_MASK) true true) as [[[n ip'] e]|].
    + destruct Hr as (Hn & Hle & Hinit & Hne). consts.
      destruct (is_initial_error e) eqn:He.
      * destruct e; try discriminate. destruct (Hinit eq_refl).
        cbn [fast_post]. leaf.
      * assert (Hne' : e <> initial_error) by (intros ->; discriminate).
        destruct (Hne Hne') as (Hlt & Hic & Hlc).
        specialize (Hic eq_refl). destruct (Hlc eq_refl) as [Hmax _].
        destruct (safeDecode p && ptr_overflow (op s) (length + n));
          [cbn [fast_post]; leaf|].
        destruct (safeDecode p && ptr_overflow ip' (length + n));
          [cbn [fast_post]; leaf|].
        destruct ((op s + (length + n) >? oend p - 32)
                  || (ip' + (length + n) >? iend p - 32)) eqn:Hfar.
        -- cbn [fast_post]. apply safe_literal_copy_post; cbn [ip op hp mlog];
             try assumption; try lia.
        -- b2p. apply fast_match_post; cbn [ip op hp mlog]; try lia; wsafe_tac.
    + cbn [fast_post flow_post]. specialize (Hr eq_refl). pose proof iend_eq.
      consts. lia.
  - consts. destruct (ip s + 1 >? iend p - (16 + 1)) eqn:Hfar.
    + cbn [fast_post]. apply safe_literal_copy_post; cbn [ip op hp mlog];
        try assumption; try lia.
    + b2p. apply fast_match_post; cbn [ip op hp mlog]; try lia; wsafe_tac.
Qed.

(** What the decoder returns once it has entered a loop. *)
Definition run_post (n : nat) (ip0 : Z) (o : outcome) : Prop :=
  match o with
  | Returned r s =>
      (exit_ok s /\ r = to_int (op s - dst p))
      \/ (exit_err s /\ r = to_int (- (ip s - src p)) - 1)
  | OutOfFuel => Z.of_nat fuel < srcSize p \/ Z.of_nat n < iend p - ip0
  end.

Lemma after_body_post n ip0 k f :
  flow_post ip0 f ->
  (forall s, head_inv s -> ip0 < ip s -> run_post n (ip s) (k s)) ->
  run_post (S n) ip0 (after_body p k f).
Proof.
  intros Hf Hk. destruct f as [s|s|s|]; cbn [after_body flow_post] in *.
  - destruct Hf as [Hh Hlt]. specialize (Hk s Hh Hlt).
    destruct (k s); cbn [run_post] in *; [exact Hk | lia].
  - unfold end_of_decoding. rewrite Hin. cbn [run_post]. left. split; [exact Hf | reflexivity].
  - unfold output_error. cbn [run_post]. right. split; [exact Hf | reflexivity].
  - cbn [run_post]. left. exact Hf.
Qed.

Lemma safe_loop_post n : forall s,
  head_inv s -> run_post n (ip s) (safe_loop p fuel n s).
Proof.
  induction n as [|n IH]; intros s Hs.
  - cbn [safe_loop run_post]. right. destruct Hs as (_ & Hip & _). lia.
  - cbn [safe_loop]. apply after_body_post.
    + apply safe_iter_post. exact Hs.
    + intros s' Hs' _. apply IH. exact Hs'.
Qed.

Lemma fast_loop_post n : forall s,
  head_inv s -> op s <= oend p - 64 ->
  run_post n (ip s) (fast_loop p fuel n s).
Proof.
  induction n as [|n IH]; intros s Hs Hop.
  - cbn [fast_loop run_post]. right. destruct Hs as (_ & Hip & _). lia.
  - cbn [fast_loop]. pose proof (fast_iter_post s Hs Hop) as Hf.
    destruct (fast_iter p fuel s) as [s'|f]; cbn [fast_post] in Hf.
    + destruct Hf as (Hs' & Hop' & Hlt). specialize (IH s' Hs' Hop').
      destruct (fast_loop p fuel n s'); cbn [run_post] in *; [exact IH | lia].
    + apply after_body_post; [exact Hf|].
      intros s' Hs' _. apply safe_loop_post. exact Hs'.
Qed.

(** What [LZ4_decompress_generic] returns when the input size bounds it. *)
Definition generic_post (m : Z -> byte) (o : outcome) : Prop :=
  match o with
  | Returned r s =>
      (outputSize p <> 0 /\ srcSize p <> 0 /\
       ((exit_ok s /\ r = to_int (op s - dst p))
        \/ (exit_err s /\ r = to_int (- (ip s - src p)) - 1)))
      \/ (s = mkState (src p) (dst p) (mkHeap m []) [] /\
          ((outputSize p = 0 /\
            r = if (srcSize p =? 1) && (u8 (m (src p)) =? 0) then 0 else -1)
           \/ (outputSize p <> 0 /\ srcSize p = 0 /\ r = -1)))
  | OutOfFuel => Z.of_nat fuel < srcSize p
  end.

Lemma generic_safe_post m :
  generic_post m (LZ4_decompress_generic fdl p fuel m).
Proof.
  unfold LZ4_decompress_generic. rewrite Hin. cbn [andb negb ip op].
  destruct (outputSize p =? 0) eqn:Ho.
  - b2p. cbn [generic_post]. right. split; [reflexivity|]. left. split; [exact Ho | reflexivity].
  - b2p. destruct (srcSize p =? 0) eqn:Hs.
    + b2p. cbn [generic_post]. right. split; [reflexivity|]. right. auto.
    + b2p.
      assert (Hh : head_inv (mkState (src p) (dst p) (mkHeap m []) [])).
      { unfold head_inv, W, wsafe. cbn [ip op hp wlog]. pose proof iend_eq.
        pose proof oend_eq. conj; try lia. constructor. }
      assert (Hrun : forall o, run_post fuel (src p) o -> generic_post m o).
      { intros [r s|]; cbn [run_post generic_post].
        - intros H. left. auto.
        - pose proof iend_eq. lia. }
      destruct fdl; [destruct (oend p - dst p <? FASTLOOP_SAFE_DISTANCE) eqn:Hd|];
        apply Hrun.
      * apply (safe_loop_post fuel _ Hh).
      * b2p. consts. apply (fast_loop_post fuel _ Hh). cbn [op]. lia.
      * apply (safe_loop_post fuel _ Hh).
Qed.

End SafeMode.

(** ** Full safe mode: stores stay in the output, whatever the sizes *)

Section WriteSafety.

Variable p : params.
Variable fuel : nat.

Hypothesis Hin : endIn p = true.
Hypothesis Hfull : partial p = false.

(** Every store so far went to the output, and the output cursor is not
    below the output. *)
Definition wr_inv (s : state) : Prop := W p (hp s) /\ dst p <= op s.

Definition wr_post (f : flow) : Prop :=
  match f with
  | Continue s | Break s | OutputError s => wr_inv s
  | Starved => True
  end.

Ltac wleaf :=
  solve [ cbn [wr_post]; unfold wr_inv, W in *; cbn [ip op hp mlog] in *;
          conj; intros; try lia; wsafe_tac ].

Lemma safe_match_copy_wr s length offset match_ :
  wr_inv s -> op s <= oend p - 12 -> 4 <= length ->
  wr_post (safe_match_copy p s length offset match_).
Proof.
  intros [HW Hop] Hop12 Hlen.
  unfold safe_match_copy. rewrite Hfull. cbn [andb]. st_simpl.
  pose proof (W_copy_match_head p (hp s) (op s) match_ offset HW Hop
                ltac:(lia)) as Hhead.
  destruct (copy_match_head (hp s) (op s) match_ offset) as [h1 m1].
  cbn [fst] in Hhead. consts. fold (W p h1) in Hhead.
  ifs; b2p; st_simpl; wleaf.
Qed.

Lemma copy_match_wr s length offset match_ :
  wr_inv s -> op s <= oend p - 12 -> 0 <= length ->
  wr_post (copy_match p fuel s length offset match_).
Proof.
  intros Hs Hop12 Hlen. unfold copy_match, copy_match_length.
  destruct (offset_out_of_range p match_); [exact Hs|].
  destruct (length =? ML_MASK).
  - pose proof (read_variable_length_spec fuel (hp s) (ip s)
                  (iend p - LASTLITERALS + 1) (endIn p) false) as Hr.
    destruct (read_variable_length _ _ _ _ _ _) as [[[n ip'] e]|]; [|exact I].
    destruct Hr as (Hn & _). st_simpl.
    destruct (negb (is_ok e)); [exact Hs|].
    destruct (safeDecode p && _); [exact Hs|].
    apply safe_match_copy_wr; cbn [ip op hp mlog]; try assumption. consts. lia.
  - apply safe_match_copy_wr; try assumption. consts. lia.
Qed.

Lemma get_offset_wr s token :
  wr_inv s -> op s <= oend p - 12 -> 0 <= token ->
  wr_post (get_offset p fuel s token).
Proof.
  intros Hs Hop12 Htok. unfold get_offset.
  apply copy_match_wr; st_simpl; try assumption.
  apply match_seed_range. exact Htok.
Qed.

Lemma safe_literal_copy_wr s token length cpy :
  wr_inv s -> 0 <= length -> cpy = op s + length -> 0 <= token ->
  wr_post (safe_literal_copy p fuel s token length cpy).
Proof.
  intros [HW Hop] Hlen -> Htok.
  unfold safe_literal_copy, near_end, LZ4_memmove. rewrite Hin, Hfull.
  cbn [andb negb orb]. rewrite orb_false_r. consts.
  destruct ((op s + length >? oend p - 12) || (ip s + length >? iend p - (2 + 1 + 5)))
    eqn:Hnear.
  - destruct (negb (ip s + length =? iend p) || (op s + length >? oend p))
      eqn:Herr; [wleaf|]. b2p; wleaf.
  - b2p. apply get_offset_wr; cbn [ip op hp mlog]; try lia.
    unfold wr_inv, W. cbn [ip op hp mlog]. conj; try lia. wsafe_tac.
Qed.

Lemma shortcut_wr s token length :
  wr_inv s -> op s <= shortoend p -> 0 <= length <= 14 -> 0 <= token ->
  wr_post (shortcut p fuel s token length).
Proof.
  intros [HW Hop] Hso Hlen Htok.
  unfold shortoend in Hso. rewrite Hin in Hso.
  unfold shortcut. rewrite Hin. cbn [ip op hp mlog]. st_simpl.
  pose proof (match_seed_range token Htok) as Hml. consts.
  set (h1 := memcpy (hp s) (op s) (ip s) 16).
  assert (HW1 : W p h1) by (subst h1; unfold W in *; wsafe_tac).
  destruct (negb (Z.land token 15 =? 15) && (LZ4_readLE16 h1 (ip s + length) >=? 8)
            && (is_withPrefix64k (dict p)
                || (op s + length - LZ4_readLE16 h1 (ip s + length) >=? lowPrefix p)))
    eqn:Hc.
  - wleaf.
  - clear Hc. apply copy_match_wr; cbn [ip op hp mlog]; try lia.
    split; cbn [ip op hp mlog]; [exact HW1 | lia].
Qed.

Lemma safe_iter_wr s : wr_inv s -> wr_post (safe_iter p fuel s).
Proof.
  intros [HW Hop]. unfold safe_iter.
  pose proof (u8_range (cell (hp s) (ip s))) as Htok.
  pose proof (literal_seed_range _ Htok) as Hll.
  set (token := u8 (cell (hp s) (ip s))) in *.
  set (length := Z.shiftr token ML_BITS) in *.
  destruct (shortcut_cond p (set_ip s (ip s + 1)) length) eqn:Hsc.
  - unfold shortcut_cond in Hsc. rewrite Hin in Hsc. st_simpl. consts. b2p.
    apply shortcut_wr; cbn [ip op hp mlog]; try lia. split; assumption.
  - clear Hsc. st_simpl. destruct (length =? RUN_MASK) eqn:Hrm.
    + unfold decode_literal_length. cbn [ip op hp mlog].
      pose proof (read_variable_length_spec fuel (hp s) (ip s + 1)
                    (iend p - RUN_MASK) (endIn p) (endIn p)) as Hr.
      destruct (read_variable_length _ _ _ _ _ _) as [[[n ip'] e]|]; [|exact I].
      destruct Hr as (Hn & _). st_simpl.
      ifs; try wleaf.
      apply safe_literal_copy_wr; cbn [ip op hp mlog]; try lia. split; assumption.
    + apply safe_literal_copy_wr; cbn [ip op hp mlog]; try lia. split; assumption.
Qed.

Definition fast_wr_post (f : fast_flow) : Prop :=
  match f with
  | Fast s => wr_inv s /\ op s <= oend p - 64
  | Safe f => wr_post f
  end.

Lemma fast_copy_match_wr s length offset match_ :
  wr_inv s -> 4 <= length -> op s + length < oend p - 64 ->
  fast_wr_post (fast_copy_match s length offset match_).
Proof.
  intros [HW Hop] Hlen Hcpy. unfold fast_copy_match. st_simpl.
  cbn [fast_wr_post]. unfold wr_inv, W in *. cbn [ip op hp mlog].
  conj; try lia. destruct (offset <? 16); wsafe_tac.
Qed.

Lemma fast_match_wr s token :
  wr_inv s -> op s <= oend p - 32 -> 0 <= token ->
  fast_wr_post (fast_match p fuel s token).
Proof.
  intros [HW Hop] Hop32 Htok. unfold fast_match. st_simpl.
  pose proof (match_seed_range token Htok) as Hml.
  set (offset := LZ4_readLE16 (hp s) (ip s)).
  set (match_ := op s - offset).
  destruct (offset_out_of_range p match_); [cbn [fast_wr_post]; wleaf|].
  destruct (Z.land token ML_MASK =? ML_MASK) eqn:Hm.
  - pose proof (read_variable_length_spec fuel (hp s) (ip s + 2)
                  (iend p - LASTLITERALS + 1) (endIn p) false) as Hr.
    destruct (read_variable_length _ _ _ _ _ _) as [[[n ip'] e]|]; [|exact I].
    destruct Hr as (Hn & _). consts.
    destruct (negb (is_ok e)); [cbn [fast_wr_post]; wleaf|].
    destruct (safeDecode p && _); [cbn [fast_wr_post]; wleaf|].
    destruct (op s + (Z.land token 15 + n + 4) >=? oend p - 64) eqn:Hfar.
    + cbn [fast_wr_post]. apply safe_match_copy_wr; cbn [ip op hp mlog]; try lia.
      split; assumption.
    + b2p. apply fast_copy_match_wr; cbn [ip op hp mlog]; try lia.
      split; assumption.
  - consts.
    destruct (op s + (Z.land token 15 + 4) >=? oend p - 64) eqn:Hfar.
    + cbn [fast_wr_post]. apply safe_match_copy_wr; cbn [ip op hp mlog]; try lia.
      split; assumption.
    + b2p. destruct ((match_ >=? lowPrefix p) && (offset >=? 8)).
      * cbn [fast_wr_post]. unfold wr_inv, W in *. cbn [ip op hp mlog].
        conj; try lia. wsafe_tac.
      * apply fast_copy_match_wr; cbn [ip op hp mlog]; try lia. split; assumption.
Qed.

Lemma fast_iter_wr s :
  wr_inv s -> op s <= oend p - 64 -> fast_wr_post (fast_iter p fuel s).
Proof.
  intros [HW Hop] Hop64. unfold fast_iter.
  pose proof (u8_range (cell (hp s) (ip s))) as Htok.
  pose proof (literal_seed_range _ Htok) as Hll.
  set (token := u8 (cell (hp s) (ip s))) in *.
  set (length := Z.shiftr token ML_BITS) in *.
  rewrite Hin. st_simpl.
  destruct (length =? RUN_MASK) eqn:Hrm.
  - pose proof (read_variable_length_spec fuel (hp s) (ip s + 1)
                  (iend p - RUN_MASK) true true) as Hr.
    destruct (read_variable_length _ _ _ _ _ _) as [[[n ip'] e]|]; [|exact I].
    destruct Hr as (Hn & _). consts.
    destruct (is_initial_error e); [cbn [fast_wr_post]; wleaf|].
    destruct (safeDecode p && ptr_overflow (op s) (length + n));
      [cbn [fast_wr_post]; wleaf|].
    destruct (safeDecode p && ptr_overflow ip' (length + n));
      [cbn [fast_wr_post]; wleaf|].
    destruct ((op s + (length + n) >? oend p - 32)
              || (ip' + (length + n) >? iend p - 32)) eqn:Hfar.
    + cbn [fast_wr_post]. apply safe_literal_copy_wr; cbn [ip op hp mlog]; try lia.
      split; assumption.
    + b2p. apply fast_match_wr; cbn [ip op hp mlog]; try lia.
      unfold wr_inv, W in *. cbn [ip op hp mlog]. conj; try lia. wsafe_tac.
  - consts. destruct (ip s + 1 >? iend p - (16 + 1)) eqn:Hfar.
    + cbn [fast_wr_post]. apply safe_literal_copy_wr; cbn [ip op hp mlog]; try lia.
      split; assumption.
    + b2p. apply fast_match_wr; cbn [ip op hp mlog]; try lia.
      unfold wr_inv, W in *. cbn [ip op hp mlog]. conj; try lia. wsafe_tac.
Qed.

Definition wr_run (o : outcome) : Prop :=
  match o with
  | Returned _ s => W p (hp s)
  | OutOfFuel => True
  end.

Lemma after_body_wr k f :
  wr_post f -> (forall s, wr_inv s -> wr_run (k s)) -> wr_run (after_body p k f).
Proof.
  intros Hf Hk. destruct f as [s|s|s|]; cbn [after_body wr_post] in *.
  - apply Hk. exact Hf.
  - unfold end_of_decoding. destruct (endIn p); apply Hf.
  - apply Hf.
  - exact I.
Qed.

Lemma safe_loop_wr n : forall s, wr_inv s -> wr_run (safe_loop p fuel n s).
Proof.
  induction n as [|n IH]; intros s Hs; [exact I|].
  cbn [safe_loop]. apply after_body_wr; [apply safe_iter_wr; exact Hs | exact IH].
Qed.

Lemma fast_loop_wr n : forall s,
  wr_inv s -> op s <= oend p - 64 -> wr_run (fast_loop p fuel n s).
Proof.
  induction n as [|n IH]; intros s Hs Hop; [exact I|].
  cbn [fast_loop]. pose proof (fast_iter_wr s Hs Hop) as Hf.
  destruct (fast_iter p fuel s) as [s'|f]; cbn [fast_wr_post] in Hf.
  - apply IH; apply Hf.
  - apply after_body_wr; [exact Hf | apply safe_loop_wr].
Qed.

Lemma generic_wr fdl m : wr_run (LZ4_decompress_generic fdl p fuel m).
Proof.
  unfold LZ4_decompress_generic.
  assert (H0 : wr_inv (mkState (src p) (dst p) (mkHeap m []) [])).
  { split; cbn [ip op hp]; [constructor | lia]. }
  assert (HW0 : wr_run (Returned 0 (mkState (src p) (dst p) (mkHeap m []) [])))
    by exact (proj1 H0).
  destruct (endIn p && (outputSize p =? 0)); [exact (proj1 H0)|].
  destruct (negb (endIn p) && (outputSize p =? 0)); [exact (proj1 H0)|].
  destruct (endIn p && (srcSize p =? 0)); [exact (proj1 H0)|].
  cbn [op].
  destruct fdl; [destruct (oend p - dst p <? FASTLOOP_SAFE_DISTANCE) eqn:Hd|].
  - apply safe_loop_wr. exact H0.
  - b2p. consts. apply fast_loop_wr; [exact H0 | cbn [op]; lia].
  - apply safe_loop_wr. exact H0.
Qed.

End WriteSafety.

(** ** The input cursor never moves back *)

Section CursorMonotone.

Variable p : params.
Variable fuel : nat.

Definition mono_post (ip0 : Z) (f : flow) : Prop :=
  match f with
  | Continue s | Break s | OutputError s => ip0 <= ip s
  | Starved => True
  end.

Definition fast_mono_post (ip0 : Z) (f : fast_flow) : Prop :=
  match f with
  | Fast s => ip0 <= ip s
  | Safe f => mono_post ip0 f
  end.

Ltac mleaf := solve [ cbn [mono_post fast_mono_post ip]; lia ].

Lemma safe_match_copy_mono s length offset match_ ip0 :
  ip0 <= ip s -> mono_post ip0 (safe_match_copy p s length offset match_).
Proof.
  intros Hip. unfold safe_match_copy. st_simpl.
  destruct (copy_match_head _ _ _ _) as [h1 m1].
  ifs; st_simpl; mleaf.
Qed.

Lemma copy_match_mono s length offset match_ ip0 :
  ip0 <= ip s -> mono_post ip0 (copy_match p fuel s length offset match_).
Proof.
  intros Hip. unfold copy_match, copy_match_length.
  destruct (offset_out_of_range p match_); [mleaf|].
  destruct (length =? ML_MASK); [|apply safe_match_copy_mono; exact Hip].
  pose proof (read_variable_length_spec fuel (hp s) (ip s)
                (iend p - LASTLITERALS + 1) (endIn p) false) as Hr.
  destruct (read_variable_length _ _ _ _ _ _) as [[[n ip'] e]|]; [|exact I].
  destruct Hr as (_ & Hle & _). st_simpl.
  ifs; try mleaf. apply safe_match_copy_mono. cbn [ip]. lia.
Qed.

Lemma get_offset_mono s token ip0 :
  ip0 <= ip s -> mono_post ip0 (get_offset p fuel s token).
Proof.
  intros Hip. unfold get_offset. apply copy_match_mono. st_simpl. lia.
Qed.

Lemma safe_literal_copy_mono s token length cpy ip0 :
  ip0 <= ip s -> 0 <= length ->
  mono_post ip0 (safe_literal_copy p fuel s token length cpy).
Proof.
  intros Hip Hlen. unfold safe_literal_copy.
  pose proof (Z.mod_pos_bound (oend p - op s) (2 ^ 64) ltac:(lia)) as Hsz.
  fold (size_t (oend p - op s)) in Hsz.
  destruct (near_end p s length cpy).
  - destruct (partial p && (cpy >? oend p)); cbn [ip op hp mlog];
      ifs; try mleaf; apply get_offset_mono; cbn [ip]; lia.
  - apply get_offset_mono. cbn [ip]. lia.
Qed.

Lemma shortcut_mono s token length ip0 :
  ip0 <= ip s -> 0 <= length ->
  mono_post ip0 (shortcut p fuel s token length).
Proof.
  intros Hip Hlen. unfold shortcut. st_simpl.
  ifs; try mleaf; apply copy_match_mono; cbn [ip]; lia.
Qed.

Lemma safe_iter_mono s : mono_post (ip s) (safe_iter p fuel s).
Proof.
  unfold safe_iter.
  pose proof (literal_seed_range _ (u8_range (cell (hp s) (ip s)))) as Hll.
  destruct (shortcut_cond _ _ _).
  - apply shortcut_mono; st_simpl; lia.
  - destruct (_ =? RUN_MASK).
    + unfold decode_literal_length. st_simpl.
      pose proof (read_variable_length_spec fuel (hp s) (ip s + 1)
                    (iend p - RUN_MASK) (endIn p) (endIn p)) as Hr.
      destruct (read_variable_length _ _ _ _ _ _) as [[[n ip'] e]|]; [|exact I].
      destruct Hr as (Hn & Hle & _).
      ifs; try mleaf. apply safe_literal_copy_mono; cbn [ip]; lia.
    + apply safe_literal_copy_mono; st_simpl; lia.
Qed.

Lemma fast_match_mono s token ip0 :
  ip0 <= ip s -> fast_mono_post ip0 (fast_match p fuel s token).
Proof.
  intros Hip. unfold fast_match, fast_copy_match. st_simpl.
  destruct (offset_out_of_range p _); [mleaf|].
  destruct (_ =? ML_MASK).
  - pose proof (read_variable_length_spec fuel (hp s) (ip s + 2)
                  (iend p - LASTLITERALS + 1) (endIn p) false) as Hr.
    destruct (read_variable_length _ _ _ _ _ _) as [[[n ip'] e]|]; [|exact I].
    destruct Hr as (_ & Hle & _).
    ifs; try mleaf; cbn [fast_mono_post]; apply safe_match_copy_mono; cbn [ip]; lia.
  - ifs; try mleaf; cbn [fast_mono_post]; apply safe_match_copy_mono; cbn [ip]; lia.
Qed.

Lemma fast_iter_mono s : fast_mono_post (ip s) (fast_iter p fuel s).
Proof.
  unfold fast_iter. st_simpl.
  pose proof (literal_seed_range _ (u8_range (cell (hp s) (ip s)))) as Hll.
  destruct (_ =? RUN_MASK).
  - pose proof (read_variable_length_spec fuel (hp s) (ip s + 1)
                  (iend p - RUN_MASK) (endIn p) (endIn p)) as Hr.
    destruct (read_variable_length _ _ _ _ _ _) as [[[n ip'] e]|]; [|exact I].
    destruct Hr as (Hn & Hle & _).
    repeat match goal with
    | |- context [if ?c then fast_match _ _ _ _ else _] => fail 1
    | |- context [if ?c then _ else _] => destruct c eqn:?
    end; try mleaf;
      first [ apply fast_match_mono; cbn [ip]; lia
            | cbn [fast_mono_post]; apply safe_literal_copy_mono; cbn [ip]; lia ].
  - ifs; try mleaf;
      first [ apply fast_match_mono; cbn [ip]; lia
            | cbn [fast_mono_post]; apply safe_literal_copy_mono; cbn [ip]; lia ].
Qed.

Definition mono_run (ip0 : Z) (o : outcome) : Prop :=
  match o with
  | Returned _ s => ip0 <= ip s
  | OutOfFuel => True
  end.

Lemma after_body_mono ip0 k f :
  mono_post ip0 f -> (forall s, ip0 <= ip s -> mono_run ip0 (k s)) ->
  mono_run ip0 (after_body p k f).
Proof.
  intros Hf Hk. destruct f as [s|s|s|]; cbn [after_body mono_post] in *.
  - apply Hk. exact Hf.
  - unfold end_of_decoding. destruct (endIn p); exact Hf.
  - exact Hf.
  - exact I.
Qed.

Lemma safe_loop_mono n : forall s ip0,
  ip0 <= ip s -> mono_run ip0 (safe_loop p fuel n s).
Proof.
  induction n as [|n IH]; intros s ip0 Hs; [exact I|].
  cbn [safe_loop]. apply after_body_mono.
  - pose proof (safe_iter_mono s) as H.
    destruct (safe_iter p fuel s); cbn [mono_post] in *; lia.
  - intros s' Hs'. apply IH. exact Hs'.
Qed.

Lemma fast_loop_mono n : forall s ip0,
  ip0 <= ip s -> mono_run ip0 (fast_loop p fuel n s).
Proof.
  induction n as [|n IH]; intros s ip0 Hs; [exact I|].
  cbn [fast_loop]. pose proof (fast_iter_mono s) as Hf.
  destruct (fast_iter p fuel s) as [s'|f]; cbn [fast_mono_post] in Hf.
  - apply IH. lia.
  - apply after_body_mono.
    + destruct f; cbn [mono_post] in *; lia.
    + intros s' Hs'. apply safe_loop_mono. exact Hs'.
Qed.

Lemma generic_mono fdl m :
  mono_run (src p) (LZ4_decompress_generic fdl p fuel m).
Proof.
  unfold LZ4_decompress_generic.
  destruct (endIn p && (outputSize p =? 0)); [cbn [mono_run ip]; lia|].
  destruct (negb (endIn p) && (outputSize p =? 0)); [cbn [mono_run ip]; lia|].
  destruct (endIn p && (srcSize p =? 0)); [cbn [mono_run ip]; lia|].
  destruct fdl; [destruct (_ <? _)|];
    first [apply safe_loop_mono | apply fast_loop_mono]; cbn [ip]; lia.
Qed.

End CursorMonotone.

(** ** Without a dictionary, every match that is copied is in range *)

Section MatchRange.

Variable p : params.
Variable fuel : nat.

Hypothesis Hcheck : checkOffset p = true.
Hypothesis Hdict : dict p = noDict.
Hypothesis Hsize : 0 <= dictSize p.


















End MatchRange.

(** ** Full mode: where the loop breaks *)

Section FullMode.

Variable p : params.
Variable fuel : nat.
Hypothesis Hfull : partial p = false.

(** In full mode a [break] leaves the input cursor at the end of the input
    when the input bounds the decoding, and the output cursor at the end of
    the output when the output bounds it. *)
Definition break_post (f : flow) : Prop :=
  match f with
  | Break s => if endIn p then ip s = iend p else op s = oend p
  | _ => True
  end.

Lemma safe_match_copy_break s length offset match_ :
  break_post (safe_match_copy p s length offset match_).
Proof.
  unfold safe_match_copy. rewrite Hfull. cbn [andb].
  destruct (copy_match_head _ _ _ _) as [h m1].
  repeat match goal with
  | |- context [if ?c then _ else _] => destruct c
  end; exact I.
Qed.

Lemma copy_match_break s length offset match_ :
  break_post (copy_match p fuel s length offset match_).
Proof.
  unfold copy_match, copy_match_length.
  destruct (offset_out_of_range p match_); [exact I|].
  destruct (length =? ML_MASK); [|apply safe_match_copy_break].
  destruct (read_variable_length _ _ _ _ _ _) as [[[n ip'] e]|]; [|exact I].
  destruct (negb (is_ok e)); [exact I|].
  destruct (safeDecode p && _); [exact I | apply safe_match_copy_break].
Qed.

Lemma safe_literal_copy_break s token length cpy :
  cpy = op s + length ->
  break_post (safe_literal_copy p fuel s token length cpy).
Proof.
  intros ->. unfold safe_literal_copy, get_offset. rewrite Hfull. cbn [andb negb orb].
  destruct (near_end p s length (op s + length)); [|apply copy_match_break].
  destruct (endIn p) eqn:Hin; cbn [andb negb orb].
  - destruct (negb (ip s + length =? iend p) || (op s + length >? oend p)) eqn:Hc;
      [exact I|]. b2p. cbn [break_post ip]. rewrite Hin. assumption.
  - rewrite orb_false_r.
    destruct (negb (op s + length =? oend p)) eqn:Hc; [exact I|].
    b2p. cbn [break_post op]. rewrite Hin. assumption.
Qed.

Lemma safe_iter_break s : break_post (safe_iter p fuel s).
Proof.
  unfold safe_iter, shortcut, decode_literal_length.
  destruct (shortcut_cond _ _ _).
  - match goal with
    | |- context [if ?c then _ else _] => destruct c
    end; [exact I | apply copy_match_break].
  - destruct (_ =? RUN_MASK); [|apply safe_literal_copy_break; reflexivity].
    destruct (read_variable_length _ _ _ _ _ _) as [[[n ip'] e]|]; [|exact I].
    repeat match goal with
    | |- context [if ?c then _ else _] => destruct c
    end; try exact I. apply safe_literal_copy_break. reflexivity.
Qed.

Lemma fast_match_break s token :
  match fast_match p fuel s token with
  | Fast _ => True
  | Safe f => break_post f
  end.
Proof.
  unfold fast_match, fast_copy_match.
  destruct (offset_out_of_range p _); [exact I|].
  destruct (_ =? ML_MASK).
  - destruct (read_variable_length _ _ _ _ _ _) as [[[n ip'] e]|]; [|exact I].
    repeat match goal with
    | |- context [if ?c then _ else _] => destruct c
    end; try exact I; apply safe_match_copy_break.
  - repeat match goal with
    | |- context [if ?c then _ else _] => destruct c
    end; try exact I; apply safe_match_copy_break.
Qed.

Lemma fast_iter_break s :
  match fast_iter p fuel s with
  | Fast _ => True
  | Safe f => break_post f
  end.
Proof.
  unfold fast_iter.
  destruct (_ =? RUN_MASK).
  - destruct (read_variable_length _ _ _ _ _ _) as [[[n ip'] e]|]; [|exact I].
    repeat match goal with
    | |- context [if ?c then fast_match _ _ _ _ else _] => fail 1
    | |- context [if ?c then _ else _] => destruct c
    end; try exact I;
      first [apply fast_match_break | apply safe_literal_copy_break; reflexivity].
  - repeat match goal with
    | |- context [if ?c then _ else _] => destruct c
    end; try exact I;
      first [apply fast_match_break | apply safe_literal_copy_break; reflexivity].
Qed.

(** What a loop returns in full mode. *)
Definition full_post (o : outcome) : Prop :=
  match o with
  | Returned r s =>
      (if endIn p
       then ip s = iend p /\ r = to_int (op s - dst p)
       else op s = oend p /\ r = to_int (ip s - src p))
      \/ r = to_int (- (ip s - src p)) - 1
  | OutOfFuel => True
  end.

Lemma after_body_full k f :
  break_post f -> (forall s, full_post (k s)) -> full_post (after_body p k f).
Proof.
  intros Hf Hk. destruct f as [s|s|s|]; cbn [after_body break_post] in *.
  - apply Hk.
  - unfold end_of_decoding, full_post. revert Hf.
    destruct (endIn p); intros Hf; left; auto.
  - unfold output_error. cbn [full_post]. right. reflexivity.
  - exact I.
Qed.

Lemma safe_loop_full n : forall s, full_post (safe_loop p fuel n s).
Proof.
  induction n as [|n IH]; intros s; [exact I|].
  cbn [safe_loop]. apply after_body_full; [apply safe_iter_break | exact IH].
Qed.

Lemma fast_loop_full n : forall s, full_post (fast_loop p fuel n s).
Proof.
  induction n as [|n IH]; intros s; [exact I|].
  cbn [fast_loop]. pose proof (fast_iter_break s) as Hf.
  destruct (fast_iter p fuel s) as [s'|f]; [apply IH|].
  apply after_body_full; [exact Hf | apply safe_loop_full].
Qed.

Lemma generic_full fdl m :
  outputSize p <> 0 -> full_post (LZ4_decompress_generic fdl p fuel m).
Proof.
  intros Ho. apply Z.eqb_neq in Ho. unfold LZ4_decompress_generic.
  rewrite Ho, !andb_false_r.
  destruct (endIn p && (srcSize p =? 0)) eqn:Hs.
  - b2p. cbn [full_post ip src]. right.
    replace (src p - src p) with 0 by lia. reflexivity.
  - destruct fdl; [destruct (_ <? _)|];
      first [apply safe_loop_full | apply fast_loop_full].
Qed.

End FullMode.

(** ** Run-length expansion: what a match copy with offset 1 leaves *)

Section Fill.

Variable v : byte.
Variable lo : Z.

(** Every byte of [lo, x) is [v]. *)
Definition filled (h : heap) (x : Z) : Prop :=
  forall a, lo <= a < x -> cell h a = v.

Lemma filled_weaken h x x' : filled h x -> x' <= x -> filled h x'.
Proof. intros Hf Hle a Ha. apply Hf. lia. Qed.

Lemma filled_store h x a :
  filled h x -> lo <= a <= x -> filled (store h a v) (Z.max x (a + 1)).
Proof.
  intros Hf Ha b Hb. unfold store; cbn [cell].
  destruct (Z.eqb_spec b a); [reflexivity|]. apply Hf. lia.
Qed.

Lemma filled_store_bytes bs : forall h x d,
  Forall (eq v) bs -> filled h x -> lo <= d <= x ->
  filled (store_bytes h d bs) (Z.max x (d + Z.of_nat (length bs))).
Proof.
  induction bs as [|b bs IH]; intros h x d Hbs Hf Hd; cbn [store_bytes length].
  - eapply filled_weaken; [exact Hf | lia].
  - inversion Hbs as [|b' bs' Hb Hbs']; subst b' bs'. subst b.
    eapply filled_weaken.
    + apply (IH (store h d v) (Z.max x (d + 1)) (d + 1) Hbs').
      * apply filled_store; assumption.
      * lia.
    + lia.
Qed.

Lemma load_bytes_filled h x s n :
  filled h x -> lo <= s -> s + Z.of_nat n <= x ->
  Forall (eq v) (load_bytes h s n).
Proof.
  intros Hf Hs Hn. unfold load_bytes. apply Forall_forall.
  intros b Hb. apply in_map_iff in Hb. destruct Hb as (i & Hi & Hin).
  apply in_seq in Hin. subst b. symmetry. apply Hf. lia.
Qed.

Lemma filled_memcpy h x d s n :
  filled h x -> lo <= s -> s + n <= x -> lo <= d <= x ->
  filled (memcpy h d s n) (Z.max x (d + n)).
Proof.
  intros Hf Hs Hn Hd. unfold memcpy.
  destruct (Z.leb_spec n 0) as [Hle|Hgt].
  - replace (Z.to_nat n) with O by lia. cbn [load_bytes seq map store_bytes].
    eapply filled_weaken; [exact Hf | lia].
  - eapply filled_weaken.
    + apply filled_store_bytes; [|exact Hf | exact Hd].
      apply (load_bytes_filled h x); [exact Hf | exact Hs | lia].
    + rewrite load_bytes_length. lia.
Qed.

Lemma filled_byte_loop k : forall h x d s e,
  filled h x -> lo <= s -> s < d -> d <= x -> e - d <= Z.of_nat k ->
  filled (byte_loop k h d s e) (Z.max x e).
Proof.
  induction k as [|k IH]; intros h x d s e Hf Hs Hsd Hd Hk; cbn [byte_loop].
  - eapply filled_weaken; [exact Hf | lia].
  - destruct (Z.ltb_spec d e) as [Hlt|Hge].
    + rewrite (Hf s) by lia. eapply filled_weaken.
      * apply (IH (store h d v) (Z.max x (d + 1)) (d + 1) (s + 1) e); try lia.
        apply filled_store; [exact Hf | lia].
      * lia.
    + eapply filled_weaken; [exact Hf | lia].
Qed.

Lemma filled_copy_bytes_until h x d s e :
  filled h x -> lo <= s -> s < d -> d <= x ->
  filled (copy_bytes_until h d s e) (Z.max x e).
Proof.
  intros Hf Hs Hsd Hd. apply filled_byte_loop; try assumption. lia.
Qed.

Lemma filled_wildCopy8_loop k : forall h x d s e,
  filled h x -> lo <= s -> s + 8 <= d -> d <= x -> e - d <= Z.of_nat k ->
  filled (wildCopy8_loop k h d s e) (Z.max x e).
Proof.
  induction k as [|k IH]; intros h x d s e Hf Hs Hsd Hd Hk; cbn [wildCopy8_loop].
  - eapply filled_weaken; [apply filled_memcpy; try exact Hf; lia | lia].
  - destruct (Z.ltb_spec (d + 8) e) as [Hlt|Hge].
    + eapply filled_weaken.
      * apply (IH (memcpy h d s 8) (Z.max x (d + 8)) (d + 8) (s + 8) e); try lia.
        apply filled_memcpy; try exact Hf; lia.
      * lia.
    + eapply filled_weaken; [apply filled_memcpy; try exact Hf; lia | lia].
Qed.

Lemma filled_wildCopy8 h x d s e :
  filled h x -> lo <= s -> s + 8 <= d -> d <= x ->
  filled (LZ4_wildCopy8 h d s e) (Z.max x e).
Proof.
  intros Hf Hs Hsd Hd. apply filled_wildCopy8_loop; try assumption. lia.
Qed.

Lemma filled_pattern_loop k : forall h x d e,
  filled h x -> lo <= d <= x -> e - d <= Z.of_nat k ->
  filled (pattern_loop k h d (repeat v 8) e) (Z.max x e).
Proof.
  assert (Hv : Forall (eq v) (repeat v 8)).
  { apply Forall_forall. intros b Hb. symmetry. exact (repeat_spec _ _ _ Hb). }
  induction k as [|k IH]; intros h x d e Hf Hd Hk; cbn [pattern_loop].
  - eapply filled_weaken; [apply filled_store_bytes; eassumption | ].
    rewrite repeat_length. lia.
  - destruct (Z.ltb_spec (d + 8) e) as [Hlt|Hge].
    + eapply filled_weaken.
      * apply (IH (store_bytes h d (repeat v 8))
                  (Z.max x (d + Z.of_nat (length (repeat v 8)))) (d + 8) e).
        -- apply filled_store_bytes; assumption.
        -- rewrite repeat_length. lia.
        -- lia.
      * lia.
    + eapply filled_weaken; [apply filled_store_bytes; eassumption | ].
      rewrite repeat_length. lia.
Qed.

End Fill.

(** The first 8 bytes of a match with offset 1: all are the byte before
    [op], and the source for what follows is [op] itself. *)
Lemma copy_match_head_offset_one h o :
  let v := cell h (o - 1) in
  filled v (o - 1) (fst (copy_match_head h o (o - 1) 1)) (o + 8)
  /\ snd (copy_match_head h o (o - 1) 1) = o.
Proof.
  intros v. unfold copy_match_head. cbn [Z.ltb Z.compare Pos.compare Pos.compare_cont fst snd].
  change (inc32table 1) with 1. change (dec64table 1) with 0.
  split; [|lia].
  assert (H0 : filled v (o - 1) h o).
  { intros a Ha. replace a with (o - 1) by lia. reflexivity. }
  assert (H1 : filled v (o - 1) (store h o (cell h (o - 1))) (o + 1)).
  { eapply filled_weaken; [apply filled_store; [exact H0 | lia] | lia]. }
  set (h1 := store h o (cell h (o - 1))) in *.
  assert (H2 : filled v (o - 1) (store h1 (o + 1) (cell h1 (o - 1 + 1))) (o + 2)).
  { rewrite (H1 (o - 1 + 1)) by lia.
    eapply filled_weaken; [apply filled_store; [exact H1 | lia] | lia]. }
  set (h2 := store h1 (o + 1) (cell h1 (o - 1 + 1))) in *.
  assert (H3 : filled v (o - 1) (store h2 (o + 2) (cell h2 (o - 1 + 2))) (o + 3)).
  { rewrite (H2 (o - 1 + 2)) by lia.
    eapply filled_weaken; [apply filled_store; [exact H2 | lia] | lia]. }
  set (h3 := store h2 (o + 2) (cell h2 (o - 1 + 2))) in *.
  assert (H4 : filled v (o - 1) (store h3 (o + 3) (cell h3 (o - 1 + 3))) (o + 4)).
  { rewrite (H3 (o - 1 + 3)) by lia.
    eapply filled_weaken; [apply filled_store; [exact H3 | lia] | lia]. }
  set (h4 := store h3 (o + 3) (cell h3 (o - 1 + 3))) in *.
  eapply filled_weaken; [apply filled_memcpy; [exact H4 | lia | lia | lia] | lia].
Qed.

Lemma safe_match_copy_fill (p : params) (s s' : state) (length : Z) :
  partial p && (op s + length >? oend p - MATCH_SAFEGUARD_DISTANCE) = false ->
  safe_match_copy p s length 1 (op s - 1) = Continue s' ->
  filled (cell (hp s) (op s - 1)) (op s - 1) (hp s') (op s + length).
Proof.
  intros Hc Hrun. unfold safe_match_copy in Hrun.
  unfold log_match, set_op, set_hp in Hrun. cbn [ip op hp mlog] in Hrun.
  rewrite Hc in Hrun. clear Hc.
  destruct (copy_match_head_offset_one (hp s) (op s)) as [Hh Hm].
  destruct (copy_match_head (hp s) (op s) (op s - 1) 1) as [h1 m1].
  cbn [fst snd] in Hh, Hm. subst m1. cbn [ip op hp mlog] in Hrun.
  set (v := cell (hp s) (op s - 1)) in *. consts.
  destruct (op s + length >? oend p - 12).
  - destruct (op s + length >? oend p - 5); [discriminate|].
    destruct (op s + 8 <? oend p - (8 - 1)) eqn:Hlim;
      injection Hrun as <-; cbn [hp]; b2p.
    + eapply filled_weaken.
      * apply (filled_copy_bytes_until v (op s - 1) _
                 (Z.max (op s + 8) (oend p - (8 - 1)))).
        -- apply (filled_wildCopy8 v (op s - 1) _ (op s + 8));
             [exact Hh | lia | lia | lia].
        -- lia.
        -- lia.
        -- lia.
      * lia.
    + eapply filled_weaken.
      * apply (filled_copy_bytes_until v (op s - 1) _ (op s + 8));
          [exact Hh | lia | lia | lia].
      * lia.
  - injection Hrun as <-; cbn [hp]. unfold LZ4_copy8.
    assert (H16 : filled v (op s - 1) (memcpy h1 (op s + 8) (op s) 8) (op s + 16)).
    { eapply filled_weaken; [apply filled_memcpy; [exact Hh | lia | lia | lia] | lia]. }
    destruct (length >? 16) eqn:Hl; b2p.
    + eapply filled_weaken.
      * apply (filled_wildCopy8 v (op s - 1) _ (op s + 16));
          [exact H16 | lia | lia | lia].
      * lia.
    + eapply filled_weaken; [exact H16 | lia].
Qed.

Lemma safe_match_copy_partial_fill (p : params) (s s' : state) (length : Z) :
  partial p && (op s + length >? oend p - MATCH_SAFEGUARD_DISTANCE) = true ->
  0 <= oend p - op s < 2 ^ 64 ->
  safe_match_copy p s length 1 (op s - 1) = Continue s'
  \/ safe_match_copy p s length 1 (op s - 1) = Break s' ->
  filled (cell (hp s) (op s - 1)) (op s - 1) (hp s')
         (op s + Z.min length (oend p - op s)).
Proof.
  intros Hc Hsz Hrun. unfold safe_match_copy in Hrun.
  unfold log_match, set_op, set_hp in Hrun. cbn [ip op hp mlog] in Hrun.
  rewrite Hc in Hrun. clear Hc. rewrite size_t_small in Hrun by exact Hsz.
  set (mlen := Z.min length (oend p - op s)) in *.
  set (v := cell (hp s) (op s - 1)) in *.
  assert (H0 : filled v (op s - 1) (hp s) (op s)).
  { intros a Ha. replace a with (op s - 1) by lia. reflexivity. }
  assert (Hh : hp s' = if op s - 1 + mlen >? op s
                       then copy_bytes_until (hp s) (op s) (op s - 1) (op s + mlen)
                       else memcpy (hp s) (op s) (op s - 1) mlen).
  { destruct (op s + mlen =? oend p); destruct Hrun as [Hr|Hr];
      try discriminate; injection Hr as <-; reflexivity. }
  rewrite Hh. destruct (op s - 1 + mlen >? op s) eqn:Hov; b2p.
  - eapply filled_weaken.
    + apply (filled_copy_bytes_until v (op s - 1) _ (op s));
        [exact H0 | lia | lia | lia].
    + lia.
  - eapply filled_weaken.
    + apply (filled_memcpy v (op s - 1) _ (op s)); [exact H0 | lia | lia | lia].
    + lia.
Qed.

Lemma fast_copy_match_fill (s s' : state) (length : Z) :
  fast_copy_match s length 1 (op s - 1) = Fast s' ->
  filled (cell (hp s) (op s - 1)) (op s - 1) (hp s') (op s + length).
Proof.
  unfold fast_copy_match, log_match, set_op, set_hp. cbn [ip op hp mlog].
  cbn [Z.ltb Z.compare Pos.compare Pos.compare_cont].
  unfold LZ4_memcpy_using_offset. cbn [Z.eqb Pos.eqb].
  intros Hrun. injection Hrun as <-. cbn [hp].
  eapply filled_weaken.
  - apply (filled_pattern_loop (cell (hp s) (op s - 1)) (op s - 1) _ _ (op s)).
    + intros a Ha. replace a with (op s - 1) by lia. reflexivity.
    + lia.
    + lia.
  - lia.
Qed.

(** ** What a pass leaves alone

    Whatever the mode, the stores of the decoder go to addresses at or above
    the output cursor, which never moves back.  So a byte below the cursor
    keeps its value for the rest of the run, and memory is changed only
    where the write log says so. *)

Section Frame.

Variable lo : Z.

(** [h'] comes from [h] by stores at or above [lo]: the write log grew by
    such addresses only, and the cells that are not among them are as in
    [h]. *)
Definition extends (h h' : heap) : Prop :=
  exists new, wlog h' = new ++ wlog h
              /\ Forall (fun a => lo <= a) new
              /\ forall a, ~ In a new -> cell h' a = cell h a.

Lemma extends_refl h : extends h h.
Proof.
  exists []. split; [reflexivity|]. split; [constructor | reflexivity].
Qed.

Lemma extends_store h0 h a b :
  extends h0 h -> lo <= a -> extends h0 (store h a b).
Proof.
  intros (new & Hl & Hf & Hc) Ha. exists (a :: new). cbn [store wlog cell].
  split; [rewrite Hl; reflexivity|]. split; [constructor; assumption|].
  intros x Hx. destruct (Z.eqb_spec x a) as [->|Hne].
  - exfalso. apply Hx. left. reflexivity.
  - apply Hc. intros Hin. apply Hx. right. exact Hin.
Qed.

Lemma extends_store_bytes bs : forall h0 h d,
  extends h0 h -> lo <= d -> extends h0 (store_bytes h d bs).
Proof.
  induction bs as [|b bs IH]; intros h0 h d Hh Hd; simpl; [assumption|].
  apply IH; [apply extends_store; assumption | lia].
Qed.

Lemma extends_memcpy h0 h d s n :
  extends h0 h -> lo <= d -> extends h0 (memcpy h d s n).
Proof. intros Hh Hd. unfold memcpy. apply extends_store_bytes; assumption. Qed.

Lemma extends_byte_loop k : forall h0 h d s e,
  extends h0 h -> lo <= d -> extends h0 (byte_loop k h d s e).
Proof.
  induction k as [|k IH]; intros h0 h d s e Hh Hd; simpl; [assumption|].
  destruct (d <? e); [|assumption].
  apply IH; [apply extends_store; assumption | lia].
Qed.

Lemma extends_copy_bytes_until h0 h d s e :
  extends h0 h -> lo <= d -> extends h0 (copy_bytes_until h d s e).
Proof. apply extends_byte_loop. Qed.

Lemma extends_wildCopy8_loop k : forall h0 h d s e,
  extends h0 h -> lo <= d -> extends h0 (wildCopy8_loop k h d s e).
Proof.
  induction k as [|k IH]; intros h0 h d s e Hh Hd; simpl.
  - apply extends_memcpy; assumption.
  - destruct (d + 8 <? e).
    + apply IH; [apply extends_memcpy; assumption | lia].
    + apply extends_memcpy; assumption.
Qed.

Lemma extends_wildCopy8 h0 h d s e :
  extends h0 h -> lo <= d -> extends h0 (LZ4_wildCopy8 h d s e).
Proof. apply extends_wildCopy8_loop. Qed.

Lemma extends_wildCopy32_loop k : forall h0 h d s e,
  extends h0 h -> lo <= d -> extends h0 (wildCopy32_loop k h d s e).
Proof.
  induction k as [|k IH]; intros h0 h d s e Hh Hd; simpl.
  - repeat (apply extends_memcpy; [| lia]). assumption.
  - destruct (d + 32 <? e).
    + apply IH; [repeat (apply extends_memcpy; [| lia]); assumption | lia].
    + repeat (apply extends_memcpy; [| lia]). assumption.
Qed.

Lemma extends_wildCopy32 h0 h d s e :
  extends h0 h -> lo <= d -> extends h0 (LZ4_wildCopy32 h d s e).
Proof. apply extends_wildCopy32_loop. Qed.

Lemma extends_pattern_loop k : forall h0 h d v e,
  extends h0 h -> lo <= d -> extends h0 (pattern_loop k h d v e).
Proof.
  induction k as [|k IH]; intros h0 h d v e Hh Hd; simpl.
  - apply extends_store_bytes; assumption.
  - destruct (d + 8 <? e).
    + apply IH; [apply extends_store_bytes; assumption | lia].
    + apply extends_store_bytes; assumption.
Qed.

Lemma extends_memcpy_using_offset_base h0 h d s e offset :
  extends h0 h -> lo <= d ->
  extends h0 (LZ4_memcpy_using_offset_base h d s e offset).
Proof.
  intros Hh Hd. unfold LZ4_memcpy_using_offset_base.
  destruct (offset <? 8).
  - apply extends_wildCopy8; [| lia].
    apply extends_memcpy; [| lia].
    repeat (apply extends_store; [| lia]). assumption.
  - apply extends_wildCopy8; [| lia]. apply extends_memcpy; assumption.
Qed.

Lemma extends_memcpy_using_offset h0 h d s e offset :
  extends h0 h -> lo <= d ->
  extends h0 (LZ4_memcpy_using_offset h d s e offset).
Proof.
  intros Hh Hd. unfold LZ4_memcpy_using_offset.
  destruct (offset =? 1); [|destruct (offset =? 2); [|destruct (offset =? 4)]];
    first [ apply extends_pattern_loop; assumption
          | apply extends_memcpy_using_offset_base; assumption ].
Qed.

Lemma extends_copy_match_head h0 h o m offset :
  extends h0 h -> lo <= o -> extends h0 (fst (copy_match_head h o m offset)).
Proof.
  intros Hh Hd. unfold copy_match_head, LZ4_copy8.
  destruct (offset <? 8); cbn [fst].
  - apply extends_memcpy; [| lia].
    repeat (apply extends_store; [| lia]). assumption.
  - apply extends_memcpy; assumption.
Qed.

(** Below [lo] nothing changed. *)
Lemma extends_below h h' a : extends h h' -> a < lo -> cell h' a = cell h a.
Proof.
  intros (new & _ & Hf & Hc) Ha. apply Hc. intros Hin.
  rewrite Forall_forall in Hf. specialize (Hf a Hin). lia.
Qed.

(** Every store of a run that started with an empty log is in the log. *)
Lemma extends_unlogged m h' a :
  extends (mkHeap m []) h' -> ~ In a (wlog h') -> cell h' a = m a.
Proof.
  intros (new & Hl & _ & Hc) Ha. cbn [wlog cell] in *.
  rewrite app_nil_r in Hl. subst new. apply Hc. exact Ha.
Qed.

Lemma extends_log_from m h' :
  extends (mkHeap m []) h' -> Forall (fun a => lo <= a) (wlog h').
Proof.
  intros (new & Hl & Hf & _). cbn [wlog] in Hl.
  rewrite app_nil_r in Hl. subst new. exact Hf.
Qed.

End Frame.

Lemma extends_weaken lo lo' h h' :
  lo' <= lo -> extends lo h h' -> extends lo' h h'.
Proof.
  intros Hle (new & Hl & Hf & Hc). exists new.
  split; [exact Hl|]. split; [|exact Hc].
  eapply Forall_impl; [|exact Hf]. cbn. intros a Ha. lia.
Qed.

Lemma extends_trans lo h1 h2 h3 :
  extends lo h1 h2 -> extends lo h2 h3 -> extends lo h1 h3.
Proof.
  intros (n1 & Hl1 & Hf1 & Hc1) (n2 & Hl2 & Hf2 & Hc2).
  exists (n2 ++ n1). split; [rewrite Hl2, Hl1, app_assoc; reflexivity|].
  split; [apply Forall_app; split; assumption|].
  intros a Ha. rewrite Hc2, Hc1; [reflexivity| |];
    intros Hin; apply Ha; apply in_or_app; [right | left]; exact Hin.
Qed.

(** A store stays above the cursor when its destination does. *)
Ltac ext_tac :=
  repeat first
    [ assumption
    | apply extends_store
    | apply extends_memcpy
    | apply extends_copy_bytes_until
    | apply extends_wildCopy8
    | apply extends_wildCopy32
    | apply extends_memcpy_using_offset ];
  try lia.

Section FramePass.

Variable p : params.
Variable fuel : nat.

(** After a pass: memory came from [h0] by stores at or above [lo], and the
    output cursor is at or above [lo]. *)
Definition frame_post (lo : Z) (h0 : heap) (f : flow) : Prop :=
  match f with
  | Continue s | Break s | OutputError s => extends lo h0 (hp s) /\ lo <= op s
  | Starved => True
  end.

Definition fast_frame_post (lo : Z) (h0 : heap) (f : fast_flow) : Prop :=
  match f with
  | Fast s => extends lo h0 (hp s) /\ lo <= op s
  | Safe f => frame_post lo h0 f
  end.

Ltac fleaf :=
  solve [ cbn [frame_post fast_frame_post ip op hp mlog]; split; ext_tac ].

Lemma safe_match_copy_frame s length offset match_ lo h0 :
  extends lo h0 (hp s) -> lo <= op s -> 0 <= length ->
  frame_post lo h0 (safe_match_copy p s length offset match_).
Proof.
  intros Hh Hop Hlen. unfold safe_match_copy. st_simpl.
  pose proof (Z.mod_pos_bound (oend p - op s) (2 ^ 64) ltac:(lia)) as Hsz.
  fold (size_t (oend p - op s)) in Hsz.
  pose proof (extends_copy_match_head lo h0 (hp s) (op s) match_ offset Hh Hop)
    as Hhead.
  destruct (copy_match_head _ _ _ _) as [h1 m1]. cbn [fst] in Hhead.
  consts. ifs; b2p; st_simpl; fleaf.
Qed.

Lemma copy_match_frame s length offset match_ lo h0 :
  extends lo h0 (hp s) -> lo <= op s -> 0 <= length ->
  frame_post lo h0 (copy_match p fuel s length offset match_).
Proof.
  intros Hh Hop Hlen. unfold copy_match, copy_match_length.
  destruct (offset_out_of_range p match_); [fleaf|].
  destruct (length =? ML_MASK); [|apply safe_match_copy_frame; consts; auto; lia].
  pose proof (read_variable_length_spec fuel (hp s) (ip s)
                (iend p - LASTLITERALS + 1) (endIn p) false) as Hr.
  destruct (read_variable_length _ _ _ _ _ _) as [[[n ip'] e]|]; [|exact I].
  destruct Hr as (Hn & _). st_simpl.
  ifs; try fleaf. apply safe_match_copy_frame; cbn [ip op hp]; consts; auto; lia.
Qed.

Lemma get_offset_frame s token lo h0 :
  extends lo h0 (hp s) -> lo <= op s -> 0 <= token ->
  frame_post lo h0 (get_offset p fuel s token).
Proof.
  intros Hh Hop Ht. unfold get_offset.
  pose proof (match_seed_range token Ht).
  apply copy_match_frame; st_simpl; auto; lia.
Qed.

Lemma safe_literal_copy_frame s token length cpy lo h0 :
  extends lo h0 (hp s) -> lo <= op s -> 0 <= length -> cpy = op s + length ->
  0 <= token ->
  frame_post lo h0 (safe_literal_copy p fuel s token length cpy).
Proof.
  intros Hh Hop Hlen Hcpy Ht. unfold safe_literal_copy, LZ4_memmove.
  pose proof (Z.mod_pos_bound (oend p - op s) (2 ^ 64) ltac:(lia)) as Hsz.
  fold (size_t (oend p - op s)) in Hsz.
  destruct (near_end p s length cpy).
  - destruct (partial p && (cpy >? oend p)); cbn [ip op hp mlog];
      ifs; try fleaf; apply get_offset_frame; cbn [ip op hp]; ext_tac.
  - apply get_offset_frame; cbn [ip op hp]; ext_tac.
Qed.

Lemma shortcut_frame s token length lo h0 :
  extends lo h0 (hp s) -> lo <= op s -> 0 <= length -> 0 <= token ->
  frame_post lo h0 (shortcut p fuel s token length).
Proof.
  intros Hh Hop Hlen Ht. unfold shortcut. st_simpl.
  pose proof (match_seed_range token Ht). consts.
  ifs; try fleaf; apply copy_match_frame; cbn [ip op hp]; ext_tac.
Qed.

Lemma safe_iter_frame s :
  frame_post (op s) (hp s) (safe_iter p fuel s).
Proof.
  unfold safe_iter.
  pose proof (u8_range (cell (hp s) (ip s))) as Ht.
  pose proof (literal_seed_range _ Ht) as Hll.
  pose proof (extends_refl (op s) (hp s)) as Hh.
  destruct (shortcut_cond _ _ _).
  - apply shortcut_frame; st_simpl; auto; lia.
  - destruct (_ =? RUN_MASK).
    + unfold decode_literal_length. st_simpl.
      pose proof (read_variable_length_spec fuel (hp s) (ip s + 1)
                    (iend p - RUN_MASK) (endIn p) (endIn p)) as Hr.
      destruct (read_variable_length _ _ _ _ _ _) as [[[n ip'] e]|]; [|exact I].
      destruct Hr as (Hn & _).
      ifs; try fleaf. apply safe_literal_copy_frame; cbn [ip op hp]; auto; lia.
    + apply safe_literal_copy_frame; st_simpl; auto; lia.
Qed.

Lemma fast_match_frame s token lo h0 :
  extends lo h0 (hp s) -> lo <= op s -> 0 <= token ->
  fast_frame_post lo h0 (fast_match p fuel s token).
Proof.
  intros Hh Hop Ht. unfold fast_match, fast_copy_match. st_simpl.
  pose proof (match_seed_range token Ht). consts.
  destruct (offset_out_of_range p _); [fleaf|].
  destruct (_ =? 15).
  - pose proof (read_variable_length_spec fuel (hp s) (ip s + 2)
                  (iend p - 5 + 1) (endIn p) false) as Hr.
    destruct (read_variable_length _ _ _ _ _ _) as [[[n ip'] e]|]; [|exact I].
    destruct Hr as (Hn & _).
    ifs; try fleaf; cbn [fast_frame_post];
      apply safe_match_copy_frame; cbn [ip op hp]; auto; lia.
  - ifs; try fleaf; cbn [fast_frame_post];
      apply safe_match_copy_frame; cbn [ip op hp]; auto; lia.
Qed.

Lemma fast_iter_frame s :
  fast_frame_post (op s) (hp s) (fast_iter p fuel s).
Proof.
  unfold fast_iter. st_simpl.
  pose proof (u8_range (cell (hp s) (ip s))) as Ht.
  pose proof (literal_seed_range _ Ht) as Hll.
  pose proof (extends_refl (op s) (hp s)) as Hh.
  destruct (_ =? RUN_MASK).
  - pose proof (read_variable_length_spec fuel (hp s) (ip s + 1)
                  (iend p - RUN_MASK) (endIn p) (endIn p)) as Hr.
    destruct (read_variable_length _ _ _ _ _ _) as [[[n ip'] e]|]; [|exact I].
    destruct Hr as (Hn & _).
    repeat match goal with
    | |- context [if ?c then fast_match _ _ _ _ else _] => fail 1
    | |- context [if ?c then _ else _] => destruct c eqn:?
    end; try fleaf;
      first [ apply fast_match_frame; cbn [ip op hp]; ext_tac
            | cbn [fast_frame_post]; apply safe_literal_copy_frame;
              cbn [ip op hp]; auto; lia ].
  - ifs; try fleaf;
      first [ apply fast_match_frame; cbn [ip op hp]; ext_tac
            | cbn [fast_frame_post]; apply safe_literal_copy_frame;
              cbn [ip op hp]; auto; lia ].
Qed.

Definition frame_run (lo : Z) (h0 : heap) (o : outcome) : Prop :=
  match o with
  | Returned _ s => extends lo h0 (hp s) /\ lo <= op s
  | OutOfFuel => True
  end.

Lemma frame_post_step lo h0 s f :
  extends lo h0 (hp s) -> lo <= op s ->
  frame_post (op s) (hp s) f -> frame_post lo h0 f.
Proof.
  intros Hh Hop Hf. destruct f as [s'|s'|s'|]; cbn [frame_post] in *;
    try exact I; destruct Hf as [He Hle];
    (split; [apply (extends_trans lo h0 (hp s)); [exact Hh|];
             apply (extends_weaken (op s)); assumption | lia]).
Qed.

Lemma after_body_frame lo h0 k f :
  frame_post lo h0 f ->
  (forall s, extends lo h0 (hp s) -> lo <= op s -> frame_run lo h0 (k s)) ->
  frame_run lo h0 (after_body p k f).
Proof.
  intros Hf Hk. destruct f as [s|s|s|]; cbn [after_body frame_post] in *.
  - apply Hk; apply Hf.
  - unfold end_of_decoding. destruct (endIn p); exact Hf.
  - exact Hf.
  - exact I.
Qed.

Lemma safe_loop_frame n : forall s lo h0,
  extends lo h0 (hp s) -> lo <= op s ->
  frame_run lo h0 (safe_loop p fuel n s).
Proof.
  induction n as [|n IH]; intros s lo h0 Hh Hop; [exact I|].
  cbn [safe_loop]. apply after_body_frame.
  - apply (frame_post_step lo h0 s); [assumption..|]. apply safe_iter_frame.
  - intros s' Hh' Hop'. apply IH; assumption.
Qed.

Lemma fast_loop_frame n : forall s lo h0,
  extends lo h0 (hp s) -> lo <= op s ->
  frame_run lo h0 (fast_loop p fuel n s).
Proof.
  induction n as [|n IH]; intros s lo h0 Hh Hop; [exact I|].
  cbn [fast_loop]. pose proof (fast_iter_frame s) as Hf.
  destruct (fast_iter p fuel s) as [s'|f]; cbn [fast_frame_post] in Hf.
  - destruct Hf as [He Hle]. apply IH; [|lia].
    apply (extends_trans lo h0 (hp s)); [exact Hh|].
    apply (extends_weaken (op s)); assumption.
  - apply after_body_frame.
    + apply (frame_post_step lo h0 s); assumption.
    + intros s' Hh' Hop'. apply safe_loop_frame; assumption.
Qed.

Lemma generic_frame fdl m :
  frame_run (dst p) (mkHeap m []) (LZ4_decompress_generic fdl p fuel m).
Proof.
  unfold LZ4_decompress_generic.
  pose proof (extends_refl (dst p) (mkHeap m [])) as Hh.
  destruct (endIn p && (outputSize p =? 0));
    [cbn [frame_run hp op]; split; [exact Hh | lia]|].
  destruct (negb (endIn p) && (outputSize p =? 0));
    [cbn [frame_run hp op]; split; [exact Hh | lia]|].
  destruct (endIn p && (srcSize p =? 0));
    [cbn [frame_run hp op]; split; [exact Hh | lia]|].
  destruct fdl; [destruct (_ <? _)|];
    first [apply safe_loop_frame | apply fast_loop_frame];
    cbn [hp op]; first [exact Hh | lia].
Qed.

End FramePass.

(** ** Overlapping copies: what a match copy leaves, whatever the offset

    A match copy with offset [off] extends the bytes of [lo, lo + off)
    periodically.  [g] is that periodic extension; the copy helpers keep
    memory equal to [g] from [lo] up to a frontier that they push forward. *)

Section Periodic.

Variable g : Z -> byte.
Variables lo off : Z.

Hypothesis Hoff : 1 <= off.
Hypothesis Hper : forall a, lo <= a -> g (a + off) = g a.

(** Memory is [g] on [lo, x). *)
Definition agree (h : heap) (x : Z) : Prop :=
  forall a, lo <= a < x -> cell h a = g a.

(** [d] is a whole number of periods after [s]. *)
Definition lag (d s : Z) : Prop := exists k, 0 <= k /\ d = s + k * off.

Lemma g_lag d s : lag d s -> lo <= s -> g d = g s.
Proof.
  intros (k & Hk & ->) Hs. revert k Hk.
  apply (natlike_ind (fun k => g (s + k * off) = g s)).
  - f_equal. lia.
  - intros x Hx IH. replace (s + Z.succ x * off) with (s + x * off + off) by lia.
    rewrite Hper by nia. exact IH.
Qed.

Lemma lag_refl a : lag a a.
Proof. exists 0. lia. Qed.

Lemma lag_step d s : lag d s -> lag (d + 1) (s + 1).
Proof. intros (k & Hk & ->). exists k. lia. Qed.

Lemma lag_shift d s n : lag d s -> lag (d + n) (s + n).
Proof. intros (k & Hk & ->). exists k. lia. Qed.

Lemma agree_weaken h x x' : agree h x -> x' <= x -> agree h x'.
Proof. intros Hf Hle a Ha. apply Hf. lia. Qed.

Lemma agree_store h x a b :
  agree h x -> a <= x -> b = g a -> agree (store h a b) (Z.max x (a + 1)).
Proof.
  intros Hf Ha -> c Hc. unfold store; cbn [cell].
  destruct (Z.eqb_spec c a) as [->|Hne]; [reflexivity|]. apply Hf. lia.
Qed.

(** The byte copies [*d = *s] of the match heads. *)
Lemma agree_store_cell h x d s :
  agree h x -> lo <= s < x -> d <= x -> lag d s ->
  agree (store h d (cell h s)) (Z.max x (d + 1)).
Proof.
  intros Hf Hs Hd Hl. apply agree_store; [exact Hf | exact Hd |].
  rewrite (Hf s Hs). symmetry. apply g_lag; [exact Hl | lia].
Qed.

Lemma agree_store_bytes bs : forall h x d,
  (forall i, (i < length bs)%nat -> nth i bs x00 = g (d + Z.of_nat i)) ->
  agree h x -> d <= x ->
  agree (store_bytes h d bs) (Z.max x (d + Z.of_nat (length bs))).
Proof.
  induction bs as [|b bs IH]; intros h x d Hbs Hf Hd; cbn [store_bytes length].
  - eapply agree_weaken; [exact Hf | lia].
  - eapply agree_weaken.
    + apply (IH (store h d b) (Z.max x (d + 1)) (d + 1)).
      * intros i Hi. specialize (Hbs (S i) ltac:(cbn [length]; lia)).
        cbn [nth] in Hbs. rewrite Hbs. f_equal. lia.
      * apply agree_store; [exact Hf | exact Hd |].
        specialize (Hbs O ltac:(cbn [length]; lia)). cbn [nth] in Hbs.
        rewrite Hbs. f_equal. lia.
      * lia.
    + lia.
Qed.

Lemma nth_load_bytes h s n i :
  (i < n)%nat -> nth i (load_bytes h s n) x00 = cell h (s + Z.of_nat i).
Proof.
  intros Hi. unfold load_bytes.
  set (f := fun i => cell h (s + Z.of_nat i)).
  rewrite (nth_indep _ x00 (f O))
    by (rewrite length_map, length_seq; exact Hi).
  rewrite map_nth. rewrite seq_nth by exact Hi. reflexivity.
Qed.

Lemma agree_memcpy h x d s n :
  agree h x -> lo <= s -> s + n <= x -> d <= x -> lag d s ->
  agree (memcpy h d s n) (Z.max x (d + n)).
Proof.
  intros Hf Hs Hn Hd Hl. unfold memcpy.
  destruct (Z.leb_spec n 0) as [Hle|Hgt].
  - replace (Z.to_nat n) with O by lia. cbn [load_bytes seq map store_bytes].
    eapply agree_weaken; [exact Hf | lia].
  - eapply agree_weaken.
    + apply agree_store_bytes; [|exact Hf | exact Hd].
      intros i Hi. rewrite load_bytes_length in Hi.
      rewrite nth_load_bytes by exact Hi. rewrite Hf by lia.
      symmetry. apply g_lag; [apply lag_shift; exact Hl | lia].
    + rewrite load_bytes_length. lia.
Qed.

Lemma agree_byte_loop k : forall h x d s e,
  agree h x -> lo <= s -> s < d -> d <= x -> lag d s -> e - d <= Z.of_nat k ->
  agree (byte_loop k h d s e) (Z.max x e).
Proof.
  induction k as [|k IH]; intros h x d s e Hf Hs Hsd Hd Hl Hk; cbn [byte_loop].
  - eapply agree_weaken; [exact Hf | lia].
  - destruct (Z.ltb_spec d e) as [Hlt|Hge].
    + eapply agree_weaken.
      * apply (IH (store h d (cell h s)) (Z.max x (d + 1)) (d + 1) (s + 1) e);
          try lia.
        -- apply agree_store_cell; [exact Hf | lia | lia | exact Hl].
        -- apply lag_step. exact Hl.
      * lia.
    + eapply agree_weaken; [exact Hf | lia].
Qed.

Lemma agree_copy_bytes_until h x d s e :
  agree h x -> lo <= s -> s < d -> d <= x -> lag d s ->
  agree (copy_bytes_until h d s e) (Z.max x e).
Proof.
  intros Hf Hs Hsd Hd Hl. apply agree_byte_loop; try assumption. lia.
Qed.

Lemma agree_wildCopy8_loop k : forall h x d s e,
  agree h x -> lo <= s -> s + 8 <= d -> d <= x -> lag d s ->
  e - d <= Z.of_nat k ->
  agree (wildCopy8_loop k h d s e) (Z.max x e).
Proof.
  induction k as [|k IH]; intros h x d s e Hf Hs Hsd Hd Hl Hk;
    cbn [wildCopy8_loop].
  - eapply agree_weaken; [apply agree_memcpy; try exact Hf; try exact Hl; lia | lia].
  - destruct (Z.ltb_spec (d + 8) e) as [Hlt|Hge].
    + eapply agree_weaken.
      * apply (IH (memcpy h d s 8) (Z.max x (d + 8)) (d + 8) (s + 8) e); try lia.
        -- apply agree_memcpy; try exact Hf; try exact Hl; lia.
        -- apply lag_shift. exact Hl.
      * lia.
    + eapply agree_weaken;
        [apply agree_memcpy; try exact Hf; try exact Hl; lia | lia].
Qed.

Lemma agree_wildCopy8 h x d s e :
  agree h x -> lo <= s -> s + 8 <= d -> d <= x -> lag d s ->
  agree (LZ4_wildCopy8 h d s e) (Z.max x e).
Proof.
  intros Hf Hs Hsd Hd Hl. apply agree_wildCopy8_loop; try assumption. lia.
Qed.

Lemma agree_wildCopy32_loop k : forall h x d s e,
  agree h x -> lo <= s -> s + 16 <= d -> d <= x -> lag d s ->
  e - d <= Z.of_nat k ->
  agree (wildCopy32_loop k h d s e) (Z.max x e).
Proof.
  assert (H2 : forall h x d s, agree h x -> lo <= s -> s + 16 <= d -> d <= x ->
               lag d s ->
               agree (memcpy (memcpy h d s 16) (d + 16) (s + 16) 16)
                     (Z.max x (d + 32))).
  { intros h x d s Hf Hs Hsd Hd Hl. eapply agree_weaken.
    - apply (agree_memcpy _ (Z.max x (d + 16))); try lia.
      + apply agree_memcpy; try exact Hf; try exact Hl; lia.
      + apply lag_shift. exact Hl.
    - lia. }
  induction k as [|k IH]; intros h x d s e Hf Hs Hsd Hd Hl Hk;
    cbn [wildCopy32_loop].
  - eapply agree_weaken; [apply H2; try exact Hf; try exact Hl; lia | lia].
  - destruct (Z.ltb_spec (d + 32) e) as [Hlt|Hge].
    + eapply agree_weaken.
      * apply (IH _ (Z.max x (d + 32)) (d + 32) (s + 32) e); try lia.
        -- apply H2; try exact Hf; try exact Hl; lia.
        -- apply lag_shift. exact Hl.
      * lia.
    + eapply agree_weaken; [apply H2; try exact Hf; try exact Hl; lia | lia].
Qed.

Lemma agree_wildCopy32 h x d s e :
  agree h x -> lo <= s -> s + 16 <= d -> d <= x -> lag d s ->
  agree (LZ4_wildCopy32 h d s e) (Z.max x e).
Proof.
  intros Hf Hs Hsd Hd Hl. apply agree_wildCopy32_loop; try assumption. lia.
Qed.

(** The pattern [v] is what belongs at [d], and 8 is a whole number of
    periods, so it is also what belongs at [d + 8], and so on. *)
Lemma agree_pattern_loop k : forall h x d v e,
  length v = 8%nat ->
  (forall i, (i < 8)%nat -> nth i v x00 = g (d + Z.of_nat i)) ->
  lag 8 0 -> lo <= d ->
  agree h x -> d <= x -> e - d <= Z.of_nat k ->
  agree (pattern_loop k h d v e) (Z.max x e).
Proof.
  induction k as [|k IH]; intros h x d v e Hlen Hv H8 Hlo Hf Hd Hk;
    cbn [pattern_loop].
  - eapply agree_weaken.
    + apply agree_store_bytes; [|exact Hf | exact Hd].
      rewrite Hlen. exact Hv.
    + rewrite Hlen. lia.
  - destruct (Z.ltb_spec (d + 8) e) as [Hlt|Hge].
    + eapply agree_weaken.
      * apply (IH (store_bytes h d v) (Z.max x (d + Z.of_nat (length v)))
                  (d + 8) v e); try assumption; try lia.
        -- intros i Hi. rewrite (Hv i Hi). symmetry.
           apply g_lag; [|lia]. destruct H8 as (j & Hj & Hj8).
           exists j. lia.
        -- apply agree_store_bytes; [|exact Hf | exact Hd].
           rewrite Hlen. exact Hv.
      * lia.
    + eapply agree_weaken.
      * apply agree_store_bytes; [|exact Hf | exact Hd].
        rewrite Hlen. exact Hv.
      * rewrite Hlen. lia.
Qed.

End Periodic.

(** The periodic extension of the [off] bytes of [h] from [lo] on. *)
Definition periodic (h : heap) (lo off : Z) : Z -> byte :=
  fun a => cell h (lo + (a - lo) mod off).

Lemma periodic_per h lo off a :
  1 <= off -> periodic h lo off (a + off) = periodic h lo off a.
Proof.
  intros Hoff. unfold periodic. f_equal. f_equal.
  replace (a + off - lo) with (a - lo + 1 * off) by lia.
  apply Z_mod_plus_full.
Qed.

Lemma agree_periodic h lo off :
  1 <= off -> agree (periodic h lo off) lo h (lo + off).
Proof.
  intros Hoff a Ha. unfold periodic. f_equal.
  rewrite Z.mod_small by lia. lia.
Qed.

(** Where memory is periodic, each byte is the byte [off] before it. *)
Lemma agree_backref g lo off h x a :
  1 <= off -> (forall b, lo <= b -> g (b + off) = g b) ->
  agree g lo h x -> lo + off <= a < x -> cell h a = cell h (a - off).
Proof.
  intros Hoff Hper Hf Ha. rewrite (Hf a) by lia. rewrite (Hf (a - off)) by lia.
  replace a with (a - off + off) at 1 by lia. apply Hper. lia.
Qed.

Ltac lag_tac :=
  unfold lag;
  first [ exists 1; lia | exists 2; lia | exists 3; lia | exists 4; lia
        | exists 8; lia ].

(** The first 8 bytes of a match, lines 586-597: memory is periodic up to
    [o + 8], and the source for what follows is a whole number of periods,
    and at least 8 bytes, behind [o + 8]. *)
Lemma copy_match_head_agree g off h o :
  1 <= off -> (forall a, o - off <= a -> g (a + off) = g a) ->
  agree g (o - off) h o ->
  agree g (o - off) (fst (copy_match_head h o (o - off) off)) (o + 8)
  /\ o - off <= snd (copy_match_head h o (o - off) off) <= o
  /\ lag off (o + 8) (snd (copy_match_head h o (o - off) off)).
Proof.
  intros Hoff Hper H0. unfold copy_match_head, LZ4_copy8.
  destruct (Z.ltb_spec off 8) as [Hlt|Hge]; cbn [fst snd].
  - assert (H1 : agree g (o - off) (store h o (cell h (o - off))) (o + 1)).
    { eapply agree_weaken;
        [apply (agree_store_cell g (o - off) off Hoff Hper _ o);
         [exact H0 | lia | lia | lag_tac] | lia]. }
    set (h1 := store h o (cell h (o - off))) in *.
    assert (H2 : agree g (o - off) (store h1 (o + 1) (cell h1 (o - off + 1))) (o + 2)).
    { eapply agree_weaken;
        [apply (agree_store_cell g (o - off) off Hoff Hper _ (o + 1));
         [exact H1 | lia | lia | lag_tac] | lia]. }
    set (h2 := store h1 (o + 1) (cell h1 (o - off + 1))) in *.
    assert (H3 : agree g (o - off) (store h2 (o + 2) (cell h2 (o - off + 2))) (o + 3)).
    { eapply agree_weaken;
        [apply (agree_store_cell g (o - off) off Hoff Hper _ (o + 2));
         [exact H2 | lia | lia | lag_tac] | lia]. }
    set (h3 := store h2 (o + 2) (cell h2 (o - off + 2))) in *.
    assert (H4 : agree g (o - off) (store h3 (o + 3) (cell h3 (o - off + 3))) (o + 4)).
    { eapply agree_weaken;
        [apply (agree_store_cell g (o - off) off Hoff Hper _ (o + 3));
         [exact H3 | lia | lia | lag_tac] | lia]. }
    set (h4 := store h3 (o + 3) (cell h3 (o - off + 3))) in *.
    clearbody h4. clear H0 H1 H2 H3 h1 h2 h3.
    assert (Hc : off = 1 \/ off = 2 \/ off = 3 \/ off = 4 \/ off = 5
                 \/ off = 6 \/ off = 7) by lia.
    destruct Hc as [->|[->|[->|[->|[->|[->| ->]]]]]];
      cbv [inc32table dec64table nth Z.to_nat Pos.to_nat Pos.iter_op Nat.add];
      (split; [|split; [lia | lag_tac]]);
      (eapply agree_weaken;
       [apply (agree_memcpy g _ _ Hoff Hper _ (o + 4));
        [exact H4 | lia | lia | lia | lag_tac] | lia]).
  - split; [|split; [lia | lag_tac]].
    eapply agree_weaken;
      [apply (agree_memcpy g _ _ Hoff Hper _ o);
       [exact H0 | lia | lia | lia | lag_tac] | lia].
Qed.

(** [safe_match_copy], whatever the offset from 1 on: however it ends,
    memory is the periodic extension of the [offset] bytes before the
    match, up to the output cursor. *)
Lemma safe_match_copy_agree (p : params) (s : state) (length offset : Z) :
  1 <= offset ->
  match safe_match_copy p s length offset (op s - offset) with
  | Continue s' | Break s' | OutputError s' =>
      agree (periodic (hp s) (op s - offset) offset) (op s - offset)
            (hp s') (op s')
  | Starved => True
  end.
Proof.
  intros Hoff.
  set (g := periodic (hp s) (op s - offset) offset).
  assert (Hper : forall a, op s - offset <= a -> g (a + offset) = g a)
    by (intros a _; apply periodic_per; exact Hoff).
  assert (H0 : agree g (op s - offset) (hp s) (op s)).
  { eapply agree_weaken; [apply agree_periodic; exact Hoff | lia]. }
  unfold safe_match_copy. st_simpl.
  pose proof (Z.mod_pos_bound (oend p - op s) (2 ^ 64) ltac:(lia)) as Hsz.
  fold (size_t (oend p - op s)) in Hsz.
  destruct (partial p && (op s + length >? oend p - MATCH_SAFEGUARD_DISTANCE)).
  - set (mlen := Z.min length (size_t (oend p - op s))).
    assert (Hh : agree g (op s - offset)
                   (if op s - offset + mlen >? op s
                    then copy_bytes_until (hp s) (op s) (op s - offset) (op s + mlen)
                    else memcpy (hp s) (op s) (op s - offset) mlen)
                   (op s + mlen)).
    { destruct (op s - offset + mlen >? op s) eqn:Hov; b2p.
      - eapply agree_weaken.
        + apply (agree_copy_bytes_until g _ _ Hoff Hper _ (op s));
            [exact H0 | lia | lia | lia | lag_tac].
        + lia.
      - eapply agree_weaken.
        + apply (agree_memcpy g _ _ Hoff Hper _ (op s));
            [exact H0 | lia | lia | lia | lag_tac].
        + lia. }
    destruct (op s + mlen =? oend p); cbn [hp op]; exact Hh.
  - destruct (copy_match_head_agree g offset (hp s) (op s) Hoff Hper H0)
      as (Hh & Hm & Hl).
    destruct (copy_match_head (hp s) (op s) (op s - offset) offset) as [h1 m1].
    cbn [fst snd] in Hh, Hm, Hl. cbn [ip op hp mlog]. consts.
    destruct (op s + length >? oend p - 12).
    + destruct (op s + length >? oend p - 5); [cbn [hp op]; exact Hh|].
      destruct (op s + 8 <? oend p - (8 - 1)) eqn:Hlim; cbn [hp op]; b2p.
      * eapply agree_weaken.
        -- apply (agree_copy_bytes_until g _ _ Hoff Hper _
                    (Z.max (op s + 8) (oend p - (8 - 1)))).
           ++ apply (agree_wildCopy8 g _ _ Hoff Hper _ (op s + 8));
                [exact Hh | lia | lia | lia | exact Hl].
           ++ lia.
           ++ lia.
           ++ lia.
           ++ destruct Hl as (k & Hk & Hl). exists k. lia.
        -- lia.
      * eapply agree_weaken.
        -- apply (agree_copy_bytes_until g _ _ Hoff Hper _ (op s + 8));
             [exact Hh | lia | lia | lia | exact Hl].
        -- lia.
    + cbn [hp op]. unfold LZ4_copy8.
      assert (H16 : agree g (op s - offset) (memcpy h1 (op s + 8) m1 8) (op s + 16)).
      { eapply agree_weaken;
          [apply (agree_memcpy g _ _ Hoff Hper _ (op s + 8));
           [exact Hh | lia | lia | lia | exact Hl] | lia]. }
      destruct (length >? 16) eqn:Hlen; b2p.
      * eapply agree_weaken.
        -- apply (agree_wildCopy8 g _ _ Hoff Hper _ (op s + 16));
             [exact H16 | lia | lia | lia |].
           destruct Hl as (k & Hk & Hl). exists k. lia.
        -- lia.
      * (* at most 16 bytes: the two copies of 8 cover them *)
        eapply agree_weaken; [exact H16 | ].
        lia.
Qed.

(** [LZ4_memcpy_using_offset_base] is the head of a match copy and then
    [LZ4_wildCopy8]. *)
Lemma LZ4_memcpy_using_offset_base_head h d s e offset :
  LZ4_memcpy_using_offset_base h d s e offset
  = LZ4_wildCopy8 (fst (copy_match_head h d s offset)) (d + 8)
                  (snd (copy_match_head h d s offset)) e.
Proof.
  unfold LZ4_memcpy_using_offset_base, copy_match_head, LZ4_copy8.
  destruct (offset <? 8); reflexivity.
Qed.

Lemma LZ4_memcpy_using_offset_base_agree g off h d e :
  1 <= off -> (forall a, d - off <= a -> g (a + off) = g a) ->
  agree g (d - off) h d ->
  agree g (d - off) (LZ4_memcpy_using_offset_base h d (d - off) e off)
        (Z.max (d + 8) e).
Proof.
  intros Hoff Hper H0. rewrite LZ4_memcpy_using_offset_base_head.
  destruct (copy_match_head_agree g off h d Hoff Hper H0) as (Hh & Hm & Hl).
  apply (agree_wildCopy8 g _ _ Hoff Hper _ (d + 8));
    [exact Hh | lia | lia | lia | exact Hl].
Qed.

Lemma LZ4_memcpy_using_offset_agree g off h d e :
  1 <= off -> (forall a, d - off <= a -> g (a + off) = g a) ->
  agree g (d - off) h d ->
  agree g (d - off) (LZ4_memcpy_using_offset h d (d - off) e off)
        (Z.max d e).
Proof.
  intros Hoff Hper H0. unfold LZ4_memcpy_using_offset.
  destruct (Z.eqb_spec off 1) as [->|H1];
    [|destruct (Z.eqb_spec off 2) as [->|H2];
      [|destruct (Z.eqb_spec off 4) as [->|H4]]].
  - eapply agree_weaken.
    + apply (agree_pattern_loop g _ _ Hoff Hper _ _ d _ _ _);
        [apply repeat_length | | lag_tac | lia | exact H0 | lia | lia].
      intros i Hi. rewrite nth_repeat_lt by exact Hi.
      rewrite (H0 (d - 1)) by lia. symmetry.
      apply (g_lag g _ _ Hoff Hper); [|lia].
      exists (Z.of_nat i + 1). lia.
    + lia.
  - eapply agree_weaken.
    + apply (agree_pattern_loop g _ _ Hoff Hper _ _ d _ _ _);
        [reflexivity | | lag_tac | lia | exact H0 | lia | lia].
      intros i Hi. cbn [load_bytes seq map app].
      do 8 (destruct i as [|i];
            [cbn [nth]; rewrite H0 by lia; symmetry;
             apply (g_lag g _ _ Hoff Hper); [lag_tac | lia]|]).
      lia.
    + lia.
  - eapply agree_weaken.
    + apply (agree_pattern_loop g _ _ Hoff Hper _ _ d _ _ _);
        [reflexivity | | lag_tac | lia | exact H0 | lia | lia].
      intros i Hi. cbn [load_bytes seq map app].
      do 8 (destruct i as [|i];
            [cbn [nth]; rewrite H0 by lia; symmetry;
             apply (g_lag g _ _ Hoff Hper); [lag_tac | lia]|]).
      lia.
    + lia.
  - eapply agree_weaken;
      [apply LZ4_memcpy_using_offset_base_agree; assumption | lia].
Qed.

(** [fast_copy_match], whatever the offset from 1 on. *)
Lemma fast_copy_match_agree (s : state) (length offset : Z) :
  1 <= offset ->
  match fast_copy_match s length offset (op s - offset) with
  | Fast s' =>
      agree (periodic (hp s) (op s - offset) offset) (op s - offset)
            (hp s') (op s')
  | Safe _ => False
  end.
Proof.
  intros Hoff.
  set (g := periodic (hp s) (op s - offset) offset).
  assert (Hper : forall a, op s - offset <= a -> g (a + offset) = g a)
    by (intros a _; apply periodic_per; exact Hoff).
  assert (H0 : agree g (op s - offset) (hp s) (op s)).
  { eapply agree_weaken; [apply agree_periodic; exact Hoff | lia]. }
  unfold fast_copy_match. st_simpl.
  destruct (Z.ltb_spec offset 16) as [Hlt|Hge].
  - eapply agree_weaken;
      [apply LZ4_memcpy_using_offset_agree; assumption | lia].
  - eapply agree_weaken.
    + apply (agree_wildCopy32 g _ _ Hoff Hper _ (op s));
        [exact H0 | lia | lia | lia | lag_tac].
    + lia.
Qed.

(** The periodic extension, counted from the start of the match. *)
Lemma periodic_from h o offset a :
  1 <= offset ->
  periodic h (o - offset) offset a = cell h (o - offset + (a - o) mod offset).
Proof.
  intros Hoff. unfold periodic. f_equal. f_equal.
  replace (a - (o - offset)) with (a - o + 1 * offset) by lia.
  apply Z_mod_plus_full.
Qed.

(** ** Every match of a run is a back-reference

    In full mode, whatever the input: when the decoder returns, each match
    of the match log that was copied to its end repeats the bytes [offset]
    before it. *)

(** The bytes of the match [e] repeat the bytes [m_offset e] before them. *)
Definition back_ref (h : heap) (e : match_event) : Prop :=
  forall j, 0 <= j < m_length e ->
  cell h (m_op e + j) = cell h (m_op e + j - m_offset e).

(** The match [e] lies below the output cursor [o], and is a
    back-reference when its offset is not 0. *)
Definition copied (h : heap) (o : Z) (e : match_event) : Prop :=
  m_op e + m_length e <= o /\ (1 <= m_offset e -> back_ref h e).

(** The match [e] is a back-reference if it lies below the output cursor
    and its offset is not 0. *)
Definition started (h : heap) (o : Z) (e : match_event) : Prop :=
  1 <= m_offset e -> m_op e + m_length e <= o -> back_ref h e.

Lemma copied_started h o e : copied h o e -> started h o e.
Proof. intros [_ H] Hoff _. exact (H Hoff). Qed.

Lemma copied_extends h h' o o' e :
  copied h o e -> extends o h h' -> o <= o' -> 0 <= m_offset e ->
  copied h' o' e.
Proof.
  intros [Hle Hb] He Ho H0. split; [lia|].
  intros Hoff j Hj.
  rewrite (extends_below o h h' (m_op e + j) He) by lia.
  rewrite (extends_below o h h' (m_op e + j - m_offset e) He) by lia.
  apply Hb; assumption.
Qed.

Definition offsets_ok (l : list match_event) : Prop :=
  Forall (fun e => 0 <= m_offset e) l.

Lemma Forall_copied_extends h h' o o' l :
  Forall (copied h o) l -> offsets_ok l -> extends o h h' -> o <= o' ->
  Forall (copied h' o') l.
Proof.
  intros Hl Hoffs He Ho. unfold offsets_ok in Hoffs.
  rewrite Forall_forall in *. intros e Hin.
  apply (copied_extends h h' o o'); auto.
Qed.

(** The match copy of the shortcut and of the fast loop, lines 332-341 and
    405-415: 18 bytes in three pieces, for an offset of at least 8. *)
Lemma inline_match_agree g off h o :
  8 <= off -> (forall a, o - off <= a -> g (a + off) = g a) ->
  agree g (o - off) h o ->
  agree g (o - off)
        (memcpy (memcpy (memcpy h o (o - off) 8) (o + 8) (o - off + 8) 8)
                (o + 16) (o - off + 16) 2)
        (o + 18).
Proof.
  intros Hoff Hper H0.
  assert (H1 : 1 <= off) by lia.
  assert (H8 : agree g (o - off) (memcpy h o (o - off) 8) (o + 8)).
  { eapply agree_weaken;
      [apply (agree_memcpy g _ _ H1 Hper _ o);
       [exact H0 | lia | lia | lia | lag_tac] | lia]. }
  assert (H16 : agree g (o - off)
                  (memcpy (memcpy h o (o - off) 8) (o + 8) (o - off + 8) 8)
                  (o + 16)).
  { eapply agree_weaken;
      [apply (agree_memcpy g _ _ H1 Hper _ (o + 8));
       [exact H8 | lia | lia | lia | lag_tac] | lia]. }
  eapply agree_weaken;
    [apply (agree_memcpy g _ _ H1 Hper _ (o + 16));
     [exact H16 | lia | lia | lia | lag_tac] | lia].
Qed.

Section Faithful.

Variable p : params.
Variable fuel : nat.

Hypothesis Hfull : partial p = false.

(** At the head of a loop every match of the log was copied to its end. *)
Definition matches_ok (s : state) : Prop :=
  Forall (copied (hp s) (op s)) (mlog s) /\ offsets_ok (mlog s).

Definition matches_started (s : state) : Prop :=
  Forall (started (hp s) (op s)) (mlog s).

Definition faithful_post (f : flow) : Prop :=
  match f with
  | Continue s | Break s => matches_ok s
  | OutputError s => matches_started s
  | Starved => True
  end.

Definition fast_faithful_post (f : fast_flow) : Prop :=
  match f with
  | Fast s => matches_ok s
  | Safe f => faithful_post f
  end.

Lemma matches_ok_started s : matches_ok s -> matches_started s.
Proof.
  intros [H _]. unfold matches_started.
  eapply Forall_impl; [|exact H]. intros e. apply copied_started.
Qed.

(** The state moved on by stores at or above the cursor. *)
Lemma matches_ok_extends s ip' op' h' :
  matches_ok s -> extends (op s) (hp s) h' -> op s <= op' ->
  matches_ok (mkState ip' op' h' (mlog s)).
Proof.
  intros [Hc Ho] He Hle. split; cbn [hp op mlog]; [|exact Ho].
  apply (Forall_copied_extends (hp s) h' (op s) op'); assumption.
Qed.

(** How [safe_match_copy] ends in full mode. *)
Lemma safe_match_copy_shape s length offset match_ :
  match safe_match_copy p s length offset match_ with
  | Continue s' =>
      op s' = op s + length /\ mlog s' = mkMatch (op s) offset length :: mlog s
  | OutputError s' =>
      op s' = op s + 8 /\ mlog s' = mkMatch (op s) offset length :: mlog s
  | Break _ | Starved => False
  end.
Proof.
  unfold safe_match_copy. rewrite Hfull. cbn [andb]. st_simpl.
  destruct (copy_match_head _ _ _ _) as [h1 m1].
  ifs; cbn [op mlog]; split; reflexivity.
Qed.

Lemma new_match_started g h o o' offset length :
  0 <= offset ->
  (1 <= offset -> agree g (o - offset) h o'
                  /\ forall a, o - offset <= a -> g (a + offset) = g a) ->
  started h o' (mkMatch o offset length).
Proof.
  intros H0 Hag Hoff Hle j Hj. cbn [m_op m_offset m_length] in *.
  destruct (Hag Hoff) as [Ha Hper].
  apply (agree_backref g (o - offset) offset h o'); try assumption. lia.
Qed.

Lemma safe_match_copy_faithful s length offset :
  matches_ok s -> 0 <= offset -> 0 <= length ->
  faithful_post (safe_match_copy p s length offset (op s - offset)).
Proof.
  intros Hok Hoff Hlen.
  pose proof (safe_match_copy_shape s length offset (op s - offset)) as Hsh.
  pose proof (safe_match_copy_frame p s length offset (op s - offset)
                (op s) (hp s) (extends_refl _ _) (Z.le_refl _) Hlen) as Hfr.
  assert (Hag : 1 <= offset ->
                match safe_match_copy p s length offset (op s - offset) with
                | Continue s' | Break s' | OutputError s' =>
                    agree (periodic (hp s) (op s - offset) offset)
                          (op s - offset) (hp s') (op s')
                | Starved => True
                end)
    by (intros H1; apply safe_match_copy_agree; exact H1).
  assert (Hper : 1 <= offset -> forall a, op s - offset <= a ->
                 periodic (hp s) (op s - offset) offset (a + offset)
                 = periodic (hp s) (op s - offset) offset a)
    by (intros H1 a _; apply periodic_per; exact H1).
  destruct Hok as [Hc Ho].
  destruct (safe_match_copy p s length offset (op s - offset)) as [s'|s'|s'|];
    cbn [faithful_post frame_post] in *; try contradiction.
  - destruct Hsh as [Hop Hlog]. destruct Hfr as [He Hle].
    split; rewrite Hlog; [|constructor; [exact Hoff | exact Ho]].
    constructor.
    + split; cbn [m_op m_offset m_length]; [lia|]. intros H1.
      apply (new_match_started _ _ _ (op s') _ _ Hoff
               (fun H => conj (Hag H) (Hper H)) H1).
      cbn [m_op m_length]. lia.
    + apply (Forall_copied_extends (hp s) (hp s') (op s) (op s')); assumption.
  - destruct Hsh as [Hop Hlog]. destruct Hfr as [He Hle].
    unfold matches_started. rewrite Hlog. constructor.
    + apply (new_match_started _ _ _ (op s') _ _ Hoff
               (fun H => conj (Hag H) (Hper H))).
    + eapply Forall_impl; [intros e; apply copied_started|].
      apply (Forall_copied_extends (hp s) (hp s') (op s) (op s')); assumption.
Qed.

Ltac mleaf :=
  solve [ cbn [faithful_post fast_faithful_post];
          first [ apply matches_ok_started | idtac ];
          first [ assumption
                | apply matches_ok_extends; [assumption | ext_tac | cbn [op]; lia] ] ].

Lemma copy_match_faithful s length offset :
  matches_ok s -> 0 <= offset -> 0 <= length ->
  faithful_post (copy_match p fuel s length offset (op s - offset)).
Proof.
  intros Hok Hoff Hlen. unfold copy_match, copy_match_length.
  destruct (offset_out_of_range p _); [mleaf|].
  destruct (length =? ML_MASK);
    [|apply safe_match_copy_faithful; consts; auto; lia].
  pose proof (read_variable_length_spec fuel (hp s) (ip s)
                (iend p - LASTLITERALS + 1) (endIn p) false) as Hr.
  destruct (read_variable_length _ _ _ _ _ _) as [[[n ip'] e]|]; [|exact I].
  destruct Hr as (Hn & _). st_simpl.
  assert (Hok' : matches_ok (mkState ip' (op s) (hp s) (mlog s)))
    by exact Hok.
  ifs; try mleaf.
  apply (safe_match_copy_faithful (mkState ip' (op s) (hp s) (mlog s)));
    consts; auto; lia.
Qed.

Lemma get_offset_faithful s token :
  matches_ok s -> 0 <= token -> faithful_post (get_offset p fuel s token).
Proof.
  intros Hok Ht. unfold get_offset.
  pose proof (match_seed_range token Ht).
  pose proof (LZ4_readLE16_nonneg (hp s) (ip s)).
  apply (copy_match_faithful (set_ip s (ip s + 2))); auto; lia.
Qed.

Lemma safe_literal_copy_faithful s token length cpy :
  matches_ok s -> 0 <= length -> cpy = op s + length -> 0 <= token ->
  faithful_post (safe_literal_copy p fuel s token length cpy).
Proof.
  intros Hok Hlen Hcpy Ht. unfold safe_literal_copy, LZ4_memmove.
  rewrite Hfull. cbn [andb negb orb].
  pose proof (extends_refl (op s) (hp s)) as Hrefl.
  destruct (near_end p s length cpy).
  - ifs; mleaf.
  - apply get_offset_faithful; [|exact Ht].
    apply matches_ok_extends; [assumption | ext_tac | lia].
Qed.

Lemma shortcut_faithful s token length :
  matches_ok s -> 0 <= length -> 0 <= token ->
  faithful_post (shortcut p fuel s token length).
Proof.
  intros Hok Hlen Ht. unfold shortcut. st_simpl.
  pose proof (match_seed_range token Ht) as Hml. consts.
  pose proof (extends_refl (op s) (hp s)) as Hrefl.
  set (h1 := memcpy (hp s) (op s) (ip s) (if endIn p then 16 else 8)).
  set (offset := LZ4_readLE16 h1 (ip s + length)).
  pose proof (LZ4_readLE16_nonneg h1 (ip s + length)) as Hoff.
  fold offset in Hoff.
  assert (Hok1 : matches_ok (mkState (ip s + length + 2) (op s + length) h1
                                     (mlog s))).
  { apply matches_ok_extends; [assumption | subst h1; ext_tac | lia]. }
  destruct (negb (Z.land token 15 =? 15) && (offset >=? 8)
            && (is_withPrefix64k (dict p)
                || (op s + length - offset >=? lowPrefix p))) eqn:Hc.
  - apply andb_true_iff in Hc. destruct Hc as [Hc _].
    apply andb_true_iff in Hc. destruct Hc as [Hc1 Hc2]. b2p.
    cbn [faithful_post]. rewrite !Z.add_0_r.
    set (o := op s + length) in *.
    set (g := periodic h1 (o - offset) offset).
    assert (Hper : forall a, o - offset <= a -> g (a + offset) = g a)
      by (intros a _; apply periodic_per; lia).
    assert (H0 : agree g (o - offset) h1 o).
    { eapply agree_weaken; [apply agree_periodic; lia | lia]. }
    pose proof (inline_match_agree g offset h1 o Hc2 Hper H0) as Hag.
    destruct Hok1 as [Hk1 Ho1]. cbn [hp op mlog] in *.
    split; cbn [hp op mlog]; [|constructor; [exact Hoff | exact Ho1]].
    constructor.
    + split; cbn [m_op m_offset m_length]; [lia|]. intros _.
      intros j Hj. cbn [m_op m_offset m_length] in *.
      apply (agree_backref g (o - offset) offset _ (o + 18)); try assumption; lia.
    + apply (Forall_copied_extends h1 _ o); try assumption; [|lia].
      pose proof (extends_refl o h1). ext_tac.
  - clear Hc.
    apply (copy_match_faithful (mkState (ip s + length + 2) (op s + length) h1
                                     (mlog s))); auto; lia.
Qed.

Lemma safe_iter_faithful s : matches_ok s -> faithful_post (safe_iter p fuel s).
Proof.
  intros Hok. unfold safe_iter.
  pose proof (u8_range (cell (hp s) (ip s))) as Ht.
  pose proof (literal_seed_range _ Ht) as Hll.
  assert (Hok' : forall i, matches_ok (set_ip s i)) by (intros i; exact Hok).
  destruct (shortcut_cond _ _ _).
  - apply shortcut_faithful; auto; lia.
  - destruct (_ =? RUN_MASK).
    + unfold decode_literal_length. st_simpl.
      pose proof (read_variable_length_spec fuel (hp s) (ip s + 1)
                    (iend p - RUN_MASK) (endIn p) (endIn p)) as Hr.
      destruct (read_variable_length _ _ _ _ _ _) as [[[n ip'] e]|]; [|exact I].
      destruct Hr as (Hn & _).
      ifs; try mleaf.
      apply safe_literal_copy_faithful; cbn [ip op hp]; auto; lia.
    + apply safe_literal_copy_faithful; st_simpl; auto; lia.
Qed.

Lemma fast_copy_match_faithful s length offset :
  matches_ok s -> 0 <= offset -> 0 <= length ->
  fast_faithful_post (fast_copy_match s length offset (op s - offset)).
Proof.
  intros [Hc Ho] Hoff Hlen.
  pose proof (fast_copy_match_agree s length offset) as Hag.
  assert (Hper : 1 <= offset -> forall a, op s - offset <= a ->
                 periodic (hp s) (op s - offset) offset (a + offset)
                 = periodic (hp s) (op s - offset) offset a)
    by (intros H1 a _; apply periodic_per; exact H1).
  pose proof (extends_refl (op s) (hp s)) as Hrefl.
  unfold fast_copy_match in *. st_simpl. cbn [fast_faithful_post].
  split; cbn [hp op mlog]; [|constructor; [exact Hoff | exact Ho]].
  constructor.
  - split; cbn [m_op m_offset m_length]; [lia|]. intros H1.
    apply (new_match_started _ _ _ (op s + length) _ _ Hoff
             (fun H => conj (Hag H) (Hper H)) H1).
    cbn [m_op m_length]. lia.
  - apply (Forall_copied_extends (hp s) _ (op s)); try assumption; [|lia].
    destruct (offset <? 16); ext_tac.
Qed.

Lemma fast_match_faithful s token :
  matches_ok s -> 0 <= token -> fast_faithful_post (fast_match p fuel s token).
Proof.
  intros Hok Ht. unfold fast_match. st_simpl.
  pose proof (match_seed_range token Ht) as Hml. consts.
  set (offset := LZ4_readLE16 (hp s) (ip s)).
  pose proof (LZ4_readLE16_nonneg (hp s) (ip s)) as Hoff. fold offset in Hoff.
  assert (Hok' : forall i, matches_ok (mkState i (op s) (hp s) (mlog s)))
    by (intros i; exact Hok).
  destruct (offset_out_of_range p _);
    [cbn [fast_faithful_post faithful_post]; apply matches_ok_started; apply Hok'|].
  destruct (_ =? 15) eqn:Hm15.
  - pose proof (read_variable_length_spec fuel (hp s) (ip s + 2)
                  (iend p - 5 + 1) (endIn p) false) as Hr.
    destruct (read_variable_length _ _ _ _ _ _) as [[[n ip'] e]|]; [|exact I].
    destruct Hr as (Hn & _).
    destruct (negb (is_ok e));
      [cbn [fast_faithful_post faithful_post]; apply matches_ok_started; apply Hok'|].
    destruct (safeDecode p && _);
      [cbn [fast_faithful_post faithful_post]; apply matches_ok_started; apply Hok'|].
    destruct (_ >=? _).
    + cbn [fast_faithful_post].
      apply (safe_match_copy_faithful (mkState ip' (op s) (hp s) (mlog s)));
        auto; lia.
    + apply (fast_copy_match_faithful (mkState ip' (op s) (hp s) (mlog s)));
        auto; lia.
  - destruct (_ >=? _).
    + cbn [fast_faithful_post].
      apply (safe_match_copy_faithful (mkState (ip s + 2) (op s) (hp s) (mlog s)));
        auto; lia.
    + destruct ((op s - offset >=? lowPrefix p) && (offset >=? 8)) eqn:Hc.
      * apply andb_true_iff in Hc. destruct Hc as [_ Hc2]. b2p.
        cbn [fast_faithful_post].
        set (o := op s) in *.
        set (g := periodic (hp s) (o - offset) offset).
        assert (Hper : forall a, o - offset <= a -> g (a + offset) = g a)
          by (intros a _; apply periodic_per; lia).
        assert (H0 : agree g (o - offset) (hp s) o).
        { eapply agree_weaken; [apply agree_periodic; lia | lia]. }
        pose proof (inline_match_agree g offset (hp s) o Hc2 Hper H0) as Hag.
        destruct Hok as [Hk1 Ho1]. fold o in Hk1.
        split; cbn [hp op mlog]; [|constructor; [exact Hoff | exact Ho1]].
        constructor.
        -- split; cbn [m_op m_offset m_length]; [lia|]. intros _.
           intros j Hj. cbn [m_op m_offset m_length] in *.
           apply (agree_backref g (o - offset) offset _ (o + 18));
             try assumption; lia.
        -- apply (Forall_copied_extends (hp s) _ o); try assumption; [|lia].
           pose proof (extends_refl o (hp s)). ext_tac.
      * apply (fast_copy_match_faithful (mkState (ip s + 2) (op s) (hp s) (mlog s)));
          auto; lia.
Qed.

Lemma fast_iter_faithful s :
  matches_ok s -> fast_faithful_post (fast_iter p fuel s).
Proof.
  intros Hok. unfold fast_iter. st_simpl.
  pose proof (u8_range (cell (hp s) (ip s))) as Ht.
  pose proof (literal_seed_range _ Ht) as Hll.
  pose proof (extends_refl (op s) (hp s)) as Hrefl.
  assert (Hok' : forall i, matches_ok (mkState i (op s) (hp s) (mlog s)))
    by (intros i; exact Hok).
  destruct (_ =? RUN_MASK).
  - pose proof (read_variable_length_spec fuel (hp s) (ip s + 1)
                  (iend p - RUN_MASK) (endIn p) (endIn p)) as Hr.
    destruct (read_variable_length _ _ _ _ _ _) as [[[n ip'] e]|]; [|exact I].
    destruct Hr as (Hn & _).
    repeat match goal with
    | |- context [if ?c then fast_match _ _ _ _ else _] => fail 1
    | |- context [if ?c then _ else _] => destruct c eqn:?
    end;
      first [ cbn [fast_faithful_post faithful_post]; apply matches_ok_started;
              apply Hok'
            | apply fast_match_faithful; [|lia];
              apply matches_ok_extends; [assumption | ext_tac | lia]
            | cbn [fast_faithful_post]; apply safe_literal_copy_faithful;
              cbn [ip op hp]; auto; try lia; apply Hok' ].
  - ifs;
      first [ apply fast_match_faithful; [|lia];
              apply matches_ok_extends; [assumption | ext_tac | lia]
            | cbn [fast_faithful_post]; apply safe_literal_copy_faithful;
              cbn [ip op hp]; auto; try lia; apply Hok' ].
Qed.

Definition faithful_run (o : outcome) : Prop :=
  match o with
  | Returned _ s => matches_started s
  | OutOfFuel => True
  end.

Lemma after_body_faithful k f :
  faithful_post f -> (forall s, matches_ok s -> faithful_run (k s)) ->
  faithful_run (after_body p k f).
Proof.
  intros Hf Hk. destruct f as [s|s|s|]; cbn [after_body faithful_post] in *.
  - apply Hk. exact Hf.
  - unfold end_of_decoding. destruct (endIn p); apply matches_ok_started; exact Hf.
  - exact Hf.
  - exact I.
Qed.

Lemma safe_loop_faithful n : forall s,
  matches_ok s -> faithful_run (safe_loop p fuel n s).
Proof.
  induction n as [|n IH]; intros s Hs; [exact I|].
  cbn [safe_loop]. apply after_body_faithful; [apply safe_iter_faithful; exact Hs | exact IH].
Qed.

Lemma fast_loop_faithful n : forall s,
  matches_ok s -> faithful_run (fast_loop p fuel n s).
Proof.
  induction n as [|n IH]; intros s Hs; [exact I|].
  cbn [fast_loop]. pose proof (fast_iter_faithful s Hs) as Hf.
  destruct (fast_iter p fuel s) as [s'|f]; cbn [fast_faithful_post] in Hf.
  - apply IH. exact Hf.
  - apply after_body_faithful; [exact Hf | apply safe_loop_faithful].
Qed.

Lemma generic_faithful fdl m : faithful_run (LZ4_decompress_generic fdl p fuel m).
Proof.
  unfold LZ4_decompress_generic.
  assert (H0 : matches_ok (mkState (src p) (dst p) (mkHeap m []) [])).
  { split; cbn [mlog]; constructor. }
  destruct (endIn p && (outputSize p =? 0)); [constructor|].
  destruct (negb (endIn p) && (outputSize p =? 0)); [constructor|].
  destruct (endIn p && (srcSize p =? 0)); [constructor|].
  destruct fdl; [destruct (_ <? _)|];
    first [apply safe_loop_faithful | apply fast_loop_faithful]; exact H0.
Qed.

End Faithful.

(** ** Literals: what a pass copies from the input *)

Lemma cell_store_bytes bs : forall h d a,
  cell (store_bytes h d bs) a
  = if (d <=? a) && (a <? d + Z.of_nat (length bs))
    then nth (Z.to_nat (a - d)) bs x00 else cell h a.
Proof.
  induction bs as [|b bs IH]; intros h d a; cbn [store_bytes length].
  - destruct (Z.leb_spec d a); destruct (Z.ltb_spec a (d + Z.of_nat 0));
      cbn [andb]; try reflexivity; lia.
  - rewrite IH. unfold store; cbn [cell].
    destruct (Z.leb_spec (d + 1) a) as [H1|H1];
      destruct (Z.ltb_spec a (d + 1 + Z.of_nat (length bs))) as [H2|H2];
      destruct (Z.leb_spec d a) as [H3|H3];
      destruct (Z.ltb_spec a (d + Z.of_nat (S (length bs)))) as [H4|H4];
      cbn [andb]; try lia.
    + replace (Z.to_nat (a - d)) with (S (Z.to_nat (a - (d + 1)))) by lia.
      reflexivity.
    + destruct (Z.eqb_spec a d); [lia | reflexivity].
    + replace a with d by lia. rewrite Z.eqb_refl, Z.sub_diag. reflexivity.
    + destruct (Z.eqb_spec a d); [lia | reflexivity].
Qed.

(** A [memcpy] reads its source before it writes. *)
Lemma cell_memcpy h d s n a :
  cell (memcpy h d s n) a
  = if (d <=? a) && (a <? d + n) then cell h (s + (a - d)) else cell h a.
Proof.
  unfold memcpy. rewrite cell_store_bytes, load_bytes_length.
  destruct (Z.leb_spec d a) as [H1|H1];
    destruct (Z.ltb_spec a (d + Z.of_nat (Z.to_nat n))) as [H2|H2];
    destruct (Z.ltb_spec a (d + n)) as [H3|H3]; cbn [andb];
    try reflexivity; try lia.
  rewrite nth_load_bytes by lia. f_equal. lia.
Qed.

(** [LZ4_wildCopy8] copies [s, s + (e - d)) to [d, e) when the destination
    does not start inside the source. *)
Lemma wildCopy8_loop_copies k : forall h d s e a,
  d <= s \/ s + (e - d) <= d -> e - d <= Z.of_nat k -> d <= a < e ->
  cell (wildCopy8_loop k h d s e) a = cell h (s + (a - d)).
Proof.
  induction k as [|k IH]; intros h d s e a Hds Hk Ha; cbn [wildCopy8_loop]; cbv zeta.
  - lia.
  - destruct (Z.ltb_spec (d + 8) e) as [Hlt|Hge].
    + destruct (Z.ltb_spec a (d + 8)) as [Ha8|Ha8].
      * rewrite (extends_below (d + 8) (memcpy h d s 8) _ a)
          by (try apply extends_wildCopy8_loop; try apply extends_refl; lia).
        rewrite cell_memcpy.
        destruct (Z.leb_spec d a); destruct (Z.ltb_spec a (d + 8));
          cbn [andb]; try lia. reflexivity.
      * rewrite IH by lia. rewrite cell_memcpy.
        destruct (Z.leb_spec d (s + 8 + (a - (d + 8))));
          destruct (Z.ltb_spec (s + 8 + (a - (d + 8))) (d + 8));
          cbn [andb]; try lia; f_equal; lia.
    + rewrite cell_memcpy.
      destruct (Z.leb_spec d a); destruct (Z.ltb_spec a (d + 8));
        cbn [andb]; try lia. reflexivity.
Qed.

Lemma LZ4_wildCopy8_copies h d s e a :
  d <= s \/ s + (e - d) <= d -> d <= a < e ->
  cell (LZ4_wildCopy8 h d s e) a = cell h (s + (a - d)).
Proof.
  intros Hds Ha. apply wildCopy8_loop_copies; try assumption. lia.
Qed.

Lemma wildCopy32_step_copies h d s e a :
  d <= s \/ s + (e - d) <= d -> d <= a < e -> a < d + 32 ->
  cell (memcpy (memcpy h d s 16) (d + 16) (s + 16) 16) a = cell h (s + (a - d)).
Proof.
  intros Hds Ha Ha32. rewrite cell_memcpy.
  destruct (Z.leb_spec (d + 16) a) as [H1|H1];
    destruct (Z.ltb_spec a (d + 16 + 16)) as [H2|H2]; cbn [andb]; try lia.
  - rewrite cell_memcpy.
    destruct (Z.leb_spec d (s + 16 + (a - (d + 16))));
      destruct (Z.ltb_spec (s + 16 + (a - (d + 16))) (d + 16));
      cbn [andb]; try lia; f_equal; lia.
  - rewrite cell_memcpy.
    destruct (Z.leb_spec d a); destruct (Z.ltb_spec a (d + 16));
      cbn [andb]; try lia. reflexivity.
Qed.

Lemma wildCopy32_loop_copies k : forall h d s e a,
  d <= s \/ s + (e - d) <= d -> e - d <= Z.of_nat k -> d <= a < e ->
  cell (wildCopy32_loop k h d s e) a = cell h (s + (a - d)).
Proof.
  induction k as [|k IH]; intros h d s e a Hds Hk Ha; cbn [wildCopy32_loop]; cbv zeta.
  - lia.
  - destruct (Z.ltb_spec (d + 32) e) as [Hlt|Hge].
    + destruct (Z.ltb_spec a (d + 32)) as [Ha8|Ha8].
      * rewrite (extends_below (d + 32)
                   (memcpy (memcpy h d s 16) (d + 16) (s + 16) 16) _ a)
          by (try apply extends_wildCopy32_loop; try apply extends_refl; lia).
        apply (wildCopy32_step_copies h d s e); assumption || lia.
      * rewrite IH by lia. rewrite cell_memcpy.
        destruct (Z.leb_spec (d + 16) (s + 32 + (a - (d + 32))));
          destruct (Z.ltb_spec (s + 32 + (a - (d + 32))) (d + 16 + 16));
          cbn [andb]; try lia; rewrite cell_memcpy;
          destruct (Z.leb_spec d (s + 32 + (a - (d + 32))));
          destruct (Z.ltb_spec (s + 32 + (a - (d + 32))) (d + 16));
          cbn [andb]; try lia; f_equal; lia.
    + apply (wildCopy32_step_copies h d s e); assumption || lia.
Qed.

Lemma LZ4_wildCopy32_copies h d s e a :
  d <= s \/ s + (e - d) <= d -> d <= a < e ->
  cell (LZ4_wildCopy32 h d s e) a = cell h (s + (a - d)).
Proof.
  intros Hds Ha. apply wildCopy32_loop_copies; try assumption. lia.
Qed.

(** The literal run of the sequence at the input cursor, as lines 367-369
    and 426-432 decode it: where its bytes start and how many they are.
    There is none when the variable length fails at once or the fuel runs
    out in it. *)
Definition literal_run (p : params) (fuel : nat) (s : state) : option (Z * Z) :=
  let token := u8 (cell (hp s) (ip s)) in
  let length := Z.shiftr token ML_BITS in
  if length =? RUN_MASK then
    match read_variable_length fuel (hp s) (ip s + 1) (iend p - RUN_MASK)
                               (endIn p) (endIn p) with
    | Some (n, ip', error) =>
        if is_initial_error error then None else Some (ip', length + n)
    | None => None
    end
  else Some (ip s + 1, length).

Section Literals.

Variable p : params.
Variable fuel : nat.

(** After a pass that started in [s0]: the literals, as far as the output
    cursor went, are the bytes of the input from [lit] on; and a pass that
    goes on to the next sequence copied them all. *)
Definition lit_copied (s0 : state) (lit ll : Z) (s' : state) : Prop :=
  forall i, 0 <= i < ll -> op s0 + i < op s' ->
  cell (hp s') (op s0 + i) = cell (hp s0) (lit + i).

Definition lit_post (s0 : state) (lit ll : Z) (f : flow) : Prop :=
  match f with
  | Continue s' => op s0 + ll <= op s' /\ lit_copied s0 lit ll s'
  | Break s' => lit_copied s0 lit ll s'
  | OutputError _ | Starved => True
  end.

Definition fast_lit_post (s0 : state) (lit ll : Z) (f : fast_flow) : Prop :=
  match f with
  | Fast s' => op s0 + ll <= op s' /\ lit_copied s0 lit ll s'
  | Safe f => lit_post s0 lit ll f
  end.

(** Once the literals are in place, the rest of the pass stores above
    them. *)
Lemma lit_post_frame s0 lit ll h1 f :
  (forall i, 0 <= i < ll -> cell h1 (op s0 + i) = cell (hp s0) (lit + i)) ->
  frame_post (op s0 + ll) h1 f -> lit_post s0 lit ll f.
Proof.
  intros H1 Hf. destruct f as [s'|s'|s'|]; cbn [lit_post frame_post] in *;
    try exact I; destruct Hf as [He Hle]; [split; [exact Hle|]|];
    intros i Hi _;
    rewrite (extends_below (op s0 + ll) h1 (hp s') (op s0 + i) He) by lia;
    apply H1; exact Hi.
Qed.

Lemma fast_lit_post_frame s0 lit ll h1 f :
  (forall i, 0 <= i < ll -> cell h1 (op s0 + i) = cell (hp s0) (lit + i)) ->
  fast_frame_post (op s0 + ll) h1 f -> fast_lit_post s0 lit ll f.
Proof.
  intros H1 Hf. destruct f as [s'|f]; cbn [fast_lit_post fast_frame_post] in *.
  - destruct Hf as [He Hle]. split; [exact Hle|]. intros i Hi _.
    rewrite (extends_below (op s0 + ll) h1 (hp s') (op s0 + i) He) by lia.
    apply H1; exact Hi.
  - apply (lit_post_frame s0 lit ll h1); assumption.
Qed.

(** [s] is the state [s0] in which the pass started, with the input cursor
    moved to the literals. *)
Lemma safe_literal_copy_lit s0 s token length :
  op s = op s0 -> hp s = hp s0 ->
  0 <= length -> 0 <= token ->
  op s <= ip s \/ ip s + length <= op s ->
  lit_post s0 (ip s) length
           (safe_literal_copy p fuel s token length (op s + length)).
Proof.
  intros Hop Hhp Hlen Ht Hds. unfold safe_literal_copy, LZ4_memmove.
  pose proof (Z.mod_pos_bound (oend p - op s) (2 ^ 64) ltac:(lia)) as Hsz.
  fold (size_t (oend p - op s)) in Hsz.
  destruct (near_end p s length (op s + length)).
  - destruct (partial p && (op s + length >? oend p)) eqn:Hclamp.
    + (* the clamped copy ends at [oend], and the loop with it *)
      destruct (if partial p then _ else _); [exact I|].
      cbn [ip op hp mlog]. rewrite Z.eqb_refl, orb_true_r. cbn [orb lit_post].
      intros i Hi Hlt. cbn [hp op] in *. rewrite <- Hop, <- Hhp.
      rewrite cell_memcpy.
      destruct (Z.leb_spec (op s) (op s + i));
        destruct (Z.ltb_spec (op s + i) (op s + size_t (oend p - op s)));
        cbn [andb]; try lia. f_equal. lia.
    + destruct (if partial p then _ else _); [exact I|].
      cbn [ip op hp mlog].
      assert (H1 : forall i, 0 <= i < length ->
                   cell (memcpy (hp s) (op s) (ip s) length) (op s0 + i)
                   = cell (hp s0) (ip s + i)).
      { intros i Hi. rewrite <- Hop, <- Hhp. rewrite cell_memcpy.
        destruct (Z.leb_spec (op s) (op s + i));
          destruct (Z.ltb_spec (op s + i) (op s + length));
          cbn [andb]; try lia. f_equal. lia. }
      destruct (negb (partial p) || _ || _).
      * cbn [lit_post]. intros i Hi _. cbn [hp]. apply H1. exact Hi.
      * apply (lit_post_frame s0 _ _ (memcpy (hp s) (op s) (ip s) length));
          [exact H1|].
        apply get_offset_frame; cbn [ip op hp]; try lia. apply extends_refl.
  - assert (H1 : forall i, 0 <= i < length ->
                 cell (LZ4_wildCopy8 (hp s) (op s) (ip s) (op s + length))
                      (op s0 + i)
                 = cell (hp s0) (ip s + i)).
    { intros i Hi. rewrite <- Hop, <- Hhp.
      rewrite LZ4_wildCopy8_copies by lia. f_equal. lia. }
    apply (lit_post_frame s0 _ _ _ _ H1).
    apply get_offset_frame; cbn [ip op hp]; try lia. apply extends_refl.
Qed.

Lemma shortcut_lit s0 s token length :
  op s = op s0 -> hp s = hp s0 ->
  shortcut_cond p s length = true -> 0 <= length <= 15 -> 0 <= token ->
  lit_post s0 (ip s) length (shortcut p fuel s token length).
Proof.
  intros Hop Hhp Hc Hlen Ht. unfold shortcut. st_simpl.
  pose proof (match_seed_range token Ht) as Hml. consts.
  set (h1 := memcpy (hp s) (op s) (ip s) (if endIn p then 16 else 8)).
  assert (Hll : length <= (if endIn p then 16 else 8)).
  { unfold shortcut_cond in Hc. consts. destruct (endIn p); cbv iota in *; b2p; lia. }
  assert (H1 : forall i, 0 <= i < length ->
               cell h1 (op s0 + i) = cell (hp s0) (ip s + i)).
  { intros i Hi. rewrite <- Hop, <- Hhp. subst h1. rewrite cell_memcpy.
    destruct (Z.leb_spec (op s) (op s + i));
      destruct (Z.ltb_spec (op s + i) (op s + (if endIn p then 16 else 8)));
      cbn [andb]; try lia. f_equal. lia. }
  apply (lit_post_frame s0 _ _ h1 _ H1). rewrite <- Hop.
  pose proof (extends_refl (op s + length) h1) as Hrefl.
  destruct (negb _ && _ && _).
  - cbn [frame_post hp op]. split; [ext_tac | lia].
  - apply copy_match_frame; cbn [ip op hp]; try lia. exact Hrefl.
Qed.

(** One pass through the body of the main loop copies the literals of its
    sequence from the input. *)
Lemma safe_iter_lit s lit ll :
  literal_run p fuel s = Some (lit, ll) ->
  op s <= lit \/ lit + ll <= op s ->
  lit_post s lit ll (safe_iter p fuel s).
Proof.
  unfold literal_run, safe_iter. intros Hrun Hds.
  pose proof (u8_range (cell (hp s) (ip s))) as Ht.
  pose proof (literal_seed_range _ Ht) as Hll.
  set (token := u8 (cell (hp s) (ip s))) in *.
  set (length := Z.shiftr token ML_BITS) in *.
  destruct (shortcut_cond p (set_ip s (ip s + 1)) length) eqn:Hsc.
  - assert (Hne : (length =? RUN_MASK) = false).
    { unfold shortcut_cond in Hsc. consts. destruct (endIn p); b2p; lia. }
    rewrite Hne in Hrun. injection Hrun as <- <-.
    apply (shortcut_lit s (set_ip s (ip s + 1))); auto; lia.
  - destruct (length =? RUN_MASK) eqn:Hrm.
    + unfold decode_literal_length. st_simpl.
      pose proof (read_variable_length_spec fuel (hp s) (ip s + 1)
                    (iend p - RUN_MASK) (endIn p) (endIn p)) as Hr.
      destruct (read_variable_length _ _ _ _ _ _) as [[[n ip'] e]|];
        [|discriminate].
      destruct (is_initial_error e); [discriminate|].
      injection Hrun as <- <-. destruct Hr as (Hn & _).
      ifs; try exact I.
      apply (safe_literal_copy_lit s (mkState ip' (op s) (hp s) (mlog s)));
        cbn [ip op hp]; auto; lia.
    + injection Hrun as <- <-.
      apply (safe_literal_copy_lit s (set_ip s (ip s + 1)));
        st_simpl; auto; lia.
Qed.

(** And so does one pass through the body of the fast loop. *)
Lemma fast_iter_lit s lit ll :
  literal_run p fuel s = Some (lit, ll) ->
  op s <= lit \/ lit + ll <= op s ->
  fast_lit_post s lit ll (fast_iter p fuel s).
Proof.
  unfold literal_run, fast_iter. intros Hrun Hds. st_simpl.
  pose proof (u8_range (cell (hp s) (ip s))) as Ht.
  pose proof (literal_seed_range _ Ht) as Hll.
  set (token := u8 (cell (hp s) (ip s))) in *.
  set (length := Z.shiftr token ML_BITS) in *.
  destruct (length =? RUN_MASK) eqn:Hrm.
  - pose proof (read_variable_length_spec fuel (hp s) (ip s + 1)
                  (iend p - RUN_MASK) (endIn p) (endIn p)) as Hr.
    destruct (read_variable_length _ _ _ _ _ _) as [[[n ip'] e]|];
      [|discriminate].
    destruct (is_initial_error e); [discriminate|].
    injection Hrun as <- <-. destruct Hr as (Hn & _).
    destruct (safeDecode p && _); [exact I|].
    destruct (safeDecode p && _); [exact I|].
    destruct (endIn p).
    + destruct (_ || _).
      * cbn [fast_lit_post].
        apply (safe_literal_copy_lit s (mkState ip' (op s) (hp s) (mlog s)));
          cbn [ip op hp]; auto; lia.
      * apply (fast_lit_post_frame s _ _
                 (LZ4_wildCopy32 (hp s) (op s) ip' (op s + (length + n)))).
        -- intros i Hi. rewrite LZ4_wildCopy32_copies by lia. f_equal. lia.
        -- apply fast_match_frame; cbn [ip op hp]; try lia. apply extends_refl.
    + destruct (_ >? _).
      * cbn [fast_lit_post].
        apply (safe_literal_copy_lit s (mkState ip' (op s) (hp s) (mlog s)));
          cbn [ip op hp]; auto; lia.
      * apply (fast_lit_post_frame s _ _
                 (LZ4_wildCopy8 (hp s) (op s) ip' (op s + (length + n)))).
        -- intros i Hi. rewrite LZ4_wildCopy8_copies by lia. f_equal. lia.
        -- apply fast_match_frame; cbn [ip op hp]; try lia. apply extends_refl.
  - injection Hrun as <- <-. consts. b2p.
    destruct (endIn p).
    + destruct (_ >? _).
      * cbn [fast_lit_post].
        apply (safe_literal_copy_lit s (mkState (ip s + 1) (op s) (hp s) (mlog s)));
          cbn [ip op hp]; auto; lia.
      * apply (fast_lit_post_frame s _ _ (memcpy (hp s) (op s) (ip s + 1) 16)).
        -- intros i Hi. rewrite cell_memcpy.
           destruct (Z.leb_spec (op s) (op s + i));
             destruct (Z.ltb_spec (op s + i) (op s + 16));
             cbn [andb]; try lia. f_equal. lia.
        -- apply fast_match_frame; cbn [ip op hp]; try lia. apply extends_refl.
    + apply (fast_lit_post_frame s _ _
               (if length >? 8
                then memcpy (memcpy (hp s) (op s) (ip s + 1) 8)
                            (op s + 8) (ip s + 1 + 8) 8
                else memcpy (hp s) (op s) (ip s + 1) 8)).
      * intros i Hi. destruct (length >? 8) eqn:H8; b2p.
        -- rewrite cell_memcpy.
           destruct (Z.leb_spec (op s + 8) (op s + i));
             destruct (Z.ltb_spec (op s + i) (op s + 8 + 8));
             cbn [andb]; try lia; rewrite cell_memcpy.
           ++ destruct (Z.leb_spec (op s) (ip s + 1 + 8 + (op s + i - (op s + 8))));
                destruct (Z.ltb_spec (ip s + 1 + 8 + (op s + i - (op s + 8)))
                                     (op s + 8));
                cbn [andb]; try lia; f_equal; lia.
           ++ destruct (Z.leb_spec (op s) (op s + i));
                destruct (Z.ltb_spec (op s + i) (op s + 8));
                cbn [andb]; try lia. f_equal. lia.
        -- rewrite cell_memcpy.
           destruct (Z.leb_spec (op s) (op s + i));
             destruct (Z.ltb_spec (op s + i) (op s + 8));
             cbn [andb]; try lia. f_equal. lia.
      * apply fast_match_frame; cbn [ip op hp]; try lia.
        destruct (length >? 8); apply extends_refl.
Qed.

End Literals.

(** *** A block of literals only *)

Lemma ptr_overflow_false (a length : Z) :
  0 <= a -> 0 <= length -> a + length < 2 ^ 64 -> ptr_overflow a length = false.
Proof.
  intros Ha Hl Hs. unfold ptr_overflow, uptrval.
  rewrite (Z.mod_small a) by lia. rewrite Z.mod_small by lia.
  apply Z.ltb_ge. lia.
Qed.

(** The last literals of a block, in full safe mode: they end the input and
    fit the output, and the loop breaks after them. *)
Lemma safe_literal_copy_last (p : params) (fuel : nat) (s : state)
  (token length : Z) :
  endIn p = true -> partial p = false ->
  ip s + length = iend p -> op s + length <= oend p ->
  safe_literal_copy p fuel s token length (op s + length)
  = Break (mkState (ip s + length) (op s + length)
                   (LZ4_memmove (hp s) (op s) (ip s) length) (mlog s)).
Proof.
  intros Hin Hfull Hip Hop. unfold safe_literal_copy, near_end.
  rewrite Hin, Hfull. cbn [andb negb orb]. consts.
  replace (ip s + length >? iend p - (2 + 1 + 5)) with true
    by (symmetry; rewrite Z.gtb_ltb; apply Z.ltb_lt; lia).
  rewrite orb_true_r. cbn [orb].
  replace (ip s + length =? iend p) with true
    by (symmetry; apply Z.eqb_eq; exact Hip).
  replace (op s + length >? oend p) with false
    by (symmetry; rewrite Z.gtb_ltb; apply Z.ltb_ge; exact Hop).
  reflexivity.
Qed.

Section LastLiterals.

Variable p : params.
Variable fuel : nat.
Variable s : state.
Variables lit ll : Z.

Hypothesis Hin : endIn p = true.
Hypothesis Hfull : partial p = false.
Hypothesis Hrun : literal_run p fuel s = Some (lit, ll).
Hypothesis Hend : lit + ll = iend p.
Hypothesis Hfit : op s + ll <= oend p.
Hypothesis Hop : ptr_overflow (op s) ll = false.
Hypothesis Hip : ptr_overflow lit ll = false.

Lemma safe_iter_last :
  safe_iter p fuel s
  = Break (mkState (lit + ll) (op s + ll)
                   (LZ4_memmove (hp s) (op s) lit ll) (mlog s)).
Proof.
  unfold literal_run in Hrun. rewrite Hin in Hrun. unfold safe_iter.
  pose proof (u8_range (cell (hp s) (ip s))) as Ht.
  pose proof (literal_seed_range _ Ht) as Hll.
  set (token := u8 (cell (hp s) (ip s))) in *.
  set (length := Z.shiftr token ML_BITS) in *.
  unfold shortcut_cond, shortiend. rewrite Hin. st_simpl. consts.
  destruct (length =? 15) eqn:Hrm; cbn [negb andb].
  - unfold decode_literal_length. rewrite Hin. cbn [ip op hp mlog]. consts.
    destruct (read_variable_length fuel (hp s) (ip s + 1) (iend p - 15)
                true true) as [[[n ip'] e]|]; [|discriminate].
    destruct (is_initial_error e); [discriminate|].
    injection Hrun as <- <-. unfold safeDecode. rewrite Hin. cbn [andb].
    st_simpl. rewrite Hop, Hip.
    apply (safe_literal_copy_last p fuel (mkState ip' (op s) (hp s) (mlog s)));
      assumption.
  - injection Hrun as <- <-. b2p.
    replace (ip s + 1 <? iend p - 14 - 2) with false
      by (symmetry; apply Z.ltb_ge; lia).
    cbn [andb].
    apply (safe_literal_copy_last p fuel
             (mkState (ip s + 1) (op s) (hp s) (mlog s))); assumption.
Qed.

Lemma fast_iter_last :
  fast_iter p fuel s
  = Safe (Break (mkState (lit + ll) (op s + ll)
                         (LZ4_memmove (hp s) (op s) lit ll) (mlog s))).
Proof.
  unfold literal_run in Hrun. rewrite Hin in Hrun. unfold fast_iter.
  pose proof (u8_range (cell (hp s) (ip s))) as Ht.
  pose proof (literal_seed_range _ Ht) as Hll.
  set (token := u8 (cell (hp s) (ip s))) in *.
  set (length := Z.shiftr token ML_BITS) in *.
  rewrite Hin. st_simpl. consts.
  destruct (length =? 15) eqn:Hrm.
  - destruct (read_variable_length fuel (hp s) (ip s + 1) (iend p - 15)
                true true) as [[[n ip'] e]|]; [|discriminate].
    destruct (is_initial_error e); [discriminate|].
    injection Hrun as <- <-. unfold safeDecode. rewrite Hin. cbn [andb].
    rewrite Hop, Hip.
    replace (ip' + (length + n) >? iend p - 32) with true
      by (symmetry; rewrite Z.gtb_ltb; apply Z.ltb_lt; lia).
    rewrite orb_true_r. f_equal.
    apply (safe_literal_copy_last p fuel (mkState ip' (op s) (hp s) (mlog s)));
      assumption.
  - injection Hrun as <- <-. b2p.
    replace (ip s + 1 >? iend p - (16 + 1)) with true
      by (symmetry; rewrite Z.gtb_ltb; apply Z.ltb_lt; lia).
    f_equal.
    apply (safe_literal_copy_last p fuel
             (mkState (ip s + 1) (op s) (hp s) (mlog s))); assumption.
Qed.

End LastLiterals.

Lemma literal_run_bounds (p : params) (fuel : nat) (s : state) (lit ll : Z) :
  literal_run p fuel s = Some (lit, ll) -> ip s < lit /\ 0 <= ll.
Proof.
  unfold literal_run. intros Hrun.
  pose proof (u8_range (cell (hp s) (ip s))) as Ht.
  pose proof (literal_seed_range _ Ht) as Hll.
  destruct (_ =? RUN_MASK).
  - pose proof (read_variable_length_spec fuel (hp s) (ip s + 1)
                  (iend p - RUN_MASK) (endIn p) (endIn p)) as Hr.
    destruct (read_variable_length _ _ _ _ _ _) as [[[n ip'] e]|];
      [|discriminate].
    destruct (is_initial_error e); [discriminate|].
    injection Hrun as <- <-. destruct Hr as (Hn & Hle & _). lia.
  - injection Hrun as <- <-. lia.
Qed.

(** ** What the decoder reads

    Two memories that hold the same bytes in two regions, [a0, a1) and
    [b0, b1), stay that way under the same copies, as long as the copies
    read inside the regions. *)

Section Similar.

Variable strict : bool.
Variables a0 a1 b0 b1 : Z.

Definition in_regions (a : Z) : Prop := a0 <= a < a1 \/ b0 <= a < b1.

(** Every address of [lo, hi) is in one of the two regions. *)
Definition readable (lo hi : Z) : Prop :=
  forall a, lo <= a < hi -> in_regions a.

(** The two memories have the same bytes in the regions and, when [strict]
    is set, the same write log. *)
Definition sim (h1 h2 : heap) : Prop :=
  (strict = true -> wlog h1 = wlog h2)
  /\ forall a, in_regions a -> cell h1 a = cell h2 a.

Lemma readable_a lo hi : a0 <= lo -> hi <= a1 -> readable lo hi.
Proof. intros H0 H1 a Ha. left. lia. Qed.

Lemma readable_b lo hi : b0 <= lo -> hi <= b1 -> readable lo hi.
Proof. intros H0 H1 a Ha. right. lia. Qed.

Lemma readable_sub lo hi lo' hi' :
  readable lo hi -> lo <= lo' -> hi' <= hi -> readable lo' hi'.
Proof. intros H Hl Hh a Ha. apply H. lia. Qed.

Lemma sim_cell h1 h2 a :
  sim h1 h2 -> readable a (a + 1) -> cell h1 a = cell h2 a.
Proof. intros [_ Hc] Hr. apply Hc. apply Hr. lia. Qed.




Lemma sim_load_bytes h1 h2 s n :
  sim h1 h2 -> readable s (s + Z.of_nat n) ->
  load_bytes h1 s n = load_bytes h2 s n.
Proof.
  intros [_ Hc] Hr. unfold load_bytes. apply map_ext_in.
  intros i Hi. apply in_seq in Hi. apply Hc. apply Hr. lia.
Qed.









(** The source for what follows the head of a match is at most 4 bytes
    after the match for an offset below 8, and 8 bytes after it otherwise;
    it is not above the destination when that is [offset] after the
    match. *)
Lemma copy_match_head_snd h o m offset :
  0 <= offset ->
  m <= snd (copy_match_head h o m offset) <= m + 8
  /\ (o = m + offset -> snd (copy_match_head h o m offset) <= o).
Proof.
  intros Hoff. unfold copy_match_head.
  destruct (Z.ltb_spec offset 8) as [Hlt|Hge]; cbn [snd]; [|lia].
  assert (Hc : offset = 0 \/ offset = 1 \/ offset = 2 \/ offset = 3
               \/ offset = 4 \/ offset = 5 \/ offset = 6 \/ offset = 7) by lia.
  destruct Hc as [->|[->|[->|[->|[->|[->|[->| ->]]]]]]];
    cbv [inc32table dec64table nth Z.to_nat Pos.to_nat Pos.iter_op Nat.add];
    lia.
Qed.

Lemma inc32table_range offset : 0 <= inc32table offset <= 4.
Proof.
  unfold inc32table.
  destruct (Z.to_nat offset) as [|[|[|[|[|[|[|[|n]]]]]]]]; cbn [nth];
    try lia. destruct n; cbn; lia.
Qed.



Lemma sim_readLE16 h1 h2 a :
  sim h1 h2 -> readable a (a + 2) -> LZ4_readLE16 h1 a = LZ4_readLE16 h2 a.
Proof.
  intros [_ Hc] Hr. unfold LZ4_readLE16.
  rewrite (Hc a) by (apply Hr; lia). rewrite (Hc (a + 1)) by (apply Hr; lia).
  reflexivity.
Qed.

(** A variable length with the loop check reads below the limit, the first
    byte apart. *)
Lemma sim_read_variable_length_loop fuel : forall h1 h2 ip lencheck len,
  sim h1 h2 -> readable ip (Z.max (ip + 1) lencheck) ->
  read_variable_length_loop fuel h1 ip lencheck true len
  = read_variable_length_loop fuel h2 ip lencheck true len.
Proof.
  induction fuel as [|fuel IH]; intros h1 h2 ip lencheck len Hs Hr;
    cbn [read_variable_length_loop]; [reflexivity|]. cbv zeta.
  rewrite (sim_cell h1 h2 ip Hs) by (apply (readable_sub _ _ _ _ Hr); lia).
  cbn [andb]. destruct (Z.geb_spec (ip + 1) lencheck) as [Hge|Hlt];
    [reflexivity|].
  destruct (_ =? 255); [|reflexivity].
  apply IH; [exact Hs|]. apply (readable_sub _ _ _ _ Hr); lia.
Qed.

Lemma sim_read_variable_length fuel h1 h2 ip lencheck ic :
  sim h1 h2 ->
  (ic = false \/ ip < lencheck -> readable ip (Z.max (ip + 1) lencheck)) ->
  read_variable_length fuel h1 ip lencheck true ic
  = read_variable_length fuel h2 ip lencheck true ic.
Proof.
  intros Hs Hr. unfold read_variable_length.
  destruct ic; cbn [andb].
  - destruct (Z.geb_spec ip lencheck) as [Hge|Hlt]; [reflexivity|].
    apply sim_read_variable_length_loop; [exact Hs|]. apply Hr. right. lia.
  - apply sim_read_variable_length_loop; [exact Hs|]. apply Hr. left.
    reflexivity.
Qed.

End Similar.

(** ** Safe mode reads the input and the output only

    With [endOnInput] set, without a dictionary and with [checkOffset], a
    run depends on memory only through the bytes of the input
    [src, iend) and those of [lowPrefix - dictSize, oend): two memories that
    hold the same bytes there give the same run. *)

Section ReadSafety.

Variable fdl : bool.
Variable p : params.
Variable fuel : nat.

Hypothesis Hin : endIn p = true.
Hypothesis Hsrc : 0 <= srcSize p.
Hypothesis Hout : 0 <= outputSize p < 2 ^ 64.
Hypothesis Hcheck : checkOffset p = true.
Hypothesis Hdict : dict p = noDict.
Hypothesis Hdsz : 0 <= dictSize p.

(** The lowest address a match may start at. *)
Definition low_limit : Z := lowPrefix p - dictSize p.

























End ReadSafety.

(** ** What the output depends on

    Two memories that hold the same input, and the same bytes from [b0] up
    to a frontier [x], hold the same bytes up to a frontier further on
    after the same copy, when the copy reads the input or below the
    frontier and writes at or below it. *)

Section Frontier.

Variable strict : bool.
Variables a0 a1 b0 : Z.

Lemma sim_weaken x x' h1 h2 :
  sim strict a0 a1 b0 x h1 h2 -> x' <= x -> sim strict a0 a1 b0 x' h1 h2.
Proof.
  intros [Hl Hc] Hle. split; [exact Hl|].
  intros a [Ha|Ha]; apply Hc; [left | right]; lia.
Qed.

Lemma readable_weaken x x' lo hi :
  readable a0 a1 b0 x lo hi -> x <= x' -> readable a0 a1 b0 x' lo hi.
Proof.
  intros Hr Hle a Ha. destruct (Hr a Ha) as [H|H]; [left | right]; lia.
Qed.

Lemma sim_grow_store x h1 h2 a b :
  sim strict a0 a1 b0 x h1 h2 -> a <= x ->
  sim strict a0 a1 b0 (Z.max x (a + 1)) (store h1 a b) (store h2 a b).
Proof.
  intros [Hl Hc] Ha. split; cbn [store wlog cell];
    [intros Hst; rewrite (Hl Hst); reflexivity|].
  intros c Hc'. destruct (Z.eqb_spec c a) as [->|Hne]; [reflexivity|].
  apply Hc. destruct Hc' as [H|H]; [left | right]; lia.
Qed.

Lemma sim_grow_store_cell x h1 h2 a s :
  sim strict a0 a1 b0 x h1 h2 -> readable a0 a1 b0 x s (s + 1) -> a <= x ->
  sim strict a0 a1 b0 (Z.max x (a + 1))
      (store h1 a (cell h1 s)) (store h2 a (cell h2 s)).
Proof.
  intros Hs Hr Ha. rewrite (sim_cell strict a0 a1 b0 x h1 h2 s Hs Hr).
  apply sim_grow_store; assumption.
Qed.

Lemma sim_grow_store_bytes bs : forall x h1 h2 d,
  sim strict a0 a1 b0 x h1 h2 -> d <= x ->
  sim strict a0 a1 b0 (Z.max x (d + Z.of_nat (length bs)))
      (store_bytes h1 d bs) (store_bytes h2 d bs).
Proof.
  induction bs as [|b bs IH]; intros x h1 h2 d Hs Hd; cbn [store_bytes length].
  - apply (sim_weaken x); [exact Hs | lia].
  - apply (sim_weaken (Z.max (Z.max x (d + 1)) (d + 1 + Z.of_nat (length bs))));
      [|lia].
    apply IH; [apply sim_grow_store; assumption | lia].
Qed.

Lemma sim_grow_memcpy x h1 h2 d s n :
  sim strict a0 a1 b0 x h1 h2 -> readable a0 a1 b0 x s (s + n) -> d <= x ->
  sim strict a0 a1 b0 (Z.max x (d + n)) (memcpy h1 d s n) (memcpy h2 d s n).
Proof.
  intros Hs Hr Hd. unfold memcpy.
  rewrite (sim_load_bytes strict a0 a1 b0 x h1 h2 s (Z.to_nat n) Hs)
    by (intros a Ha; apply Hr; lia).
  apply (sim_weaken (Z.max x (d + Z.of_nat (length (load_bytes h2 s (Z.to_nat n)))))).
  - apply sim_grow_store_bytes; assumption.
  - rewrite load_bytes_length. lia.
Qed.

(** The byte loop of an overlapping match copy: the source is below the
    destination. *)
Lemma sim_grow_byte_loop k : forall x h1 h2 d s e,
  sim strict a0 a1 b0 x h1 h2 -> b0 <= s -> s < d -> d <= x ->
  e - d <= Z.of_nat k ->
  sim strict a0 a1 b0 (Z.max x e) (byte_loop k h1 d s e) (byte_loop k h2 d s e).
Proof.
  induction k as [|k IH]; intros x h1 h2 d s e Hs Hb Hsd Hd Hk;
    cbn [byte_loop].
  - apply (sim_weaken x); [exact Hs | lia].
  - destruct (Z.ltb_spec d e) as [Hlt|Hge].
    + apply (sim_weaken (Z.max (Z.max x (d + 1)) e)); [|lia].
      apply IH; try lia.
      apply sim_grow_store_cell; [exact Hs | | exact Hd].
      apply readable_b; lia.
    + apply (sim_weaken x); [exact Hs | lia].
Qed.

Lemma sim_grow_copy_bytes_until x h1 h2 d s e :
  sim strict a0 a1 b0 x h1 h2 -> b0 <= s -> s < d -> d <= x ->
  sim strict a0 a1 b0 (Z.max x e)
      (copy_bytes_until h1 d s e) (copy_bytes_until h2 d s e).
Proof.
  intros Hs Hb Hsd Hd. apply sim_grow_byte_loop; try assumption. lia.
Qed.

(** [LZ4_wildCopy8] from the input. *)
Lemma sim_grow_wildCopy8_loop_in k : forall x h1 h2 d s e,
  sim strict a0 a1 b0 x h1 h2 -> a0 <= s -> Z.max (s + 8) (s + (e - d) + 7) <= a1 ->
  d <= x -> e - d <= Z.of_nat k ->
  sim strict a0 a1 b0 (Z.max x e)
      (wildCopy8_loop k h1 d s e) (wildCopy8_loop k h2 d s e).
Proof.
  induction k as [|k IH]; intros x h1 h2 d s e Hs Ha Hr Hd Hk;
    cbn [wildCopy8_loop]; cbv zeta.
  - apply (sim_weaken (Z.max x (d + 8))); [|lia].
    apply sim_grow_memcpy; [exact Hs | apply readable_a; lia | exact Hd].
  - destruct (Z.ltb_spec (d + 8) e) as [Hlt|Hge].
    + apply (sim_weaken (Z.max (Z.max x (d + 8)) e)); [|lia].
      apply IH; try lia.
      apply sim_grow_memcpy; [exact Hs | apply readable_a; lia | exact Hd].
    + apply (sim_weaken (Z.max x (d + 8))); [|lia].
      apply sim_grow_memcpy; [exact Hs | apply readable_a; lia | exact Hd].
Qed.

Lemma sim_grow_wildCopy8_in x h1 h2 d s e :
  sim strict a0 a1 b0 x h1 h2 -> a0 <= s -> Z.max (s + 8) (s + (e - d) + 7) <= a1 ->
  d <= x ->
  sim strict a0 a1 b0 (Z.max x e) (LZ4_wildCopy8 h1 d s e) (LZ4_wildCopy8 h2 d s e).
Proof.
  intros Hs Ha Hr Hd. apply sim_grow_wildCopy8_loop_in; try assumption. lia.
Qed.

(** [LZ4_wildCopy8] in a match copy: the source is 8 bytes or more below
    the destination. *)
Lemma sim_grow_wildCopy8_loop_back k : forall x h1 h2 d s e,
  sim strict a0 a1 b0 x h1 h2 -> b0 <= s -> s + 8 <= d -> d <= x ->
  e - d <= Z.of_nat k ->
  sim strict a0 a1 b0 (Z.max x e)
      (wildCopy8_loop k h1 d s e) (wildCopy8_loop k h2 d s e).
Proof.
  induction k as [|k IH]; intros x h1 h2 d s e Hs Hb Hsd Hd Hk;
    cbn [wildCopy8_loop]; cbv zeta.
  - apply (sim_weaken (Z.max x (d + 8))); [|lia].
    apply sim_grow_memcpy; [exact Hs | apply readable_b; lia | exact Hd].
  - destruct (Z.ltb_spec (d + 8) e) as [Hlt|Hge].
    + apply (sim_weaken (Z.max (Z.max x (d + 8)) e)); [|lia].
      apply IH; try lia.
      apply sim_grow_memcpy; [exact Hs | apply readable_b; lia | exact Hd].
    + apply (sim_weaken (Z.max x (d + 8))); [|lia].
      apply sim_grow_memcpy; [exact Hs | apply readable_b; lia | exact Hd].
Qed.

Lemma sim_grow_wildCopy8_back x h1 h2 d s e :
  sim strict a0 a1 b0 x h1 h2 -> b0 <= s -> s + 8 <= d -> d <= x ->
  sim strict a0 a1 b0 (Z.max x e) (LZ4_wildCopy8 h1 d s e) (LZ4_wildCopy8 h2 d s e).
Proof.
  intros Hs Hb Hsd Hd. apply sim_grow_wildCopy8_loop_back; try assumption. lia.
Qed.

Lemma sim_grow_wildCopy32_loop_in k : forall x h1 h2 d s e,
  sim strict a0 a1 b0 x h1 h2 -> a0 <= s -> Z.max (s + 32) (s + (e - d) + 31) <= a1 ->
  d <= x -> e - d <= Z.of_nat k ->
  sim strict a0 a1 b0 (Z.max x e)
      (wildCopy32_loop k h1 d s e) (wildCopy32_loop k h2 d s e).
Proof.
  assert (H2 : forall x h1 h2 d s, sim strict a0 a1 b0 x h1 h2 ->
               a0 <= s -> s + 32 <= a1 -> d <= x ->
               sim strict a0 a1 b0 (Z.max x (d + 32))
                   (memcpy (memcpy h1 d s 16) (d + 16) (s + 16) 16)
                   (memcpy (memcpy h2 d s 16) (d + 16) (s + 16) 16)).
  { intros x h1 h2 d s Hs Ha Hr Hd.
    apply (sim_weaken (Z.max (Z.max x (d + 16)) (d + 16 + 16))); [|lia].
    apply sim_grow_memcpy; [|apply readable_a; lia | lia].
    apply sim_grow_memcpy; [exact Hs | apply readable_a; lia | exact Hd]. }
  induction k as [|k IH]; intros x h1 h2 d s e Hs Ha Hr Hd Hk;
    cbn [wildCopy32_loop]; cbv zeta.
  - apply (sim_weaken (Z.max x (d + 32))); [|lia]. apply H2; try assumption; lia.
  - destruct (Z.ltb_spec (d + 32) e) as [Hlt|Hge].
    + apply (sim_weaken (Z.max (Z.max x (d + 32)) e)); [|lia].
      apply IH; try lia. apply H2; try assumption; lia.
    + apply (sim_weaken (Z.max x (d + 32))); [|lia].
      apply H2; try assumption; lia.
Qed.

Lemma sim_grow_wildCopy32_in x h1 h2 d s e :
  sim strict a0 a1 b0 x h1 h2 -> a0 <= s -> Z.max (s + 32) (s + (e - d) + 31) <= a1 ->
  d <= x ->
  sim strict a0 a1 b0 (Z.max x e) (LZ4_wildCopy32 h1 d s e) (LZ4_wildCopy32 h2 d s e).
Proof.
  intros Hs Ha Hr Hd. apply sim_grow_wildCopy32_loop_in; try assumption. lia.
Qed.

Lemma sim_grow_wildCopy32_loop_back k : forall x h1 h2 d s e,
  sim strict a0 a1 b0 x h1 h2 -> b0 <= s -> s + 16 <= d -> d <= x ->
  e - d <= Z.of_nat k ->
  sim strict a0 a1 b0 (Z.max x e)
      (wildCopy32_loop k h1 d s e) (wildCopy32_loop k h2 d s e).
Proof.
  assert (H2 : forall x h1 h2 d s, sim strict a0 a1 b0 x h1 h2 ->
               b0 <= s -> s + 16 <= d -> d <= x ->
               sim strict a0 a1 b0 (Z.max x (d + 32))
                   (memcpy (memcpy h1 d s 16) (d + 16) (s + 16) 16)
                   (memcpy (memcpy h2 d s 16) (d + 16) (s + 16) 16)).
  { intros x h1 h2 d s Hs Hb Hsd Hd.
    apply (sim_weaken (Z.max (Z.max x (d + 16)) (d + 16 + 16))); [|lia].
    apply sim_grow_memcpy; [|apply readable_b; lia | lia].
    apply sim_grow_memcpy; [exact Hs | apply readable_b; lia | exact Hd]. }
  induction k as [|k IH]; intros x h1 h2 d s e Hs Hb Hsd Hd Hk;
    cbn [wildCopy32_loop]; cbv zeta.
  - apply (sim_weaken (Z.max x (d + 32))); [|lia]. apply H2; assumption.
  - destruct (Z.ltb_spec (d + 32) e) as [Hlt|Hge].
    + apply (sim_weaken (Z.max (Z.max x (d + 32)) e)); [|lia].
      apply IH; try lia. apply H2; assumption.
    + apply (sim_weaken (Z.max x (d + 32))); [|lia]. apply H2; assumption.
Qed.

Lemma sim_grow_wildCopy32_back x h1 h2 d s e :
  sim strict a0 a1 b0 x h1 h2 -> b0 <= s -> s + 16 <= d -> d <= x ->
  sim strict a0 a1 b0 (Z.max x e) (LZ4_wildCopy32 h1 d s e) (LZ4_wildCopy32 h2 d s e).
Proof.
  intros Hs Hb Hsd Hd. apply sim_grow_wildCopy32_loop_back; try assumption. lia.
Qed.

Lemma sim_grow_pattern_loop k : forall x h1 h2 d v e,
  length v = 8%nat ->
  sim strict a0 a1 b0 x h1 h2 -> d <= x -> e - d <= Z.of_nat k ->
  sim strict a0 a1 b0 (Z.max x e) (pattern_loop k h1 d v e) (pattern_loop k h2 d v e).
Proof.
  induction k as [|k IH]; intros x h1 h2 d v e Hv Hs Hd Hk;
    cbn [pattern_loop]; cbv zeta.
  - apply (sim_weaken (Z.max x (d + Z.of_nat (length v)))); [|lia].
    apply sim_grow_store_bytes; assumption.
  - destruct (Z.ltb_spec (d + 8) e) as [Hlt|Hge].
    + apply (sim_weaken (Z.max (Z.max x (d + Z.of_nat (length v))) e)); [|lia].
      apply IH; try lia. apply sim_grow_store_bytes; assumption.
    + apply (sim_weaken (Z.max x (d + Z.of_nat (length v)))); [|lia].
      apply sim_grow_store_bytes; assumption.
Qed.

Lemma inc32table_le offset : 1 <= offset < 8 -> inc32table offset <= offset.
Proof.
  intros H.
  assert (Hc : offset = 1 \/ offset = 2 \/ offset = 3 \/ offset = 4
               \/ offset = 5 \/ offset = 6 \/ offset = 7) by lia.
  destruct Hc as [->|[->|[->|[->|[->|[->| ->]]]]]]; vm_compute; discriminate.
Qed.

(** The head of a match copy with an offset from 1 on. *)
Lemma sim_grow_copy_match_head x h1 h2 o offset :
  sim strict a0 a1 b0 x h1 h2 -> 1 <= offset -> b0 <= o - offset -> o <= x ->
  sim strict a0 a1 b0 (Z.max x (o + 8))
      (fst (copy_match_head h1 o (o - offset) offset))
      (fst (copy_match_head h2 o (o - offset) offset))
  /\ snd (copy_match_head h1 o (o - offset) offset)
     = snd (copy_match_head h2 o (o - offset) offset).
Proof.
  intros Hs Hoff Hb Ho. unfold copy_match_head, LZ4_copy8.
  pose proof (inc32table_range offset) as Hinc.
  destruct (Z.ltb_spec offset 8) as [Hlt|Hge]; cbn [fst snd];
    (split; [|reflexivity]).
  - pose proof (inc32table_le offset ltac:(lia)) as Hle.
    apply (sim_weaken (Z.max (Z.max (Z.max (Z.max (Z.max x (o + 1)) (o + 1 + 1))
                                           (o + 2 + 1)) (o + 3 + 1))
                             (o + 4 + 4))); [|lia].
    apply sim_grow_memcpy; [|apply readable_b; lia | lia].
    apply sim_grow_store_cell; [|apply readable_b; lia | lia].
    apply sim_grow_store_cell; [|apply readable_b; lia | lia].
    apply sim_grow_store_cell; [|apply readable_b; lia | lia].
    apply sim_grow_store_cell; [exact Hs | apply readable_b; lia | lia].
  - apply sim_grow_memcpy; [exact Hs | apply readable_b; lia | exact Ho].
Qed.

Lemma sim_grow_memcpy_using_offset x h1 h2 d e offset :
  sim strict a0 a1 b0 x h1 h2 -> 1 <= offset -> b0 <= d - offset -> d <= x ->
  sim strict a0 a1 b0 (Z.max x e)
      (LZ4_memcpy_using_offset h1 d (d - offset) e offset)
      (LZ4_memcpy_using_offset h2 d (d - offset) e offset).
Proof.
  intros Hs Hoff Hb Hd. unfold LZ4_memcpy_using_offset.
  destruct (Z.eqb_spec offset 1) as [->|H1];
    [|destruct (Z.eqb_spec offset 2) as [->|H2];
      [|destruct (Z.eqb_spec offset 4) as [->|H4]]].
  - rewrite (sim_cell strict a0 a1 b0 x h1 h2 (d - 1) Hs) by (apply readable_b; lia).
    apply sim_grow_pattern_loop; try assumption; try lia. apply repeat_length.
  - rewrite (sim_load_bytes strict a0 a1 b0 x h1 h2 (d - 2) 2 Hs)
      by (apply readable_b; lia).
    apply sim_grow_pattern_loop; try assumption; try lia. reflexivity.
  - rewrite (sim_load_bytes strict a0 a1 b0 x h1 h2 (d - 4) 4 Hs)
      by (apply readable_b; lia).
    apply sim_grow_pattern_loop; try assumption; try lia. reflexivity.
  - destruct (sim_grow_copy_match_head x h1 h2 d offset Hs Hoff Hb Hd)
      as [Hh Hm].
    pose proof (copy_match_head_snd h1 d (d - offset) offset ltac:(lia))
      as (Hm1 & Hm2). specialize (Hm2 ltac:(lia)).
    assert (He : forall h,
              LZ4_memcpy_using_offset_base h d (d - offset) e offset
              = LZ4_wildCopy8 (fst (copy_match_head h d (d - offset) offset))
                  (d + 8) (snd (copy_match_head h d (d - offset) offset)) e).
    { intros h. unfold LZ4_memcpy_using_offset_base, copy_match_head, LZ4_copy8.
      destruct (offset <? 8); reflexivity. }
    rewrite !He. rewrite <- Hm.
    apply (sim_weaken (Z.max (Z.max x (d + 8)) e)); [|lia].
    apply sim_grow_wildCopy8_back; [exact Hh | lia | lia | lia].
Qed.

End Frontier.

(** ** The match log only grows *)

Section LogGrows.

Variable p : params.
Variable fuel : nat.
Variable P : match_event -> Prop.

(** Some match of the log satisfies [P]. *)
Definition logged (s : state) : Prop := Exists P (mlog s).

Definition logged_flow (f : flow) : Prop :=
  match f with
  | Continue s | Break s | OutputError s => logged s
  | Starved => True
  end.

Definition logged_fast (f : fast_flow) : Prop :=
  match f with
  | Fast s => logged s
  | Safe f => logged_flow f
  end.

Definition logged_run (o : outcome) : Prop :=
  match o with
  | Returned _ s => logged s
  | OutOfFuel => True
  end.

Ltac kleaf :=
  solve [ cbn [logged_flow logged_fast]; unfold logged in *;
          cbn [mlog] in *;
          first [ assumption | apply Exists_cons_tl; assumption ] ].

Lemma safe_match_copy_logged s length offset match_ :
  logged s -> logged_flow (safe_match_copy p s length offset match_).
Proof.
  intros Hs. unfold safe_match_copy. st_simpl.
  destruct (copy_match_head _ _ _ _) as [h1 m1].
  ifs; st_simpl; kleaf.
Qed.

(** [safe_match_copy] logs its match, however it ends. *)
Lemma safe_match_copy_logs s length offset match_ :
  P (mkMatch (op s) offset length) ->
  logged_flow (safe_match_copy p s length offset match_).
Proof.
  intros Hs. unfold safe_match_copy. st_simpl.
  destruct (copy_match_head _ _ _ _) as [h1 m1].
  ifs; st_simpl; cbn [logged_flow]; unfold logged; cbn [mlog];
    apply Exists_cons_hd; exact Hs.
Qed.

Lemma copy_match_logged s length offset match_ :
  logged s -> logged_flow (copy_match p fuel s length offset match_).
Proof.
  intros Hs. unfold copy_match, copy_match_length.
  destruct (offset_out_of_range p match_); [kleaf|].
  destruct (length =? ML_MASK); [|apply safe_match_copy_logged; exact Hs].
  destruct (read_variable_length _ _ _ _ _ _) as [[[n ip'] e]|]; [|exact I].
  st_simpl. ifs; try kleaf. apply safe_match_copy_logged. exact Hs.
Qed.

Lemma get_offset_logged s token :
  logged s -> logged_flow (get_offset p fuel s token).
Proof.
  intros Hs. unfold get_offset. apply copy_match_logged. exact Hs.
Qed.

Lemma safe_literal_copy_logged s token length cpy :
  logged s -> logged_flow (safe_literal_copy p fuel s token length cpy).
Proof.
  intros Hs. unfold safe_literal_copy.
  destruct (near_end p s length cpy).
  - destruct (partial p && (cpy >? oend p)); cbn [ip op hp mlog];
      ifs; try kleaf; apply get_offset_logged; exact Hs.
  - apply get_offset_logged. exact Hs.
Qed.

Lemma shortcut_logged s token length :
  logged s -> logged_flow (shortcut p fuel s token length).
Proof.
  intros Hs. unfold shortcut. st_simpl.
  ifs; try kleaf; apply copy_match_logged; exact Hs.
Qed.

Lemma safe_iter_logged s : logged s -> logged_flow (safe_iter p fuel s).
Proof.
  intros Hs. unfold safe_iter.
  destruct (shortcut_cond _ _ _).
  - apply shortcut_logged. exact Hs.
  - destruct (_ =? RUN_MASK).
    + unfold decode_literal_length. st_simpl.
      destruct (read_variable_length _ _ _ _ _ _) as [[[n ip'] e]|]; [|exact I].
      ifs; try kleaf. apply safe_literal_copy_logged. exact Hs.
    + apply safe_literal_copy_logged. exact Hs.
Qed.

Lemma fast_match_logged s token :
  logged s -> logged_fast (fast_match p fuel s token).
Proof.
  intros Hs. unfold fast_match, fast_copy_match. st_simpl.
  destruct (offset_out_of_range p _); [kleaf|].
  destruct (_ =? ML_MASK).
  - destruct (read_variable_length _ _ _ _ _ _) as [[[n ip'] e]|]; [|exact I].
    ifs; try kleaf; cbn [logged_fast]; apply safe_match_copy_logged; exact Hs.
  - ifs; try kleaf; cbn [logged_fast]; apply safe_match_copy_logged; exact Hs.
Qed.

Lemma fast_iter_logged s : logged s -> logged_fast (fast_iter p fuel s).
Proof.
  intros Hs. unfold fast_iter. st_simpl.
  destruct (_ =? RUN_MASK).
  - destruct (read_variable_length _ _ _ _ _ _) as [[[n ip'] e]|]; [|exact I].
    repeat match goal with
    | |- context [if ?c then fast_match _ _ _ _ else _] => fail 1
    | |- context [if ?c then _ else _] => destruct c eqn:?
    end; try kleaf;
      first [ apply fast_match_logged; exact Hs
            | cbn [logged_fast]; apply safe_literal_copy_logged; exact Hs ].
  - ifs; try kleaf;
      first [ apply fast_match_logged; exact Hs
            | cbn [logged_fast]; apply safe_literal_copy_logged; exact Hs ].
Qed.

Lemma after_body_logged k f :
  logged_flow f -> (forall s, logged s -> logged_run (k s)) ->
  logged_run (after_body p k f).
Proof.
  intros Hf Hk. destruct f as [s|s|s|]; cbn [after_body logged_flow] in *.
  - apply Hk. exact Hf.
  - unfold end_of_decoding. destruct (endIn p); exact Hf.
  - exact Hf.
  - exact I.
Qed.

Lemma safe_loop_logged n : forall s,
  logged s -> logged_run (safe_loop p fuel n s).
Proof.
  induction n as [|n IH]; intros s Hs; [exact I|].
  cbn [safe_loop].
  apply after_body_logged; [apply safe_iter_logged; exact Hs | exact IH].
Qed.

Lemma fast_loop_logged n : forall s,
  logged s -> logged_run (fast_loop p fuel n s).
Proof.
  induction n as [|n IH]; intros s Hs; [exact I|].
  cbn [fast_loop]. pose proof (fast_iter_logged s Hs) as Hf.
  destruct (fast_iter p fuel s) as [s'|f]; cbn [logged_fast] in Hf.
  - apply IH. exact Hf.
  - apply after_body_logged; [exact Hf | apply safe_loop_logged].
Qed.

End LogGrows.

(** ** Safe mode: the output is determined by the input

    With [endOnInput] set and no dictionary, a run that copies no match
    with offset 0 depends on memory only through the input and the bytes
    between [lowPrefix - dictSize] and [dst]: what it reads of the output
    it has written before. *)

Section Determined.

Variable fdl : bool.
Variable p : params.
Variable fuel : nat.
Variable strict : bool.

Hypothesis Hin : endIn p = true.
Hypothesis Hsrc : 0 <= srcSize p.
Hypothesis Hout : 0 <= outputSize p < 2 ^ 64.
Hypothesis Hcheck : checkOffset p = true.
Hypothesis Hdict : dict p = noDict.
Hypothesis Hdsz : 0 <= dictSize p.

(** The two memories hold the same input and the same bytes from
    [low_limit] up to [x]. *)
Definition dsim (x : Z) : heap -> heap -> Prop :=
  sim strict (src p) (iend p) (low_limit p) x.

(** The same cursors and logs, and memories that agree on the input and
    below the output cursor. *)
Definition det_state (a b : state) : Prop :=
  ip a = ip b /\ op a = op b /\ mlog a = mlog b
  /\ dsim (op a) (hp a) (hp b).

Definition flow_same (f1 f2 : flow) : Prop :=
  match f1, f2 with
  | Continue a, Continue b | Break a, Break b
  | OutputError a, OutputError b => det_state a b
  | Starved, Starved => True
  | _, _ => False
  end.

(** A match with offset 0. *)
Definition zero_offset (e : match_event) : Prop := m_offset e < 1.

(** The first pass logged a match with offset 0, or the two passes ended
    alike. *)
Definition flow_det (f1 f2 : flow) : Prop :=
  logged_flow zero_offset f1 \/ flow_same f1 f2.


Ltac rdx :=
  first [ apply readable_a; lia | apply readable_b; lia ].

Ltac grow :=
  first
    [ eassumption
    | eapply sim_grow_memcpy; [grow | rdx | lia]
    | eapply sim_grow_copy_bytes_until; [grow | lia | lia | lia]
    | eapply sim_grow_wildCopy8_in; [grow | lia | lia | lia]
    | eapply sim_grow_wildCopy8_back; [grow | lia | lia | lia]
    | eapply sim_grow_wildCopy32_in; [grow | lia | lia | lia]
    | eapply sim_grow_wildCopy32_back; [grow | lia | lia | lia]
    | eapply sim_grow_memcpy_using_offset; [grow | lia | lia | lia] ].

Ltac dsim_tac :=
  unfold dsim, low_limit in *; eapply sim_weaken; [grow | lia].

Ltac dleaf :=
  solve [ cbn [flow_same]; unfold det_state;
          cbn [ip op hp mlog]; conj; try reflexivity; dsim_tac ].

Lemma safe_match_copy_det s h2 length offset :
  dsim (op s) (hp s) h2 -> dst p <= op s <= oend p ->
  (partial p = false -> op s <= oend p - 12) ->
  4 <= length -> 0 <= offset -> low_limit p <= op s - offset ->
  flow_det (safe_match_copy p s length offset (op s - offset))
           (safe_match_copy p (set_hp s h2) length offset (op s - offset)).
Proof.
  intros Hs Hop Hop12 Hlen Hoff Hlo.
  destruct (Z.ltb_spec offset 1) as [Hz|Hnz].
  { left. apply safe_match_copy_logs. exact Hz. }
  right. unfold safe_match_copy. st_simpl.
  assert (Hsz : size_t (oend p - op s) = oend p - op s).
  { apply size_t_small. pose proof (oend_eq p). lia. }
  rewrite Hsz. consts.
  destruct (partial p && (op s + length >? oend p - 12)) eqn:Hclamp.
  - ifs; b2p; dleaf.
  - destruct (sim_grow_copy_match_head strict (src p) (iend p) (low_limit p)
                (op s) (hp s) h2 (op s) offset Hs Hnz Hlo (Z.le_refl _))
      as [Hh Hm].
    pose proof (copy_match_head_snd (hp s) (op s) (op s - offset) offset Hoff)
      as (Hm1 & Hm2). specialize (Hm2 ltac:(lia)).
    destruct (copy_match_head (hp s) (op s) (op s - offset) offset) as [h1' m1].
    destruct (copy_match_head h2 (op s) (op s - offset) offset) as [h2' m2].
    cbn [fst snd] in *. subst m2. cbn [ip op hp mlog].
    ifs; b2p; dleaf.
Qed.

Lemma offset_in_range' match_ :
  offset_out_of_range p match_ = false -> low_limit p <= match_.
Proof.
  unfold offset_out_of_range, low_limit. rewrite Hcheck. cbn [andb].
  intros H. b2p. lia.
Qed.

Lemma copy_match_det s h2 length offset :
  dsim (op s) (hp s) h2 -> src p <= ip s < iend p ->
  dst p <= op s <= oend p -> (partial p = false -> op s <= oend p - 12) ->
  0 <= length -> 0 <= offset ->
  flow_det (copy_match p fuel s length offset (op s - offset))
           (copy_match p fuel (set_hp s h2) length offset (op s - offset)).
Proof.
  intros Hs Hip Hop Hop12 Hlen Hoff.
  unfold copy_match, copy_match_length. rewrite Hin. st_simpl.
  destruct (offset_out_of_range p (op s - offset)) eqn:Hrange;
    [right; dleaf|].
  apply offset_in_range' in Hrange.
  destruct (length =? ML_MASK) eqn:Hml.
  - rewrite <- (sim_read_variable_length strict (src p) (iend p) (low_limit p) (op s)
                  fuel (hp s) h2 (ip s) (iend p - LASTLITERALS + 1) false Hs)
      by (intros _; consts; rdx).
    pose proof (read_variable_length_spec fuel (hp s) (ip s)
                  (iend p - LASTLITERALS + 1) true false) as Hr.
    destruct (read_variable_length fuel (hp s) (ip s)
                (iend p - LASTLITERALS + 1) true false) as [[[n ip'] e]|];
      [|right; exact I].
    destruct Hr as (Hn & Hle & Hinit & Hne). consts.
    destruct (negb (is_ok e)); [right; dleaf|].
    destruct (safeDecode p && ptr_overflow (op s) (length + n));
      [right; dleaf|].
    apply (safe_match_copy_det (mkState ip' (op s) (hp s) (mlog s)) h2);
      cbn [ip op hp mlog]; try assumption; lia.
  - apply safe_match_copy_det; try assumption. consts. lia.
Qed.

Lemma get_offset_det s h2 token :
  dsim (op s) (hp s) h2 -> src p <= ip s -> ip s + 2 < iend p ->
  dst p <= op s <= oend p -> (partial p = false -> op s <= oend p - 12) ->
  0 <= token ->
  flow_det (get_offset p fuel s token) (get_offset p fuel (set_hp s h2) token).
Proof.
  intros Hs Hip Hip2 Hop Hop12 Htok. unfold get_offset. st_simpl.
  rewrite <- (sim_readLE16 strict (src p) (iend p) (low_limit p) (op s) (hp s) h2
                (ip s) Hs) by rdx.
  apply (copy_match_det (mkState (ip s + 2) (op s) (hp s) (mlog s)) h2);
    cbn [ip op hp mlog]; try assumption; try lia.
  - apply match_seed_range. exact Htok.
  - apply LZ4_readLE16_nonneg.
Qed.

Lemma safe_literal_copy_det s h2 token length cpy :
  dsim (op s) (hp s) h2 -> src p <= ip s <= iend p ->
  dst p <= op s <= oend p -> 0 <= length -> cpy = op s + length ->
  0 <= token ->
  flow_det (safe_literal_copy p fuel s token length cpy)
           (safe_literal_copy p fuel (set_hp s h2) token length cpy).
Proof.
  intros Hs Hip Hop Hlen Hcpy Htok. subst cpy.
  unfold safe_literal_copy, near_end, LZ4_memmove. rewrite Hin.
  cbn [andb negb orb]. rewrite orb_false_r. st_simpl.
  assert (Hsz : size_t (oend p - op s) = oend p - op s).
  { apply size_t_small. pose proof (oend_eq p). lia. }
  rewrite Hsz. consts.
  destruct ((op s + length >? oend p - 12) || (ip s + length >? iend p - (2 + 1 + 5)))
    eqn:Hnear.
  - destruct (partial p) eqn:Hp; cbn [andb negb orb].
    + destruct (op s + length >? oend p) eqn:Hclamp; cbn [ip op hp mlog].
      * rewrite Z.eqb_refl. cbn [orb]. ifs; b2p; right; dleaf.
      * ifs; b2p; try (right; dleaf);
          apply (get_offset_det
                   (mkState (ip s + length) (op s + length)
                            (memcpy (hp s) (op s) (ip s) length) (mlog s)));
          cbn [ip op hp mlog]; try lia; try congruence; dsim_tac.
    + cbn [ip op hp mlog]. ifs; b2p; right; dleaf.
  - b2p.
    apply (get_offset_det
             (mkState (ip s + length) (op s + length)
                      (LZ4_wildCopy8 (hp s) (op s) (ip s) (op s + length))
                      (mlog s)));
      cbn [ip op hp mlog]; try lia; dsim_tac.
Qed.

Lemma shortcut_det s h2 token length :
  dsim (op s) (hp s) h2 -> src p <= ip s -> ip s < shortiend p ->
  dst p <= op s <= shortoend p -> 0 <= length <= 14 -> 0 <= token ->
  flow_det (shortcut p fuel s token length)
           (shortcut p fuel (set_hp s h2) token length).
Proof.
  intros Hs Hip Hsi Hop Hlen Htok.
  unfold shortiend, shortoend in *. rewrite Hin in *.
  unfold shortcut. rewrite Hin, Hdict. cbn [ip op hp mlog is_withPrefix64k orb].
  st_simpl.
  pose proof (match_seed_range token Htok) as Hml. consts.
  assert (Hs1 : dsim (op s + length) (memcpy (hp s) (op s) (ip s) 16)
                     (memcpy h2 (op s) (ip s) 16)) by dsim_tac.
  set (h1 := memcpy (hp s) (op s) (ip s) 16) in *.
  set (h1' := memcpy h2 (op s) (ip s) 16) in *.
  rewrite <- (sim_readLE16 strict (src p) (iend p) (low_limit p) (op s + length)
                h1 h1' (ip s + length) Hs1) by rdx.
  pose proof (LZ4_readLE16_nonneg h1 (ip s + length)) as Hoff.
  set (offset := LZ4_readLE16 h1 (ip s + length)) in *.
  destruct (negb (Z.land token 15 =? 15) && (offset >=? 8)
            && (op s + length - offset >=? lowPrefix p)) eqn:Hc.
  - apply andb_true_iff in Hc. destruct Hc as [Hc Hc3].
    apply andb_true_iff in Hc. destruct Hc as [Hc1 Hc2]. b2p.
    rewrite !Z.add_0_r. right. dleaf.
  - clear Hc.
    apply (copy_match_det (mkState (ip s + length + 2) (op s + length) h1
                                   (mlog s)) h1');
      cbn [ip op hp mlog]; try assumption; lia.
Qed.

Lemma safe_iter_det s h2 :
  dsim (op s) (hp s) h2 -> src p <= ip s < iend p -> dst p <= op s <= oend p ->
  flow_det (safe_iter p fuel s) (safe_iter p fuel (set_hp s h2)).
Proof.
  intros Hs Hip Hop. unfold safe_iter. st_simpl.
  rewrite <- (sim_cell strict (src p) (iend p) (low_limit p) (op s) (hp s) h2 (ip s) Hs)
    by rdx.
  pose proof (u8_range (cell (hp s) (ip s))) as Htok.
  pose proof (literal_seed_range _ Htok) as Hll.
  set (token := u8 (cell (hp s) (ip s))) in *.
  set (length := Z.shiftr token ML_BITS) in *.
  unfold shortcut_cond. cbn [ip op hp mlog].
  destruct ((if endIn p then negb (length =? RUN_MASK) else length <=? 8)
            && ((if endIn p then ip s + 1 <? shortiend p else true)
                && (op s <=? shortoend p))) eqn:Hsc.
  - rewrite Hin in Hsc. consts. b2p.
    apply (shortcut_det (mkState (ip s + 1) (op s) (hp s) (mlog s)) h2);
      cbn [ip op hp mlog]; try assumption; lia.
  - clear Hsc. destruct (length =? RUN_MASK) eqn:Hrm.
    + unfold decode_literal_length. rewrite Hin. cbn [ip op hp mlog].
      rewrite <- (sim_read_variable_length strict (src p) (iend p) (low_limit p) (op s)
                    fuel (hp s) h2 (ip s + 1) (iend p - RUN_MASK) true Hs)
        by (intros [H|H]; [discriminate|]; consts; rdx).
      pose proof (read_variable_length_spec fuel (hp s) (ip s + 1)
                    (iend p - RUN_MASK) true true) as Hr.
      destruct (read_variable_length fuel (hp s) (ip s + 1)
                  (iend p - RUN_MASK) true true) as [[[n ip'] e]|];
        [|right; exact I].
      destruct Hr as (Hn & Hle & Hinit & Hne). consts. st_simpl.
      destruct (is_initial_error e) eqn:He; [right; dleaf|].
      assert (Hne' : e <> initial_error) by (intros ->; discriminate).
      destruct (Hne Hne') as (Hlt & Hic & Hlc).
      specialize (Hic eq_refl). destruct (Hlc eq_refl) as [Hmax _].
      ifs; try (right; dleaf).
      apply (safe_literal_copy_det (mkState ip' (op s) (hp s) (mlog s)) h2);
        cbn [ip op hp mlog]; try assumption; lia.
    + apply (safe_literal_copy_det (mkState (ip s + 1) (op s) (hp s) (mlog s)) h2);
        cbn [ip op hp mlog]; try assumption; lia.
Qed.




(** The first run logged a match with offset 0, or the two runs returned
    the same value in states with the same cursors and logs and the same
    bytes below the output cursor. *)
Definition run_det (o1 o2 : outcome) : Prop :=
  match o1 with
  | Returned r1 s1 =>
      logged zero_offset s1
      \/ match o2 with
         | Returned r2 s2 => r1 = r2 /\ det_state s1 s2
         | OutOfFuel => False
         end
  | OutOfFuel => True
  end.

Lemma logged_run_det o1 o2 : logged_run zero_offset o1 -> run_det o1 o2.
Proof.
  destruct o1 as [r1 s1|]; cbn [logged_run run_det]; [|trivial].
  intros H. left. exact H.
Qed.

Lemma det_state_set_hp a b : det_state a b -> b = set_hp a (hp b).
Proof.
  intros (Hi & Ho & Hm & _). destruct a, b. cbn in *. subst. reflexivity.
Qed.

Lemma after_body_det k1 k2 f1 f2 :
  flow_det f1 f2 ->
  (forall a, logged zero_offset a -> logged_run zero_offset (k1 a)) ->
  (forall a b, f1 = Continue a -> det_state a b -> run_det (k1 a) (k2 b)) ->
  run_det (after_body p k1 f1) (after_body p k2 f2).
Proof.
  intros [Hz|Hf] Hkz Hk.
  - apply logged_run_det. apply after_body_logged; assumption.
  - destruct f1 as [a|a|a|]; destruct f2 as [b|b|b|]; cbn [flow_same] in Hf;
      try contradiction; cbn [after_body].
    + apply Hk; [reflexivity | exact Hf].
    + unfold end_of_decoding. rewrite Hin. cbn [run_det]. right.
      split; [|exact Hf]. destruct Hf as (_ & Ho & _). rewrite Ho. reflexivity.
    + unfold output_error. cbn [run_det]. right.
      split; [|exact Hf]. destruct Hf as (Hi & _). rewrite Hi. reflexivity.
    + exact I.
Qed.

Lemma safe_loop_det n : forall s1 s2,
  head_inv p s1 -> det_state s1 s2 ->
  run_det (safe_loop p fuel n s1) (safe_loop p fuel n s2).
Proof.
  induction n as [|n IH]; intros s1 s2 Hh Hss; [exact I|].
  cbn [safe_loop]. rewrite (det_state_set_hp s1 s2 Hss).
  pose proof (safe_iter_post p fuel Hin Hout s1 Hh) as Hpost.
  destruct Hh as (_ & Hip & Hop). destruct Hss as (_ & _ & _ & Hs).
  apply after_body_det.
  - apply safe_iter_det; assumption.
  - intros a Ha. apply safe_loop_logged. exact Ha.
  - intros a b Ha Hab. rewrite Ha in Hpost. cbn [flow_post] in Hpost.
    apply IH; [apply Hpost | exact Hab].
Qed.



End Determined.

(** ** The fast loop is an optimisation

    With [LZ4_FAST_DEC_LOOP] the decoder copies with [LZ4_wildCopy32] and
    [LZ4_memcpy_using_offset] where the main loop copies with
    [LZ4_wildCopy8]: what the two write beyond the end of a copy differs,
    what they leave below the output cursor does not. *)

(** A byte outside the range of the stores was not changed. *)
Lemma extends_outside lo lo' hi' h h' a :
  extends lo h h' -> wsafe lo' hi' h' -> ~ (lo' <= a < hi') ->
  cell h' a = cell h a.
Proof.
  intros (new & Hl & _ & Hc) Hw Ha. apply Hc. intros Hin.
  unfold wsafe in Hw. rewrite Hl in Hw. rewrite Forall_forall in Hw.
  apply Ha. apply Hw. apply in_or_app. left. exact Hin.
Qed.

Section FastVsSafe.

Variable p : params.
Variable fuel : nat.

Hypothesis Hin : endIn p = true.
Hypothesis Hsrc : 0 <= srcSize p.
Hypothesis Hout : 0 <= outputSize p < 2 ^ 64.
Hypothesis Hcheck : checkOffset p = true.
Hypothesis Hdict : dict p = noDict.
Hypothesis Hdsz : 0 <= dictSize p.

(** The input and the output buffer do not overlap. *)
Hypothesis Hdisj : iend p <= dst p \/ oend p <= src p.

(** Two memories that held the same input and the same bytes from
    [low_limit] to [x] hold the same bytes up to [x'] after stores at or
    above [x] in the output buffer that left the same bytes from [x] to
    [x']. *)
Lemma dsim_assemble x x' h1 h2 h1' h2' :
  dsim p false x h1 h2 ->
  extends x h1 h1' -> extends x h2 h2' -> W p h1' -> W p h2' ->
  (forall a, x <= a < x' -> low_limit p <= a -> cell h1' a = cell h2' a) ->
  dsim p false x' h1' h2'.
Proof.
  intros [_ Hc] He1 He2 Hw1 Hw2 Hnew. split; [discriminate|].
  intros a [Ha|Ha].
  - rewrite (extends_outside x (dst p) (oend p) h1 h1' a He1 Hw1) by lia.
    rewrite (extends_outside x (dst p) (oend p) h2 h2' a He2 Hw2) by lia.
    apply Hc. left. exact Ha.
  - destruct (Z.ltb_spec a x) as [Hlt|Hge].
    + rewrite (extends_below x h1 h1' a He1 Hlt).
      rewrite (extends_below x h2 h2' a He2 Hlt).
      apply Hc. right. lia.
    + apply Hnew; lia.
Qed.

(** What every copy of a match leaves: the cursors and the log, stores at
    or above the output cursor and inside the output buffer, and from the
    start of the match on the periodic extension of the [offset] bytes
    before the output cursor. *)
Definition match_result (s : state) (length offset : Z) (a : state) : Prop :=
  ip a = ip s /\ op a = op s + length
  /\ mlog a = mkMatch (op s) offset length :: mlog s
  /\ extends (op s) (hp s) (hp a) /\ W p (hp a)
  /\ (1 <= offset ->
      agree (periodic (hp s) (op s - offset) offset) (op s - offset)
            (hp a) (op s + length)).

Lemma results_agree s h2 length offset a b :
  dsim p false (op s) (hp s) h2 ->
  1 <= offset -> low_limit p <= op s - offset ->
  match_result s length offset a ->
  match_result (set_hp s h2) length offset b ->
  det_state p false a b.
Proof.
  intros Hs Hoff Hlo (Hia & Hoa & Hla & Hea & Hwa & Hga)
    (Hib & Hob & Hlb & Heb & Hwb & Hgb).
  cbn [set_hp ip op hp mlog] in *.
  unfold det_state. rewrite Hia, Hib, Hoa, Hob, Hla, Hlb.
  conj; try reflexivity.
  apply (dsim_assemble (op s) (op s + length) (hp s) h2); try assumption.
  intros x Hx Hl. rewrite (Hga Hoff x), (Hgb Hoff x) by lia.
  unfold periodic. destruct Hs as [_ Hc]. apply Hc. right.
  pose proof (Z.mod_pos_bound (x - (op s - offset)) offset ltac:(lia)). lia.
Qed.

Lemma fast_copy_match_result s length offset :
  W p (hp s) -> dst p <= op s -> 4 <= length ->
  op s + length < oend p - 64 ->
  exists a, fast_copy_match s length offset (op s - offset) = Fast a
            /\ match_result s length offset a.
Proof.
  intros HW Hop Hlen Hcpy.
  pose proof (fast_copy_match_agree s length offset) as Hag.
  pose proof (extends_refl (op s) (hp s)) as He.
  unfold fast_copy_match in *. st_simpl.
  eexists. split; [reflexivity|].
  unfold match_result. cbn [ip op hp mlog]. conj; try reflexivity.
  - destruct (offset <? 16); ext_tac.
  - unfold W in *. destruct (offset <? 16); wsafe_tac.
  - exact Hag.
Qed.

Lemma safe_match_copy_result s length offset :
  W p (hp s) -> dst p <= op s -> 4 <= length ->
  op s + length <= oend p - 12 ->
  exists a, safe_match_copy p s length offset (op s - offset) = Continue a
            /\ match_result s length offset a.
Proof.
  intros HW Hop Hlen Hcpy.
  pose proof (safe_match_copy_agree p s length offset) as Hag.
  pose proof (safe_match_copy_frame p s length offset (op s - offset) (op s)
                (hp s) (extends_refl _ _) (Z.le_refl _) ltac:(lia)) as Hfr.
  pose proof (W_copy_match_head p (hp s) (op s) (op s - offset) offset HW Hop
                ltac:(lia)) as Hhead.
  assert (Hc : (op s + length >? oend p - MATCH_SAFEGUARD_DISTANCE) = false).
  { consts. rewrite Z.gtb_ltb. apply Z.ltb_ge. lia. }
  unfold safe_match_copy in *. st_simpl. rewrite Hc in *.
  rewrite andb_false_r in *.
  destruct (copy_match_head (hp s) (op s) (op s - offset) offset) as [h1 m1].
  cbn [fst] in Hhead. cbn [frame_post ip op hp mlog] in *.
  eexists. split; [reflexivity|].
  unfold match_result. cbn [ip op hp mlog]. conj; try reflexivity.
  - apply Hfr.
  - unfold W, LZ4_copy8 in *. rewrite Z.gtb_ltb.
    destruct (16 <? length) eqn:H16; b2p; wsafe_tac.
  - exact Hag.
Qed.

(** The 18 bytes of lines 332-341 and 405-415. *)
Lemma inline_result s length offset :
  W p (hp s) -> dst p <= op s -> op s + 18 <= oend p ->
  0 <= length <= 18 -> 8 <= offset ->
  match_result s length offset
    (mkState (ip s) (op s + length)
       (memcpy (memcpy (memcpy (hp s) (op s) (op s - offset) 8)
                       (op s + 8) (op s - offset + 8) 8)
               (op s + 16) (op s - offset + 16) 2)
       (mkMatch (op s) offset length :: mlog s)).
Proof.
  intros HW Hop Hop18 Hlen Hoff.
  pose proof (extends_refl (op s) (hp s)) as He.
  unfold match_result. cbn [ip op hp mlog]. conj; try reflexivity.
  - ext_tac.
  - unfold W in *. wsafe_tac.
  - intros _. eapply agree_weaken; [apply inline_match_agree|lia].
    + exact Hoff.
    + intros a _. apply periodic_per. lia.
    + eapply agree_weaken; [apply agree_periodic; lia | lia].
Qed.

(** A pass of the fast loop against a pass of the main loop: the first
    logged a match with offset 0, or the two ended alike. *)
Definition fvs_pass (ff : fast_flow) (f : flow) : Prop :=
  logged_fast zero_offset ff
  \/ match ff with
     | Fast a =>
         match f with
         | Continue b => det_state p false a b
         | _ => False
         end
     | Safe f1 => flow_same p false f1 f
     end.

Lemma flow_det_fvs f1 f2 : flow_det p false f1 f2 -> fvs_pass (Safe f1) f2.
Proof. intros [H|H]; [left | right]; exact H. Qed.

(** A match copy of the fast loop against [safe_match_copy]. *)
Lemma results_fvs s h2 length offset a :
  dsim p false (op s) (hp s) h2 -> W p h2 -> dst p <= op s ->
  4 <= length -> op s + length <= oend p - 12 ->
  low_limit p <= op s - offset ->
  match_result s length offset a ->
  fvs_pass (Fast a)
           (safe_match_copy p (set_hp s h2) length offset (op s - offset)).
Proof.
  intros Hs HW2 Hop Hlen Hcpy Hlo Ha.
  destruct (Z.ltb_spec offset 1) as [Hz|Hnz].
  { left. destruct Ha as (_ & _ & Hl & _). cbn [logged_fast]. unfold logged.
    rewrite Hl. apply Exists_cons_hd. exact Hz. }
  right.
  destruct (safe_match_copy_result (set_hp s h2) length offset)
    as (b & Hb & Hrb); st_simpl; try assumption.
  rewrite Hb.
  apply (results_agree s h2 length offset); assumption.
Qed.

Ltac rdx :=
  first [ apply readable_a; lia | apply readable_b; lia ].

Ltac same_leaf :=
  solve [ right; cbn [flow_same]; unfold det_state; cbn [ip op hp mlog];
          conj; try reflexivity; assumption ].

(** The match of the fast loop against the match of the main loop. *)
Lemma match_fvs s h2 token :
  dsim p false (op s) (hp s) h2 -> W p (hp s) -> W p h2 ->
  src p <= ip s -> ip s + 2 < iend p ->
  dst p <= op s <= oend p - 32 -> 0 <= token ->
  fvs_pass (fast_match p fuel s token)
           (get_offset p fuel (set_hp s h2) token).
Proof.
  intros Hs HW1 HW2 Hip Hip2 Hop Htok.
  unfold fast_match, get_offset, copy_match, copy_match_length.
  rewrite Hin. st_simpl.
  pose proof (match_seed_range token Htok) as Hml.
  rewrite <- (sim_readLE16 false (src p) (iend p) (low_limit p) (op s)
                (hp s) h2 (ip s) Hs) by rdx.
  pose proof (LZ4_readLE16_nonneg (hp s) (ip s)) as Hoff.
  set (offset := LZ4_readLE16 (hp s) (ip s)) in *.
  destruct (offset_out_of_range p (op s - offset)) eqn:Hrange; [same_leaf|].
  apply (offset_in_range' p Hcheck) in Hrange.
  destruct (Z.land token ML_MASK =? ML_MASK) eqn:Hm.
  - rewrite <- (sim_read_variable_length false (src p) (iend p) (low_limit p)
                  (op s) fuel (hp s) h2 (ip s + 2)
                  (iend p - LASTLITERALS + 1) false Hs)
      by (intros _; consts; rdx).
    pose proof (read_variable_length_spec fuel (hp s) (ip s + 2)
                  (iend p - LASTLITERALS + 1) true false) as Hr.
    destruct (read_variable_length fuel (hp s) (ip s + 2)
                (iend p - LASTLITERALS + 1) true false) as [[[n ip'] e]|];
      [|right; exact I].
    destruct Hr as (Hn & Hle & Hinit & Hne). consts.
    destruct (negb (is_ok e)); [same_leaf|].
    destruct (safeDecode p && ptr_overflow (op s) (Z.land token 15 + n));
      [same_leaf|].
    destruct (op s + (Z.land token 15 + n + 4) >=? oend p - 64) eqn:Hfar.
    + apply flow_det_fvs.
      apply (safe_match_copy_det p false Hout
               (mkState ip' (op s) (hp s) (mlog s)) h2);
        cbn [ip op hp mlog]; try assumption; lia.
    + b2p.
      destruct (fast_copy_match_result (mkState ip' (op s) (hp s) (mlog s))
                  (Z.land token 15 + n + 4) offset)
        as (a & Ha & Hra); cbn [ip op hp mlog]; try assumption; try lia.
      cbn [ip op hp mlog] in Ha. rewrite Ha.
      apply (results_fvs (mkState ip' (op s) (hp s) (mlog s)) h2);
        cbn [ip op hp mlog]; try assumption; lia.
  - consts.
    destruct (op s + (Z.land token 15 + 4) >=? oend p - 64) eqn:Hfar.
    + apply flow_det_fvs.
      apply (safe_match_copy_det p false Hout
               (mkState (ip s + 2) (op s) (hp s) (mlog s)) h2);
        cbn [ip op hp mlog]; try assumption; lia.
    + b2p. destruct ((op s - offset >=? lowPrefix p) && (offset >=? 8)) eqn:Hc.
      * b2p.
        apply (results_fvs (mkState (ip s + 2) (op s) (hp s) (mlog s)) h2);
          cbn [ip op hp mlog]; try assumption; try lia.
        apply (inline_result (mkState (ip s + 2) (op s) (hp s) (mlog s)));
          cbn [ip op hp mlog]; try assumption; lia.
      * clear Hc.
        destruct (fast_copy_match_result
                    (mkState (ip s + 2) (op s) (hp s) (mlog s))
                    (Z.land token 15 + 4) offset)
          as (a & Ha & Hra); cbn [ip op hp mlog]; try assumption; try lia.
        cbn [ip op hp mlog] in Ha. rewrite Ha.
        apply (results_fvs (mkState (ip s + 2) (op s) (hp s) (mlog s)) h2);
          cbn [ip op hp mlog]; try assumption; lia.
Qed.

(** The literals and the match of the fast loop, for a literal length
    below 15, against the shortcut of the main loop. *)
Lemma shortcut_fvs s h2 token length :
  dsim p false (op s) (hp s) h2 -> W p (hp s) -> W p h2 ->
  src p <= ip s -> ip s <= iend p - 17 ->
  dst p <= op s <= oend p - 64 -> 0 <= length <= 14 -> 0 <= token ->
  fvs_pass (fast_match p fuel
              (mkState (ip s + length) (op s + length)
                       (memcpy (hp s) (op s) (ip s) 16) (mlog s)) token)
           (shortcut p fuel (set_hp s h2) token length).
Proof.
  intros Hs HW1 HW2 Hip Hip17 Hop Hlen Htok.
  unfold shortcut. rewrite Hin, Hdict.
  cbn [ip op hp mlog is_withPrefix64k orb]. st_simpl.
  pose proof (match_seed_range token Htok) as Hml. consts.
  assert (Hs1 : dsim p false (op s + length) (memcpy (hp s) (op s) (ip s) 16)
                     (memcpy h2 (op s) (ip s) 16)).
  { unfold dsim in *. eapply sim_weaken;
      [eapply sim_grow_memcpy; [eassumption | rdx | lia] | lia]. }
  assert (HW1' : W p (memcpy (hp s) (op s) (ip s) 16))
    by (unfold W in *; wsafe_tac).
  assert (HW2' : W p (memcpy h2 (op s) (ip s) 16))
    by (unfold W in *; wsafe_tac).
  set (h1 := memcpy (hp s) (op s) (ip s) 16) in *.
  set (h1' := memcpy h2 (op s) (ip s) 16) in *.
  pose proof (match_fvs (mkState (ip s + length) (op s + length) h1 (mlog s))
                h1' token Hs1 HW1' HW2') as HM.
  cbn [ip op hp mlog] in HM.
  specialize (HM ltac:(lia) ltac:(lia) ltac:(lia) Htok).
  unfold get_offset in HM. st_simpl. consts.
  destruct (negb (Z.land token 15 =? 15)
            && (LZ4_readLE16 h1' (ip s + length) >=? 8)
            && (op s + length - LZ4_readLE16 h1' (ip s + length) >=? lowPrefix p))
    eqn:Hc; [|exact HM].
  clear HM. revert Hc.
  rewrite <- (sim_readLE16 false (src p) (iend p) (low_limit p) (op s + length)
                h1 h1' (ip s + length) Hs1) by rdx.
  intros Hc.
  apply andb_true_iff in Hc. destruct Hc as [Hc Hc3].
  apply andb_true_iff in Hc. destruct Hc as [Hc1 Hc2].
  apply negb_true_iff in Hc1. b2p.
  unfold fast_match. rewrite Hin. st_simpl. consts.
  set (offset := LZ4_readLE16 h1 (ip s + length)) in *.
  assert (Hrange : offset_out_of_range p (op s + length - offset) = false).
  { unfold offset_out_of_range. rewrite Hcheck. cbn [andb].
    apply Z.ltb_ge. lia. }
  rewrite Hrange. apply Z.eqb_neq in Hc1. rewrite Hc1. apply Z.eqb_neq in Hc1.
  rewrite !Z.add_0_r.
  assert (Hlo : low_limit p <= op s + length - offset)
    by (unfold low_limit; lia).
  pose proof (inline_result
                (mkState (ip s + length + 2) (op s + length) h1' (mlog s))
                (Z.land token 15 + 4) offset) as Hb.
  cbn [ip op hp mlog] in Hb.
  specialize (Hb HW2' ltac:(lia) ltac:(lia) ltac:(lia) ltac:(lia)).
  destruct (op s + length + (Z.land token 15 + 4) >=? oend p - 64) eqn:Hfar.
  - destruct (safe_match_copy_result
                (mkState (ip s + length + 2) (op s + length) h1 (mlog s))
                (Z.land token 15 + 4) offset)
      as (a & Ha & Hra); cbn [ip op hp mlog]; try assumption; try lia.
    cbn [ip op hp mlog] in Ha. rewrite Ha. right. cbn [flow_same].
    apply (results_agree
             (mkState (ip s + length + 2) (op s + length) h1 (mlog s))
             h1' (Z.land token 15 + 4) offset);
      cbn [ip op hp mlog set_hp]; try assumption; lia.
  - assert (Hc' : (op s + length - offset >=? lowPrefix p) && (offset >=? 8)
                  = true).
    { apply andb_true_iff. split; rewrite Z.geb_leb; apply Z.leb_le; lia. }
    rewrite Hc'. right.
    apply (results_agree
             (mkState (ip s + length + 2) (op s + length) h1 (mlog s))
             h1' (Z.land token 15 + 4) offset);
      cbn [ip op hp mlog set_hp]; try assumption; try lia.
    apply (inline_result
             (mkState (ip s + length + 2) (op s + length) h1 (mlog s)));
      cbn [ip op hp mlog]; try assumption; lia.
Qed.

(** A pass of the fast loop against a pass of the main loop, from the
    same cursors. *)
Lemma iter_fvs s h2 :
  dsim p false (op s) (hp s) h2 -> W p (hp s) -> W p h2 ->
  src p <= ip s < iend p -> dst p <= op s <= oend p - 64 ->
  fvs_pass (fast_iter p fuel s) (safe_iter p fuel (set_hp s h2)).
Proof.
  intros Hs HW1 HW2 Hip Hop. unfold fast_iter, safe_iter. rewrite Hin.
  st_simpl.
  rewrite <- (sim_cell false (src p) (iend p) (low_limit p) (op s) (hp s) h2
                (ip s) Hs) by rdx.
  pose proof (u8_range (cell (hp s) (ip s))) as Htok.
  pose proof (literal_seed_range _ Htok) as Hll.
  set (token := u8 (cell (hp s) (ip s))) in *.
  set (length := Z.shiftr token ML_BITS) in *.
  unfold shortcut_cond, shortiend, shortoend. rewrite Hin.
  cbn [ip op hp mlog].
  destruct (length =? RUN_MASK) eqn:Hrm; cbn [negb andb].
  - unfold decode_literal_length. rewrite Hin. cbn [ip op hp mlog].
    rewrite <- (sim_read_variable_length false (src p) (iend p) (low_limit p)
                  (op s) fuel (hp s) h2 (ip s + 1) (iend p - RUN_MASK) true Hs)
      by (intros [H|H]; [discriminate|]; consts; rdx).
    pose proof (read_variable_length_spec fuel (hp s) (ip s + 1)
                  (iend p - RUN_MASK) true true) as Hr.
    destruct (read_variable_length fuel (hp s) (ip s + 1)
                (iend p - RUN_MASK) true true) as [[[n ip'] e]|];
      [|right; exact I].
    destruct Hr as (Hn & Hle & Hinit & Hne). consts. st_simpl.
    destruct (is_initial_error e) eqn:He; [same_leaf|].
    assert (Hne' : e <> initial_error) by (intros ->; discriminate).
    destruct (Hne Hne') as (Hlt & Hic & Hlc).
    specialize (Hic eq_refl). destruct (Hlc eq_refl) as [Hmax _].
    destruct (safeDecode p && ptr_overflow (op s) (length + n));
      [same_leaf|].
    destruct (safeDecode p && ptr_overflow ip' (length + n)); [same_leaf|].
    destruct ((op s + (length + n) >? oend p - 32)
              || (ip' + (length + n) >? iend p - 32)) eqn:Hfar.
    + apply flow_det_fvs.
      apply (safe_literal_copy_det p fuel false Hin Hout Hcheck
               (mkState ip' (op s) (hp s) (mlog s)) h2);
        cbn [ip op hp mlog]; try assumption; lia.
    + b2p. unfold safe_literal_copy, near_end. rewrite Hin.
      cbn [andb negb orb ip op hp mlog]. rewrite orb_false_r. consts.
      assert (Hnear : (op s + (length + n) >? oend p - 12)
                      || (ip' + (length + n) >? iend p - (2 + 1 + 5)) = false).
      { apply orb_false_iff. split; rewrite Z.gtb_ltb; apply Z.ltb_ge; lia. }
      rewrite Hnear.
      apply (match_fvs
               (mkState (ip' + (length + n)) (op s + (length + n))
                        (LZ4_wildCopy32 (hp s) (op s) ip' (op s + (length + n)))
                        (mlog s))
               (LZ4_wildCopy8 h2 (op s) ip' (op s + (length + n))));
        cbn [ip op hp mlog]; try lia.
      * pose proof (extends_refl (op s) (hp s)) as He1.
        pose proof (extends_refl (op s) h2) as He2.
        apply (dsim_assemble (op s) (op s + (length + n)) (hp s) h2);
          try assumption.
        -- ext_tac.
        -- ext_tac.
        -- unfold W in *. wsafe_tac.
        -- unfold W in *. wsafe_tac.
        -- intros a Ha _.
           rewrite LZ4_wildCopy32_copies by lia.
           rewrite LZ4_wildCopy8_copies by lia.
           destruct Hs as [_ Hc]. apply Hc. left. lia.
      * unfold W in *. wsafe_tac.
      * unfold W in *. wsafe_tac.
  - consts.
    assert (Hsc : (ip s + 1 <? iend p - 14 - 2) && (op s <=? oend p - 14 - 18)
                  = negb (ip s + 1 >? iend p - (16 + 1))).
    { rewrite Z.gtb_ltb.
      destruct (Z.ltb_spec (ip s + 1) (iend p - 14 - 2));
        destruct (Z.ltb_spec (iend p - (16 + 1)) (ip s + 1));
        destruct (Z.leb_spec (op s) (oend p - 14 - 18)); cbn; try reflexivity;
        lia. }
    rewrite Hsc. clear Hsc.
    destruct (ip s + 1 >? iend p - (16 + 1)) eqn:Hfar; cbn [negb].
    + apply flow_det_fvs.
      apply (safe_literal_copy_det p fuel false Hin Hout Hcheck
               (mkState (ip s + 1) (op s) (hp s) (mlog s)) h2);
        cbn [ip op hp mlog]; try assumption; lia.
    + b2p.
      apply (shortcut_fvs (mkState (ip s + 1) (op s) (hp s) (mlog s)) h2);
        cbn [ip op hp mlog]; try assumption; lia.
Qed.

Lemma fvs_set_hp a b : det_state p false a b -> b = set_hp a (hp b).
Proof.
  intros (Hi & Ho & Hm & _). destruct a, b. cbn in *. subst. reflexivity.
Qed.

(** The fast loop against the main loop, from the same cursors. *)
Lemma loop_fvs n : forall s1 s2,
  head_inv p s1 -> head_inv p s2 -> op s1 <= oend p - 64 ->
  det_state p false s1 s2 ->
  run_det p false (fast_loop p fuel n s1) (safe_loop p fuel n s2).
Proof.
  induction n as [|n IH]; intros s1 s2 Hh1 Hh2 Hop64 Hss; [exact I|].
  cbn [fast_loop safe_loop].
  pose proof (fast_iter_post p fuel Hin Hout s1 Hh1 Hop64) as Hp1.
  pose proof (safe_iter_post p fuel Hin Hout s2 Hh2) as Hp2.
  rewrite (fvs_set_hp s1 s2 Hss) in Hp2 |- *.
  destruct Hh1 as (HW1 & Hip & Hop). destruct Hh2 as (HW2 & _).
  destruct Hss as (_ & _ & _ & Hs).
  pose proof (iter_fvs s1 (hp s2) Hs HW1 HW2 Hip ltac:(lia)) as Hf.
  destruct Hf as [Hz|Hf].
  - apply logged_run_det.
    destruct (fast_iter p fuel s1) as [a|f1]; cbn [logged_fast] in Hz.
    + apply fast_loop_logged. exact Hz.
    + apply after_body_logged; [exact Hz | apply safe_loop_logged].
  - destruct (fast_iter p fuel s1) as [a|f1]; cbn [fast_post] in Hp1.
    + destruct (safe_iter p fuel (set_hp s1 (hp s2))) as [b|b|b|];
        try contradiction. cbn [after_body flow_post] in *.
      destruct Hp1 as (Ha & Ha64 & _). destruct Hp2 as (Hb & _).
      apply IH; assumption.
    + apply (after_body_det p false Hin); [right; exact Hf | |].
      * intros a Ha. apply safe_loop_logged. exact Ha.
      * intros a b Ha Hab. rewrite Ha in Hp1. cbn [flow_post] in Hp1.
        apply (safe_loop_det p fuel false Hin Hout Hcheck Hdict Hdsz);
          [apply Hp1 | exact Hab].
Qed.

(** The decoder with the fast loop against the decoder without it. *)
Lemma generic_fvs m :
  run_det p false (LZ4_decompress_generic true p fuel m)
          (LZ4_decompress_generic false p fuel m).
Proof.
  unfold LZ4_decompress_generic. rewrite Hin. cbn [andb negb ip op].
  assert (Hss : det_state p false (mkState (src p) (dst p) (mkHeap m []) [])
                          (mkState (src p) (dst p) (mkHeap m []) [])).
  { unfold det_state, dsim, sim. cbn [ip op hp mlog wlog cell]. auto. }
  destruct (outputSize p =? 0) eqn:Ho.
  - cbn [run_det]. right. split; [reflexivity | exact Hss].
  - b2p. destruct (srcSize p =? 0) eqn:Hz.
    + cbn [run_det]. right. split; [reflexivity | exact Hss].
    + b2p.
      assert (Hh : head_inv p (mkState (src p) (dst p) (mkHeap m []) [])).
      { unfold head_inv, W, wsafe. cbn [ip op hp wlog].
        pose proof (iend_eq p). pose proof (oend_eq p). conj; try lia.
        constructor. }
      destruct (oend p - dst p <? FASTLOOP_SAFE_DISTANCE) eqn:Hd.
      * apply (safe_loop_det p fuel false Hin Hout Hcheck Hdict Hdsz);
          assumption.
      * b2p. consts. apply loop_fvs; try assumption. cbn [op]. lia.
Qed.

End FastVsSafe.

(** A block of one literal, a match of 16 bytes with offset 1 and 20 last
    literals. *)
Definition two_sequence_block : list Z :=
  [28; 97; 1; 0; 240; 5;
   1; 2; 3; 4; 5; 6; 7; 8; 9; 10; 11; 12; 13; 14; 15; 16; 17; 18; 19; 20].

(** ** The two models of the copy helpers

    Away from the top of the address space the helpers of [M64] are the
    helpers above: no pointer they compute wraps. *)

Lemma uptrval_small (x : Z) : 0 <= x < 2 ^ 64 -> uptrval x = x.
Proof. intros Hx. unfold uptrval. apply Z.mod_small. exact Hx. Qed.

Lemma uptrval_range (x : Z) : 0 <= uptrval x < 2 ^ 64.
Proof. unfold uptrval. apply Z.mod_pos_bound. lia. Qed.

(** What the overflow test ensures when it passes. *)
Lemma ptr_overflow_passed (a l : Z) :
  0 <= a < 2 ^ 64 -> 0 <= l < 2 ^ 64 -> ptr_overflow a l = false ->
  a + l < 2 ^ 64.
Proof.
  intros Ha Hl Hp. unfold ptr_overflow in Hp.
  rewrite (uptrval_small a Ha) in Hp. apply Z.ltb_ge in Hp.
  destruct (Z.lt_ge_cases (a + l) (2 ^ 64)) as [Hlt|Hge]; [exact Hlt|].
  exfalso. unfold uptrval in Hp.
  replace (a + l) with (a + l - 2 ^ 64 + 1 * 2 ^ 64) in Hp by lia.
  rewrite Z.mod_add in Hp by lia. rewrite Z.mod_small in Hp by lia. lia.
Qed.

Lemma tables_range (offset : Z) :
  0 <= offset < 8 ->
  0 <= inc32table offset <= 4
  /\ 0 <= inc32table offset - dec64table offset <= 4.
Proof.
  intros Ho.
  assert (Hc : offset = 0 \/ offset = 1 \/ offset = 2 \/ offset = 3 \/ offset = 4
               \/ offset = 5 \/ offset = 6 \/ offset = 7) by lia.
  destruct Hc as [->|[->|[->|[->|[->|[->|[->| ->]]]]]]]; cbv; intuition discriminate.
Qed.

Lemma M64_store_bytes_eq (bs : list byte) : forall h d,
  0 <= d -> d + Z.of_nat (length bs) <= 2 ^ 64 ->
  M64.store_bytes h d bs = store_bytes h d bs.
Proof.
  induction bs as [|b bs IH]; intros h d Hd Hn; [reflexivity|].
  cbn [M64.store_bytes store_bytes].
  destruct bs as [|b' bs']; [reflexivity|].
  cbn [length] in Hn. rewrite uptrval_small by lia.
  apply IH; cbn [length]; lia.
Qed.

Lemma M64_load_bytes_eq (h : heap) (s : Z) (n : nat) :
  0 <= s -> s + Z.of_nat n <= 2 ^ 64 ->
  M64.load_bytes h s n = load_bytes h s n.
Proof.
  intros Hs Hn. unfold M64.load_bytes, load_bytes.
  apply map_ext_in. intros i Hi. apply in_seq in Hi.
  rewrite uptrval_small by lia. reflexivity.
Qed.

Lemma M64_load_bytes_length (h : heap) (s : Z) (n : nat) :
  length (M64.load_bytes h s n) = n.
Proof. unfold M64.load_bytes. rewrite length_map, length_seq. reflexivity. Qed.

Lemma M64_memcpy_eq (h : heap) (d s n : Z) :
  0 <= d -> d + Z.max 0 n <= 2 ^ 64 -> 0 <= s -> s + Z.max 0 n <= 2 ^ 64 ->
  M64.memcpy h d s n = memcpy h d s n.
Proof.
  intros Hd Hdn Hs Hsn. unfold M64.memcpy, memcpy.
  rewrite M64_load_bytes_eq by lia.
  apply M64_store_bytes_eq; [exact Hd|]. rewrite load_bytes_length. lia.
Qed.

Lemma M64_copy8_eq (h : heap) (d s : Z) :
  0 <= d -> d + 8 <= 2 ^ 64 -> 0 <= s -> s + 8 <= 2 ^ 64 ->
  M64.LZ4_copy8 h d s = LZ4_copy8 h d s.
Proof. intros. unfold M64.LZ4_copy8, LZ4_copy8. apply M64_memcpy_eq; lia. Qed.

Lemma M64_readLE16_eq (h : heap) (a : Z) :
  0 <= a -> a + 1 < 2 ^ 64 -> M64.LZ4_readLE16 h a = LZ4_readLE16 h a.
Proof.
  intros Ha Hb. unfold M64.LZ4_readLE16, LZ4_readLE16.
  rewrite uptrval_small by lia. reflexivity.
Qed.

Lemma M64_byte_loop_eq (k : nat) : forall h d s e,
  0 <= d -> e < 2 ^ 64 -> 0 <= s -> s + (e - d) < 2 ^ 64 ->
  M64.byte_loop k h d s e = byte_loop k h d s e.
Proof.
  induction k as [|k IH]; intros h d s e Hd He Hs Hse; [reflexivity|].
  cbn [M64.byte_loop byte_loop].
  destruct (d <? e) eqn:Hlt; [|reflexivity]. apply Z.ltb_lt in Hlt.
  rewrite !uptrval_small by lia. apply IH; lia.
Qed.

Lemma M64_copy_bytes_until_eq (h : heap) (d s e : Z) :
  0 <= d -> e < 2 ^ 64 -> 0 <= s -> s + (e - d) < 2 ^ 64 ->
  M64.copy_bytes_until h d s e = copy_bytes_until h d s e.
Proof.
  intros. unfold M64.copy_bytes_until, copy_bytes_until.
  apply M64_byte_loop_eq; assumption.
Qed.

Lemma M64_wildCopy8_loop_eq (k : nat) : forall h d s e,
  0 <= d -> d + 8 < 2 ^ 64 -> e + 8 < 2 ^ 64 ->
  0 <= s -> s + 8 + Z.max 0 (e - d) < 2 ^ 64 ->
  M64.wildCopy8_loop k h d s e = wildCopy8_loop k h d s e.
Proof.
  induction k as [|k IH]; intros h d s e Hd Hd8 He Hs Hse;
    cbn [M64.wildCopy8_loop wildCopy8_loop]; cbv zeta;
    rewrite M64_memcpy_eq by lia; [reflexivity|].
  rewrite (uptrval_small (d + 8)) by lia.
  destruct (d + 8 <? e) eqn:Hlt; [|reflexivity]. apply Z.ltb_lt in Hlt.
  rewrite uptrval_small by lia. apply IH; lia.
Qed.

(** Past the end no count matters: one copy is made. *)
Lemma M64_wildCopy8_loop_once (k : nat) (h : heap) (d s e : Z) :
  0 <= d -> d + 8 < 2 ^ 64 -> e <= d + 8 ->
  M64.wildCopy8_loop k h d s e = M64.memcpy h d s 8.
Proof.
  intros Hd Hd8 He. destruct k; cbn [M64.wildCopy8_loop]; cbv zeta; [reflexivity|].
  rewrite uptrval_small by lia.
  replace (d + 8 <? e) with false by (symmetry; apply Z.ltb_ge; lia).
  reflexivity.
Qed.

Lemma wildCopy8_loop_once (k : nat) (h : heap) (d s e : Z) :
  e <= d + 8 -> wildCopy8_loop k h d s e = memcpy h d s 8.
Proof.
  intros He. destruct k; cbn [wildCopy8_loop]; cbv zeta; [reflexivity|].
  replace (d + 8 <? e) with false by (symmetry; apply Z.ltb_ge; lia).
  reflexivity.
Qed.

Lemma M64_wildCopy8_eq (h : heap) (d s e : Z) :
  0 <= d -> d + 8 < 2 ^ 64 -> 0 <= e -> e + 8 < 2 ^ 64 ->
  0 <= s -> s + 8 + Z.max 0 (e - d) < 2 ^ 64 ->
  M64.LZ4_wildCopy8 h d s e = LZ4_wildCopy8 h d s e.
Proof.
  intros Hd Hd8 He0 He Hs Hse. unfold M64.LZ4_wildCopy8, LZ4_wildCopy8.
  destruct (Z.le_gt_cases d e) as [Hle|Hgt].
  - rewrite uptrval_small by lia. apply M64_wildCopy8_loop_eq; lia.
  - rewrite M64_wildCopy8_loop_once, wildCopy8_loop_once by lia.
    apply M64_memcpy_eq; lia.
Qed.

Lemma M64_wildCopy32_loop_eq (k : nat) : forall h d s e,
  0 <= d -> d + 32 < 2 ^ 64 -> e + 32 < 2 ^ 64 ->
  0 <= s -> s + 32 + Z.max 0 (e - d) < 2 ^ 64 ->
  M64.wildCopy32_loop k h d s e = wildCopy32_loop k h d s e.
Proof.
  induction k as [|k IH]; intros h d s e Hd Hd8 He Hs Hse;
    cbn [M64.wildCopy32_loop wildCopy32_loop]; cbv zeta;
    rewrite (uptrval_small (d + 16)), (uptrval_small (s + 16)) by lia;
    rewrite !M64_memcpy_eq by lia; [reflexivity|].
  rewrite (uptrval_small (d + 32)) by lia.
  destruct (d + 32 <? e) eqn:Hlt; [|reflexivity]. apply Z.ltb_lt in Hlt.
  rewrite uptrval_small by lia. apply IH; lia.
Qed.

Lemma M64_wildCopy32_loop_once (k : nat) (h : heap) (d s e : Z) :
  0 <= d -> d + 32 < 2 ^ 64 -> e <= d + 32 ->
  M64.wildCopy32_loop k h d s e
  = M64.memcpy (M64.memcpy h d s 16) (uptrval (d + 16)) (uptrval (s + 16)) 16.
Proof.
  intros Hd Hd8 He. destruct k; cbn [M64.wildCopy32_loop]; cbv zeta; [reflexivity|].
  rewrite (uptrval_small (d + 32)) by lia.
  replace (d + 32 <? e) with false by (symmetry; apply Z.ltb_ge; lia).
  reflexivity.
Qed.

Lemma wildCopy32_loop_once (k : nat) (h : heap) (d s e : Z) :
  e <= d + 32 ->
  wildCopy32_loop k h d s e = memcpy (memcpy h d s 16) (d + 16) (s + 16) 16.
Proof.
  intros He. destruct k; cbn [wildCopy32_loop]; cbv zeta; [reflexivity|].
  replace (d + 32 <? e) with false by (symmetry; apply Z.ltb_ge; lia).
  reflexivity.
Qed.

Lemma M64_wildCopy32_eq (h : heap) (d s e : Z) :
  0 <= d -> d + 32 < 2 ^ 64 -> 0 <= e -> e + 32 < 2 ^ 64 ->
  0 <= s -> s + 32 + Z.max 0 (e - d) < 2 ^ 64 ->
  M64.LZ4_wildCopy32 h d s e = LZ4_wildCopy32 h d s e.
Proof.
  intros Hd Hd8 He0 He Hs Hse. unfold M64.LZ4_wildCopy32, LZ4_wildCopy32.
  destruct (Z.le_gt_cases d e) as [Hle|Hgt].
  - rewrite uptrval_small by lia. apply M64_wildCopy32_loop_eq; lia.
  - rewrite M64_wildCopy32_loop_once, wildCopy32_loop_once by lia.
    rewrite (uptrval_small (d + 16)), (uptrval_small (s + 16)) by lia.
    rewrite !M64_memcpy_eq by lia. reflexivity.
Qed.

Lemma M64_pattern_loop_eq (k : nat) : forall h d v e,
  length v = 8%nat -> 0 <= d -> d + 8 < 2 ^ 64 -> e + 8 < 2 ^ 64 ->
  M64.pattern_loop k h d v e = pattern_loop k h d v e.
Proof.
  induction k as [|k IH]; intros h d v e Hv Hd Hd8 He;
    cbn [M64.pattern_loop pattern_loop]; cbv zeta;
    rewrite M64_store_bytes_eq by (rewrite ?Hv; lia); [reflexivity|].
  rewrite (uptrval_small (d + 8)) by lia.
  destruct (d + 8 <? e) eqn:Hlt; [|reflexivity]. apply Z.ltb_lt in Hlt.
  apply IH; try assumption; lia.
Qed.

Lemma M64_pattern_loop_once (k : nat) (h : heap) (d : Z) (v : list byte) (e : Z) :
  0 <= d -> d + 8 < 2 ^ 64 -> e <= d + 8 ->
  M64.pattern_loop k h d v e = M64.store_bytes h d v.
Proof.
  intros Hd Hd8 He. destruct k; cbn [M64.pattern_loop]; cbv zeta; [reflexivity|].
  rewrite uptrval_small by lia.
  replace (d + 8 <? e) with false by (symmetry; apply Z.ltb_ge; lia).
  reflexivity.
Qed.

Lemma pattern_loop_once (k : nat) (h : heap) (d : Z) (v : list byte) (e : Z) :
  e <= d + 8 -> pattern_loop k h d v e = store_bytes h d v.
Proof.
  intros He. destruct k; cbn [pattern_loop]; cbv zeta; [reflexivity|].
  replace (d + 8 <? e) with false by (symmetry; apply Z.ltb_ge; lia).
  reflexivity.
Qed.

Lemma M64_pattern_eq (h : heap) (d : Z) (v : list byte) (e : Z) :
  length v = 8%nat -> 0 <= d -> d + 8 < 2 ^ 64 -> 0 <= e -> e + 8 < 2 ^ 64 ->
  M64.pattern_loop (Z.to_nat (uptrval (e - d))) h d v e
  = pattern_loop (Z.to_nat (e - d)) h d v e.
Proof.
  intros Hv Hd Hd8 He0 He.
  destruct (Z.le_gt_cases d e) as [Hle|Hgt].
  - rewrite uptrval_small by lia. apply M64_pattern_loop_eq; try assumption; lia.
  - rewrite M64_pattern_loop_once, pattern_loop_once by lia.
    apply M64_store_bytes_eq; [exact Hd | rewrite Hv; lia].
Qed.

Lemma M64_memcpy_using_offset_base_eq (h : heap) (d s e offset : Z) :
  0 <= offset -> 0 <= d -> d + 16 < 2 ^ 64 -> 0 <= e -> e + 8 < 2 ^ 64 ->
  0 <= s -> s + 16 + Z.max 0 (e - d) < 2 ^ 64 ->
  M64.LZ4_memcpy_using_offset_base h d s e offset
  = LZ4_memcpy_using_offset_base h d s e offset.
Proof.
  intros Ho Hd Hd8 He0 He Hs Hse.
  unfold M64.LZ4_memcpy_using_offset_base, LZ4_memcpy_using_offset_base.
  destruct (offset <? 8) eqn:Hlt.
  - apply Z.ltb_lt in Hlt. destruct (tables_range offset ltac:(lia)) as [Hi Hid].
    cbv zeta.
    rewrite (uptrval_small (d + 1)), (uptrval_small (d + 2)),
      (uptrval_small (d + 3)), (uptrval_small (d + 4)), (uptrval_small (d + 8)),
      (uptrval_small (s + 1)), (uptrval_small (s + 2)), (uptrval_small (s + 3)),
      (uptrval_small (s + inc32table offset)) by lia.
    rewrite (uptrval_small (s + inc32table offset - dec64table offset)) by lia.
    rewrite M64_memcpy_eq by lia. apply M64_wildCopy8_eq; lia.
  - cbv zeta. rewrite (uptrval_small (d + 8)), (uptrval_small (s + 8)) by lia.
    rewrite M64_memcpy_eq by lia. apply M64_wildCopy8_eq; lia.
Qed.

Lemma M64_memcpy_using_offset_eq (h : heap) (d s e offset : Z) :
  0 <= offset -> 0 <= d -> d + 16 < 2 ^ 64 -> 0 <= e -> e + 8 < 2 ^ 64 ->
  0 <= s -> s + 16 + Z.max 0 (e - d) < 2 ^ 64 ->
  M64.LZ4_memcpy_using_offset h d s e offset
  = LZ4_memcpy_using_offset h d s e offset.
Proof.
  intros Ho Hd Hd8 He0 He Hs Hse.
  unfold M64.LZ4_memcpy_using_offset, LZ4_memcpy_using_offset. cbv zeta.
  destruct (offset =? 1); [apply M64_pattern_eq; try lia; apply repeat_length|].
  destruct (offset =? 2).
  { rewrite M64_load_bytes_eq by lia. apply M64_pattern_eq; try lia.
    rewrite !length_app, !load_bytes_length. reflexivity. }
  destruct (offset =? 4).
  { rewrite M64_load_bytes_eq by lia. apply M64_pattern_eq; try lia.
    rewrite !length_app, !load_bytes_length. reflexivity. }
  apply M64_memcpy_using_offset_base_eq; lia.
Qed.

Lemma M64_copy_match_head_eq (h : heap) (o m offset : Z) :
  0 <= offset -> 0 <= o -> o + 8 < 2 ^ 64 -> 0 <= m -> m + 16 < 2 ^ 64 ->
  M64.copy_match_head h o m offset = copy_match_head h o m offset.
Proof.
  intros Ho Hd Hd8 Hm Hm8. unfold M64.copy_match_head, copy_match_head.
  destruct (offset <? 8) eqn:Hlt.
  - apply Z.ltb_lt in Hlt. destruct (tables_range offset ltac:(lia)) as [Hi Hid].
    cbv zeta.
    rewrite (uptrval_small (o + 1)), (uptrval_small (o + 2)),
      (uptrval_small (o + 3)), (uptrval_small (o + 4)),
      (uptrval_small (m + 1)), (uptrval_small (m + 2)), (uptrval_small (m + 3)),
      (uptrval_small (m + inc32table offset)) by lia.
    rewrite (uptrval_small (m + inc32table offset - dec64table offset)) by lia.
    rewrite M64_memcpy_eq by lia. reflexivity.
  - rewrite uptrval_small by lia. rewrite M64_copy8_eq by lia. reflexivity.
Qed.

(** With the loop check, the reader stops below its limit. *)
Lemma M64_read_variable_length_loop_eq (fuel : nat) : forall h ip lencheck len,
  0 <= ip -> ip + 1 < 2 ^ 64 -> lencheck < 2 ^ 64 ->
  M64.read_variable_length_loop fuel h ip lencheck true len
  = read_variable_length_loop fuel h ip lencheck true len.
Proof.
  induction fuel as [|fuel IH]; intros h ip lencheck len Hip Hip1 Hl;
    [reflexivity|].
  cbn [M64.read_variable_length_loop read_variable_length_loop andb]. cbv zeta.
  rewrite uptrval_small by lia.
  destruct (ip + 1 >=? lencheck) eqn:Hc; [reflexivity|].
  rewrite Z.geb_leb in Hc. apply Z.leb_gt in Hc.
  destruct (u8 (cell h ip) =? 255); [|reflexivity].
  apply IH; lia.
Qed.

Lemma M64_read_variable_length_eq (fuel : nat) (h : heap) (ip lencheck : Z)
  (ic : bool) :
  0 <= ip -> ip + 1 < 2 ^ 64 -> lencheck < 2 ^ 64 ->
  M64.read_variable_length fuel h ip lencheck true ic
  = read_variable_length fuel h ip lencheck true ic.
Proof.
  intros. unfold M64.read_variable_length, read_variable_length.
  destruct (ic && (ip >=? lencheck)); [reflexivity|].
  apply M64_read_variable_length_loop_eq; assumption.
Qed.

(** ** The two models of the decoder in safe mode *)

(** The buffers are clear of the ends of the address space: the input by
    64 bytes, the output by 64 KiB below, which no offset reaches past, and
    above by 64 bytes more than the longest length the input can spell, a
    32-bit sum to which each input byte adds at most 255.  The sum
    [match + dictSize] of the offset test, made when [dictSize] is below
    64 KiB, stays in the address space as well. *)
Definition clear_of_top (p : params) : Prop :=
  64 <= src p /\ src p + srcSize p + 64 <= 2 ^ 64
  /\ 2 ^ 16 <= dst p
  /\ dst p + outputSize p + Z.min (2 ^ 32) (255 * srcSize p) + 64 <= 2 ^ 64
  /\ dst p + outputSize p + Z.min (2 ^ 16) (dictSize p) < 2 ^ 64.

(** One pointer or one helper of [M64] becomes that of the exact model,
    when the facts at hand keep it in range. *)
Ltac bridge1 :=
  match goal with
  | |- context [M64.memcpy ?h ?d ?s ?n] =>
      rewrite (M64_memcpy_eq h d s n) by (consts; lia)
  | |- context [M64.LZ4_copy8 ?h ?d ?s] =>
      rewrite (M64_copy8_eq h d s) by (consts; lia)
  | |- context [M64.LZ4_readLE16 ?h ?a] =>
      rewrite (M64_readLE16_eq h a) by (consts; lia)
  | |- context [M64.copy_bytes_until ?h ?d ?s ?e] =>
      rewrite (M64_copy_bytes_until_eq h d s e) by (consts; lia)
  | |- context [M64.LZ4_wildCopy8 ?h ?d ?s ?e] =>
      rewrite (M64_wildCopy8_eq h d s e) by (consts; lia)
  | |- context [M64.LZ4_wildCopy32 ?h ?d ?s ?e] =>
      rewrite (M64_wildCopy32_eq h d s e) by (consts; lia)
  | |- context [M64.LZ4_memcpy_using_offset ?h ?d ?s ?e ?o] =>
      rewrite (M64_memcpy_using_offset_eq h d s e o) by (consts; lia)
  | |- context [M64.copy_match_head ?h ?o ?m ?f] =>
      rewrite (M64_copy_match_head_eq h o m f) by (consts; lia)
  | |- context [uptrval ?x] =>
      rewrite (uptrval_small x) by (consts; lia)
  end.
Ltac bridge := change M64.LZ4_memmove with M64.memcpy; repeat bridge1.

(** The outermost test is decided, once both models make the same one. *)
Ltac split_if :=
  match goal with
  | |- context [if ?c then _ else _] => destruct c eqn:?
  end; b2p.

Lemma copy_match_head_src (h : heap) (o m offset : Z) :
  0 <= offset ->
  m <= snd (copy_match_head h o m offset) <= m + 8.
Proof.
  intros Ho. unfold copy_match_head.
  destruct (offset <? 8) eqn:Hlt; cbn [snd]; [|lia].
  apply Z.ltb_lt in Hlt. pose proof (tables_range offset ltac:(lia)). lia.
Qed.

Section Bridge.

Variable fdl : bool.
Variable p : params.
Variable fuel : nat.

Hypothesis Hin : endIn p = true.
Hypothesis Hsrc : 0 <= srcSize p.
Hypothesis Hout : 0 <= outputSize p < 2 ^ 63.
Hypothesis Hdict : 0 <= dictSize p.
Hypothesis Hclear : clear_of_top p.

(** The longest length the input can spell. *)
Definition longest : Z := Z.min (2 ^ 32) (255 * srcSize p).

Lemma clear_bounds :
  64 <= src p /\ iend p + 64 <= 2 ^ 64 /\ 2 ^ 16 <= dst p
  /\ oend p + longest + 64 <= 2 ^ 64 /\ 0 <= longest
  /\ src p <= iend p /\ dst p <= oend p
  /\ oend p + Z.min (2 ^ 16) (dictSize p) < 2 ^ 64.
Proof.
  destruct Hclear as (H1 & H2 & H3 & H4 & H5). unfold iend, oend, longest. lia.
Qed.

Lemma outputSize_range : 0 <= outputSize p < 2 ^ 64.
Proof. pose proof clear_bounds. unfold oend, longest in *. lia. Qed.

Lemma M64_iend_eq : M64.iend p = iend p.
Proof.
  pose proof clear_bounds. unfold M64.iend. fold (iend p).
  apply uptrval_small. lia.
Qed.

Lemma M64_oend_eq : M64.oend p = oend p.
Proof.
  pose proof clear_bounds. unfold M64.oend. fold (oend p).
  apply uptrval_small. lia.
Qed.

Lemma M64_shortiend_eq : M64.shortiend p = shortiend p.
Proof.
  pose proof clear_bounds. unfold M64.shortiend, shortiend.
  rewrite M64_iend_eq, Hin. rewrite !uptrval_small; rewrite ?uptrval_small; lia.
Qed.

Lemma M64_shortoend_eq : M64.shortoend p = shortoend p.
Proof.
  pose proof clear_bounds. unfold M64.shortoend, shortoend.
  rewrite M64_oend_eq, Hin. rewrite !uptrval_small; rewrite ?uptrval_small; lia.
Qed.

Lemma M64_safe_match_copy_eq (s : state) (length offset match_ : Z) :
  dst p <= op s <= oend p -> 4 <= length <= longest + 19 ->
  0 <= offset -> 0 <= match_ <= op s ->
  M64.safe_match_copy p s length offset match_
  = safe_match_copy p s length offset match_.
Proof.
  intros Hop Hlen Hoff Hm. pose proof clear_bounds as Hb.
  unfold M64.safe_match_copy, safe_match_copy. rewrite M64_oend_eq.
  st_simpl. cbv zeta.
  rewrite (size_t_small (oend p - op s)) by lia.
  pose proof (copy_match_head_src (hp s) (op s) match_ offset Hoff) as Hsrc1.
  bridge. split_if; bridge; try reflexivity.
  all: destruct (copy_match_head (hp s) (op s) match_ offset) as [h1 m1];
    cbn [snd] in Hsrc1; st_simpl;
    repeat (bridge; try reflexivity; split_if).
  all: bridge; try reflexivity.
Qed.

(** A length read in safe mode is a 32-bit sum to which each byte of the
    input adds at most 255. *)
Lemma read_length_bound (h : heap) (ip0 lencheck : Z) (ic : bool) :
  src p <= ip0 -> lencheck <= iend p ->
  match read_variable_length fuel h ip0 lencheck true ic with
  | None => True
  | Some (n, ip', e) =>
      0 <= n /\ (e <> initial_error -> ip' <= iend p -> n <= longest)
  end.
Proof.
  intros Hip Hl.
  pose proof (read_variable_length_spec fuel h ip0 lencheck true ic) as Hs.
  pose proof (read_variable_length_bound fuel h ip0 lencheck true ic) as Hb.
  destruct (read_variable_length fuel h ip0 lencheck true ic)
    as [[[n ip'] e]|]; [|exact I].
  destruct Hs as (Hn & Hle & _ & _). destruct Hb as [H32 H255].
  split; [exact Hn|]. intros _ Hend. unfold longest, iend in *. nia.
Qed.

Lemma M64_offset_out_of_range_eq (match_ : Z) :
  0 <= match_ <= oend p ->
  M64.offset_out_of_range p match_ = offset_out_of_range p match_.
Proof.
  intros Hm. pose proof clear_bounds as Hb.
  unfold M64.offset_out_of_range, offset_out_of_range.
  destruct (checkOffset p) eqn:Hc; [|reflexivity].
  unfold checkOffset in Hc. consts. b2p.
  rewrite uptrval_small by lia. reflexivity.
Qed.

Lemma M64_copy_match_length_eq (s : state) (length offset match_ : Z) :
  src p <= ip s < iend p -> dst p <= op s <= oend p -> 0 <= length <= 15 ->
  0 <= offset -> 0 <= match_ <= op s ->
  M64.copy_match_length p fuel s length offset match_
  = copy_match_length p fuel s length offset match_.
Proof.
  intros Hip Hop Hlen Hoff Hm. pose proof clear_bounds as Hb.
  unfold M64.copy_match_length, copy_match_length.
  rewrite M64_iend_eq, Hin. consts.
  destruct (length =? 15) eqn:Hml.
  - bridge. rewrite M64_read_variable_length_eq by lia.
    pose proof (read_variable_length_spec fuel (hp s) (ip s)
                  (iend p - 5 + 1) true false) as Hr.
    pose proof (read_length_bound (hp s) (ip s) (iend p - 5 + 1) false
                  ltac:(lia) ltac:(lia)) as Hn.
    destruct (read_variable_length fuel (hp s) (ip s) (iend p - 5 + 1) true false)
      as [[[n ip'] e]|]; [|reflexivity].
    destruct Hr as (_ & _ & _ & Hne). destruct Hn as [Hn0 Hn].
    destruct e; cbn [is_ok negb]; try reflexivity.
    destruct Hne as (_ & _ & Hlc); [discriminate|].
    destruct (Hlc eq_refl) as [_ Hok]. specialize (Hok eq_refl).
    specialize (Hn ltac:(discriminate) ltac:(lia)).
    destruct (safeDecode p && ptr_overflow (op (set_ip s ip')) (length + n));
      [reflexivity|].
    apply M64_safe_match_copy_eq; st_simpl; lia.
  - b2p. apply M64_safe_match_copy_eq; lia.
Qed.

Lemma M64_copy_match_eq (s : state) (length offset match_ : Z) :
  src p <= ip s < iend p -> dst p <= op s <= oend p -> 0 <= length <= 15 ->
  0 <= offset -> 0 <= match_ <= op s ->
  M64.copy_match p fuel s length offset match_
  = copy_match p fuel s length offset match_.
Proof.
  intros Hip Hop Hlen Hoff Hm. unfold M64.copy_match, copy_match.
  rewrite M64_offset_out_of_range_eq by lia.
  destruct (offset_out_of_range p match_); [reflexivity|].
  apply M64_copy_match_length_eq; assumption.
Qed.

Lemma M64_get_offset_eq (s : state) (token : Z) :
  src p <= ip s -> ip s + 2 < iend p -> dst p <= op s <= oend p ->
  0 <= token ->
  M64.get_offset p fuel s token = get_offset p fuel s token.
Proof.
  intros Hip Hip2 Hop Htok. pose proof clear_bounds as Hb.
  unfold M64.get_offset, get_offset. cbv zeta.
  pose proof (LZ4_readLE16_range (hp s) (ip s)) as Hoff.
  pose proof (match_seed_range token Htok) as Hml.
  st_simpl. bridge. apply M64_copy_match_eq; cbn [ip op hp mlog]; consts; lia.
Qed.

Lemma M64_safe_literal_copy_eq (s : state) (token length : Z) :
  src p <= ip s <= iend p -> dst p <= op s <= oend p ->
  0 <= length <= longest + 15 -> ip s + length < 2 ^ 64 -> 0 <= token ->
  M64.safe_literal_copy p fuel s token length (op s + length)
  = safe_literal_copy p fuel s token length (op s + length).
Proof.
  intros Hip Hop Hlen Hipl Htok. pose proof clear_bounds as Hb.
  unfold M64.safe_literal_copy, safe_literal_copy, M64.near_end, near_end.
  rewrite M64_iend_eq, M64_oend_eq, Hin. cbn [andb negb orb].
  rewrite !orb_false_r.
  rewrite (size_t_small (oend p - op s)) by lia.
  bridge.
  match goal with
  | |- (if ?c then _ else _) = _ => destruct c eqn:Hnear
  end.
  - clear Hnear. destruct (partial p) eqn:Hp; cbn [andb negb orb].
    + destruct (op s + length >? oend p) eqn:Hclamp; b2p; cbn [ip op hp mlog].
      * bridge. split_if; [reflexivity|]. bridge.
        rewrite Z.eqb_refl. reflexivity.
      * bridge. split_if; [reflexivity|]. bridge. cbn [ip op hp mlog].
        split_if; try reflexivity.
        apply M64_get_offset_eq; cbn [ip op hp mlog]; lia.
    + bridge. split_if; try reflexivity. all: bridge; reflexivity.
  - b2p. bridge. apply M64_get_offset_eq; cbn [ip op hp mlog]; consts; lia.
Qed.

Lemma M64_shortcut_eq (s : state) (token length : Z) :
  src p <= ip s -> ip s < shortiend p -> dst p <= op s <= shortoend p ->
  0 <= length <= 14 -> 0 <= token ->
  M64.shortcut p fuel s token length = shortcut p fuel s token length.
Proof.
  intros Hip Hsi Hop Hlen Htok. pose proof clear_bounds as Hb.
  unfold shortiend, shortoend in *. rewrite Hin in *.
  unfold M64.shortcut, shortcut. rewrite Hin. cbv zeta. st_simpl.
  pose proof (match_seed_range token Htok) as Hml. consts.
  bridge.
  set (h1 := memcpy (hp s) (op s) (ip s) 16).
  pose proof (LZ4_readLE16_range h1 (ip s + length)) as Hoff.
  bridge. split_if.
  all: first [ bridge; reflexivity
             | apply M64_copy_match_eq; cbn [ip op hp mlog]; lia ].
Qed.

Lemma M64_safe_iter_eq (s : state) :
  head_inv p s -> M64.safe_iter p fuel s = safe_iter p fuel s.
Proof.
  intros (HW & Hip & Hop). pose proof clear_bounds as Hb.
  unfold M64.safe_iter, safe_iter, M64.shortcut_cond, shortcut_cond.
  rewrite M64_shortiend_eq, M64_shortoend_eq. cbv zeta.
  pose proof (u8_range (cell (hp s) (ip s))) as Htok.
  pose proof (literal_seed_range _ Htok) as Hll.
  set (token := u8 (cell (hp s) (ip s))) in *.
  set (length := Z.shiftr token ML_BITS) in *.
  st_simpl. bridge. rewrite Hin.
  match goal with
  | |- (if ?c then _ else _) = _ => destruct c eqn:Hsc
  end.
  - consts. b2p. apply M64_shortcut_eq; cbn [ip op hp mlog]; lia.
  - clear Hsc. destruct (length =? RUN_MASK) eqn:Hrm.
    + unfold M64.decode_literal_length, decode_literal_length.
      rewrite M64_iend_eq, Hin. cbn [ip op hp mlog]. consts. bridge.
      rewrite M64_read_variable_length_eq by lia.
      pose proof (read_variable_length_spec fuel (hp s) (ip s + 1)
                    (iend p - 15) true true) as Hr.
      pose proof (read_length_bound (hp s) (ip s + 1) (iend p - 15) true
                    ltac:(lia) ltac:(lia)) as Hn.
      destruct (read_variable_length fuel (hp s) (ip s + 1) (iend p - 15) true true)
        as [[[n ip'] e]|]; [|reflexivity].
      destruct Hr as (_ & Hle & Hinit & Hne). destruct Hn as [Hn0 Hn].
      st_simpl. destruct (is_initial_error e) eqn:He; [reflexivity|].
      assert (Hne' : e <> initial_error) by (intros ->; discriminate).
      destruct (Hne Hne') as (Hlt & Hic & Hlc).
      specialize (Hic eq_refl). destruct (Hlc eq_refl) as [Hmax _].
      specialize (Hn Hne' ltac:(lia)).
      destruct (safeDecode p && ptr_overflow (op s) (length + n)); [reflexivity|].
      destruct (safeDecode p && ptr_overflow ip' (length + n)) eqn:Hov;
        [reflexivity|].
      unfold safeDecode in Hov. rewrite Hin in Hov. cbn [andb] in Hov.
      apply ptr_overflow_passed in Hov; [|lia|lia].
      rewrite (uptrval_small (op s + (length + n))) by lia.
      apply (M64_safe_literal_copy_eq (mkState ip' (op s) (hp s) (mlog s)));
        cbn [ip op hp mlog]; lia.
    + b2p. apply (M64_safe_literal_copy_eq (mkState (ip s + 1) (op s) (hp s) (mlog s)));
        cbn [ip op hp mlog]; lia.
Qed.

Lemma M64_fast_copy_match_eq (s : state) (length offset match_ : Z) :
  dst p <= op s -> 4 <= length -> op s + length < oend p - 64 ->
  0 <= offset -> 0 <= match_ <= op s ->
  M64.fast_copy_match s length offset match_
  = fast_copy_match s length offset match_.
Proof.
  intros Hop Hlen Hcpy Hoff Hm. pose proof clear_bounds as Hb.
  unfold M64.fast_copy_match, fast_copy_match. st_simpl. cbv zeta.
  bridge. destruct (offset <? 16); bridge; reflexivity.
Qed.

Lemma M64_fast_match_eq (s : state) (token : Z) :
  src p <= ip s -> ip s + 2 < iend p -> dst p <= op s <= oend p - 32 ->
  0 <= token ->
  M64.fast_match p fuel s token = fast_match p fuel s token.
Proof.
  intros Hip Hip2 Hop Htok. pose proof clear_bounds as Hb.
  unfold M64.fast_match, fast_match.
  rewrite M64_iend_eq, M64_oend_eq, Hin. cbv zeta. st_simpl.
  pose proof (match_seed_range token Htok) as Hml.
  pose proof (LZ4_readLE16_range (hp s) (ip s)) as Hoff.
  bridge.
  set (offset := LZ4_readLE16 (hp s) (ip s)) in *.
  rewrite M64_offset_out_of_range_eq by lia.
  destruct (offset_out_of_range p (op s - offset)); [reflexivity|].
  consts. destruct (Z.land token 15 =? 15) eqn:Hm.
  - rewrite M64_read_variable_length_eq by lia.
    pose proof (read_variable_length_spec fuel (hp s) (ip s + 2)
                  (iend p - 5 + 1) true false) as Hr.
    pose proof (read_length_bound (hp s) (ip s + 2) (iend p - 5 + 1) false
                  ltac:(lia) ltac:(lia)) as Hn.
    destruct (read_variable_length fuel (hp s) (ip s + 2) (iend p - 5 + 1) true false)
      as [[[n ip'] e]|]; [|reflexivity].
    destruct Hr as (_ & _ & _ & Hne). destruct Hn as [Hn0 Hn].
    destruct e; cbn [is_ok negb]; try reflexivity.
    destruct Hne as (_ & _ & Hlc); [discriminate|].
    destruct (Hlc eq_refl) as [_ Hok]. specialize (Hok eq_refl).
    specialize (Hn ltac:(discriminate) ltac:(lia)).
    destruct (safeDecode p && ptr_overflow (op s) (Z.land token 15 + n));
      [reflexivity|].
    bridge. split_if.
    + f_equal. apply M64_safe_match_copy_eq; cbn [ip op hp mlog]; lia.
    + apply M64_fast_copy_match_eq; cbn [ip op hp mlog]; lia.
  - bridge. split_if.
    + f_equal. apply M64_safe_match_copy_eq; cbn [ip op hp mlog]; lia.
    + split_if.
      all: first [ bridge; reflexivity
                 | apply M64_fast_copy_match_eq; cbn [ip op hp mlog]; lia ].
Qed.

Lemma M64_fast_iter_eq (s : state) :
  head_inv p s -> op s <= oend p - 64 ->
  M64.fast_iter p fuel s = fast_iter p fuel s.
Proof.
  intros (HW & Hip & Hop) Hop64. pose proof clear_bounds as Hb.
  unfold M64.fast_iter, fast_iter.
  rewrite M64_iend_eq, M64_oend_eq, Hin. cbv zeta.
  pose proof (u8_range (cell (hp s) (ip s))) as Htok.
  pose proof (literal_seed_range _ Htok) as Hll.
  set (token := u8 (cell (hp s) (ip s))) in *.
  set (length := Z.shiftr token ML_BITS) in *.
  st_simpl. bridge.
  destruct (length =? RUN_MASK) eqn:Hrm.
  - consts. rewrite M64_read_variable_length_eq by lia.
    pose proof (read_variable_length_spec fuel (hp s) (ip s + 1)
                  (iend p - 15) true true) as Hr.
    pose proof (read_length_bound (hp s) (ip s + 1) (iend p - 15) true
                  ltac:(lia) ltac:(lia)) as Hn.
    destruct (read_variable_length fuel (hp s) (ip s + 1) (iend p - 15) true true)
      as [[[n ip'] e]|]; [|reflexivity].
    destruct Hr as (_ & Hle & Hinit & Hne). destruct Hn as [Hn0 Hn].
    destruct (is_initial_error e) eqn:He; [reflexivity|].
    assert (Hne' : e <> initial_error) by (intros ->; discriminate).
    destruct (Hne Hne') as (Hlt & Hic & Hlc).
    specialize (Hic eq_refl). destruct (Hlc eq_refl) as [Hmax _].
    specialize (Hn Hne' ltac:(lia)).
    destruct (safeDecode p && ptr_overflow (op s) (length + n)); [reflexivity|].
    destruct (safeDecode p && ptr_overflow ip' (length + n)) eqn:Hov;
      [reflexivity|].
    unfold safeDecode in Hov. rewrite Hin in Hov. cbn [andb] in Hov.
    apply ptr_overflow_passed in Hov; [|lia|lia].
    bridge.
    match goal with
    | |- (if ?c then _ else _) = _ => destruct c eqn:Hfar
    end.
    + f_equal.
      apply (M64_safe_literal_copy_eq (mkState ip' (op s) (hp s) (mlog s)));
        cbn [ip op hp mlog]; lia.
    + b2p. bridge. apply M64_fast_match_eq; cbn [ip op hp mlog]; lia.
  - b2p. consts. bridge. split_if.
    + f_equal.
      apply (M64_safe_literal_copy_eq (mkState (ip s + 1) (op s) (hp s) (mlog s)));
        cbn [ip op hp mlog]; lia.
    + bridge. apply M64_fast_match_eq; cbn [ip op hp mlog]; lia.
Qed.

Lemma M64_safe_loop_eq (n : nat) : forall s,
  head_inv p s -> M64.safe_loop p fuel n s = safe_loop p fuel n s.
Proof.
  pose proof clear_bounds as Hb.
  induction n as [|n IH]; intros s Hs; [reflexivity|].
  cbn [M64.safe_loop safe_loop]. rewrite (M64_safe_iter_eq s Hs).
  pose proof (safe_iter_post p fuel Hin outputSize_range s Hs) as Hpost.
  destruct (safe_iter p fuel s) as [s'|s'|s'|]; cbn [after_body]; try reflexivity.
  apply IH. exact (proj1 Hpost).
Qed.

Lemma M64_fast_loop_eq (n : nat) : forall s,
  head_inv p s -> op s <= oend p - 64 ->
  M64.fast_loop p fuel n s = fast_loop p fuel n s.
Proof.
  pose proof clear_bounds as Hb.
  induction n as [|n IH]; intros s Hs Hop; [reflexivity|].
  cbn [M64.fast_loop fast_loop]. rewrite (M64_fast_iter_eq s Hs Hop).
  pose proof (fast_iter_post p fuel Hin outputSize_range s Hs Hop) as Hpost.
  destruct (fast_iter p fuel s) as [s'|f]; cbn [fast_post] in Hpost.
  - apply IH; tauto.
  - destruct f as [s'|s'|s'|]; cbn [after_body]; try reflexivity.
    apply M64_safe_loop_eq. exact (proj1 Hpost).
Qed.

(** In safe mode, with the buffers clear of the ends of the address space,
    the decoder of [M64] and the exact one are the same function. *)
Lemma M64_generic_eq (m : Z -> byte) :
  M64.LZ4_decompress_generic fdl p fuel m = LZ4_decompress_generic fdl p fuel m.
Proof.
  pose proof clear_bounds as Hb.
  unfold M64.LZ4_decompress_generic, LZ4_decompress_generic.
  rewrite M64_oend_eq, Hin. cbn [andb negb ip op]. cbv zeta.
  destruct (outputSize p =? 0) eqn:Ho; [reflexivity|].
  destruct (srcSize p =? 0) eqn:Hs; [reflexivity|]. b2p.
  assert (Hh : head_inv p (mkState (src p) (dst p) (mkHeap m []) [])).
  { unfold head_inv, W, wsafe. cbn [ip op hp wlog]. unfold iend, oend in *.
    conj; try lia. constructor. }
  assert (Hd : to_ptrdiff (oend p - dst p) = oend p - dst p).
  { unfold to_ptrdiff, oend. rewrite Z.mod_small; lia. }
  rewrite Hd.
  destruct fdl; [destruct (oend p - dst p <? FASTLOOP_SAFE_DISTANCE) eqn:Hfar|].
  - apply M64_safe_loop_eq. exact Hh.
  - b2p. consts. apply M64_fast_loop_eq; [exact Hh | cbn [op]; lia].
  - apply M64_safe_loop_eq. exact Hh.
Qed.


End Bridge.

(** ** Safe mode: the pass a return comes from

    A value returned from inside the loops is computed from the state in
    which one pass through the main loop or the fast loop ended, by
    [break] or by [goto _output_error]. *)

Section Origin.

Variable fdl : bool.
Variable p : params.
Variable fuel : nat.

Hypothesis Hin : endIn p = true.
Hypothesis Hsrc : 0 <= srcSize p.
Hypothesis Hout : 0 <= outputSize p < 2 ^ 63.
Hypothesis Hdict : 0 <= dictSize p.
Hypothesis Hclear : clear_of_top p.

(** Some pass of the decoder of [M64], started at a loop head, ended in
    the flow [f]. *)
Definition from_pass (f : flow) : Prop :=
  exists s0,
    src p <= ip s0 < iend p
    /\ (M64.safe_iter p fuel s0 = f \/ M64.fast_iter p fuel s0 = Safe f).

Definition origin_post (o : outcome) : Prop :=
  match o with
  | Returned r s =>
      (from_pass (Break s) /\ exit_ok p s /\ r = to_int (op s - dst p))
      \/ (from_pass (OutputError s) /\ exit_err p s
          /\ r = to_int (- (ip s - src p)) - 1)
  | OutOfFuel => True
  end.

Lemma outputSize_range64 : 0 <= outputSize p < 2 ^ 64.
Proof. lia. Qed.

Lemma after_body_origin k f :
  from_pass f -> flow_post p fuel (-1) f ->
  (forall s, head_inv p s -> origin_post (k s)) ->
  origin_post (after_body p k f).
Proof.
  intros Hfrom Hpost Hk.
  destruct f as [s|s|s|]; cbn [after_body flow_post] in *.
  - apply Hk. exact (proj1 Hpost).
  - unfold end_of_decoding. rewrite Hin. cbn [origin_post]. left. auto.
  - unfold output_error. cbn [origin_post]. right. auto.
  - exact I.
Qed.

Lemma flow_post_any ip0 f : flow_post p fuel ip0 f -> flow_post p fuel (-1) f.
Proof.
  destruct f as [s|s|s|]; cbn [flow_post]; try tauto.
  intros [Hh Hlt]. split; [exact Hh|]. destruct Hh as (_ & Hip & _).
  destruct Hclear as (Hs0 & _). lia.
Qed.

Lemma safe_loop_origin n : forall s,
  head_inv p s -> origin_post (safe_loop p fuel n s).
Proof.
  induction n as [|n IH]; intros s Hs; [exact I|].
  cbn [safe_loop]. apply after_body_origin.
  - exists s. split; [exact (proj1 (proj2 Hs))|]. left.
    apply M64_safe_iter_eq; assumption.
  - apply (flow_post_any (ip s)).
    apply (safe_iter_post p fuel Hin outputSize_range64 s Hs).
  - exact IH.
Qed.

Lemma fast_loop_origin n : forall s,
  head_inv p s -> op s <= oend p - 64 -> origin_post (fast_loop p fuel n s).
Proof.
  induction n as [|n IH]; intros s Hs Hop; [exact I|].
  cbn [fast_loop].
  pose proof (fast_iter_post p fuel Hin outputSize_range64 s Hs Hop) as Hpost.
  assert (Heq : M64.fast_iter p fuel s = fast_iter p fuel s)
    by (apply M64_fast_iter_eq; assumption).
  destruct (fast_iter p fuel s) as [s'|f]; cbn [fast_post] in Hpost.
  - apply IH; tauto.
  - apply after_body_origin.
    + exists s. split; [exact (proj1 (proj2 Hs))|]. right. exact Heq.
    + apply (flow_post_any (ip s)). exact Hpost.
    + intros s' Hs'. apply safe_loop_origin. exact Hs'.
Qed.

(** Every return of the decoder in safe mode: before the loops, or out of
    a pass. *)
Definition generic_origin_post (m : Z -> byte) (o : outcome) : Prop :=
  match o with
  | Returned r s =>
      (s = start p m
       /\ ((outputSize p = 0
            /\ r = if (srcSize p =? 1) && (u8 (m (src p)) =? 0) then 0 else -1)
           \/ (outputSize p <> 0 /\ srcSize p = 0 /\ r = -1)))
      \/ (from_pass (Break s) /\ exit_ok p s /\ r = to_int (op s - dst p))
      \/ (from_pass (OutputError s) /\ exit_err p s
          /\ r = to_int (- (ip s - src p)) - 1)
  | OutOfFuel => True
  end.

Lemma generic_origin m :
  generic_origin_post m (LZ4_decompress_generic fdl p fuel m).
Proof.
  unfold LZ4_decompress_generic. rewrite Hin. cbn [andb negb ip op].
  fold (start p m).
  destruct (outputSize p =? 0) eqn:Ho.
  - b2p. cbn [generic_origin_post]. left. split; [reflexivity|]. left. auto.
  - b2p. destruct (srcSize p =? 0) eqn:Hs.
    + b2p. cbn [generic_origin_post]. left. split; [reflexivity|]. right. auto.
    + b2p.
      assert (Hh : head_inv p (start p m)).
      { unfold head_inv, W, wsafe, start. cbn [ip op hp wlog].
        unfold iend, oend. conj; try lia. constructor. }
      assert (Hrun : forall o, origin_post o -> generic_origin_post m o).
      { intros [r s|]; cbn [origin_post generic_origin_post]; tauto. }
      destruct fdl; [destruct (oend p - dst p <? FASTLOOP_SAFE_DISTANCE) eqn:Hd|];
        apply Hrun.
      * apply (safe_loop_origin fuel _ Hh).
      * b2p. consts. apply (fast_loop_origin fuel _ Hh). cbn [op start]. lia.
      * apply (safe_loop_origin fuel _ Hh).
Qed.

End Origin.

(** ** Full mode on the 64-bit machine: where a run can end

    Whatever the addresses, in full mode the loop is left by [break] only
    where the literals end at the end of the input (safe mode) or of the
    output (fast mode). *)

Section M64Full.

Variable p : params.
Variable fuel : nat.
Hypothesis Hfull : partial p = false.

Definition M64_break_post (f : flow) : Prop :=
  match f with
  | Break s => if endIn p then ip s = M64.iend p else op s = M64.oend p
  | _ => True
  end.

Lemma M64_safe_match_copy_break s length offset match_ :
  M64_break_post (M64.safe_match_copy p s length offset match_).
Proof.
  unfold M64.safe_match_copy. rewrite Hfull. cbn [andb].
  destruct (M64.copy_match_head _ _ _ _) as [h m1].
  repeat match goal with
  | |- context [if ?c then _ else _] => destruct c
  end; exact I.
Qed.

Lemma M64_copy_match_break s length offset match_ :
  M64_break_post (M64.copy_match p fuel s length offset match_).
Proof.
  unfold M64.copy_match, M64.copy_match_length.
  destruct (M64.offset_out_of_range p match_); [exact I|].
  destruct (length =? ML_MASK); [|apply M64_safe_match_copy_break].
  destruct (M64.read_variable_length _ _ _ _ _ _) as [[[n ip'] e]|]; [|exact I].
  destruct (negb (is_ok e)); [exact I|].
  destruct (safeDecode p && _); [exact I | apply M64_safe_match_copy_break].
Qed.

Lemma M64_safe_literal_copy_break s token length cpy :
  cpy = uptrval (op s + length) ->
  M64_break_post (M64.safe_literal_copy p fuel s token length cpy).
Proof.
  intros ->. unfold M64.safe_literal_copy, M64.get_offset. rewrite Hfull.
  cbn [andb negb orb].
  destruct (M64.near_end p s length _); [|apply M64_copy_match_break].
  destruct (endIn p) eqn:Hin; cbn [andb negb orb].
  - destruct (negb (uptrval (ip s + length) =? M64.iend p)
              || (uptrval (op s + length) >? M64.oend p)) eqn:Hc;
      [exact I|]. b2p. cbn [M64_break_post ip]. rewrite Hin. assumption.
  - rewrite orb_false_r.
    destruct (negb (uptrval (op s + length) =? M64.oend p)) eqn:Hc; [exact I|].
    b2p. cbn [M64_break_post op]. rewrite Hin. assumption.
Qed.

Lemma M64_safe_iter_break s : M64_break_post (M64.safe_iter p fuel s).
Proof.
  unfold M64.safe_iter, M64.shortcut, M64.decode_literal_length.
  destruct (M64.shortcut_cond _ _ _).
  - match goal with
    | |- context [if ?c then _ else _] => destruct c
    end; [exact I | apply M64_copy_match_break].
  - destruct (_ =? RUN_MASK); [|apply M64_safe_literal_copy_break; reflexivity].
    destruct (M64.read_variable_length _ _ _ _ _ _) as [[[n ip'] e]|]; [|exact I].
    repeat match goal with
    | |- context [if ?c then _ else _] => destruct c
    end; try exact I. apply M64_safe_literal_copy_break. reflexivity.
Qed.

Lemma M64_fast_match_break s token :
  match M64.fast_match p fuel s token with
  | Fast _ => True
  | Safe f => M64_break_post f
  end.
Proof.
  unfold M64.fast_match, M64.fast_copy_match.
  destruct (M64.offset_out_of_range p _); [exact I|].
  destruct (_ =? ML_MASK).
  - destruct (M64.read_variable_length _ _ _ _ _ _) as [[[n ip'] e]|]; [|exact I].
    repeat match goal with
    | |- context [if ?c then _ else _] => destruct c
    end; try exact I; apply M64_safe_match_copy_break.
  - repeat match goal with
    | |- context [if ?c then _ else _] => destruct c
    end; try exact I; apply M64_safe_match_copy_break.
Qed.

Lemma M64_fast_iter_break s :
  match M64.fast_iter p fuel s with
  | Fast _ => True
  | Safe f => M64_break_post f
  end.
Proof.
  unfold M64.fast_iter.
  destruct (_ =? RUN_MASK).
  - destruct (M64.read_variable_length _ _ _ _ _ _) as [[[n ip'] e]|]; [|exact I].
    repeat match goal with
    | |- context [if ?c then M64.fast_match _ _ _ _ else _] => fail 1
    | |- context [if ?c then _ else _] => destruct c
    end; try exact I;
      first [apply M64_fast_match_break
            | apply M64_safe_literal_copy_break; reflexivity].
  - repeat match goal with
    | |- context [if ?c then _ else _] => destruct c
    end; try exact I;
      first [apply M64_fast_match_break
            | apply M64_safe_literal_copy_break; reflexivity].
Qed.

(** What a loop returns in full mode. *)
Definition M64_full_post (o : outcome) : Prop :=
  match o with
  | Returned r s =>
      (if endIn p
       then ip s = M64.iend p /\ r = to_int (op s - dst p)
       else op s = M64.oend p /\ r = to_int (ip s - src p))
      \/ r = to_int (- (ip s - src p)) - 1
  | OutOfFuel => True
  end.

Lemma M64_after_body_full k f :
  M64_break_post f -> (forall s, M64_full_post (k s)) ->
  M64_full_post (after_body p k f).
Proof.
  intros Hf Hk. destruct f as [s|s|s|]; cbn [after_body M64_break_post] in *.
  - apply Hk.
  - unfold end_of_decoding, M64_full_post. revert Hf.
    destruct (endIn p); intros Hf; left; auto.
  - unfold output_error. cbn [M64_full_post]. right. reflexivity.
  - exact I.
Qed.

Lemma M64_safe_loop_full n : forall s, M64_full_post (M64.safe_loop p fuel n s).
Proof.
  induction n as [|n IH]; intros s; [exact I|].
  cbn [M64.safe_loop]. apply M64_after_body_full; [apply M64_safe_iter_break | exact IH].
Qed.

Lemma M64_fast_loop_full n : forall s, M64_full_post (M64.fast_loop p fuel n s).
Proof.
  induction n as [|n IH]; intros s; [exact I|].
  cbn [M64.fast_loop]. pose proof (M64_fast_iter_break s) as Hf.
  destruct (M64.fast_iter p fuel s) as [s'|f]; [apply IH|].
  apply M64_after_body_full; [exact Hf | apply M64_safe_loop_full].
Qed.

Lemma M64_generic_full fdl m :
  outputSize p <> 0 -> M64_full_post (M64.LZ4_decompress_generic fdl p fuel m).
Proof.
  intros Ho. apply Z.eqb_neq in Ho. unfold M64.LZ4_decompress_generic.
  rewrite Ho, !andb_false_r.
  destruct (endIn p && (srcSize p =? 0)) eqn:Hs.
  - b2p. cbn [M64_full_post ip src]. right.
    replace (src p - src p) with 0 by lia. reflexivity.
  - destruct fdl; [destruct (_ <? _)|];
      first [apply M64_safe_loop_full | apply M64_fast_loop_full].
Qed.

End M64Full.

(** ** Fast mode does not bound what it reads *)

Lemma u32_add_l (a b : Z) : u32 (u32 a + b) = u32 (a + b).
Proof. unfold u32. apply Zplus_mod_idemp_l. Qed.

(** A variable length without checks reads a run of [k] bytes 0xFF and the
    byte that ends it; the sum is taken at 32 bits. *)
Lemma M64_read_variable_length_loop_run (k : nat) : forall fuel h ip lencheck len,
  (k < fuel)%nat -> 0 <= ip -> ip + Z.of_nat k + 1 < 2 ^ 64 ->
  (forall i, 0 <= i < Z.of_nat k -> u8 (cell h (ip + i)) = 255) ->
  u8 (cell h (ip + Z.of_nat k)) <> 255 ->
  M64.read_variable_length_loop fuel h ip lencheck false len
  = Some (u32 (len + 255 * Z.of_nat k + u8 (cell h (ip + Z.of_nat k))),
          ip + Z.of_nat k + 1, ok).
Proof.
  induction k as [|k IH]; intros fuel h ip lencheck len Hfuel Hip Htop Hrun Hlast;
    (destruct fuel as [|fuel]; [lia|]);
    cbn [M64.read_variable_length_loop andb]; cbv zeta.
  - replace (ip + Z.of_nat 0) with ip in * by lia.
    destruct (Z.eqb_spec (u8 (cell h ip)) 255) as [He|Hne]; [contradiction|].
    rewrite uptrval_small by lia.
    repeat (f_equal; try lia).
  - pose proof (Hrun 0 ltac:(lia)) as H0. rewrite Z.add_0_r in H0.
    rewrite H0. cbn [Z.eqb Pos.eqb]. rewrite uptrval_small by lia.
    rewrite (IH fuel h (ip + 1) lencheck (u32 (len + 255))); try lia.
    + replace (ip + 1 + Z.of_nat k) with (ip + Z.of_nat (S k)) by lia.
      rewrite <- Z.add_assoc, u32_add_l.
      repeat (f_equal; try lia).
    + intros i Hi. replace (ip + 1 + i) with (ip + (i + 1)) by lia.
      apply Hrun. lia.
    + replace (ip + 1 + Z.of_nat k) with (ip + Z.of_nat (S k)) by lia.
      exact Hlast.
Qed.

Section LongRun.

Variable fdl : bool.
Variable fuel : nat.
Variable m : Z -> byte.
Variables source dest originalSize : Z.
Variable k : nat.

(** The literal length the first sequence spells: the nibble 15, [k] bytes
    0xFF and the byte [b] that ends the run. *)
Definition run_byte : Z := u8 (m (source + 1 + Z.of_nat k)).
Definition run_length : Z := 15 + u32 (255 * Z.of_nat k + run_byte).

Hypothesis Htok : Z.shiftr (u8 (m source)) ML_BITS = RUN_MASK.
Hypothesis Hrun : forall i, 0 <= i < Z.of_nat k -> u8 (m (source + 1 + i)) = 255.
Hypothesis Hlast : run_byte <> 255.
Hypothesis Hfuel : (k < fuel)%nat.
Hypothesis Hsource : 0 <= source /\ source + Z.of_nat k + 2 + run_length < 2 ^ 64.
Hypothesis Hdest : 64 <= dest /\ dest + run_length < 2 ^ 64.
Hypothesis Hsize : 0 < originalSize <= run_length.

Let p : params :=
  mkParams source dest 0 originalSize endOnOutputSize decode_full_block
           withPrefix64k (uptrval (dest - 64 * KB)) 0 0.

(** The state after the literal length has been read. *)
Let s1 : state := mkState (source + Z.of_nat k + 2) dest (mkHeap m []) [].

Lemma run_length_range : 15 <= run_length < 2 ^ 32 + 15.
Proof. unfold run_length. pose proof (u32_range (255 * Z.of_nat k + run_byte)). lia. Qed.

Lemma long_run_read :
  M64.read_variable_length fuel (mkHeap m []) (source + 1)
    (uptrval (M64.iend p - RUN_MASK)) false false
  = Some (u32 (255 * Z.of_nat k + run_byte), source + Z.of_nat k + 2, ok).
Proof.
  unfold M64.read_variable_length. cbn [andb].
  pose proof run_length_range.
  rewrite (M64_read_variable_length_loop_run k fuel (mkHeap m []) (source + 1)
             _ 0 Hfuel); cbn [cell]; try assumption; try lia.
  unfold run_byte. repeat (f_equal; try lia).
Qed.

(** The literal copy the main loop and the fast loop both end up in. *)
Definition long_run_flow : flow :=
  if originalSize =? run_length
  then Break (mkState (source + Z.of_nat k + 2 + run_length) (dest + run_length)
                (M64.LZ4_memmove (mkHeap m []) dest (source + Z.of_nat k + 2)
                                 run_length) [])
  else OutputError s1.

Lemma long_run_literals (token : Z) :
  M64.safe_literal_copy p fuel s1 token run_length (dest + run_length)
  = long_run_flow.
Proof.
  pose proof run_length_range as Hr.
  unfold M64.safe_literal_copy, M64.near_end, long_run_flow.
  change (endIn p) with false. change (partial p) with false.
  cbn [andb negb orb]. consts. unfold M64.oend.
  change (dst p) with dest. change (outputSize p) with originalSize.
  cbn [op ip hp mlog s1].
  rewrite (uptrval_small (dest + originalSize)) by lia.
  rewrite (uptrval_small (dest + originalSize - 8)) by lia.
  replace (dest + run_length >? dest + originalSize - 8)
    with true by (symmetry; rewrite Z.gtb_ltb; apply Z.ltb_lt; lia).
  rewrite orb_false_r.
  destruct (Z.eqb_spec originalSize run_length) as [He|Hne].
  - replace (dest + run_length =? dest + originalSize) with true
      by (symmetry; apply Z.eqb_eq; lia).
    cbn [negb]. rewrite !uptrval_small by lia. reflexivity.
  - replace (dest + run_length =? dest + originalSize) with false
      by (symmetry; apply Z.eqb_neq; lia).
    reflexivity.
Qed.

Lemma long_run_safe_iter :
  M64.safe_iter p fuel (start p m) = long_run_flow.
Proof.
  pose proof run_length_range as Hr.
  unfold M64.safe_iter, M64.shortcut_cond, M64.decode_literal_length.
  change (endIn p) with false. unfold safeDecode.
  change (endIn p) with false. cbn [ip op hp mlog start set_ip cell andb].
  change (src p) with source. change (dst p) with dest.
  rewrite Htok. consts. cbn [Z.leb Z.compare Pos.compare Pos.compare_cont
                               andb Z.eqb Pos.eqb].
  rewrite (uptrval_small (source + 1)) by lia.
  pose proof long_run_read as Hlen. unfold RUN_MASK in Hlen. rewrite Hlen.
  cbn [is_initial_error ip op hp mlog]. fold run_length.
  rewrite (uptrval_small (dest + run_length)) by lia.
  apply long_run_literals.
Qed.

Lemma long_run_fast_iter :
  M64.fast_iter p fuel (start p m) = Safe long_run_flow.
Proof.
  pose proof run_length_range as Hr.
  unfold M64.fast_iter. change (endIn p) with false. unfold safeDecode.
  change (endIn p) with false. cbn [ip op hp mlog start set_ip cell andb].
  change (src p) with source. change (dst p) with dest.
  rewrite Htok. consts. cbn [Z.eqb Pos.eqb].
  rewrite (uptrval_small (source + 1)) by lia.
  pose proof long_run_read as Hlen. unfold RUN_MASK in Hlen. rewrite Hlen.
  cbn [is_initial_error ip op hp mlog]. fold run_length.
  rewrite (uptrval_small (dest + run_length)) by lia.
  unfold M64.oend.
  change (dst p) with dest. change (outputSize p) with originalSize.
  rewrite (uptrval_small (dest + originalSize)) by lia.
  rewrite (uptrval_small (dest + originalSize - 8)) by lia.
  replace (dest + run_length >? dest + originalSize - 8)
    with true by (symmetry; rewrite Z.gtb_ltb; apply Z.ltb_lt; lia).
  f_equal. apply long_run_literals.
Qed.

Lemma long_run_loops (n : nat) :
  (0 < n)%nat ->
  M64.safe_loop p fuel n (start p m)
  = after_body p (fun _ => OutOfFuel) long_run_flow
  /\ M64.fast_loop p fuel n (start p m)
     = after_body p (fun _ => OutOfFuel) long_run_flow.
Proof.
  intros Hn. destruct n as [|n]; [lia|].
  cbn [M64.safe_loop M64.fast_loop].
  rewrite long_run_safe_iter, long_run_fast_iter.
  unfold long_run_flow. destruct (originalSize =? run_length); split; reflexivity.
Qed.

(** The whole run is the one pass. *)
Lemma long_run :
  M64.LZ4_decompress_fast fdl fuel m source dest originalSize
  = after_body p (fun _ => OutOfFuel) long_run_flow.
Proof.
  unfold M64.LZ4_decompress_fast, M64.LZ4_decompress_generic. fold p.
  change (endIn p) with false. cbn [andb negb].
  change (outputSize p) with originalSize.
  replace (originalSize =? 0) with false by (symmetry; apply Z.eqb_neq; lia).
  fold (start p m).
  destruct (long_run_loops fuel ltac:(lia)) as [Hs Hf].
  destruct fdl; [destruct (_ <? _)|]; assumption.
Qed.

End LongRun.

(** ** Fast mode on the 64-bit machine: stores stay in the output

    With [endOnOutputSize] nothing bounds the input cursor, which may wrap,
    and no overflow test is made; but a length is at most 2^32 + 18, and
    with the output that far from the top of the address space every store
    is still guarded by a test against [oend]. *)

Section M64WriteBounds.

Variables lo hi : Z.
Hypothesis Hlo : 0 <= lo.
Hypothesis Hhi : hi + 32 <= 2 ^ 64.

Lemma wsafe_M64_store_bytes bs h d :
  wsafe lo hi h -> lo <= d -> d + Z.of_nat (length bs) <= hi ->
  wsafe lo hi (M64.store_bytes h d bs).
Proof.
  intros Hh Hd Hn. rewrite M64_store_bytes_eq by lia.
  apply wsafe_store_bytes; assumption.
Qed.

Lemma wsafe_M64_memcpy h d s n :
  wsafe lo hi h -> n <= 0 \/ (lo <= d /\ d + n <= hi) ->
  wsafe lo hi (M64.memcpy h d s n).
Proof.
  intros Hh Hn. unfold M64.memcpy. destruct (Z.leb_spec n 0) as [Hle|Hgt].
  - replace (Z.to_nat n) with O by lia. exact Hh.
  - apply wsafe_M64_store_bytes; [assumption | lia |].
    rewrite M64_load_bytes_length. lia.
Qed.

Lemma wsafe_M64_byte_loop k : forall h d s e,
  wsafe lo hi h -> lo <= d -> e <= hi -> wsafe lo hi (M64.byte_loop k h d s e).
Proof.
  induction k as [|k IH]; intros h d s e Hh Hd He; cbn [M64.byte_loop];
    [assumption|].
  destruct (Z.ltb_spec d e); [|assumption].
  rewrite (uptrval_small (d + 1)) by lia.
  apply IH; [apply wsafe_store; [assumption | lia] | lia | lia].
Qed.

Lemma wsafe_M64_copy_bytes_until h d s e :
  wsafe lo hi h -> lo <= d -> e <= hi ->
  wsafe lo hi (M64.copy_bytes_until h d s e).
Proof. apply wsafe_M64_byte_loop. Qed.

Lemma wsafe_M64_wildCopy8_loop k : forall h d s e,
  wsafe lo hi h -> lo <= d -> d + 8 <= hi -> e + 7 <= hi ->
  wsafe lo hi (M64.wildCopy8_loop k h d s e).
Proof.
  induction k as [|k IH]; intros h d s e Hh Hd Hd8 He;
    cbn [M64.wildCopy8_loop]; cbv zeta.
  - apply wsafe_M64_memcpy; [assumption | lia].
  - rewrite (uptrval_small (d + 8)) by lia. destruct (Z.ltb_spec (d + 8) e).
    + apply IH; [apply wsafe_M64_memcpy; [assumption | lia] | lia | lia | lia].
    + apply wsafe_M64_memcpy; [assumption | lia].
Qed.

Lemma wsafe_M64_wildCopy8 h d s e :
  wsafe lo hi h -> lo <= d -> d + 8 <= hi -> e + 7 <= hi ->
  wsafe lo hi (M64.LZ4_wildCopy8 h d s e).
Proof. apply wsafe_M64_wildCopy8_loop. Qed.

Lemma wsafe_M64_wildCopy32_loop k : forall h d s e,
  wsafe lo hi h -> lo <= d -> d + 32 <= hi -> e + 31 <= hi ->
  wsafe lo hi (M64.wildCopy32_loop k h d s e).
Proof.
  induction k as [|k IH]; intros h d s e Hh Hd Hd8 He;
    cbn [M64.wildCopy32_loop]; cbv zeta;
    rewrite (uptrval_small (d + 16)) by lia.
  - repeat (apply wsafe_M64_memcpy; [| lia]). assumption.
  - rewrite (uptrval_small (d + 32)) by lia. destruct (Z.ltb_spec (d + 32) e).
    + apply IH; [repeat (apply wsafe_M64_memcpy; [| lia]); assumption
                | lia | lia | lia].
    + repeat (apply wsafe_M64_memcpy; [| lia]). assumption.
Qed.

Lemma wsafe_M64_wildCopy32 h d s e :
  wsafe lo hi h -> lo <= d -> d + 32 <= hi -> e + 31 <= hi ->
  wsafe lo hi (M64.LZ4_wildCopy32 h d s e).
Proof. apply wsafe_M64_wildCopy32_loop. Qed.

Lemma wsafe_M64_pattern_loop k : forall h d v e,
  length v = 8%nat ->
  wsafe lo hi h -> lo <= d -> d + 8 <= hi -> e + 7 <= hi ->
  wsafe lo hi (M64.pattern_loop k h d v e).
Proof.
  induction k as [|k IH]; intros h d v e Hv Hh Hd Hd8 He;
    cbn [M64.pattern_loop]; cbv zeta.
  - apply wsafe_M64_store_bytes; [assumption | lia | rewrite Hv; lia].
  - rewrite (uptrval_small (d + 8)) by lia. destruct (Z.ltb_spec (d + 8) e).
    + apply IH; try lia; try assumption.
      apply wsafe_M64_store_bytes; [assumption | lia | rewrite Hv; lia].
    + apply wsafe_M64_store_bytes; [assumption | lia | rewrite Hv; lia].
Qed.

Lemma wsafe_M64_memcpy_using_offset_base h d s e offset :
  wsafe lo hi h -> lo <= d -> d + 16 <= hi -> e + 7 <= hi ->
  wsafe lo hi (M64.LZ4_memcpy_using_offset_base h d s e offset).
Proof.
  intros Hh Hd Hd8 He. unfold M64.LZ4_memcpy_using_offset_base. cbv zeta.
  rewrite (uptrval_small (d + 8)) by lia.
  destruct (offset <? 8).
  - rewrite (uptrval_small (d + 1)), (uptrval_small (d + 2)),
      (uptrval_small (d + 3)), (uptrval_small (d + 4)) by lia.
    apply wsafe_M64_wildCopy8; try lia.
    apply wsafe_M64_memcpy; [| lia].
    repeat (apply wsafe_store; [| lia]). assumption.
  - apply wsafe_M64_wildCopy8; try lia.
    apply wsafe_M64_memcpy; [assumption | lia].
Qed.

Lemma wsafe_M64_memcpy_using_offset h d s e offset :
  wsafe lo hi h -> lo <= d -> d + 16 <= hi -> e + 7 <= hi ->
  wsafe lo hi (M64.LZ4_memcpy_using_offset h d s e offset).
Proof.
  intros Hh Hd Hd8 He. unfold M64.LZ4_memcpy_using_offset. cbv zeta.
  destruct (offset =? 1); [|destruct (offset =? 2); [|destruct (offset =? 4)]].
  - apply wsafe_M64_pattern_loop; try lia; try assumption. apply repeat_length.
  - apply wsafe_M64_pattern_loop; try lia; try assumption.
    rewrite !length_app, !M64_load_bytes_length. reflexivity.
  - apply wsafe_M64_pattern_loop; try lia; try assumption.
    rewrite !length_app, !M64_load_bytes_length. reflexivity.
  - apply wsafe_M64_memcpy_using_offset_base; assumption.
Qed.

Lemma wsafe_M64_copy_match_head h o m offset :
  wsafe lo hi h -> lo <= o -> o + 8 <= hi ->
  wsafe lo hi (fst (M64.copy_match_head h o m offset)).
Proof.
  intros Hh Ho Ho8. unfold M64.copy_match_head, M64.LZ4_copy8.
  destruct (offset <? 8); cbn [fst].
  - rewrite (uptrval_small (o + 1)), (uptrval_small (o + 2)),
      (uptrval_small (o + 3)), (uptrval_small (o + 4)) by lia.
    apply wsafe_M64_memcpy; [| lia].
    repeat (apply wsafe_store; [| lia]). exact Hh.
  - apply wsafe_M64_memcpy; [exact Hh | lia].
Qed.

End M64WriteBounds.

(** The sum a variable length returns fits 32 bits. *)
Lemma M64_read_variable_length_loop_range (fuel : nat) :
  forall h ip lencheck lc len,
  match M64.read_variable_length_loop fuel h ip lencheck lc len with
  | None => True
  | Some (n, _, _) => 0 <= n < 2 ^ 32
  end.
Proof.
  induction fuel as [|fuel IH]; intros h ip lencheck lc len; [exact I|].
  cbn [M64.read_variable_length_loop]. cbv zeta.
  pose proof (u32_range (len + u8 (cell h ip))) as Hb.
  destruct (lc && _); [exact Hb|].
  destruct (u8 (cell h ip) =? 255); [apply IH | exact Hb].
Qed.

Lemma M64_read_variable_length_range fuel h ip lencheck lc ic :
  match M64.read_variable_length fuel h ip lencheck lc ic with
  | None => True
  | Some (n, _, _) => 0 <= n < 2 ^ 32
  end.
Proof.
  unfold M64.read_variable_length.
  destruct (ic && _); [lia | apply M64_read_variable_length_loop_range].
Qed.

(** A byte that is not in the write log is as it was in the memory [m]
    the run started in: storing is the only way to change memory, and it
    is logged. *)
Definition unlogged_kept (m : Z -> byte) (h : heap) : Prop :=
  forall a, ~ In a (wlog h) -> cell h a = m a.

Section Kept.

Variable m : Z -> byte.

Lemma kept_start : unlogged_kept m (mkHeap m []).
Proof. intros a _. reflexivity. Qed.

Lemma kept_store h a b : unlogged_kept m h -> unlogged_kept m (store h a b).
Proof.
  intros Hh x Hx. unfold store in *. cbn [cell wlog] in *.
  destruct (Z.eqb_spec x a) as [->|Hne]; [exfalso; apply Hx; left; reflexivity|].
  apply Hh. intros Hin. apply Hx. right. exact Hin.
Qed.

Lemma kept_M64_store_bytes bs : forall h d,
  unlogged_kept m h -> unlogged_kept m (M64.store_bytes h d bs).
Proof.
  induction bs as [|b bs IH]; intros h d Hh; cbn [M64.store_bytes]; [exact Hh|].
  apply IH. apply kept_store. exact Hh.
Qed.

Lemma kept_M64_memcpy h d s n :
  unlogged_kept m h -> unlogged_kept m (M64.memcpy h d s n).
Proof. intros Hh. apply kept_M64_store_bytes. exact Hh. Qed.

Lemma kept_M64_byte_loop k : forall h d s e,
  unlogged_kept m h -> unlogged_kept m (M64.byte_loop k h d s e).
Proof.
  induction k as [|k IH]; intros h d s e Hh; cbn [M64.byte_loop]; [exact Hh|].
  destruct (d <? e); [|exact Hh]. apply IH. apply kept_store. exact Hh.
Qed.

Lemma kept_M64_copy_bytes_until h d s e :
  unlogged_kept m h -> unlogged_kept m (M64.copy_bytes_until h d s e).
Proof. apply kept_M64_byte_loop. Qed.

Lemma kept_M64_wildCopy8_loop k : forall h d s e,
  unlogged_kept m h -> unlogged_kept m (M64.wildCopy8_loop k h d s e).
Proof.
  induction k as [|k IH]; intros h d s e Hh; cbn [M64.wildCopy8_loop]; cbv zeta.
  - apply kept_M64_memcpy. exact Hh.
  - destruct (_ <? _); [apply IH|]; apply kept_M64_memcpy; exact Hh.
Qed.

Lemma kept_M64_wildCopy8 h d s e :
  unlogged_kept m h -> unlogged_kept m (M64.LZ4_wildCopy8 h d s e).
Proof. apply kept_M64_wildCopy8_loop. Qed.

Lemma kept_M64_wildCopy32_loop k : forall h d s e,
  unlogged_kept m h -> unlogged_kept m (M64.wildCopy32_loop k h d s e).
Proof.
  induction k as [|k IH]; intros h d s e Hh; cbn [M64.wildCopy32_loop]; cbv zeta.
  - repeat apply kept_M64_memcpy. exact Hh.
  - destruct (_ <? _); [apply IH|]; repeat apply kept_M64_memcpy; exact Hh.
Qed.

Lemma kept_M64_wildCopy32 h d s e :
  unlogged_kept m h -> unlogged_kept m (M64.LZ4_wildCopy32 h d s e).
Proof. apply kept_M64_wildCopy32_loop. Qed.

Lemma kept_M64_pattern_loop k : forall h d v e,
  unlogged_kept m h -> unlogged_kept m (M64.pattern_loop k h d v e).
Proof.
  induction k as [|k IH]; intros h d v e Hh; cbn [M64.pattern_loop]; cbv zeta.
  - apply kept_M64_store_bytes. exact Hh.
  - destruct (_ <? _); [apply IH|]; apply kept_M64_store_bytes; exact Hh.
Qed.

Lemma kept_M64_memcpy_using_offset h d s e offset :
  unlogged_kept m h ->
  unlogged_kept m (M64.LZ4_memcpy_using_offset h d s e offset).
Proof.
  intros Hh. unfold M64.LZ4_memcpy_using_offset, M64.LZ4_memcpy_using_offset_base.
  cbv zeta.
  repeat match goal with
  | |- context [if ?c then _ else _] => destruct c
  end;
    repeat first [ exact Hh
                 | apply kept_M64_pattern_loop
                 | apply kept_M64_wildCopy8
                 | apply kept_M64_memcpy
                 | apply kept_store ].
Qed.

Lemma kept_M64_copy_match_head h o mt offset :
  unlogged_kept m h ->
  unlogged_kept m (fst (M64.copy_match_head h o mt offset)).
Proof.
  intros Hh. unfold M64.copy_match_head, M64.LZ4_copy8.
  destruct (offset <? 8); cbn [fst];
    repeat first [ exact Hh | apply kept_M64_memcpy | apply kept_store ].
Qed.

End Kept.

(** In fast mode, where no overflow test is made, the output is clear of
    the top of the address space when it ends 2^32 + 64 bytes below it: no
    length reaches past that.  (And it starts 64 bytes above the bottom,
    so that [oend - 64] is an address.) *)
Definition output_clear_of_top (p : params) : Prop :=
  64 <= dst p /\ dst p + outputSize p + 2 ^ 32 + 64 <= 2 ^ 64.

Ltac usmall :=
  repeat match goal with
  | |- context [uptrval ?x] => rewrite (uptrval_small x) by (consts; lia)
  end.

Ltac kept_tac :=
  unfold M64.LZ4_copy8, M64.LZ4_memmove;
  repeat first
    [ assumption
    | apply kept_M64_memcpy
    | apply kept_M64_copy_bytes_until
    | apply kept_M64_wildCopy8
    | apply kept_M64_wildCopy32
    | apply kept_M64_memcpy_using_offset
    | apply kept_store ].

Ltac wsafe64_tac :=
  unfold M64.LZ4_copy8, M64.LZ4_memmove;
  repeat first
    [ assumption
    | apply wsafe_M64_memcpy
    | apply wsafe_M64_copy_bytes_until
    | apply wsafe_M64_wildCopy8
    | apply wsafe_M64_wildCopy32
    | apply wsafe_M64_memcpy_using_offset
    | apply wsafe_store ];
  try lia.

Section M64FastWrite.

Variable p : params.
Variable fuel : nat.
Variable m : Z -> byte.

Hypothesis Hout : endIn p = false.
Hypothesis Hfull : partial p = false.
Hypothesis Hsize : 0 <= outputSize p < 2 ^ 31.
Hypothesis Hclear : output_clear_of_top p.

Lemma output_bounds :
  64 <= dst p /\ dst p <= oend p /\ oend p + 2 ^ 32 + 64 <= 2 ^ 64.
Proof. destruct Hclear as [H1 H2]. unfold oend. lia. Qed.

Lemma M64_oend_fast : M64.oend p = oend p.
Proof.
  pose proof output_bounds. unfold M64.oend. fold (oend p).
  apply uptrval_small. lia.
Qed.

(** Every store so far went to the output and was logged. *)
Definition WK (h : heap) : Prop := W p h /\ unlogged_kept m h.

(** And the output cursor is in the output. *)
Definition fw_inv (s : state) : Prop :=
  WK (hp s) /\ dst p <= op s <= oend p.

Definition fw_post (f : flow) : Prop :=
  match f with
  | Continue s => fw_inv s
  | Break s | OutputError s => WK (hp s)
  | Starved => True
  end.

Definition fast_fw_post (f : fast_flow) : Prop :=
  match f with
  | Fast s => fw_inv s /\ op s <= oend p - 64
  | Safe f => fw_post f
  end.

Ltac fwleaf :=
  solve [ cbn [fw_post fast_fw_post]; unfold fw_inv, WK, W in *;
          cbn [ip op hp mlog] in *; conj; intros; try lia;
          first [ kept_tac; fail | wsafe64_tac ] ].

Lemma M64_safe_match_copy_fw s length offset match_ :
  fw_inv s -> op s <= oend p - 8 -> 4 <= length < 2 ^ 32 + 32 ->
  fw_post (M64.safe_match_copy p s length offset match_).
Proof.
  intros [[HW HK] Hop] Hop8 Hlen. pose proof output_bounds as Hb.
  unfold M64.safe_match_copy. rewrite M64_oend_fast, Hfull. cbn [andb]. st_simpl.
  pose proof (wsafe_M64_copy_match_head (dst p) (oend p) ltac:(lia) ltac:(lia)
                (hp s) (op s) match_ offset HW ltac:(lia) ltac:(lia)) as Hhead.
  pose proof (kept_M64_copy_match_head m (hp s) (op s) match_ offset HK) as Hkept.
  destruct (M64.copy_match_head (hp s) (op s) match_ offset) as [h1 m1].
  cbn [fst] in Hhead, Hkept. consts. usmall.
  ifs; b2p; st_simpl; usmall; fwleaf.
Qed.

Lemma M64_copy_match_fw s length offset match_ :
  fw_inv s -> op s <= oend p - 8 -> 0 <= length <= 15 ->
  fw_post (M64.copy_match p fuel s length offset match_).
Proof.
  intros Hs Hop8 Hlen. unfold M64.copy_match, M64.copy_match_length.
  destruct (M64.offset_out_of_range p match_); [exact (proj1 Hs)|].
  destruct (length =? ML_MASK).
  - pose proof (M64_read_variable_length_range fuel (hp s) (ip s)
                  (uptrval (uptrval (M64.iend p - LASTLITERALS) + 1))
                  (endIn p) false) as Hr.
    destruct (M64.read_variable_length _ _ _ _ _ _) as [[[n ip'] e]|]; [|exact I].
    st_simpl.
    destruct (negb (is_ok e)); [exact (proj1 Hs)|].
    destruct (safeDecode p && _); [exact (proj1 Hs)|].
    apply M64_safe_match_copy_fw; cbn [ip op hp mlog]; try assumption.
    consts. lia.
  - apply M64_safe_match_copy_fw; try assumption. consts. lia.
Qed.

Lemma M64_get_offset_fw s token :
  fw_inv s -> op s <= oend p - 8 -> 0 <= token ->
  fw_post (M64.get_offset p fuel s token).
Proof.
  intros Hs Hop8 Htok. unfold M64.get_offset.
  apply M64_copy_match_fw; st_simpl; try assumption.
  apply match_seed_range. exact Htok.
Qed.

Lemma M64_safe_literal_copy_fw s token length :
  fw_inv s -> 0 <= length < 2 ^ 32 + 16 -> 0 <= token ->
  fw_post (M64.safe_literal_copy p fuel s token length (op s + length)).
Proof.
  intros [[HW HK] Hop] Hlen Htok. pose proof output_bounds as Hb.
  unfold M64.safe_literal_copy, M64.near_end.
  rewrite M64_oend_fast, Hout, Hfull.
  cbn [andb negb orb]. consts. usmall.
  destruct (op s + length >? oend p - 8) eqn:Hnear.
  - destruct (negb (op s + length =? oend p) || false) eqn:Herr; [fwleaf|].
    b2p; fwleaf.
  - b2p. apply M64_get_offset_fw; cbn [ip op hp mlog]; try lia.
    unfold fw_inv, WK, W. cbn [ip op hp mlog]. conj; try lia;
      first [ kept_tac; fail | wsafe64_tac ].
Qed.

Lemma M64_shortcut_fw s token length :
  fw_inv s -> op s <= oend p - 26 -> 0 <= length <= 8 -> 0 <= token ->
  fw_post (M64.shortcut p fuel s token length).
Proof.
  intros [[HW HK] Hop] Hso Hlen Htok. pose proof output_bounds as Hb.
  unfold M64.shortcut. rewrite Hout. cbv zeta. cbn [ip op hp mlog]. st_simpl.
  pose proof (match_seed_range token Htok) as Hml. consts. usmall.
  set (h1 := M64.memcpy (hp s) (op s) (ip s) 8).
  assert (HW1 : W p h1) by (subst h1; unfold W in *; wsafe64_tac).
  assert (HK1 : unlogged_kept m h1) by (subst h1; kept_tac).
  match goal with
  | |- context [if ?c then _ else _] => destruct c eqn:Hc
  end.
  - usmall. fwleaf.
  - clear Hc. apply M64_copy_match_fw; cbn [ip op hp mlog]; try lia.
    split; cbn [ip op hp mlog]; [split; assumption | lia].
Qed.

Lemma M64_safe_iter_fw s : fw_inv s -> fw_post (M64.safe_iter p fuel s).
Proof.
  intros [[HW HK] Hop]. pose proof output_bounds as Hb. unfold M64.safe_iter.
  pose proof (u8_range (cell (hp s) (ip s))) as Htok.
  pose proof (literal_seed_range _ Htok) as Hll.
  set (token := u8 (cell (hp s) (ip s))) in *.
  set (length := Z.shiftr token ML_BITS) in *. cbv zeta.
  destruct (M64.shortcut_cond p (set_ip s (uptrval (ip s + 1))) length) eqn:Hsc.
  - unfold M64.shortcut_cond, M64.shortoend in Hsc.
    rewrite M64_oend_fast, Hout in Hsc. st_simpl.
    rewrite (uptrval_small (oend p - 8)) in Hsc by lia.
    rewrite (uptrval_small (oend p - 8 - 18)) in Hsc by lia.
    consts. b2p.
    apply M64_shortcut_fw; cbn [ip op hp mlog]; try lia.
    split; cbn [ip op hp mlog]; [split; assumption | lia].
  - clear Hsc. st_simpl. destruct (length =? RUN_MASK) eqn:Hrm.
    + unfold M64.decode_literal_length. cbn [ip op hp mlog].
      pose proof (M64_read_variable_length_range fuel (hp s) (uptrval (ip s + 1))
                    (uptrval (M64.iend p - RUN_MASK)) (endIn p) (endIn p)) as Hr.
      destruct (M64.read_variable_length _ _ _ _ _ _) as [[[n ip'] e]|]; [|exact I].
      st_simpl.
      destruct (is_initial_error e); [split; assumption|].
      destruct (safeDecode p && _); [split; assumption|].
      destruct (safeDecode p && _); [split; assumption|].
      rewrite (uptrval_small (op s + (length + n))) by lia.
      apply (M64_safe_literal_copy_fw (mkState ip' (op s) (hp s) (mlog s)));
        cbn [ip op hp mlog]; try lia.
      split; cbn [ip op hp mlog]; [split; assumption | lia].
    + rewrite (uptrval_small (op s + length)) by lia.
      apply (M64_safe_literal_copy_fw
               (mkState (uptrval (ip s + 1)) (op s) (hp s) (mlog s)));
        cbn [ip op hp mlog]; try lia.
      split; cbn [ip op hp mlog]; [split; assumption | lia].
Qed.

Lemma M64_fast_copy_match_fw s length offset match_ :
  fw_inv s -> 4 <= length -> op s + length < oend p - 64 ->
  fast_fw_post (M64.fast_copy_match s length offset match_).
Proof.
  intros [[HW HK] Hop] Hlen Hcpy. pose proof output_bounds as Hb.
  unfold M64.fast_copy_match. st_simpl. cbv zeta. usmall.
  cbn [fast_fw_post]. unfold fw_inv, WK, W in *. cbn [ip op hp mlog].
  conj; try lia; destruct (offset <? 16); first [ kept_tac; fail | wsafe64_tac ].
Qed.

Lemma M64_fast_match_fw s token :
  fw_inv s -> op s <= oend p - 8 -> 0 <= token ->
  fast_fw_post (M64.fast_match p fuel s token).
Proof.
  intros [[HW HK] Hop] Hop8 Htok. pose proof output_bounds as Hb.
  unfold M64.fast_match. rewrite M64_oend_fast. cbv zeta. st_simpl.
  pose proof (match_seed_range token Htok) as Hml.
  destruct (M64.offset_out_of_range p _); [cbn [fast_fw_post]; fwleaf|].
  destruct (Z.land token ML_MASK =? ML_MASK) eqn:Hm.
  - pose proof (M64_read_variable_length_range fuel (hp s) (uptrval (ip s + 2))
                  (uptrval (uptrval (M64.iend p - LASTLITERALS) + 1))
                  (endIn p) false) as Hr.
    destruct (M64.read_variable_length _ _ _ _ _ _) as [[[n ip'] e]|]; [|exact I].
    consts.
    destruct (negb (is_ok e)); [cbn [fast_fw_post]; fwleaf|].
    destruct (safeDecode p && _); [cbn [fast_fw_post]; fwleaf|].
    usmall.
    destruct (op s + (Z.land token 15 + n + 4) >=? oend p - 64) eqn:Hfar.
    + cbn [fast_fw_post]. apply M64_safe_match_copy_fw; cbn [ip op hp mlog];
        try lia. split; cbn [ip op hp mlog]; [split; assumption | lia].
    + b2p. apply M64_fast_copy_match_fw; cbn [ip op hp mlog]; try lia.
      split; cbn [ip op hp mlog]; [split; assumption | lia].
  - consts. usmall.
    destruct (op s + (Z.land token 15 + 4) >=? oend p - 64) eqn:Hfar.
    + cbn [fast_fw_post]. apply M64_safe_match_copy_fw; cbn [ip op hp mlog];
        try lia. split; cbn [ip op hp mlog]; [split; assumption | lia].
    + b2p.
      match goal with
      | |- context [if ?c then _ else _] => destruct c
      end.
      * usmall. cbn [fast_fw_post]. unfold fw_inv, WK, W in *.
        cbn [ip op hp mlog].
        conj; try lia; first [ kept_tac; fail | wsafe64_tac ].
      * apply M64_fast_copy_match_fw; cbn [ip op hp mlog]; try lia.
        split; cbn [ip op hp mlog]; [split; assumption | lia].
Qed.

Lemma M64_fast_iter_fw s :
  fw_inv s -> op s <= oend p - 64 -> fast_fw_post (M64.fast_iter p fuel s).
Proof.
  intros [[HW HK] Hop] Hop64. pose proof output_bounds as Hb.
  unfold M64.fast_iter.
  pose proof (u8_range (cell (hp s) (ip s))) as Htok.
  pose proof (literal_seed_range _ Htok) as Hll.
  set (token := u8 (cell (hp s) (ip s))) in *.
  set (length := Z.shiftr token ML_BITS) in *.
  rewrite M64_oend_fast, Hout. cbv zeta. st_simpl.
  destruct (length =? RUN_MASK) eqn:Hrm.
  - pose proof (M64_read_variable_length_range fuel (hp s) (uptrval (ip s + 1))
                  (uptrval (M64.iend p - RUN_MASK)) false false) as Hr.
    destruct (M64.read_variable_length _ _ _ _ _ _) as [[[n ip'] e]|]; [|exact I].
    consts.
    destruct (is_initial_error e); [cbn [fast_fw_post]; fwleaf|].
    destruct (safeDecode p && ptr_overflow (op s) (length + n));
      [cbn [fast_fw_post]; fwleaf|].
    destruct (safeDecode p && ptr_overflow ip' (length + n));
      [cbn [fast_fw_post]; fwleaf|].
    usmall.
    destruct (op s + (length + n) >? oend p - 8) eqn:Hfar.
    + cbn [fast_fw_post].
      apply (M64_safe_literal_copy_fw (mkState ip' (op s) (hp s) (mlog s)));
        cbn [ip op hp mlog]; try lia.
      split; cbn [ip op hp mlog]; [split; assumption | lia].
    + b2p. apply M64_fast_match_fw; cbn [ip op hp mlog]; try lia.
      unfold fw_inv, WK, W in *. cbn [ip op hp mlog].
      conj; try lia; first [ kept_tac; fail | wsafe64_tac ].
  - consts. b2p. usmall. apply M64_fast_match_fw; cbn [ip op hp mlog]; try lia.
    unfold fw_inv, WK, W in *. cbn [ip op hp mlog].
    conj; try lia; destruct (length >? 8); usmall;
      first [ kept_tac; fail | wsafe64_tac ].
Qed.

Definition fw_run (o : outcome) : Prop :=
  match o with
  | Returned _ s => WK (hp s)
  | OutOfFuel => True
  end.

Lemma after_body_fw k f :
  fw_post f -> (forall s, fw_inv s -> fw_run (k s)) ->
  fw_run (after_body p k f).
Proof.
  intros Hf Hk. destruct f as [s|s|s|]; cbn [after_body fw_post] in *.
  - apply Hk. exact Hf.
  - unfold end_of_decoding. destruct (endIn p); apply Hf.
  - apply Hf.
  - exact I.
Qed.

Lemma M64_safe_loop_fw n : forall s, fw_inv s -> fw_run (M64.safe_loop p fuel n s).
Proof.
  induction n as [|n IH]; intros s Hs; [exact I|].
  cbn [M64.safe_loop]. apply after_body_fw; [apply M64_safe_iter_fw; exact Hs | exact IH].
Qed.

Lemma M64_fast_loop_fw n : forall s,
  fw_inv s -> op s <= oend p - 64 -> fw_run (M64.fast_loop p fuel n s).
Proof.
  induction n as [|n IH]; intros s Hs Hop; [exact I|].
  cbn [M64.fast_loop]. pose proof (M64_fast_iter_fw s Hs Hop) as Hf.
  destruct (M64.fast_iter p fuel s) as [s'|f]; cbn [fast_fw_post] in Hf.
  - apply IH; apply Hf.
  - apply after_body_fw; [exact Hf | apply M64_safe_loop_fw].
Qed.

Lemma M64_generic_fw fdl :
  fw_run (M64.LZ4_decompress_generic fdl p fuel m).
Proof.
  pose proof output_bounds as Hb. unfold M64.LZ4_decompress_generic.
  assert (H0 : fw_inv (mkState (src p) (dst p) (mkHeap m []) [])).
  { split; cbn [ip op hp]; [split; [constructor | apply kept_start] | lia]. }
  rewrite M64_oend_fast. cbv zeta.
  destruct (endIn p && (outputSize p =? 0)); [exact (proj1 H0)|].
  destruct (negb (endIn p) && (outputSize p =? 0)); [exact (proj1 H0)|].
  destruct (endIn p && (srcSize p =? 0)); [exact (proj1 H0)|].
  cbn [op].
  assert (Hd : to_ptrdiff (oend p - dst p) = oend p - dst p).
  { unfold to_ptrdiff, oend. rewrite Z.mod_small; lia. }
  rewrite Hd.
  destruct fdl; [destruct (oend p - dst p <? FASTLOOP_SAFE_DISTANCE) eqn:Hd64|].
  - apply M64_safe_loop_fw. exact H0.
  - b2p. consts. apply M64_fast_loop_fw; [exact H0 | cbn [op]; lia].
  - apply M64_safe_loop_fw. exact H0.
Qed.

End M64FastWrite.

(** Nothing outside the range of the write log was changed. *)
Lemma unchanged_outside lo hi m h a :
  extends lo (mkHeap m []) h -> wsafe lo hi h -> ~ (lo <= a < hi) ->
  cell h a = m a.
Proof.
  intros He Hw Ha. apply (extends_unlogged lo m h a He).
  intros Hin. unfold wsafe in Hw. rewrite Forall_forall in Hw.
  apply Ha. apply Hw. exact Hin.
Qed.

(** ** The scenarios of the specification *)

(** S1: the empty block decodes to nothing, with capacity 0 and with
    capacity 1, where the input is consumed. *)
Example scenario_S1 :
  ret_of (LZ4_decompress_safe false 1 (mem_of 1000 [0]) 1000 2000 1 0) = Some 0
  /\ ret_of (LZ4_decompress_safe false 1 (mem_of 1000 [0]) 1000 2000 1 1) = Some 0
  /\ option_map ip
       (final_of (LZ4_decompress_safe false 1 (mem_of 1000 [0]) 1000 2000 1 1))
     = Some 1001.
Proof. split; [|split]; vm_compute; reflexivity. Qed.

(** S2: five literals and no match. *)
Example scenario_S2 :
  ret_of (LZ4_decompress_safe false 6 (mem_of 1000 [80; 72; 101; 108; 108; 111])
                              1000 2000 6 5) = Some 5
  /\ option_map (fun s => bytes_at (hp s) 2000 5)
       (final_of (LZ4_decompress_safe false 6
                    (mem_of 1000 [80; 72; 101; 108; 108; 111]) 1000 2000 6 5))
     = Some [72; 101; 108; 108; 111].
Proof. split; vm_compute; reflexivity. Qed.

(** S4: a match with offset 1 and length 16 gives 16 copies of the byte
    before it, in the main loop and, with more room, through the fast
    loop. *)
Example scenario_S4 :
  option_map (fun s => bytes_at (hp s) 2000 22)
    (final_of (LZ4_decompress_safe false 10 (mem_of 1000 rle_block) 1000 2000 10 40))
  = Some (repeat 97 17 ++ [1; 2; 3; 4; 5])
  /\ option_map (fun s => bytes_at (hp s) 2000 22)
       (final_of (LZ4_decompress_safe true 10 (mem_of 1000 rle_block)
                                      1000 2000 10 100))
     = Some (repeat 97 17 ++ [1; 2; 3; 4; 5]).
Proof. split; vm_compute; reflexivity. Qed.

(** S5: a literal run of 270 bytes, its length spelled 15 + 255 + 0. *)
Example scenario_S5 :
  ret_of (LZ4_decompress_safe false 273
            (mem_of 1000 ([240; 255; 0] ++ repeat 7 270)) 1000 2000 273 270)
  = Some 270.
Proof. vm_compute. reflexivity. Qed.

(** S6: an offset that points before the output is an error. *)
Example scenario_S6 :
  ret_of (LZ4_decompress_safe false 20
            (mem_of 1000 [80; 1; 2; 3; 4; 5; 10; 0; 80; 1; 2; 3; 4; 5; 0; 0; 0; 0; 0; 0])
            1000 2000 20 40) = Some (-9).
Proof. vm_compute. reflexivity. Qed.

(** ** The claims *)

(** C1 fails on the code, by a slip of the code: the overflow test of a
    match length is made before [MINMATCH] is added to it (lines 545-553),
    so that [cpy = op + length] wraps when [op + length] ends in the last
    four bytes of the address space.  [LZ4_decompress_safe], given
    [long_match_block] and a buffer of 60 bytes that ends 40 bytes below
    the top of the address space, returns 107, more than the capacity,
    after five stores to the addresses 2 to 6, with the fast loop and
    without it. *)
Theorem C1_wild_write_at_top (fdl : bool) :
  exists s,
    M64.LZ4_decompress_safe fdl 11 (mem_of 1000 long_match_block)
                            1000 (2 ^ 64 - 100) 11 60 = Returned 107 s
    /\ op s = 7
    /\ firstn 5 (wlog (hp s)) = [6; 5; 4; 3; 2]
    /\ ~ Forall (fun a => 2 ^ 64 - 100 <= a < 2 ^ 64 - 100 + 60) (wlog (hp s)).
Proof.
  destruct fdl.
  - destruct (M64.LZ4_decompress_safe true 11 (mem_of 1000 long_match_block)
                1000 (2 ^ 64 - 100) 11 60) as [r s|] eqn:Hrun;
      [|vm_compute in Hrun; discriminate].
    assert (Hr : r = 107) by (vm_compute in Hrun; congruence).
    assert (Hop : op s = 7) by (vm_compute in Hrun; injection Hrun as _ <-; reflexivity).
    assert (Hw : firstn 5 (wlog (hp s)) = [6; 5; 4; 3; 2])
      by (vm_compute in Hrun; injection Hrun as _ <-; reflexivity).
    exists s. subst r. split; [reflexivity|]. split; [exact Hop|].
    split; [exact Hw|]. intros Hall.
    destruct (wlog (hp s)) as [|a l]; [discriminate|].
    injection Hw as -> _. inversion Hall as [|? ? Ha _]. lia.
  - destruct (M64.LZ4_decompress_safe false 11 (mem_of 1000 long_match_block)
                1000 (2 ^ 64 - 100) 11 60) as [r s|] eqn:Hrun;
      [|vm_compute in Hrun; discriminate].
    assert (Hr : r = 107) by (vm_compute in Hrun; congruence).
    assert (Hop : op s = 7) by (vm_compute in Hrun; injection Hrun as _ <-; reflexivity).
    assert (Hw : firstn 5 (wlog (hp s)) = [6; 5; 4; 3; 2])
      by (vm_compute in Hrun; injection Hrun as _ <-; reflexivity).
    exists s. subst r. split; [reflexivity|]. split; [exact Hop|].
    split; [exact Hw|]. intros Hall.
    destruct (wlog (hp s)) as [|a l]; [discriminate|].
    injection Hw as -> _. inversion Hall as [|? ? Ha _]. lia.
Qed.



(** C3 as stated fails in two places.  At output size 0
    [LZ4_decompress_safe] on the one-byte input 0x00 returns 0 from line
    203, before the loop, with the input cursor still at the start of the
    input, not at its end.  And the value [LZ4_decompress_fast] returns is
    an [int]: on a literal length spelled with 2^32 bytes 0xFF, a sum that
    wraps to 15, it fills an output of 15 bytes and returns 17 after
    reading 2^32 + 17 bytes. *)
Lemma C3_full_success_counterexample :
  (ret_of (M64.LZ4_decompress_safe false 1 (mem_of 1000 [0]) 1000 2000 1 0)
   = Some 0
   /\ option_map ip
        (final_of (M64.LZ4_decompress_safe false 1 (mem_of 1000 [0]) 1000 2000 1 0))
      = Some 1000
   /\ iend (safe_params 1000 2000 1 0) = 1001)
  /\ exists s,
       M64.LZ4_decompress_fast false (Z.to_nat (2 ^ 32 + 1))
         (long_length_memory 1000 (2 ^ 32)) 1000 (2 ^ 40) 15
       = Returned 17 s
       /\ ip s - 1000 = 2 ^ 32 + 17 /\ op s = 2 ^ 40 + 15.
Proof.
  split; [split; [|split]; vm_compute; reflexivity|].
  assert (Hb : run_byte (long_length_memory 1000 (2 ^ 32)) 1000
                        (Z.to_nat (2 ^ 32)) = 0).
  { unfold run_byte. rewrite Z2Nat.id by lia. vm_compute. reflexivity. }
  assert (Hl : run_length (long_length_memory 1000 (2 ^ 32)) 1000
                          (Z.to_nat (2 ^ 32)) = 15).
  { unfold run_length. rewrite Hb, Z2Nat.id by lia. vm_compute. reflexivity. }
  pose proof (long_run false (Z.to_nat (2 ^ 32 + 1))
                (long_length_memory 1000 (2 ^ 32)) 1000 (2 ^ 40) 15
                (Z.to_nat (2 ^ 32))) as Hrun.
  rewrite Hb, Hl, Z2Nat.id in Hrun by lia.
  rewrite Hrun.
  - unfold long_run_flow. rewrite Hl, Z.eqb_refl. cbn [after_body].
    unfold end_of_decoding. cbn [endIn endOnInput end_on_input ip src].
    rewrite Z2Nat.id by lia.
    eexists. split; [|split]; [reflexivity | cbn [ip]; lia | cbn [op]; lia].
  - vm_compute. reflexivity.
  - intros i Hi. unfold long_length_memory.
    replace (1000 + 1 + i =? 1000) with false by (symmetry; apply Z.eqb_neq; lia).
    replace (1000 <? 1000 + 1 + i) with true by (symmetry; apply Z.ltb_lt; lia).
    replace (1000 + 1 + i <=? 1000 + 2 ^ 32) with true
      by (symmetry; apply Z.leb_le; lia).
    reflexivity.
  - discriminate.
  - lia.
  - lia.
  - lia.
  - lia.
Qed.

(** C3, amended: when full-mode decoding returns a non-negative value,
    then in safe mode, with a non-zero output size and buffers clear of the
    ends of the address space, the input cursor is at the end of the input
    and the value is the number of output bytes written, [op - dst]; with
    output size 0 the value is 0, returned before the loop with the input
    cursor at the start of the input, which is the single byte 0x00.  In
    fast mode the output cursor is at the end of the output and the value
    is the number of input bytes read, [ip - src], as long as that number
    is below 2^31, the value being an [int]; with output size 0 the value
    is 1, for the one byte read, the token 0x00. *)
Theorem C3_full_success (fdl : bool) (p : params) (fuel : nat) (m : Z -> byte) :
  partial p = false ->
  0 <= srcSize p < 2 ^ 31 -> 0 <= outputSize p < 2 ^ 31 ->
  0 <= dst p -> dst p + outputSize p < 2 ^ 64 ->
  (endIn p = true -> outputSize p <> 0 -> 0 <= dictSize p /\ clear_of_top p) ->
  match M64.LZ4_decompress_generic fdl p fuel m with
  | Returned r s =>
      0 <= r ->
      if endIn p then
        if outputSize p =? 0
        then r = 0 /\ ip s = src p /\ srcSize p = 1 /\ u8 (m (src p)) = 0
        else ip s = iend p /\ r = op s - dst p
      else
        if outputSize p =? 0
        then r = 1 /\ op s = oend p /\ u8 (m (src p)) = 0
        else 0 <= ip s - src p < 2 ^ 31 -> op s = oend p /\ r = ip s - src p
  | OutOfFuel => endIn p = true -> Z.of_nat fuel < srcSize p
  end.
Proof.
  intros Hfull Hs Ho Hd Hdo Hclear.
  destruct (outputSize p =? 0) eqn:Hz.
  - (* the returns before the loops *)
    unfold M64.LZ4_decompress_generic. rewrite Hz. b2p.
    destruct (endIn p); cbn [andb negb ip op].
    + destruct ((srcSize p =? 1) && (u8 (m (src p)) =? 0)) eqn:Hc;
        intros Hr; [|lia]. b2p. auto.
    + destruct (u8 (m (src p)) =? 0) eqn:Hc; intros Hr; [|lia]. b2p.
      unfold oend. split; [reflexivity|]. split; [lia | assumption].
  - b2p. destruct (endIn p) eqn:Hin.
    + destruct (Hclear eq_refl Hz) as [Hdict Hc].
      rewrite (M64_generic_eq fdl p fuel Hin ltac:(lia) ltac:(lia) Hdict Hc m).
      pose proof (generic_safe_post fdl p fuel Hin ltac:(lia) ltac:(lia) m) as H.
      destruct (LZ4_decompress_generic _ _ _ _) as [r s|];
        cbn [generic_post] in *; [|intros _; exact H].
      intros Hr. pose proof (iend_eq p) as Hi. pose proof (oend_eq p) as He.
      destruct H as [(_ & _ & [[H Hrr]|[H Hrr]])|[H [[H0 _]|(_ & H1 & Hrr)]]].
      * destruct H as (_ & _ & Hop & Hend). rewrite to_int_id in Hrr by lia.
        split; [apply Hend; exact Hfull | exact Hrr].
      * destruct H as (_ & Hip). rewrite to_int_id in Hrr by lia. lia.
      * contradiction.
      * lia.
    + pose proof (M64_generic_full p fuel Hfull fdl m Hz) as Hf.
      destruct (M64.LZ4_decompress_generic _ _ _ _) as [r s|];
        cbn [M64_full_post] in *; [|discriminate].
      rewrite Hin in Hf. intros Hr Hrange.
      unfold M64.oend in Hf. rewrite uptrval_small in Hf by lia.
      destruct Hf as [[Hop Hrr]|Hrr].
      * rewrite to_int_id in Hrr by lia. split; assumption.
      * rewrite to_int_id in Hrr by lia. lia.
Qed.

(** The hypotheses of C3 are met by the block "Hello" and room for 5. *)
Lemma C3_full_success_witness :
  match M64.LZ4_decompress_generic false (safe_params 1000 65536 6 5) 6
                                   (mem_of 1000 [80; 72; 101; 108; 108; 111]) with
  | Returned r s =>
      0 <= r -> ip s = iend (safe_params 1000 65536 6 5) /\ r = op s - 65536
  | OutOfFuel => endIn (safe_params 1000 65536 6 5) = true -> Z.of_nat 6 < 6
  end.
Proof.
  apply (C3_full_success false (safe_params 1000 65536 6 5) 6
           (mem_of 1000 [80; 72; 101; 108; 108; 111]));
    cbn [srcSize outputSize dst safe_params]; try reflexivity; try lia.
  intros _ _. unfold clear_of_top.
  cbn [src dst srcSize outputSize dictSize safe_params]. lia.
Defined.

(** C4: in safe mode, with sizes in the range of [int] and buffers clear
    of the ends of the address space, a failure is signalled by a negative
    value computed from the input cursor at the point where the error was
    detected.  Whatever the loop, going to [_output_error] in a state [s]
    whose cursor is in the input returns [- (ip s - src) - 1], with [s]
    itself.  And every return of a whole run is of one of two kinds: a
    success, with a value that is not negative, out of the test of lines
    202-203 or out of a pass that ended in [break]; or a failure, with the
    negative value [- (ip - src) - 1], where [ip] is the cursor in the
    state in which a pass went to [_output_error], or is still [src] at
    the returns of -1 of lines 201-209. *)
Theorem C4_error_code (fdl : bool) (p : params) (fuel : nat) (m : Z -> byte) :
  endIn p = true -> 0 <= srcSize p < 2 ^ 31 -> 0 <= outputSize p < 2 ^ 31 ->
  0 <= dictSize p -> clear_of_top p ->
  (forall (k : state -> outcome) (s : state),
     src p <= ip s <= iend p ->
     after_body p k (OutputError s) = Returned (- (ip s - src p) - 1) s)
  /\ match M64.LZ4_decompress_generic fdl p fuel m with
     | Returned r s =>
         (0 <= r /\ (s = start p m \/ from_pass p fuel (Break s)))
         \/ (r < 0 /\ r = - (ip s - src p) - 1 /\ src p <= ip s <= iend p
             /\ (s = start p m \/ from_pass p fuel (OutputError s)))
     | OutOfFuel => Z.of_nat fuel < srcSize p
     end.
Proof.
  intros Hin Hs Ho Hdict Hclear. pose proof (iend_eq p) as Hi.
  pose proof (oend_eq p) as He. split.
  - intros k s Hip. cbn [after_body]. unfold output_error. f_equal.
    rewrite to_int_id by lia. reflexivity.
  - rewrite (M64_generic_eq fdl p fuel Hin ltac:(lia) ltac:(lia) Hdict Hclear m).
    pose proof (generic_safe_post fdl p fuel Hin ltac:(lia) ltac:(lia) m) as Ht.
    pose proof (generic_origin fdl p fuel Hin ltac:(lia) ltac:(lia) Hdict Hclear m)
      as H.
    destruct (LZ4_decompress_generic _ _ _ _) as [r s|];
      cbn [generic_post generic_origin_post] in *; [|exact Ht]. clear Ht.
    destruct H as [[H0 [[Hz Hr]|(Hz & Hsz & Hr)]]|[(Hf & Hx & Hr)|(Hf & Hx & Hr)]].
    + subst s. cbn [start ip].
      destruct ((srcSize p =? 1) && (u8 (m (src p)) =? 0)); subst r.
      * left. split; [lia | left; reflexivity].
      * right. split; [lia|]. split; [lia|]. split; [lia | left; reflexivity].
    + subst s r. cbn [start ip]. right.
      split; [lia|]. split; [lia|]. split; [lia | left; reflexivity].
    + left. destruct Hx as (_ & _ & Hop & _). rewrite to_int_id in Hr by lia.
      split; [lia | right; exact Hf].
    + right. destruct Hx as (_ & Hip). rewrite to_int_id in Hr by lia.
      split; [lia|]. split; [lia|]. split; [lia | right; exact Hf].
Qed.

(** The hypotheses of C4 are met by a block cut short after its token: the
    error is detected after one byte, and the value is -2. *)
Lemma C4_error_code_witness :
  ret_of (M64.LZ4_decompress_generic false (safe_params 1000 65536 3 4) 3
                                     (mem_of 1000 [80; 1; 2])) = Some (-2)
  /\ match M64.LZ4_decompress_generic false (safe_params 1000 65536 3 4) 3
                                      (mem_of 1000 [80; 1; 2]) with
     | Returned r s =>
         (0 <= r /\ (s = start (safe_params 1000 65536 3 4) (mem_of 1000 [80; 1; 2])
                     \/ from_pass (safe_params 1000 65536 3 4) 3 (Break s)))
         \/ (r < 0 /\ r = - (ip s - 1000) - 1 /\ 1000 <= ip s <= 1003
             /\ (s = start (safe_params 1000 65536 3 4) (mem_of 1000 [80; 1; 2])
                 \/ from_pass (safe_params 1000 65536 3 4) 3 (OutputError s)))
     | OutOfFuel => Z.of_nat 3 < 3
     end.
Proof.
  split; [vm_compute; reflexivity|].
  refine (proj2 (C4_error_code false (safe_params 1000 65536 3 4) 3
                   (mem_of 1000 [80; 1; 2]) eq_refl _ _ _ _));
    cbn [srcSize outputSize dictSize safe_params]; try lia.
  unfold clear_of_top. cbn [src dst srcSize outputSize dictSize safe_params]. lia.
Defined.

(** C5 as stated fails: [LZ4_decompress_safe] accepts a block whose first
    sequence has offset 0.  It returns 10, and the match log shows the match
    copy at [dest + 1] with offset 0 and length 4. *)
Lemma C5_zero_offset_counterexample :
  LZ4_readLE16 (mkHeap (mem_of 1000 zero_offset_block) []) 1002 = 0
  /\ ret_of (LZ4_decompress_safe false 10 (mem_of 1000 zero_offset_block)
                                 1000 2000 10 22) = Some 10
  /\ option_map mlog
       (final_of (LZ4_decompress_safe false 10 (mem_of 1000 zero_offset_block)
                                      1000 2000 10 22))
     = Some [mkMatch 2001 0 4].
Proof.
  split; [|split]; vm_compute; reflexivity.
Qed.

(** C5, amended: the decoder has no test for a zero offset.  An offset
    field of zero gives [match = op]; the one test on the offset, the range
    check [match + dictSize < lowPrefix], lets it through as soon as
    [lowPrefix <= op + dictSize], and the match copy is started with its
    source equal to its destination, in the main loop and in the fast loop
    alike. *)
Theorem C5_zero_offset (p : params) (fuel : nat) (s : state) (token : Z) :
  lowPrefix p <= op s + dictSize p ->
  LZ4_readLE16 (hp s) (ip s) = 0 ->
  let ML := Z.land token ML_MASK in
  let s2 := set_ip s (ip s + 2) in
  offset_out_of_range p (op s - 0) = false
  /\ get_offset p fuel s token = copy_match_length p fuel s2 ML 0 (op s)
  /\ (ML <> 15 ->
      get_offset p fuel s token = safe_match_copy p s2 (ML + MINMATCH) 0 (op s)
      /\ fast_match p fuel s token
         = if op s + (ML + MINMATCH) >=? oend p - FASTLOOP_SAFE_DISTANCE
           then Safe (safe_match_copy p s2 (ML + MINMATCH) 0 (op s))
           else fast_copy_match s2 (ML + MINMATCH) 0 (op s))
  /\ (forall length, logs_match s2 0 length (safe_match_copy p s2 length 0 (op s))).
Proof.
  intros Hlow Hoff ML s2.
  assert (Hr : offset_out_of_range p (op s - 0) = false).
  { unfold offset_out_of_range. rewrite Z.sub_0_r.
    replace (op s + dictSize p <? lowPrefix p) with false
      by (symmetry; apply Z.ltb_ge; lia).
    apply andb_false_r. }
  split; [exact Hr|]. split; [|split].
  - unfold get_offset, copy_match. rewrite Hoff.
    unfold set_ip in *. cbn [ip op hp mlog] in *. rewrite Hr.
    rewrite Z.sub_0_r. reflexivity.
  - intros HML. split.
    + unfold get_offset, copy_match, copy_match_length. rewrite Hoff.
      unfold set_ip in *. cbn [ip op hp mlog] in *. rewrite Hr.
      fold ML. replace (ML =? ML_MASK) with false
        by (symmetry; apply Z.eqb_neq; exact HML).
      rewrite Z.sub_0_r. reflexivity.
    + unfold fast_match. rewrite Hoff.
      unfold set_ip in *. cbn [ip op hp mlog] in *. rewrite Hr.
      fold ML. replace (ML =? ML_MASK) with false
        by (symmetry; apply Z.eqb_neq; exact HML).
      rewrite Z.sub_0_r. cbn [Z.geb Z.compare andb]. rewrite andb_false_r.
      reflexivity.
  - intros length. unfold safe_match_copy, logs_match, log_match, set_op, set_hp.
    cbn [ip op hp mlog].
    destruct (copy_match_head (hp s2) (op s2) (op s) 0) as [h m1].
    repeat match goal with
    | |- context [if ?c then _ else _] => destruct c
    end; reflexivity.
Qed.

(** The hypotheses of C5 are met at the match of [zero_offset_block]. *)
Lemma C5_zero_offset_witness :
  offset_out_of_range (safe_params 1000 2000 10 22) (2001 - 0) = false.
Proof.
  refine (proj1 (C5_zero_offset (safe_params 1000 2000 10 22) 1
            (mkState 1002 2001 (mkHeap (mem_of 1000 zero_offset_block) []) []) 16
            _ _)).
  - vm_compute. discriminate.
  - vm_compute. reflexivity.
Defined.

(** C6 as stated fails: in partial mode, a literal run of 5 that extends
    past an output of 4 bytes is clamped to 4, but the input holds only 2
    more bytes, and the decoder returns the error -2 instead of terminating
    successfully.  (And by the slip of C1 its second half fails where the
    output ends 40 bytes below the top of the address space: on
    [long_match_block] a partial decode into 60 bytes returns 107.) *)
Lemma C6_partial_clamp_counterexample :
  partial (partial_params 1000 2000 3 4) = true
  /\ safe_literal_copy (partial_params 1000 2000 3 4) 3
       (mkState 1001 2000 (mkHeap (mem_of 1000 [80; 1; 2]) []) []) 80 5 2005
     = OutputError (mkState 1001 2000 (mkHeap (mem_of 1000 [80; 1; 2]) []) [])
  /\ M64.safe_literal_copy (partial_params 1000 2000 3 4) 3
       (mkState 1001 2000 (mkHeap (mem_of 1000 [80; 1; 2]) []) []) 80 5 2005
     = OutputError (mkState 1001 2000 (mkHeap (mem_of 1000 [80; 1; 2]) []) [])
  /\ ret_of (M64.LZ4_decompress_generic false (partial_params 1000 2000 3 4) 3
                                        (mem_of 1000 [80; 1; 2])) = Some (-2)
  /\ ret_of (M64.LZ4_decompress_generic false
               (partial_params 1000 (2 ^ 64 - 100) 11 60) 11
               (mem_of 1000 long_match_block)) = Some 107.
Proof.
  split; [|split; [|split; [|split]]]; vm_compute; reflexivity.
Qed.

(** C6, amended: in partial safe mode, when a literal run would extend past
    the output end, the length is clamped to [oend - op]; if the clamped
    run extends past the input end the decoder goes to [_output_error];
    otherwise it copies exactly the clamped run, which ends at [oend], and
    breaks out of the loop, and the function returns the output size.
    With buffers clear of the ends of the address space the decoder of
    [M64] does the same, and every non-negative value it returns in
    partial safe mode is at most the output size and is the number of
    bytes written, [op - dst]. *)
Theorem C6_partial_clamp (fdl : bool) (p : params) (fuel : nat) (m : Z -> byte)
  (s : state) (token length : Z) :
  partial p = true -> endIn p = true ->
  0 <= srcSize p < 2 ^ 31 -> 0 <= outputSize p < 2 ^ 31 ->
  (dst p <= op s <= oend p -> oend p < op s + length ->
   let n := oend p - op s in
   let s' := mkState (ip s + n) (op s + n)
                     (LZ4_memmove (hp s) (op s) (ip s) n) (mlog s) in
   safe_literal_copy p fuel s token length (op s + length)
   = (if ip s + n >? iend p then OutputError s else Break s')
   /\ op s' = oend p
   /\ end_of_decoding p s' = Returned (outputSize p) s')
  /\ (0 <= dictSize p -> clear_of_top p ->
      (src p <= ip s <= iend p -> dst p <= op s <= oend p ->
       0 <= length <= longest p + 15 -> ip s + length < 2 ^ 64 -> 0 <= token ->
       M64.safe_literal_copy p fuel s token length (op s + length)
       = safe_literal_copy p fuel s token length (op s + length))
      /\ match M64.LZ4_decompress_generic fdl p fuel m with
         | Returned r s' => 0 <= r -> r <= outputSize p /\ r = op s' - dst p
         | OutOfFuel => Z.of_nat fuel < srcSize p
         end).
Proof.
  intros Hp Hin Hs Ho. pose proof (oend_eq p) as He. split.
  - intros Hop Hclamp n s'. split; [|split].
    + unfold safe_literal_copy, near_end. rewrite Hp, Hin. cbn [andb negb orb].
      replace (op s + length >? oend p - MFLIMIT) with true
        by (symmetry; rewrite Z.gtb_ltb; apply Z.ltb_lt; unfold MFLIMIT; lia).
      replace (op s + length >? oend p) with true
        by (symmetry; rewrite Z.gtb_ltb; apply Z.ltb_lt; lia).
      cbn [orb]. rewrite size_t_small by lia. fold n.
      destruct (ip s + n >? iend p); [reflexivity|].
      rewrite Z.eqb_refl. reflexivity.
    + subst s' n. cbn [op]. lia.
    + subst s' n. unfold end_of_decoding. rewrite Hin. cbn [op]. f_equal.
      rewrite to_int_id; lia.
  - intros Hdict Hclear. split.
    + intros Hip Hop Hlen Hipl Htok.
      apply (M64_safe_literal_copy_eq p fuel Hin ltac:(lia) ltac:(lia) Hdict Hclear);
        assumption.
    + rewrite (M64_generic_eq fdl p fuel Hin ltac:(lia) ltac:(lia) Hdict Hclear m).
      pose proof (generic_safe_post fdl p fuel Hin ltac:(lia) ltac:(lia) m) as H.
      destruct (LZ4_decompress_generic _ _ _ _) as [r s'|]; cbn [generic_post] in H;
        [|exact H].
      intros Hr. pose proof (iend_eq p) as Hi.
      destruct H as [(_ & _ & [[H Hrr]|[H Hrr]])|[H [[H0 Hrr]|(_ & H1 & Hrr)]]].
      * destruct H as (_ & _ & Hop & _). rewrite to_int_id in Hrr by lia. lia.
      * destruct H as (_ & Hip). rewrite to_int_id in Hrr by lia. lia.
      * subst s'. cbn [op].
        destruct ((srcSize p =? 1) && (u8 (m (src p)) =? 0)); lia.
      * lia.
Qed.

(** The hypotheses of C6 are met by a run of 5 literals and room for 4. *)
Lemma C6_partial_clamp_witness :
  ret_of (M64.LZ4_decompress_generic false (partial_params 1000 65536 6 4) 6
                                     (mem_of 1000 [80; 1; 2; 3; 4; 5])) = Some 4
  /\ match M64.LZ4_decompress_generic false (partial_params 1000 65536 6 4) 6
                                      (mem_of 1000 [80; 1; 2; 3; 4; 5]) with
     | Returned r s' => 0 <= r -> r <= 4 /\ r = op s' - 65536
     | OutOfFuel => Z.of_nat 6 < 6
     end.
Proof.
  split; [vm_compute; reflexivity|].
  refine (proj2 (proj2 (C6_partial_clamp false (partial_params 1000 65536 6 4) 6
                   (mem_of 1000 [80; 1; 2; 3; 4; 5])
                   (mkState 1001 65536 (mkHeap (mem_of 1000 [80; 1; 2; 3; 4; 5]) []) [])
                   80 5 eq_refl eq_refl _ _) _ _));
    cbn [srcSize outputSize dictSize partial_params]; try lia.
  unfold clear_of_top. cbn [src dst srcSize outputSize dictSize partial_params]. lia.
Defined.

(** C7: a match copy with offset 1 and length N at [op] leaves the byte
    that was at [op - 1] in each of the N positions from [op] on: in the
    main loop in full mode, and in the fast loop through
    [LZ4_memcpy_using_offset].  In partial mode, where the copy stops at
    the end of the output, the same holds for the positions it writes, the
    first [min N (oend - op)]. *)
Theorem C7_offset_one_run (p : params) (s s' : state) (N : Z) :
  (partial p = false ->
   safe_match_copy p s N 1 (op s - 1) = Continue s' ->
   forall i, 0 <= i < N -> cell (hp s') (op s + i) = cell (hp s) (op s - 1))
  /\ (fast_copy_match s N 1 (op s - 1) = Fast s' ->
      forall i, 0 <= i < N -> cell (hp s') (op s + i) = cell (hp s) (op s - 1))
  /\ (partial p = true -> 0 <= oend p - op s < 2 ^ 64 ->
      safe_match_copy p s N 1 (op s - 1) = Continue s'
      \/ safe_match_copy p s N 1 (op s - 1) = Break s' ->
      forall i, 0 <= i < Z.min N (oend p - op s) ->
                cell (hp s') (op s + i) = cell (hp s) (op s - 1)).
Proof.
  split; [|split].
  - intros Hfull Hrun i Hi.
    apply (safe_match_copy_fill p s s' N); [rewrite Hfull; reflexivity | exact Hrun | lia].
  - intros Hrun i Hi. apply (fast_copy_match_fill s s' N Hrun). lia.
  - intros Hp Hsz Hrun i Hi.
    destruct (partial p && (op s + N >? oend p - MATCH_SAFEGUARD_DISTANCE)) eqn:Hc.
    + apply (safe_match_copy_partial_fill p s s' N Hc Hsz Hrun). lia.
    + destruct Hrun as [Hrun|Hrun].
      * apply (safe_match_copy_fill p s s' N Hc Hrun). lia.
      * exfalso. unfold safe_match_copy, log_match, set_op, set_hp in Hrun.
        cbn [ip op hp mlog] in Hrun. rewrite Hc in Hrun.
        destruct (copy_match_head _ _ _ _) as [h1 m1].
        repeat match type of Hrun with
        | context [if ?c then _ else _] => destruct c
        end; discriminate.
Qed.
(** C7 at the match of [rle_block], in [LZ4_decompress_safe] with room for
    40 bytes: the last of the 16 bytes is the "a" before them. *)
Lemma C7_offset_one_run_witness :
  exists s',
    safe_match_copy (safe_params 1000 2000 10 40)
      (mkState 1004 2001 (mkHeap (mem_of 2000 [97]) []) []) 16 1 (2001 - 1)
    = Continue s'
    /\ cell (hp s') (2001 + 15) = byte_of 97.
Proof.
  destruct (safe_match_copy (safe_params 1000 2000 10 40)
              (mkState 1004 2001 (mkHeap (mem_of 2000 [97]) []) []) 16 1 (2001 - 1))
    as [s'|s'|s'|] eqn:Hrun; try (vm_compute in Hrun; discriminate).
  exists s'. split; [reflexivity|].
  exact (proj1 (C7_offset_one_run (safe_params 1000 2000 10 40)
                  (mkState 1004 2001 (mkHeap (mem_of 2000 [97]) []) []) s' 16)
               eq_refl Hrun 15 ltac:(lia)).
Defined.





(** C9: in safe mode with output capacity 0 the decoder returns 0 exactly
    when the input is the single byte 0x00 and -1 otherwise; in fast mode
    with original size 0 it returns 1 exactly when the first input byte is
    0x00 and -1 otherwise; in safe mode an input of size 0 returns -1
    whatever the capacity.  In each case it returns before either loop,
    for every fuel and with or without the fast loop. *)
Theorem C9_degenerate_sizes (fdl : bool) (fuel : nat) (m : Z -> byte)
  (source dest size : Z) :
  ret_of (LZ4_decompress_safe fdl fuel m source dest size 0)
    = Some (if (size =? 1) && (u8 (m source) =? 0) then 0 else -1)
  /\ ret_of (LZ4_decompress_fast fdl fuel m source dest 0)
    = Some (if u8 (m source) =? 0 then 1 else -1)
  /\ ret_of (LZ4_decompress_safe fdl fuel m source dest 0 size) = Some (-1).
Proof.
  unfold LZ4_decompress_safe, LZ4_decompress_fast, LZ4_decompress_generic,
    safe_params, fast_params, endIn, partial.
  cbn [endOnInput outputSize srcSize end_on_input andb negb ip src].
  split; [|split].
  - rewrite Z.eqb_refl. reflexivity.
  - rewrite Z.eqb_refl. reflexivity.
  - destruct (size =? 0) eqn:Hs.
    + cbn [Z.eqb andb]. reflexivity.
    + rewrite Z.eqb_refl. reflexivity.
Qed.

(** C10: in partial safe mode, after a literal copy through the bounded
    branch which leaves the output unfilled, the loop breaks as soon as
    [ip >= iend - 2], that is when at most two bytes of input remain, and so
    whenever fewer than two remain; the function then returns the number of
    bytes written so far, and the bytes that remain in the input are not
    looked at. *)
Theorem C10_partial_input_exhausted (p : params) (fuel : nat) (s : state)
  (token length : Z) (k : state -> outcome) :
  partial p = true -> endIn p = true -> 0 <= outputSize p < 2 ^ 31 ->
  dst p <= op s -> 0 <= length ->
  near_end p s length (op s + length) = true ->
  op s + length < oend p ->
  ip s + length <= iend p ->
  iend p - 2 <= ip s + length ->
  let s' := mkState (ip s + length) (op s + length)
                    (LZ4_memmove (hp s) (op s) (ip s) length) (mlog s) in
  safe_literal_copy p fuel s token length (op s + length) = Break s'
  /\ after_body p k (Break s') = Returned (op s' - dst p) s'
  /\ op s' < oend p.
Proof.
  intros Hp Hin Ho Hop Hlen Hnear Hroom Hlit Hrest s'.
  pose proof (oend_eq p) as He. split; [|split].
  - unfold safe_literal_copy. rewrite Hnear, Hp, Hin. cbn [andb negb orb].
    replace (op s + length >? oend p) with false
      by (symmetry; rewrite Z.gtb_ltb; apply Z.ltb_ge; lia).
    replace (ip s + length >? iend p) with false
      by (symmetry; rewrite Z.gtb_ltb; apply Z.ltb_ge; lia).
    cbn [ip op].
    replace (ip s + length >=? iend p - 2) with true
      by (symmetry; rewrite Z.geb_leb; apply Z.leb_le; lia).
    rewrite orb_true_r. reflexivity.
  - subst s'. cbn [after_body]. unfold end_of_decoding. rewrite Hin. f_equal.
    apply to_int_id. cbn [op]. lia.
  - subst s'. cbn [op]. exact Hroom.
Qed.

(** The hypotheses of C10 are met by three literals followed by two more
    bytes, with room for 20: the two bytes are left unread. *)
Lemma C10_partial_input_exhausted_witness :
  safe_literal_copy (partial_params 1000 2000 6 20) 6
    (mkState 1001 2000 (mkHeap (mem_of 1000 [48; 1; 2; 3; 9; 9]) []) []) 48 3
    (2000 + 3)
  = Break (mkState (1001 + 3) (2000 + 3)
             (LZ4_memmove (mkHeap (mem_of 1000 [48; 1; 2; 3; 9; 9]) [])
                          2000 1001 3) [])
  /\ ret_of (LZ4_decompress_generic false (partial_params 1000 2000 6 20) 6
                                    (mem_of 1000 [48; 1; 2; 3; 9; 9])) = Some 3.
Proof.
  split; [|vm_compute; reflexivity].
  refine (proj1 (C10_partial_input_exhausted (partial_params 1000 2000 6 20) 6
                   (mkState 1001 2000 (mkHeap (mem_of 1000 [48; 1; 2; 3; 9; 9]) []) [])
                   48 3 (fun _ => OutOfFuel) eq_refl eq_refl _ _ _ _ _ _ _));
    try (vm_compute; reflexivity); try (vm_compute; discriminate);
    cbn [outputSize partial_params]; lia.
Defined.

(** ** Further properties of the decoder *)

(** X1: in safe mode, with buffers clear of the ends of the address space,
    the decoder of [M64] stores to no address below [dst]; every byte that
    is not in its write log, inside the output buffer as well as outside,
    is as it was at the call; and the output cursor it returns with is not
    below [dst]. *)
Theorem X1_no_store_below_dst (fdl : bool) (p : params) (fuel : nat)
  (m : Z -> byte) :
  endIn p = true -> 0 <= srcSize p -> 0 <= outputSize p < 2 ^ 63 ->
  0 <= dictSize p -> clear_of_top p ->
  match M64.LZ4_decompress_generic fdl p fuel m with
  | Returned _ s =>
      Forall (fun a => dst p <= a) (wlog (hp s))
      /\ (forall a, ~ In a (wlog (hp s)) -> cell (hp s) a = m a)
      /\ dst p <= op s
  | OutOfFuel => Z.of_nat fuel < srcSize p
  end.
Proof.
  intros Hin Hs Ho Hdict Hclear.
  rewrite (M64_generic_eq fdl p fuel Hin Hs Ho Hdict Hclear m).
  pose proof (generic_frame p fuel fdl m) as H.
  pose proof (generic_safe_post fdl p fuel Hin Hs ltac:(lia) m) as Ht.
  destruct (LZ4_decompress_generic fdl p fuel m) as [r s|]; [|exact Ht].
  destruct H as [He Hop]. split; [|split].
  - exact (extends_log_from _ _ _ He).
  - intros a Ha. exact (extends_unlogged _ _ _ _ He Ha).
  - exact Hop.
Qed.

(** X1 on the block "Hello". *)
Lemma X1_no_store_below_dst_witness :
  match M64.LZ4_decompress_generic false (safe_params 1000 65536 6 5) 6
                                   (mem_of 1000 [80; 72; 101; 108; 108; 111]) with
  | Returned _ s =>
      Forall (fun a => 65536 <= a) (wlog (hp s))
      /\ (forall a, ~ In a (wlog (hp s)) ->
                    cell (hp s) a = mem_of 1000 [80; 72; 101; 108; 108; 111] a)
      /\ 65536 <= op s
  | OutOfFuel => Z.of_nat 6 < 6
  end.
Proof.
  apply (X1_no_store_below_dst false (safe_params 1000 65536 6 5) 6
           (mem_of 1000 [80; 72; 101; 108; 108; 111]));
    try reflexivity; cbn [srcSize outputSize dictSize safe_params]; try lia.
  unfold clear_of_top. cbn [src dst srcSize outputSize dictSize safe_params]. lia.
Defined.

(** X2: in safe mode, with buffers clear of the ends of the address space,
    a byte below the output cursor is final.  One pass of the decoder of
    [M64] through the body of the main loop or of the fast loop, started
    at a loop head, however it ends, leaves every byte below the output
    cursor it started with as it was and does not move the cursor back; so
    the same holds from any loop head to the end of the run. *)
Theorem X2_output_is_final (p : params) (fuel n : nat) (s : state) :
  endIn p = true -> 0 <= srcSize p -> 0 <= outputSize p < 2 ^ 63 ->
  0 <= dictSize p -> clear_of_top p -> head_inv p s ->
  match M64.safe_iter p fuel s with
  | Continue s' | Break s' | OutputError s' =>
      op s <= op s' /\ forall a, a < op s -> cell (hp s') a = cell (hp s) a
  | Starved => True
  end
  /\ match M64.safe_loop p fuel n s with
     | Returned _ s' =>
         op s <= op s' /\ forall a, a < op s -> cell (hp s') a = cell (hp s) a
     | OutOfFuel => True
     end
  /\ (op s <= oend p - 64 ->
      match M64.fast_iter p fuel s with
      | Fast s' | Safe (Continue s') | Safe (Break s') | Safe (OutputError s') =>
          op s <= op s' /\ forall a, a < op s -> cell (hp s') a = cell (hp s) a
      | Safe Starved => True
      end
      /\ match M64.fast_loop p fuel n s with
         | Returned _ s' =>
             op s <= op s' /\ forall a, a < op s -> cell (hp s') a = cell (hp s) a
         | OutOfFuel => True
         end).
Proof.
  intros Hin Hs Ho Hdict Hclear Hinv.
  assert (Hb : forall s', extends (op s) (hp s) (hp s') /\ op s <= op s' ->
               op s <= op s'
               /\ forall a, a < op s -> cell (hp s') a = cell (hp s) a).
  { intros s' [He Hle]. split; [exact Hle|].
    intros a Ha. exact (extends_below _ _ _ _ He Ha). }
  split; [|split; [|intros Hfar; split]].
  - rewrite (M64_safe_iter_eq p fuel Hin Hs Ho Hdict Hclear s Hinv).
    pose proof (safe_iter_frame p fuel s) as H.
    destruct (safe_iter p fuel s) as [s'|s'|s'|]; cbn [frame_post] in H;
      try exact I; apply Hb; exact H.
  - rewrite (M64_safe_loop_eq p fuel Hin Hs Ho Hdict Hclear n s Hinv).
    pose proof (safe_loop_frame p fuel n s (op s) (hp s)
                  (extends_refl _ _) (Z.le_refl _)) as H.
    destruct (safe_loop p fuel n s) as [r s'|]; [|exact I]. apply Hb. exact H.
  - rewrite (M64_fast_iter_eq p fuel Hin Hs Ho Hdict Hclear s Hinv Hfar).
    pose proof (fast_iter_frame p fuel s) as H.
    destruct (fast_iter p fuel s) as [s'|[s'|s'|s'|]];
      cbn [fast_frame_post frame_post] in H; try exact I; apply Hb; exact H.
  - rewrite (M64_fast_loop_eq p fuel Hin Hs Ho Hdict Hclear n s Hinv Hfar).
    pose proof (fast_loop_frame p fuel n s (op s) (hp s)
                  (extends_refl _ _) (Z.le_refl _)) as H.
    destruct (fast_loop p fuel n s) as [r s'|]; [|exact I]. apply Hb. exact H.
Qed.

(** X2 at the start of the decoding of the block "Hello". *)
Lemma X2_output_is_final_witness :
  match M64.safe_iter (safe_params 1000 65536 6 5) 6
          (start (safe_params 1000 65536 6 5)
                 (mem_of 1000 [80; 72; 101; 108; 108; 111])) with
  | Continue s' | Break s' | OutputError s' =>
      65536 <= op s'
      /\ forall a, a < 65536 ->
           cell (hp s') a = mem_of 1000 [80; 72; 101; 108; 108; 111] a
  | Starved => True
  end.
Proof.
  refine (proj1 (X2_output_is_final (safe_params 1000 65536 6 5) 6 6
                   (start (safe_params 1000 65536 6 5)
                          (mem_of 1000 [80; 72; 101; 108; 108; 111]))
                   eq_refl _ _ _ _ _));
    cbn [srcSize outputSize dictSize safe_params]; try lia.
  - unfold clear_of_top. cbn [src dst srcSize outputSize dictSize safe_params]. lia.
  - unfold head_inv, W, wsafe, iend, oend, start.
    cbn [ip op hp wlog src dst srcSize outputSize safe_params].
    split; [constructor | lia].
Defined.

(** X3: with buffers clear of the ends of the address space,
    [LZ4_decompress_safe] as the 64-bit machine runs it stores inside
    [dest, dest + maxDecompressedSize) only, whatever the input: every
    address in its write log lies in that range, and when it returns every
    byte outside that range, the input among them, is as it was at the
    call.  And it does return: it can only run out of fuel when the fuel
    is below the input size. *)
Theorem X3_safe_changes_output_only (fdl : bool) (fuel : nat) (m : Z -> byte)
  (source dest compressedSize maxDecompressedSize : Z) :
  0 <= compressedSize -> 0 <= maxDecompressedSize < 2 ^ 63 ->
  clear_of_top (safe_params source dest compressedSize maxDecompressedSize) ->
  match M64.LZ4_decompress_safe fdl fuel m source dest compressedSize
                                maxDecompressedSize with
  | Returned _ s =>
      Forall (fun a => dest <= a < dest + maxDecompressedSize) (wlog (hp s))
      /\ forall a, ~ (dest <= a < dest + maxDecompressedSize) ->
                   cell (hp s) a = m a
  | OutOfFuel => Z.of_nat fuel < compressedSize
  end.
Proof.
  intros Hs Ho Hclear. unfold M64.LZ4_decompress_safe.
  set (p := safe_params source dest compressedSize maxDecompressedSize) in *.
  rewrite (M64_generic_eq fdl p fuel eq_refl Hs Ho (Z.le_refl 0) Hclear m).
  pose proof (generic_wr p fuel eq_refl eq_refl fdl m) as Hw.
  pose proof (generic_frame p fuel fdl m) as Hf.
  pose proof (generic_safe_post fdl p fuel eq_refl Hs ltac:(cbn; lia) m) as Ht.
  destruct (LZ4_decompress_generic fdl p fuel m) as [r s|] eqn:Hrun;
    [|exact Ht].
  destruct Hf as [He _]. split; [exact Hw|]. intros a Ha.
  exact (unchanged_outside _ _ _ _ _ He Hw Ha).
Qed.

(** X3 on the block "Hello". *)
Lemma X3_safe_changes_output_only_witness :
  match M64.LZ4_decompress_safe false 6 (mem_of 1000 [80; 72; 101; 108; 108; 111])
                                1000 65536 6 5 with
  | Returned _ s =>
      Forall (fun a => 65536 <= a < 65536 + 5) (wlog (hp s))
      /\ forall a, ~ (65536 <= a < 65536 + 5) ->
                   cell (hp s) a = mem_of 1000 [80; 72; 101; 108; 108; 111] a
  | OutOfFuel => Z.of_nat 6 < 6
  end.
Proof.
  apply (X3_safe_changes_output_only false 6
           (mem_of 1000 [80; 72; 101; 108; 108; 111]) 1000 65536 6 5); try lia.
  unfold clear_of_top.
  cbn [src dst srcSize outputSize dictSize safe_params]. lia.
Defined.

(** X4: whatever the input, [LZ4_decompress_fast] as the 64-bit machine
    runs it stores to no address outside [dest, dest + originalSize), and
    when it returns every byte outside that range is as it was at the
    call, provided [originalSize] is in the range of [int] and the output
    buffer is clear of the ends of the address space: at least 64 bytes
    above the bottom, and ending 2^32 + 64 bytes below the top, which no
    length reaches past.  Nothing is asked of the input, which the
    decoder may read to the end of the address space and beyond. *)
Theorem X4_fast_no_wild_writes (fdl : bool) (fuel : nat) (m : Z -> byte)
  (source dest originalSize : Z) :
  0 <= originalSize < 2 ^ 31 -> 64 <= dest ->
  dest + originalSize + 2 ^ 32 + 64 <= 2 ^ 64 ->
  match M64.LZ4_decompress_fast fdl fuel m source dest originalSize with
  | Returned _ s =>
      Forall (fun a => dest <= a < dest + originalSize) (wlog (hp s))
      /\ forall a, ~ (dest <= a < dest + originalSize) -> cell (hp s) a = m a
  | OutOfFuel => True
  end.
Proof.
  intros Hs Hd Htop. unfold M64.LZ4_decompress_fast.
  set (p := mkParams source dest 0 originalSize endOnOutputSize decode_full_block
                     withPrefix64k (uptrval (dest - 64 * KB)) 0 0).
  pose proof (M64_generic_fw p fuel m eq_refl eq_refl Hs (conj Hd Htop) fdl)
    as H.
  destruct (M64.LZ4_decompress_generic fdl p fuel m) as [r s|]; [|exact I].
  destruct H as [Hw Hk]. split; [exact Hw|].
  intros a Ha. apply Hk. intros Hin. apply Ha.
  unfold W, wsafe in Hw. rewrite Forall_forall in Hw. exact (Hw a Hin).
Qed.

(** X4 on a block of five literals. *)
Lemma X4_fast_no_wild_writes_witness :
  match M64.LZ4_decompress_fast false 6 (mem_of 1000 [80; 72; 101; 108; 108; 111])
                                1000 65536 5 with
  | Returned _ s =>
      Forall (fun a => 65536 <= a < 65536 + 5) (wlog (hp s))
      /\ forall a, ~ (65536 <= a < 65536 + 5) ->
                   cell (hp s) a = mem_of 1000 [80; 72; 101; 108; 108; 111] a
  | OutOfFuel => True
  end.
Proof.
  apply (X4_fast_no_wild_writes false 6
           (mem_of 1000 [80; 72; 101; 108; 108; 111]) 1000 65536 5); lia.
Defined.

(** X5: with [endOnInputSize], in partial mode as in full mode and
    whatever the dictionary directive, with buffers clear of the ends of
    the address space, a run of the decoder of [M64] stores to no address
    outside [dst, dst + outputSize) and leaves every byte outside that
    range as it was; and it can only run out of fuel when the fuel is
    below the input size. *)
Theorem X5_partial_no_wild_writes (fdl : bool) (p : params) (fuel : nat)
  (m : Z -> byte) :
  endIn p = true -> 0 <= srcSize p -> 0 <= outputSize p < 2 ^ 63 ->
  0 <= dictSize p -> clear_of_top p ->
  match M64.LZ4_decompress_generic fdl p fuel m with
  | Returned _ s =>
      Forall (fun a => dst p <= a < dst p + outputSize p) (wlog (hp s))
      /\ forall a, ~ (dst p <= a < dst p + outputSize p) -> cell (hp s) a = m a
  | OutOfFuel => Z.of_nat fuel < srcSize p
  end.
Proof.
  intros Hin Hs Ho Hdict Hclear.
  rewrite (M64_generic_eq fdl p fuel Hin Hs Ho Hdict Hclear m).
  pose proof (generic_safe_post fdl p fuel Hin Hs ltac:(lia) m) as H.
  pose proof (generic_frame p fuel fdl m) as Hf.
  destruct (LZ4_decompress_generic fdl p fuel m) as [r s|];
    cbn [generic_post] in H; [|exact H].
  destruct Hf as [He _].
  assert (Hw : wsafe (dst p) (oend p) (hp s)).
  { destruct H as [(_ & _ & [[H _]|[H _]])|[H _]].
    - apply H.
    - apply H.
    - subst s. constructor. }
  split; [exact Hw|].
  intros a Ha. exact (unchanged_outside _ _ _ _ _ He Hw Ha).
Qed.

(** X5 on a block of five literals decoded into room for four. *)
Lemma X5_partial_no_wild_writes_witness :
  match M64.LZ4_decompress_generic false (partial_params 1000 65536 6 4) 6
                                   (mem_of 1000 [80; 1; 2; 3; 4; 5]) with
  | Returned _ s =>
      Forall (fun a => 65536 <= a < 65536 + 4) (wlog (hp s))
      /\ forall a, ~ (65536 <= a < 65536 + 4) ->
                   cell (hp s) a = mem_of 1000 [80; 1; 2; 3; 4; 5] a
  | OutOfFuel => Z.of_nat 6 < 6
  end.
Proof.
  apply (X5_partial_no_wild_writes false (partial_params 1000 65536 6 4) 6
           (mem_of 1000 [80; 1; 2; 3; 4; 5]));
    try reflexivity; cbn [srcSize outputSize dictSize partial_params]; try lia.
  unfold clear_of_top. cbn [src dst srcSize outputSize dictSize partial_params]. lia.
Defined.



(** X7: [LZ4_wildCopy32] may store beyond [dstEnd], but not far: every
    address it stores to is in [d, max (d + 32) (e + 31)).  It copies
    [e - d] bytes from [s] to [d] when the destination does not start
    inside the source; and when the destination is 16 bytes or more after
    the source, each byte of [d, e) is the byte [d - s] before it, as a
    match copy needs. *)
Theorem X7_wildCopy32 (m : Z -> byte) (d s e : Z) :
  Forall (fun a => d <= a < Z.max (d + 32) (e + 31))
         (wlog (LZ4_wildCopy32 (mkHeap m []) d s e))
  /\ (d <= s \/ s + (e - d) <= d ->
      forall a, d <= a < e ->
                cell (LZ4_wildCopy32 (mkHeap m []) d s e) a = m (s + (a - d)))
  /\ (s + 16 <= d ->
      forall a, d <= a < e ->
                cell (LZ4_wildCopy32 (mkHeap m []) d s e) a
                = cell (LZ4_wildCopy32 (mkHeap m []) d s e) (a - (d - s))).
Proof.
  split; [|split].
  - apply (wsafe_wildCopy32 d (Z.max (d + 32) (e + 31))); try lia.
    constructor.
  - intros Hds a Ha. rewrite LZ4_wildCopy32_copies by assumption. reflexivity.
  - intros Hds a Ha.
    set (g := periodic (mkHeap m []) s (d - s)).
    assert (Hoff : 1 <= d - s) by lia.
    assert (Hper : forall b, s <= b -> g (b + (d - s)) = g b)
      by (intros b _; apply periodic_per; exact Hoff).
    apply (agree_backref g s (d - s) _ (Z.max d e)); try assumption; [|lia].
    apply (agree_wildCopy32 g s (d - s) Hoff Hper _ d); try lia.
    + intros b Hb. unfold g, periodic. f_equal. rewrite Z.mod_small; lia.
    + exists 1. lia.
Qed.

(** X8: [LZ4_memcpy_using_offset], called as the fast loop calls it, with
    the source [offset] bytes before the destination: for every offset from
    1 on, each byte of [d, e) becomes the byte of the [offset] bytes before
    [d] that lies a whole number of offsets before it; and every address
    stored to is in [d, max (d + 16) (e + 7)). *)
Theorem X8_memcpy_using_offset (m : Z -> byte) (d e offset : Z) :
  1 <= offset ->
  Forall (fun a => d <= a < Z.max (d + 16) (e + 7))
         (wlog (LZ4_memcpy_using_offset (mkHeap m []) d (d - offset) e offset))
  /\ forall a, d <= a < e ->
       cell (LZ4_memcpy_using_offset (mkHeap m []) d (d - offset) e offset) a
       = m (d - offset + (a - d) mod offset).
Proof.
  intros Hoff. split.
  - apply (wsafe_memcpy_using_offset d (Z.max (d + 16) (e + 7))); try lia.
    constructor.
  - intros a Ha.
    set (g := periodic (mkHeap m []) (d - offset) offset).
    assert (Hper : forall b, d - offset <= b -> g (b + offset) = g b)
      by (intros b _; apply periodic_per; exact Hoff).
    assert (H0 : agree g (d - offset) (mkHeap m []) d).
    { eapply agree_weaken; [apply agree_periodic; exact Hoff | lia]. }
    rewrite (LZ4_memcpy_using_offset_agree g offset _ d e Hoff Hper H0 a)
      by lia.
    unfold g, periodic. cbn [cell]. f_equal. f_equal.
    replace (a - (d - offset)) with (a - d + 1 * offset) by lia.
    apply Z_mod_plus_full.
Qed.

(** X8 with offset 3: the 20 bytes from 2003 on repeat the three bytes
    before them. *)
Lemma X8_memcpy_using_offset_witness :
  Forall (fun a => 2003 <= a < Z.max (2003 + 16) (2023 + 7))
         (wlog (LZ4_memcpy_using_offset (mkHeap (mem_of 2000 [1; 2; 3]) [])
                                        2003 (2003 - 3) 2023 3))
  /\ forall a, 2003 <= a < 2023 ->
       cell (LZ4_memcpy_using_offset (mkHeap (mem_of 2000 [1; 2; 3]) [])
                                     2003 (2003 - 3) 2023 3) a
       = mem_of 2000 [1; 2; 3] (2003 - 3 + (a - 2003) mod 3).
Proof.
  apply (X8_memcpy_using_offset (mem_of 2000 [1; 2; 3]) 2003 2023 3). lia.
Defined.

(** X9: the match copy of the main loop, [safe_match_copy], for every
    offset from 1 on and in every mode: when it goes on or breaks, each
    byte from the old output cursor up to the new one is the byte of the
    [offset] bytes before the match that lies a whole number of offsets
    before it; the bytes below the old cursor are as they were; and in full
    mode the new cursor is [length] after the old one. *)
Theorem X9_match_copy_any_offset (p : params) (s s' : state)
  (length offset : Z) :
  1 <= offset -> 0 <= length ->
  safe_match_copy p s length offset (op s - offset) = Continue s'
  \/ safe_match_copy p s length offset (op s - offset) = Break s' ->
  (forall a, op s <= a < op s' ->
             cell (hp s') a
             = cell (hp s) (op s - offset + (a - op s) mod offset))
  /\ (forall a, a < op s -> cell (hp s') a = cell (hp s) a)
  /\ (partial p = false -> op s' = op s + length).
Proof.
  intros Hoff Hlen Hrun.
  pose proof (safe_match_copy_agree p s length offset Hoff) as Hag.
  pose proof (safe_match_copy_frame p s length offset (op s - offset)
                (op s) (hp s) (extends_refl _ _) (Z.le_refl _) Hlen) as Hfr.
  assert (Hfull : partial p = false ->
                  safe_match_copy p s length offset (op s - offset)
                  = Continue s' -> op s' = op s + length).
  { intros Hp Hc.
    pose proof (safe_match_copy_shape p Hp s length offset (op s - offset)) as H.
    rewrite Hc in H. apply H. }
  assert (Hnb : partial p = false ->
                safe_match_copy p s length offset (op s - offset) <> Break s').
  { intros Hp Hc.
    pose proof (safe_match_copy_shape p Hp s length offset (op s - offset)) as H.
    rewrite Hc in H. exact H. }
  assert (H : agree (periodic (hp s) (op s - offset) offset) (op s - offset)
                    (hp s') (op s')
              /\ extends (op s) (hp s) (hp s')).
  { destruct Hrun as [Hc|Hc]; rewrite Hc in Hag, Hfr;
      cbn [frame_post] in Hfr; split; [exact Hag | apply Hfr
                                       | exact Hag | apply Hfr]. }
  destruct H as [Ha He]. split; [|split].
  - intros a Hr. rewrite (Ha a) by lia. apply periodic_from. exact Hoff.
  - intros a Hr. exact (extends_below _ _ _ _ He Hr).
  - intros Hp. destruct Hrun as [Hc|Hc]; [exact (Hfull Hp Hc)|].
    exfalso. exact (Hnb Hp Hc).
Qed.

(** X9 at a match with offset 3 and length 20 after the bytes 1, 2, 3: its
    last byte is the 2. *)
Lemma X9_match_copy_any_offset_witness :
  exists s',
    safe_match_copy (safe_params 1000 2000 10 60)
      (mkState 1004 2003 (mkHeap (mem_of 2000 [1; 2; 3]) []) []) 20 3 (2003 - 3)
    = Continue s'
    /\ cell (hp s') 2022 = byte_of 2 /\ op s' = 2003 + 20.
Proof.
  destruct (safe_match_copy (safe_params 1000 2000 10 60)
              (mkState 1004 2003 (mkHeap (mem_of 2000 [1; 2; 3]) []) [])
              20 3 (2003 - 3)) as [s'|s'|s'|] eqn:Hrun;
    try (vm_compute in Hrun; discriminate).
  exists s'. split; [reflexivity|].
  destruct (X9_match_copy_any_offset (safe_params 1000 2000 10 60)
              (mkState 1004 2003 (mkHeap (mem_of 2000 [1; 2; 3]) []) []) s'
              20 3 ltac:(lia) ltac:(lia) (or_introl Hrun)) as (Hc & _ & Hop).
  specialize (Hop eq_refl). cbn [op] in Hop, Hc. split; [|exact Hop].
  rewrite (Hc 2022) by lia. reflexivity.
Defined.

(** X10: the match copy of the fast loop, [fast_copy_match], for every
    offset from 1 on: each of the [length] bytes from the output cursor on
    is the byte of the [offset] bytes before the match that lies a whole
    number of offsets before it; the bytes below the cursor are as they
    were; and the cursor moves on by [length]. *)
Theorem X10_fast_copy_match_any_offset (s s' : state) (length offset : Z) :
  1 <= offset -> 0 <= length ->
  fast_copy_match s length offset (op s - offset) = Fast s' ->
  (forall a, op s <= a < op s + length ->
             cell (hp s') a
             = cell (hp s) (op s - offset + (a - op s) mod offset))
  /\ (forall a, a < op s -> cell (hp s') a = cell (hp s) a)
  /\ op s' = op s + length.
Proof.
  intros Hoff Hlen Hrun.
  pose proof (fast_copy_match_agree s length offset Hoff) as Hag.
  rewrite Hrun in Hag.
  assert (Hs' : s' = mkState (ip s) (op s + length)
                       (if offset <? 16
                        then LZ4_memcpy_using_offset (hp s) (op s)
                               (op s - offset) (op s + length) offset
                        else LZ4_wildCopy32 (hp s) (op s) (op s - offset)
                               (op s + length))
                       (mkMatch (op s) offset length :: mlog s)).
  { unfold fast_copy_match in Hrun. st_simpl. injection Hrun as <-.
    reflexivity. }
  assert (Hop : op s' = op s + length) by (rewrite Hs'; reflexivity).
  split; [|split; [|exact Hop]].
  - intros a Hr. rewrite (Hag a) by lia. apply periodic_from. exact Hoff.
  - intros a Hr. rewrite Hs'. cbn [hp].
    apply (extends_below (op s)); [|exact Hr].
    pose proof (extends_refl (op s) (hp s)).
    destruct (offset <? 16); ext_tac.
Qed.

(** X10 at a match with offset 5 and length 30 after the bytes 1 to 5. *)
Lemma X10_fast_copy_match_any_offset_witness :
  exists s',
    fast_copy_match (mkState 1004 2005 (mkHeap (mem_of 2000 [1; 2; 3; 4; 5]) []) [])
                    30 5 (2005 - 5) = Fast s'
    /\ cell (hp s') 2034 = byte_of 5 /\ op s' = 2005 + 30.
Proof.
  destruct (fast_copy_match
              (mkState 1004 2005 (mkHeap (mem_of 2000 [1; 2; 3; 4; 5]) []) [])
              30 5 (2005 - 5)) as [s'|f] eqn:Hrun;
    [|vm_compute in Hrun; discriminate].
  exists s'. split; [reflexivity|].
  destruct (X10_fast_copy_match_any_offset
              (mkState 1004 2005 (mkHeap (mem_of 2000 [1; 2; 3; 4; 5]) []) []) s'
              30 5 ltac:(lia) ltac:(lia) Hrun) as (Hc & _ & Hop).
  cbn [op] in Hop, Hc. split; [|exact Hop].
  rewrite (Hc 2034) by lia. reflexivity.
Defined.

(** X11: in full mode, whatever the input: when the decoder returns, every
    match of its match log that has an offset from 1 on and ends at or
    below the output cursor is a back-reference, each of its bytes being
    the byte [offset] before it. *)
Theorem X11_matches_are_back_references (fdl : bool) (p : params)
  (fuel : nat) (m : Z -> byte) :
  partial p = false ->
  match LZ4_decompress_generic fdl p fuel m with
  | Returned _ s =>
      Forall (fun e =>
                1 <= m_offset e -> m_op e + m_length e <= op s ->
                forall j, 0 <= j < m_length e ->
                          cell (hp s) (m_op e + j)
                          = cell (hp s) (m_op e + j - m_offset e))
             (mlog s)
  | OutOfFuel => True
  end.
Proof.
  intros Hfull. pose proof (generic_faithful p fuel Hfull fdl m) as H.
  destruct (LZ4_decompress_generic fdl p fuel m) as [r s|]; [|exact I].
  exact H.
Qed.

(** X11 on [rle_block], whose match has offset 1 and length 16. *)
Lemma X11_matches_are_back_references_witness :
  match LZ4_decompress_generic false (safe_params 1000 2000 10 40) 10
                               (mem_of 1000 rle_block) with
  | Returned _ s =>
      Forall (fun e =>
                1 <= m_offset e -> m_op e + m_length e <= op s ->
                forall j, 0 <= j < m_length e ->
                          cell (hp s) (m_op e + j)
                          = cell (hp s) (m_op e + j - m_offset e))
             (mlog s)
  | OutOfFuel => True
  end.
Proof.
  exact (X11_matches_are_back_references false (safe_params 1000 2000 10 40) 10
           (mem_of 1000 rle_block) eq_refl).
Defined.

(** X12: one pass through the body of the main loop, in any mode, copies
    the literals of its sequence from the input, provided the output cursor
    is not inside them: when the pass goes on to the next sequence, the
    [ll] bytes from the old output cursor on are the [ll] bytes of the
    input from [lit] on and the cursor has moved beyond them; when it
    breaks, the same holds for the bytes below the new cursor. *)
Theorem X12_pass_copies_literals (p : params) (fuel : nat) (s : state)
  (lit ll : Z) :
  literal_run p fuel s = Some (lit, ll) ->
  op s <= lit \/ lit + ll <= op s ->
  match safe_iter p fuel s with
  | Continue s' =>
      op s + ll <= op s'
      /\ forall i, 0 <= i < ll -> cell (hp s') (op s + i) = cell (hp s) (lit + i)
  | Break s' =>
      forall i, 0 <= i < ll -> op s + i < op s' ->
                cell (hp s') (op s + i) = cell (hp s) (lit + i)
  | OutputError _ | Starved => True
  end.
Proof.
  intros Hrun Hds. pose proof (safe_iter_lit p fuel s lit ll Hrun Hds) as H.
  destruct (safe_iter p fuel s) as [s'|s'|s'|]; cbn [lit_post] in H;
    try exact I.
  - destruct H as [Hle Hc]. split; [exact Hle|].
    intros i Hi. apply Hc; lia.
  - exact H.
Qed.

(** X12 on the first sequence of [rle_block]: its one literal. *)
Lemma X12_pass_copies_literals_witness :
  match safe_iter (safe_params 1000 2000 10 40) 10
                  (start (safe_params 1000 2000 10 40) (mem_of 1000 rle_block)) with
  | Continue s' =>
      2000 + 1 <= op s'
      /\ forall i, 0 <= i < 1 ->
                   cell (hp s') (2000 + i) = mem_of 1000 rle_block (1001 + i)
  | Break s' =>
      forall i, 0 <= i < 1 -> 2000 + i < op s' ->
                cell (hp s') (2000 + i) = mem_of 1000 rle_block (1001 + i)
  | OutputError _ | Starved => True
  end.
Proof.
  apply (X12_pass_copies_literals (safe_params 1000 2000 10 40) 10
           (start (safe_params 1000 2000 10 40) (mem_of 1000 rle_block))
           1001 1).
  - reflexivity.
  - right. cbn [op start dst safe_params]. lia.
Defined.

(** X13: one pass through the body of the fast loop copies the literals of
    its sequence from the input in the same way, whether it stays in the
    fast loop or leaves it for the main loop. *)
Theorem X13_fast_pass_copies_literals (p : params) (fuel : nat) (s : state)
  (lit ll : Z) :
  literal_run p fuel s = Some (lit, ll) ->
  op s <= lit \/ lit + ll <= op s ->
  match fast_iter p fuel s with
  | Fast s' | Safe (Continue s') =>
      op s + ll <= op s'
      /\ forall i, 0 <= i < ll -> cell (hp s') (op s + i) = cell (hp s) (lit + i)
  | Safe (Break s') =>
      forall i, 0 <= i < ll -> op s + i < op s' ->
                cell (hp s') (op s + i) = cell (hp s) (lit + i)
  | Safe (OutputError _) | Safe Starved => True
  end.
Proof.
  intros Hrun Hds. pose proof (fast_iter_lit p fuel s lit ll Hrun Hds) as H.
  destruct (fast_iter p fuel s) as [s'|[s'|s'|s'|]];
    cbn [fast_lit_post lit_post] in H; try exact I.
  - destruct H as [Hle Hc]. split; [exact Hle|].
    intros i Hi. apply Hc; lia.
  - destruct H as [Hle Hc]. split; [exact Hle|].
    intros i Hi. apply Hc; lia.
  - exact H.
Qed.

(** X13 on the first sequence of [rle_block], with room for the fast
    loop. *)
Lemma X13_fast_pass_copies_literals_witness :
  match fast_iter (safe_params 1000 2000 10 200) 10
                  (start (safe_params 1000 2000 10 200) (mem_of 1000 rle_block)) with
  | Fast s' | Safe (Continue s') =>
      2000 + 1 <= op s'
      /\ forall i, 0 <= i < 1 ->
                   cell (hp s') (2000 + i) = mem_of 1000 rle_block (1001 + i)
  | Safe (Break s') =>
      forall i, 0 <= i < 1 -> 2000 + i < op s' ->
                cell (hp s') (2000 + i) = mem_of 1000 rle_block (1001 + i)
  | Safe (OutputError _) | Safe Starved => True
  end.
Proof.
  apply (X13_fast_pass_copies_literals (safe_params 1000 2000 10 200) 10
           (start (safe_params 1000 2000 10 200) (mem_of 1000 rle_block))
           1001 1).
  - reflexivity.
  - right. cbn [op start dst safe_params]. lia.
Defined.

(** X14: with [endOnInputSize], sizes in the range of [int] and buffers
    clear of the ends of the address space, both cursors are inside their
    buffers when the decoder of [M64] returns, and the value it returns is
    at most the output size and at least [- srcSize - 1]. *)
Theorem X14_return_range (fdl : bool) (p : params) (fuel : nat)
  (m : Z -> byte) :
  endIn p = true -> 0 <= srcSize p < 2 ^ 31 -> 0 <= outputSize p < 2 ^ 31 ->
  0 <= dictSize p -> clear_of_top p ->
  match M64.LZ4_decompress_generic fdl p fuel m with
  | Returned r s =>
      - srcSize p - 1 <= r <= outputSize p
      /\ src p <= ip s <= src p + srcSize p
      /\ (0 <= r -> dst p <= op s <= dst p + outputSize p)
  | OutOfFuel => Z.of_nat fuel < srcSize p
  end.
Proof.
  intros Hin Hs Ho Hdict Hclear.
  rewrite (M64_generic_eq fdl p fuel Hin ltac:(lia) ltac:(lia) Hdict Hclear m).
  pose proof (generic_safe_post fdl p fuel Hin ltac:(lia) ltac:(lia) m) as H.
  destruct (LZ4_decompress_generic fdl p fuel m) as [r s|];
    cbn [generic_post] in H; [|exact H].
  pose proof (iend_eq p) as Hi. pose proof (oend_eq p) as He.
  destruct H as [(_ & _ & [[H Hr]|[H Hr]])|[H [[H0 Hr]|(H0 & H1 & Hr)]]].
  - destruct H as (_ & Hip & Hop & _). rewrite to_int_id in Hr by lia. lia.
  - destruct H as (_ & Hip). rewrite to_int_id in Hr by lia. lia.
  - subst s. cbn [ip op].
    destruct ((srcSize p =? 1) && (u8 (m (src p)) =? 0)); lia.
  - subst s. cbn [ip op]. lia.
Qed.

(** X14 on a block cut short after its token. *)
Lemma X14_return_range_witness :
  match M64.LZ4_decompress_generic false (safe_params 1000 65536 3 4) 3
                                   (mem_of 1000 [80; 1; 2]) with
  | Returned r s =>
      - 3 - 1 <= r <= 4 /\ 1000 <= ip s <= 1000 + 3
      /\ (0 <= r -> 65536 <= op s <= 65536 + 4)
  | OutOfFuel => Z.of_nat 3 < 3
  end.
Proof.
  apply (X14_return_range false (safe_params 1000 65536 3 4) 3
           (mem_of 1000 [80; 1; 2]));
    try reflexivity; cbn [srcSize outputSize dictSize safe_params]; try lia.
  unfold clear_of_top. cbn [src dst srcSize outputSize dictSize safe_params]. lia.
Defined.

(** X15: a block that is one run of literals.  When the literal run of the
    first sequence ends the input and fits the output, [LZ4_decompress_safe]
    returns its length, having used up the input, and the output holds the
    literals; the addresses are taken inside the 64-bit address space and
    the capacity in the range of [int]. *)
Theorem X15_literal_block (fdl : bool) (fuel : nat) (m : Z -> byte)
  (source dest compressedSize maxDecompressedSize lit ll : Z) :
  literal_run (safe_params source dest compressedSize maxDecompressedSize) fuel
    (start (safe_params source dest compressedSize maxDecompressedSize) m)
  = Some (lit, ll) ->
  lit + ll = source + compressedSize ->
  ll <= maxDecompressedSize -> 0 < maxDecompressedSize < 2 ^ 31 ->
  0 <= source -> source + compressedSize < 2 ^ 64 ->
  0 <= dest -> dest + maxDecompressedSize < 2 ^ 64 ->
  (0 < fuel)%nat ->
  exists s,
    LZ4_decompress_safe fdl fuel m source dest compressedSize maxDecompressedSize
    = Returned ll s
    /\ ip s = source + compressedSize /\ op s = dest + ll
    /\ forall i, 0 <= i < ll -> cell (hp s) (dest + i) = m (lit + i).
Proof.
  intros Hrun Hend Hfit Hcap Hs0 Hs1 Hd0 Hd1 Hfuel.
  set (p := safe_params source dest compressedSize maxDecompressedSize) in *.
  destruct (literal_run_bounds p fuel (start p m) lit ll Hrun) as [Hlit Hll].
  cbn [ip start src p safe_params] in Hlit.
  exists (mkState (lit + ll) (dest + ll)
                  (LZ4_memmove (mkHeap m []) dest lit ll) []).
  split; [|split; [cbn [ip]; lia | split; [reflexivity|]]].
  - unfold LZ4_decompress_safe, LZ4_decompress_generic. fold p.
    change (endIn p) with true. cbn [andb negb].
    change (outputSize p) with maxDecompressedSize.
    change (srcSize p) with compressedSize.
    replace (maxDecompressedSize =? 0) with false
      by (symmetry; apply Z.eqb_neq; lia).
    replace (compressedSize =? 0) with false
      by (symmetry; apply Z.eqb_neq; lia).
    assert (Hsafe : safe_iter p fuel (start p m)
                    = Break (mkState (lit + ll) (dest + ll)
                               (LZ4_memmove (mkHeap m []) dest lit ll) [])).
    { apply (safe_iter_last p fuel (start p m) lit ll); try reflexivity;
        try assumption.
      - cbn [op start dst p safe_params]. unfold oend.
        cbn [dst outputSize p safe_params]. lia.
      - apply ptr_overflow_false; cbn [op start dst p safe_params]; lia.
      - apply ptr_overflow_false; lia. }
    assert (Hfast : fast_iter p fuel (start p m)
                    = Safe (Break (mkState (lit + ll) (dest + ll)
                                     (LZ4_memmove (mkHeap m []) dest lit ll) []))).
    { apply (fast_iter_last p fuel (start p m) lit ll); try reflexivity;
        try assumption.
      - cbn [op start dst p safe_params]. unfold oend.
        cbn [dst outputSize p safe_params]. lia.
      - apply ptr_overflow_false; cbn [op start dst p safe_params]; lia.
      - apply ptr_overflow_false; lia. }
    assert (Hret : end_of_decoding p
                     (mkState (lit + ll) (dest + ll)
                        (LZ4_memmove (mkHeap m []) dest lit ll) [])
                   = Returned ll
                       (mkState (lit + ll) (dest + ll)
                          (LZ4_memmove (mkHeap m []) dest lit ll) [])).
    { unfold end_of_decoding. change (endIn p) with true. cbn [op].
      change (dst p) with dest. rewrite to_int_id by lia. f_equal. lia. }
    fold (start p m).
    destruct fuel as [|n]; [lia|].
    destruct fdl; [destruct (_ <? _)|]; cbn [safe_loop fast_loop];
      rewrite ?Hsafe, ?Hfast; cbn [after_body]; exact Hret.
  - intros i Hi. cbn [hp]. unfold LZ4_memmove. rewrite cell_memcpy.
    destruct (Z.leb_spec dest (dest + i));
      destruct (Z.ltb_spec (dest + i) (dest + ll)); cbn [andb]; try lia.
    cbn [cell]. f_equal. lia.
Qed.

(** X15 on the block of five literals "Hello". *)
Lemma X15_literal_block_witness :
  exists s,
    LZ4_decompress_safe true 6 (mem_of 1000 [80; 72; 101; 108; 108; 111])
                        1000 2000 6 5
    = Returned 5 s
    /\ ip s = 1000 + 6 /\ op s = 2000 + 5
    /\ forall i, 0 <= i < 5 ->
                 cell (hp s) (2000 + i)
                 = mem_of 1000 [80; 72; 101; 108; 108; 111] (1001 + i).
Proof.
  apply (X15_literal_block true 6 (mem_of 1000 [80; 72; 101; 108; 108; 111])
           1000 2000 6 5 1001 5); try reflexivity; lia.
Defined.

(** X16: [LZ4_decompress_fast], as the 64-bit machine runs it, does not
    bound what it reads by the size of the output.  On a first token with
    the literal length 15 followed by [k] bytes 0xFF and a byte [b] that
    ends the run, it reads all [k + 2] bytes before any test: the literal
    length is [L = 15 + (255 * k + b) mod 2^32], and with [originalSize]
    below [L] it stores nothing and returns the error code
    [- (k + 2) - 1], however small [originalSize] is; with [originalSize]
    equal to [L], where the sum may have wrapped, it copies the [L]
    literals and returns the number of bytes read, [k + 2 + L], as an
    [int].  The buffers are taken clear of the ends of the address
    space. *)
Theorem X16_fast_reads_past_output_size (fdl : bool) (fuel : nat)
  (m : Z -> byte) (source dest originalSize : Z) (k : nat) :
  Z.shiftr (u8 (m source)) ML_BITS = RUN_MASK ->
  (forall i, 0 <= i < Z.of_nat k -> u8 (m (source + 1 + i)) = 255) ->
  u8 (m (source + 1 + Z.of_nat k)) <> 255 ->
  (k < fuel)%nat ->
  let L := 15 + u32 (255 * Z.of_nat k + u8 (m (source + 1 + Z.of_nat k))) in
  0 <= source -> source + Z.of_nat k + 2 + L < 2 ^ 64 ->
  64 <= dest -> dest + L < 2 ^ 64 ->
  (0 < originalSize < L -> Z.of_nat k + 2 < 2 ^ 31 ->
   exists s,
     M64.LZ4_decompress_fast fdl fuel m source dest originalSize
     = Returned (- (Z.of_nat k + 2) - 1) s
     /\ ip s = source + Z.of_nat k + 2 /\ op s = dest /\ wlog (hp s) = [])
  /\ (originalSize = L ->
      exists s,
        M64.LZ4_decompress_fast fdl fuel m source dest originalSize
        = Returned (to_int (Z.of_nat k + 2 + L)) s
        /\ ip s = source + Z.of_nat k + 2 + L /\ op s = dest + L).
Proof.
  intros Htok Hrun Hlast Hfuel L Hs0 Hs1 Hd0 Hd1.
  assert (HL : 15 <= L) by (subst L; pose proof (u32_range
    (255 * Z.of_nat k + u8 (m (source + 1 + Z.of_nat k)))); lia).
  assert (Hrl : run_length m source k = L) by reflexivity.
  clearbody L.
  pose proof (long_run fdl fuel m source dest originalSize k Htok Hrun Hlast Hfuel)
    as Hlong.
  rewrite Hrl in Hlong. unfold long_run_flow in Hlong. rewrite Hrl in Hlong.
  split.
  - intros Hsize Hk.
    rewrite Hlong by lia.
    replace (originalSize =? L) with false by (symmetry; apply Z.eqb_neq; lia).
    cbn [after_body]. unfold output_error. cbn [ip src].
    eexists. split; [f_equal|split; [|split]]; try reflexivity.
    rewrite to_int_id by lia. lia.
  - intros Hsize.
    rewrite Hlong by lia.
    replace (originalSize =? L) with true by (symmetry; apply Z.eqb_eq; lia).
    cbn [after_body]. unfold end_of_decoding.
    cbn [endIn endOnInput end_on_input ip src].
    eexists. split; [f_equal|split]; try reflexivity.
    f_equal. lia.
Qed.

(** X16 with two bytes 0xFF and room for one byte of output. *)
Lemma X16_fast_reads_past_output_size_witness :
  exists s,
    M64.LZ4_decompress_fast false 5 (mem_of 1000 [240; 255; 255; 7]) 1000 65536 1
    = Returned (- (Z.of_nat 2 + 2) - 1) s
    /\ ip s = 1000 + Z.of_nat 2 + 2 /\ op s = 65536 /\ wlog (hp s) = [].
Proof.
  refine (proj1 (X16_fast_reads_past_output_size false 5
                   (mem_of 1000 [240; 255; 255; 7]) 1000 65536 1 2
                   _ _ _ _ _ _ _ _) _ _).
  - reflexivity.
  - intros i Hi.
    assert (Hc : i = 0 \/ i = 1) by lia.
    destruct Hc as [-> | ->]; reflexivity.
  - vm_compute. discriminate.
  - lia.
  - lia.
  - vm_compute. reflexivity.
  - lia.
  - vm_compute. reflexivity.
  - vm_compute. split; reflexivity.
  - lia.
Defined.



(** X18: [LZ4_FAST_DEC_LOOP] changes how the bytes are copied, not what
    is decoded.  With [endOnInputSize], no dictionary, a dictionary size
    below 64 KiB and an input that does not overlap the output buffer, the
    decoder compiled with the fast loop and the one compiled without it
    are run on the same memory: either the first logs a match with offset
    0, or the two return the same value with the same cursors and the same
    match log, and the bytes from [dst] up to the output cursor are the
    same.  The first can only run out of fuel when the fuel is below the
    input size. *)
Theorem X18_fast_loop_same_output (p : params) (fuel : nat) (m : Z -> byte) :
  endIn p = true -> dict p = noDict -> 0 <= dictSize p < 64 * KB ->
  lowPrefix p - dictSize p <= dst p ->
  0 <= srcSize p -> 0 <= outputSize p < 2 ^ 64 ->
  src p + srcSize p <= dst p \/ dst p + outputSize p <= src p ->
  match LZ4_decompress_generic true p fuel m with
  | Returned r1 s1 =>
      Exists (fun e => m_offset e < 1) (mlog s1)
      \/ match LZ4_decompress_generic false p fuel m with
         | Returned r2 s2 =>
             r1 = r2 /\ ip s1 = ip s2 /\ op s1 = op s2 /\ mlog s1 = mlog s2
             /\ forall a, dst p <= a < op s1 -> cell (hp s1) a = cell (hp s2) a
         | OutOfFuel => False
         end
  | OutOfFuel => Z.of_nat fuel < srcSize p
  end.
Proof.
  intros Hin Hdict Hdsz Hlow Hs Ho Hdisj.
  assert (Hcheck : checkOffset p = true).
  { unfold checkOffset, safeDecode. rewrite Hin. cbn [andb].
    apply Z.ltb_lt. lia. }
  pose proof (generic_fvs p fuel Hin Hs Ho Hcheck Hdict ltac:(lia) Hdisj m) as H.
  pose proof (generic_safe_post true p fuel Hin Hs Ho m) as Ht.
  destruct (LZ4_decompress_generic true p fuel m) as [r1 s1|];
    cbn [run_det generic_post] in *; [|exact Ht].
  destruct H as [Hz|H]; [left; exact Hz|]. right.
  destruct (LZ4_decompress_generic false p fuel m) as [r2 s2|]; [|exact H].
  destruct H as (Hr & Hi & Hop & Hl & _ & Hc).
  split; [exact Hr|]. split; [exact Hi|]. split; [exact Hop|].
  split; [exact Hl|].
  intros a Ha. apply Hc. right. unfold low_limit. lia.
Qed.

(** X18 on a block of two sequences in an output buffer of 200 bytes,
    where the fast loop decodes the first sequence. *)
Lemma X18_fast_loop_same_output_witness :
  match LZ4_decompress_generic true (safe_params 1000 2000 26 200) 26
          (mem_of 1000 two_sequence_block) with
  | Returned r1 s1 =>
      Exists (fun e => m_offset e < 1) (mlog s1)
      \/ match LZ4_decompress_generic false (safe_params 1000 2000 26 200) 26
                 (mem_of 1000 two_sequence_block) with
         | Returned r2 s2 =>
             r1 = r2 /\ ip s1 = ip s2 /\ op s1 = op s2 /\ mlog s1 = mlog s2
             /\ forall a, 2000 <= a < op s1 -> cell (hp s1) a = cell (hp s2) a
         | OutOfFuel => False
         end
  | OutOfFuel => Z.of_nat 26 < 26
  end.
Proof.
  apply (X18_fast_loop_same_output (safe_params 1000 2000 26 200) 26
           (mem_of 1000 two_sequence_block)).
  - reflexivity.
  - reflexivity.
  - cbn [dictSize safe_params]. unfold KB. lia.
  - cbn [lowPrefix dictSize dst safe_params]. lia.
  - cbn [srcSize safe_params]. lia.
  - cbn [outputSize safe_params]. lia.
  - cbn [src dst srcSize outputSize safe_params]. lia.
Defined.
